(** * QLib: lattice option pricers (binomial, trinomial) and the Monte Carlo estimator

    A shallow embedding of the pricing functions of the notebooks

    - [BM_Euro], [BM_Amer]   (multiplicative binomial model),
    - [aTM_Euro], [aTM_Amer] (additive trinomial model),
    - [S1_GBM], [MC_Euro]    (plain Monte Carlo, in its two versions),
    - [S1AV_GBM], [MCAV_Euro] (Monte Carlo with antithetic variates),
    - [CRR], [JD], [EQP], [TRG], [aBM_Euro], [aBM_Amer]
                             (additive binomial model),

    and the properties of their value lattices and estimates.

    Numbers.  In the first embedding Python floats and numpy float64 values
    are idealised as real numbers ([R]); rounding, overflow, [inf] and
    [nan] are outside of it.  What the code decides by comparing computed
    values (which parameters the binomial pricers accept, which nodes are
    flagged for early exercise) is stated on a second embedding,
    [Rounded], in which every arithmetic operation is followed by a
    rounding that is left as a parameter; without rounding it is the first
    embedding.  Concrete float64 computations are made with Rocq's binary64
    floats, in [Binary64].  Python integers are [Z]; the step count becomes
    a [nat] only after the array allocations have accepted it.

    Arrays.  A one-dimensional numpy array is a [list R]; a two-dimensional
    array is the list of its rows, indexed [Mx[row, column]].  Slices are
    clipped to the array as in numpy; the stores check the length of the
    stored value, the loads the column index.

    Effects.  The pricers allocate arrays, store into lattice columns, draw
    random numbers, plot, and raise exceptions.  They are written in a small
    monad [M] that keeps, next to the outcome (an exception or a value), the
    log in program order of every [np.zeros] allocation, every store into a
    cell or a column slice of a matrix, every draw from the random generator
    and the two plotting calls.

    The file has five parts: the embeddings, the vocabulary of the
    statements, the lemmas about the embeddings, the properties C1 to C10
    of the specification, and further properties of the code, X1 to X27. *)

From Stdlib Require Import String.
From Stdlib Require Import Floats.
From Stdlib Require Import Reals Lra Lia ZArith Bool Arith List.
Import ListNotations.

Open Scope R_scope.

(** ** Exceptions, effects and the monad *)

Definition array := list R.
Definition matrix := list (list R).

(** The exceptions a call can end with.  Both explicit [raise] statements of
    the notebooks raise the base class [Exception], with a message. *)
Inductive exn : Type :=
| ZeroDivisionError
| ValueError
| IndexError
| Exception (msg : string).

Definition parameter_exception : exn :=
  Exception "parameter values not allowed".
Definition optype_exception : exn :=
  Exception "optype must be call or put".

(** The logged effects: an [np.zeros] allocation with its shape, a store of
    [cnt] cells into column [col] of a lattice starting at row [row], a draw
    of an [nsim] x [nsteps] standard normal sample, and the two plotting
    calls. *)
Inductive event : Type :=
| EvAlloc (shape : list nat)
| EvStore (row cnt col : nat)
| EvDraw (nsim nsteps : nat)
| EvMatshow (Mx : matrix)
| EvTitle (s : string).

Definition M (A : Type) : Type := (list event * (exn + A))%type.

Definition ret {A} (a : A) : M A := ([], inr a).
Definition raise {A} (e : exn) : M A := ([], inl e).
Definition emit (ev : event) : M unit := ([ev], inr tt).

Definition bind {A B} (m : M A) (f : A -> M B) : M B :=
  match m with
  | (tr, inl e) => (tr, inl e)
  | (tr, inr a) => let (tr', r) := f a in (tr ++ tr', r)
  end.

Declare Scope monad_scope.
Delimit Scope monad_scope with monad.
Notation "x <- m ;; k" := (bind m (fun x => k))
  (at level 61, m at next level, right associativity) : monad_scope.
Notation "' pat <- m ;; k" := (bind m (fun x => match x with pat => k end))
  (at level 61, pat pattern, m at next level, right associativity) : monad_scope.
Notation "m ;; k" := (bind m (fun _ => k))
  (at level 61, right associativity) : monad_scope.
Open Scope monad_scope.

Definition trace {A} (m : M A) : list event := fst m.
Definition outcome {A} (m : M A) : exn + A := snd m.

(** [for x in l: s = body x s] *)
Fixpoint for_each {A St} (l : list A) (body : A -> St -> M St) (s : St) : M St :=
  match l with
  | [] => ret s
  | x :: l' => s' <- body x s ;; for_each l' body s'
  end.

(** ** Python and numpy primitives *)

(** The comparisons [x < y] and [x <= y] as Python evaluates them. *)
Definition Rltb (x y : R) : bool := if Rlt_dec x y then true else false.
Definition Rleb (x y : R) : bool := if Rle_dec x y then true else false.

(** [x / n] for a Python float [x] and a Python int [n]. *)
Definition py_div (x : R) (n : Z) : M R :=
  if (n =? 0)%Z then raise ZeroDivisionError else ret (x / IZR n).

(** [range(n)], [range(n-1, -1, -1)] and [enumerate]. *)
Definition range (n : nat) : list nat := seq 0 n.
Definition range_down (n : nat) : list nat := rev (seq 0 n).
Definition enumerate {A} (l : list A) : list (nat * A) :=
  combine (seq 0 (length l)) l.

(** [np.arange(lo, hi)] *)
Definition arange (lo hi : Z) : list Z :=
  map (fun k => (lo + Z.of_nat k)%Z) (seq 0 (Z.to_nat (hi - lo))).

(** Shape and entries of a matrix.  A matrix without rows has no columns
    in this representation; the pricers index matrices with at least two
    rows only.  [get] is 0 outside the matrix. *)
Definition nrows (Mx : matrix) : nat := length Mx.
Definition ncols (Mx : matrix) : nat :=
  match Mx with [] => O | row :: _ => length row end.
Definition get (Mx : matrix) (i j : nat) : R := nth j (nth i Mx []) 0.

(** [np.zeros(shape=(r, c))]: negative dimensions are refused. *)
Definition np_zeros2 (r c : Z) : M matrix :=
  if ((r <? 0) || (c <? 0))%Z then raise ValueError
  else emit (EvAlloc [Z.to_nat r; Z.to_nat c]) ;;
       ret (repeat (repeat 0 (Z.to_nat c)) (Z.to_nat r)).

(** [np.zeros(n)] *)
Definition np_zeros1 (n : Z) : M array :=
  if (n <? 0)%Z then raise ValueError
  else emit (EvAlloc [Z.to_nat n]) ;; ret (repeat 0 (Z.to_nat n)).

(** Elementwise binary operations with numpy's broadcasting of
    one-dimensional operands: equal lengths, or one operand of length 1. *)
Definition zip_with {A B C} (f : A -> B -> C) (a : list A) (b : list B) : list C :=
  map (fun xy => f (fst xy) (snd xy)) (combine a b).

Definition broadcast (f : R -> R -> R) (a b : array) : M array :=
  if (length a =? length b)%nat then ret (zip_with f a b)
  else if (length a =? 1)%nat then ret (map (f (hd 0 a)) b)
  else if (length b =? 1)%nat then ret (map (fun x => f x (hd 0 b)) a)
  else raise ValueError.

Definition np_add := broadcast Rplus.
Definition np_sub := broadcast Rminus.
Definition np_mul := broadcast Rmult.
Definition np_maximum := broadcast Rmax.

(** [k * a] for a scalar [k]. *)
Definition scal (k : R) (a : array) : array := map (Rmult k) a.

(** [Mx[a:b, c]] as a value: rows [a .. min b (nrows Mx) - 1] of column [c]. *)
Definition col_slice (Mx : matrix) (a b c : nat) : array :=
  map (fun row => nth c row 0) (firstn (b - a) (skipn a Mx)).

(** Reading [Mx[a:b, c]]: the column index must exist. *)
Definition load_col (Mx : matrix) (a b c : nat) : M array :=
  if (ncols Mx <=? c)%nat then raise IndexError
  else ret (col_slice Mx a b c).

(** [l[i] = v] on a row, and the cells [Mx[a + k, c] = vals[k]] of a column. *)
Fixpoint upd (l : array) (i : nat) (v : R) : array :=
  match l, i with
  | [], _ => []
  | _ :: l', O => v :: l'
  | x :: l', S i' => x :: upd l' i' v
  end.

Fixpoint write_col (Mx : matrix) (a c : nat) (vals : array) : matrix :=
  match Mx with
  | [] => []
  | row :: Mx' =>
      match a with
      | S a' => row :: write_col Mx' a' c vals
      | O => match vals with
             | [] => row :: Mx'
             | v :: vs => upd row c v :: write_col Mx' O c vs
             end
      end
  end.

(** [Mx[a:b, c] = vals]: the value must have the length of the slice, or
    length 1 (a scalar is passed as a one-element list). *)
Definition store_col (Mx : matrix) (a b c : nat) (vals : array) : M matrix :=
  let cnt := length (firstn (b - a) (skipn a Mx)) in
  if (ncols Mx <=? c)%nat then raise IndexError
  else if (length vals =? cnt)%nat then
         emit (EvStore a cnt c) ;; ret (write_col Mx a c vals)
  else if (length vals =? 1)%nat then
         emit (EvStore a cnt c) ;; ret (write_col Mx a c (repeat (hd 0 vals) cnt))
  else raise ValueError.

(** A Python index into an axis of length [len]: negative indices count from
    the end. *)
Definition py_index (len : nat) (i : Z) : option nat :=
  if (0 <=? i)%Z then
    if (i <? Z.of_nat len)%Z then Some (Z.to_nat i) else None
  else
    if (0 <=? i + Z.of_nat len)%Z then Some (Z.to_nat (i + Z.of_nat len)) else None.

(** [Mx[i, j] = v] *)
Definition store_item (Mx : matrix) (i j : Z) (v : R) : M matrix :=
  match py_index (nrows Mx) i, py_index (ncols Mx) j with
  | Some i', Some j' => emit (EvStore i' 1 j') ;; ret (write_col Mx i' j' [v])
  | _, _ => raise IndexError
  end.

(** Elementwise operations on whole two-dimensional arrays. *)
Definition mmap (f : R -> R) (Mx : matrix) : matrix := map (map f) Mx.

Definition same_shape (A B : matrix) : bool :=
  (nrows A =? nrows B)%nat &&
  forallb (fun ab => (length (fst ab) =? length (snd ab))%nat) (combine A B).

(** [A - B] for two-dimensional arrays of one shape. *)
Definition np_sub2 (A B : matrix) : M matrix :=
  if same_shape A B then ret (zip_with (zip_with Rminus) A B)
  else raise ValueError.

(** [np.tri(n)], [np.fliplr] *)
Definition np_tri (n : nat) : matrix :=
  map (fun i => map (fun j => if (j <=? i)%nat then 1 else 0) (seq 0 n)) (seq 0 n).
Definition np_fliplr (Mx : matrix) : matrix := map (@rev R) Mx.

(** The [optype] dispatch shared by every pricer:
<<
    if optype == 'call':  Pmat[Pmat<0] = 0; Pmat = Pmat
    elif optype == 'put': Pmat[Pmat>0] = 0; Pmat = -Pmat
    else: raise Exception('optype must be call or put')
>> *)
Definition clamp_call (x : R) : R := if Rltb x 0 then 0 else x.
Definition clamp_put (x : R) : R := - (if Rltb 0 x then 0 else x).

Definition payoff_by_optype {A} (amap : (R -> R) -> A -> A)
    (optype : string) (Pmat : A) : M A :=
  if (optype =? "call")%string then ret (amap clamp_call Pmat)
  else if (optype =? "put")%string then ret (amap clamp_put Pmat)
  else raise optype_exception.

(** ** Multiplicative binomial model *)

(** Lines 60-68 of [BM_Euro] (138-146 of [BM_Amer], identical): time step,
    discount factor, risk-neutral probability and the parameter exception. *)
Definition BM_params (r u d T : R) (Ntree : Z) : M (R * R) :=
  dt <- py_div T Ntree ;;
  let dfact := exp (- r * dt) in
  let p := (exp (r * dt) - d) / (u - d) in
  if Rltb 0 d && Rltb d (1 / dfact) && Rltb (1 / dfact) u
  then ret (dfact, p)
  else raise parameter_exception.

(** Lines 72-77 (150-155): the asset prices.  Row [Ntree - j] of column [t]
    holds the node with [j] up moves at time step [t].  (The array [SN] of
    lines 69-70 is never used and is left out.) *)
Definition BM_prices (S0 u d : R) (Ntree : Z) : M matrix :=
  let n := Z.to_nat Ntree in
  Pmat <- np_zeros2 (Ntree + 1) (Ntree + 1) ;;
  Pmat <- store_item Pmat Ntree 0 S0 ;;
  for_each (range (n + 1)) (fun t Pmat =>
    let exponents := seq 0 (t + 1) in
    vals <- np_mul (scal S0 (map (pow u) (rev exponents)))
                   (map (pow d) exponents) ;;
    store_col Pmat (n - t) (nrows Pmat) t vals) Pmat.

(** Lines 78-87 (156-165): the strike is subtracted on the lattice and the
    payoff is taken according to [optype]. *)
Definition BM_payoff (S0 K u d : R) (Ntree : Z) (optype : string) : M matrix :=
  let n := Z.to_nat Ntree in
  Pmat <- BM_prices S0 u d Ntree ;;
  let Kmat := mmap (Rmult K) (np_fliplr (np_tri (n + 1))) in
  Pmat <- np_sub2 Pmat Kmat ;;
  payoff_by_optype mmap optype Pmat.

(** Lines 89-91 (167-169): the value matrix with the payoff at maturity in
    its last column. *)
Definition terminal_values (rows cols : Z) (Pmat : matrix) : M matrix :=
  Vmat <- np_zeros2 rows cols ;;
  last <- load_col Pmat 0 (nrows Pmat) (ncols Pmat - 1) ;;
  store_col Vmat 0 (nrows Vmat) (ncols Vmat - 1) last.

(** The discounted expectation
    [dfact*(p*Vmat[m:Ntree, t+1] + (1-p)*Vmat[m+1:, t+1])]. *)
Definition BM_continuation (dfact p : R) (n m t : nat) (Vmat : matrix) : M array :=
  up <- load_col Vmat m n (t + 1) ;;
  down <- load_col Vmat (m + 1) (nrows Vmat) (t + 1) ;;
  s <- np_add (scal p up) (scal (1 - p) down) ;;
  ret (scal dfact s).

Definition BM_Euro (S0 K r u d T : R) (Ntree : Z) (optype : string) : M matrix :=
  let n := Z.to_nat Ntree in
  '(dfact, p) <- BM_params r u d T Ntree ;;
  Pmat <- BM_payoff S0 K u d Ntree optype ;;
  Vmat <- terminal_values (Ntree + 1) (Ntree + 1) Pmat ;;
  for_each (enumerate (range_down n)) (fun mt Vmat =>
    let '(m, t) := mt in
    C <- BM_continuation dfact p n m t Vmat ;;
    store_col Vmat (m + 1) (nrows Vmat) t C) Vmat.

(** [BM_Amer]: the same set-up; the backward step takes the maximum with the
    payoff of the node.  With [exmat] the loop also fills the early-exercise
    matrix, which is shown with [plt.matshow] and not returned. *)
Definition exercise_flag (x : R) : R := if Rltb x 0 then 1 else 0.

Definition BM_Amer (S0 K r u d T : R) (Ntree : Z) (optype : string)
    (exmat : bool) : M matrix :=
  let n := Z.to_nat Ntree in
  '(dfact, p) <- BM_params r u d T Ntree ;;
  Pmat <- BM_payoff S0 K u d Ntree optype ;;
  Vmat <- terminal_values (Ntree + 1) (Ntree + 1) Pmat ;;
  Vmat <- (if exmat then
      Exmat <- np_zeros2 (Ntree + 1) (Ntree + 1) ;;
      '(Vmat, Exmat) <- for_each (enumerate (range_down n)) (fun mt st =>
          let '(m, t) := mt in
          let '(Vmat, Exmat) := st in
          C <- BM_continuation dfact p n m t Vmat ;;
          P <- load_col Pmat (m + 1) (nrows Pmat) t ;;
          V <- np_maximum C P ;;
          Vmat <- store_col Vmat (m + 1) (nrows Vmat) t V ;;
          C' <- BM_continuation dfact p n m t Vmat ;;
          P' <- load_col Pmat (m + 1) (nrows Pmat) t ;;
          D <- np_sub C' P' ;;
          Exmat <- store_col Exmat (m + 1) (nrows Exmat) t (map exercise_flag D) ;;
          ret (Vmat, Exmat)) (Vmat, Exmat) ;;
      emit (EvMatshow Exmat) ;;
      emit (EvTitle "Early exercise") ;;
      ret Vmat
    else ret Vmat) ;;
  if negb exmat then
    for_each (enumerate (range_down n)) (fun mt Vmat =>
      let '(m, t) := mt in
      C <- BM_continuation dfact p n m t Vmat ;;
      P <- load_col Pmat (m + 1) (nrows Pmat) t ;;
      V <- np_maximum C P ;;
      store_col Vmat (m + 1) (nrows Vmat) t V) Vmat
  else ret Vmat.

(** ** Additive trinomial model *)

(** Lines 65-78 of [aTM_Euro] (160-173 of [aTM_Amer], identical). *)
Definition aTM_dx (sigma dt : R) : R := sqrt 3 * sigma * sqrt dt.
Definition aTM_nu (r sigma div : R) : R := (r - div) - 0.5 * sigma ^ 2.
Definition aTM_sf (r sigma div dt : R) : R :=
  (sigma ^ 2 * dt + (aTM_nu r sigma div * dt) ^ 2) / aTM_dx sigma dt ^ 2.
Definition aTM_af (r sigma div dt : R) : R :=
  aTM_nu r sigma div * dt / aTM_dx sigma dt.
Definition aTM_pu (r sigma div dt : R) : R :=
  0.5 * (aTM_sf r sigma div dt + aTM_af r sigma div dt).
Definition aTM_pm (r sigma div dt : R) : R := 1 - aTM_sf r sigma div dt.
Definition aTM_pd (r sigma div dt : R) : R :=
  0.5 * (aTM_sf r sigma div dt - aTM_af r sigma div dt).

Record aTM_parameters : Type := {
  tm_dx : R; tm_dfact : R; tm_pu : R; tm_pm : R; tm_pd : R
}.

(** Lines 65-84 (160-179): the parameters, then the parameter exception,
    which tests [r] and [sigma] only. *)
Definition aTM_prm (r sigma div dt : R) : aTM_parameters :=
  {| tm_dx := aTM_dx sigma dt;
     tm_dfact := exp (- r * dt);
     tm_pu := aTM_pu r sigma div dt;
     tm_pm := aTM_pm r sigma div dt;
     tm_pd := aTM_pd r sigma div dt |}.

Definition aTM_params (r sigma div T : R) (Ntree : Z) : M aTM_parameters :=
  dt <- py_div T Ntree ;;
  let prm := aTM_prm r sigma div dt in
  if Rltb 0 r && Rltb 0 sigma then ret prm else raise parameter_exception.

(** Lines 86-95 (181-190): asset prices and strikes.  Row [j0 - j] of
    column [t] holds the node at log price [j * dx], for [-t <= j <= t]. *)
Definition aTM_prices (S0 K dx : R) (Ntree : Z) : M (matrix * matrix) :=
  let n := Z.to_nat Ntree in
  let j0 := n in
  Pmat <- np_zeros2 (2 * Ntree + 1) (Ntree + 1) ;;
  Kmat <- np_zeros2 (2 * Ntree + 1) (Ntree + 1) ;;
  for_each (range (n + 1)) (fun t st =>
    let '(Pmat, Kmat) := st in
    let exponents := arange (- Z.of_nat t) (Z.of_nat t + 1) in
    Pmat <- store_col Pmat (j0 - t) (j0 + (t + 1)) t
              (scal S0 (map (fun e => exp (dx * IZR e)) (rev exponents))) ;;
    Kmat <- store_col Kmat (j0 - t) (j0 + (t + 1)) t [K] ;;
    ret (Pmat, Kmat)) (Pmat, Kmat).

(** Lines 96-104 (191-199). *)
Definition aTM_payoff (S0 K dx : R) (Ntree : Z) (optype : string) : M matrix :=
  '(Pmat, Kmat) <- aTM_prices S0 K dx Ntree ;;
  Pmat <- np_sub2 Pmat Kmat ;;
  payoff_by_optype mmap optype Pmat.

(** [dfact*(pu*Vmat[m:2*Ntree-(m+1), t+1] + pm*Vmat[m+1:2*Ntree-m, t+1]
            + pd*Vmat[m+2:2*Ntree-(m-1), t+1])];
    the last stop index is written [2*n + 1 - m] because [m - 1] is not a
    natural number at [m = 0]. *)
Definition aTM_continuation (prm : aTM_parameters) (n m t : nat)
    (Vmat : matrix) : M array :=
  up <- load_col Vmat m (2 * n - (m + 1)) (t + 1) ;;
  mid <- load_col Vmat (m + 1) (2 * n - m) (t + 1) ;;
  down <- load_col Vmat (m + 2) (2 * n + 1 - m) (t + 1) ;;
  s <- np_add (scal (tm_pu prm) up) (scal (tm_pm prm) mid) ;;
  s <- np_add s (scal (tm_pd prm) down) ;;
  ret (scal (tm_dfact prm) s).

Definition aTM_Euro (S0 K r sigma div T : R) (Ntree : Z) (optype : string)
    : M matrix :=
  let n := Z.to_nat Ntree in
  let j0 := n in
  prm <- aTM_params r sigma div T Ntree ;;
  Pmat <- aTM_payoff S0 K (tm_dx prm) Ntree optype ;;
  Vmat <- terminal_values (2 * Ntree + 1) (Ntree + 1) Pmat ;;
  for_each (enumerate (range_down n)) (fun mt Vmat =>
    let '(m, t) := mt in
    C <- aTM_continuation prm n m t Vmat ;;
    store_col Vmat (j0 - t) (j0 + (t + 1)) t C) Vmat.

Definition aTM_Amer (S0 K r sigma div T : R) (Ntree : Z) (optype : string)
    (exmat : bool) : M matrix :=
  let n := Z.to_nat Ntree in
  let j0 := n in
  prm <- aTM_params r sigma div T Ntree ;;
  Pmat <- aTM_payoff S0 K (tm_dx prm) Ntree optype ;;
  Vmat <- terminal_values (2 * Ntree + 1) (Ntree + 1) Pmat ;;
  Vmat <- (if exmat then
      Exmat <- np_zeros2 (2 * Ntree + 1) (Ntree + 1) ;;
      '(Vmat, Exmat) <- for_each (enumerate (range_down n)) (fun mt st =>
          let '(m, t) := mt in
          let '(Vmat, Exmat) := st in
          C <- aTM_continuation prm n m t Vmat ;;
          P <- load_col Pmat (j0 - t) (j0 + (t + 1)) t ;;
          V <- np_maximum C P ;;
          Vmat <- store_col Vmat (j0 - t) (j0 + (t + 1)) t V ;;
          C' <- aTM_continuation prm n m t Vmat ;;
          P' <- load_col Pmat (j0 - t) (j0 + (t + 1)) t ;;
          D <- np_sub C' P' ;;
          Exmat <- store_col Exmat (j0 - t) (j0 + (t + 1)) t (map exercise_flag D) ;;
          ret (Vmat, Exmat)) (Vmat, Exmat) ;;
      emit (EvMatshow Exmat) ;;
      emit (EvTitle "Early exercise") ;;
      ret Vmat
    else ret Vmat) ;;
  if negb exmat then
    for_each (enumerate (range_down n)) (fun mt Vmat =>
      let '(m, t) := mt in
      C <- aTM_continuation prm n m t Vmat ;;
      P <- load_col Pmat (j0 - t) (j0 + (t + 1)) t ;;
      V <- np_maximum C P ;;
      store_col Vmat (j0 - t) (j0 + (t + 1)) t V) Vmat
  else ret Vmat.

(** ** Monte Carlo *)

(** [np.random.standard_normal(size=(nsim, nsteps))]: the generator is the
    function [normal], which gives the draw at each position. *)
Definition standard_normal (normal : nat -> nat -> R) (nsim nsteps : Z) : M matrix :=
  if ((nsim <? 0) || (nsteps <? 0))%Z then raise ValueError
  else emit (EvDraw (Z.to_nat nsim) (Z.to_nat nsteps)) ;;
       ret (map (fun i => map (normal i) (seq 0 (Z.to_nat nsteps)))
                (seq 0 (Z.to_nat nsim))).

Fixpoint cumsum_from (acc : R) (l : array) : array :=
  match l with
  | [] => []
  | x :: l' => (acc + x) :: cumsum_from (acc + x) l'
  end.
Definition cumsum (l : array) : array := cumsum_from 0 l.

Definition S1_GBM (normal : nat -> nat -> R) (S0 mu sigma T : R)
    (nsteps nsim : Z) : M matrix :=
  dt <- py_div T nsteps ;;
  sample <- standard_normal normal nsim nsteps ;;
  let dw := mmap (Rmult (sqrt dt)) sample in
  let dz := mmap (fun w => (mu - 0.5 * sigma ^ 2) * dt + sigma * w) dw in
  let Sn := mmap exp (map cumsum dz) in
  let Sn := map (fun row => 1 :: row) Sn in
  ret (mmap (Rmult S0) Sn).

Definition sum (l : array) : R := fold_right Rplus 0 l.
Definition mean (l : array) : R := sum l / INR (length l).

(** [MC_Euro] of the plain Monte Carlo notebook (the variant whose parameter
    exception tests [0 <= div]).  [Smat[:,-1]] is the last entry of every
    path; a path is never empty, it starts with the initial price.  The mean
    of an empty sample ([Nsim = 0]) is [nan] in numpy and outside the
    model. *)
Definition MC_Euro (normal : nat -> nat -> R) (S0 K r sigma div T : R)
    (Nsteps Nsim : Z) (optype : string) : M R :=
  let mu := r - div in
  dt <- py_div T Nsteps ;;
  z <- np_zeros1 Nsteps ;;
  let dfact := map (Rplus (r * dt)) z in
  (if Rltb 0 r && Rltb 0 sigma && Rleb 0 div then ret tt
   else raise parameter_exception) ;;
  Smat <- S1_GBM normal S0 mu sigma T Nsteps Nsim ;;
  let Sarr := map (fun path => last path 0) Smat in
  let Parr := map (fun s => s - K) Sarr in
  Parr <- payoff_by_optype (@map R R) optype Parr ;;
  let V0arr := scal (exp (- sum dfact)) Parr in
  ret (mean V0arr).

(** [MC_Euro] of [MonteCarlo_European.ipynb]: the same function, except
    that its parameter exception tests [0 < div]. *)
Definition MC_Euro' (normal : nat -> nat -> R) (S0 K r sigma div T : R)
    (Nsteps Nsim : Z) (optype : string) : M R :=
  let mu := r - div in
  dt <- py_div T Nsteps ;;
  z <- np_zeros1 Nsteps ;;
  let dfact := map (Rplus (r * dt)) z in
  (if Rltb 0 r && Rltb 0 sigma && Rltb 0 div then ret tt
   else raise parameter_exception) ;;
  Smat <- S1_GBM normal S0 mu sigma T Nsteps Nsim ;;
  let Sarr := map (fun path => last path 0) Smat in
  let Parr := map (fun s => s - K) Sarr in
  Parr <- payoff_by_optype (@map R R) optype Parr ;;
  let V0arr := scal (exp (- sum dfact)) Parr in
  ret (mean V0arr).

(** ** Monte Carlo with antithetic variates *)

(** [S1AV_GBM]: the [nsim] sample paths of [S1_GBM], stacked ([np.vstack])
    on the [nsim] paths driven by the negated Brownian increments. *)
Definition S1AV_GBM (normal : nat -> nat -> R) (S0 mu sigma T : R)
    (nsteps nsim : Z) : M matrix :=
  dt <- py_div T nsteps ;;
  sample <- standard_normal normal nsim nsteps ;;
  let dw := mmap (Rmult (sqrt dt)) sample in
  let dz := mmap (fun w => (mu - 0.5 * sigma ^ 2) * dt + sigma * w) dw in
  let dz_ := mmap (fun w => (mu - 0.5 * sigma ^ 2) * dt - sigma * w) dw in
  let Sn := mmap exp (map cumsum dz) in
  let Sn_ := mmap exp (map cumsum dz_) in
  let Sn := Sn ++ Sn_ in
  let Sn := map (fun row => 1 :: row) Sn in
  ret (mmap (Rmult S0) Sn).

(** [MCAV_Euro] (the variant whose parameter exception tests [0 <= div]):
    [MC_Euro] on the paths of [S1AV_GBM]. *)
Definition MCAV_Euro (normal : nat -> nat -> R) (S0 K r sigma div T : R)
    (Nsteps Nsim : Z) (optype : string) : M R :=
  let mu := r - div in
  dt <- py_div T Nsteps ;;
  z <- np_zeros1 Nsteps ;;
  let dfact := map (Rplus (r * dt)) z in
  (if Rltb 0 r && Rltb 0 sigma && Rleb 0 div then ret tt
   else raise parameter_exception) ;;
  Smat <- S1AV_GBM normal S0 mu sigma T Nsteps Nsim ;;
  let Sarr := map (fun path => last path 0) Smat in
  let Parr := map (fun s => s - K) Sarr in
  Parr <- payoff_by_optype (@map R R) optype Parr ;;
  let V0arr := scal (exp (- sum dfact)) Parr in
  ret (mean V0arr).

(** The second [MCAV_Euro] of the notebook: the same function, except that
    its parameter exception tests [0 < div]. *)
Definition MCAV_Euro' (normal : nat -> nat -> R) (S0 K r sigma div T : R)
    (Nsteps Nsim : Z) (optype : string) : M R :=
  let mu := r - div in
  dt <- py_div T Nsteps ;;
  z <- np_zeros1 Nsteps ;;
  let dfact := map (Rplus (r * dt)) z in
  (if Rltb 0 r && Rltb 0 sigma && Rltb 0 div then ret tt
   else raise parameter_exception) ;;
  Smat <- S1AV_GBM normal S0 mu sigma T Nsteps Nsim ;;
  let Sarr := map (fun path => last path 0) Smat in
  let Parr := map (fun s => s - K) Sarr in
  Parr <- payoff_by_optype (@map R R) optype Parr ;;
  let V0arr := scal (exp (- sum dfact)) Parr in
  ret (mean V0arr).

(** ** Additive binomial model *)

Definition mode_exception : exn := Exception "mode not defined".

(** The four parameter choices.  Each returns the list [[u, d, p]]: the up
    and down factors and the probability of an up move. *)
Definition CRR (r sigma T : R) (nsteps : Z) : M (list R) :=
  dt <- py_div T nsteps ;;
  let sdt := sqrt dt in
  let nu := r - 0.5 * sigma ^ 2 in
  let u := exp (nu * dt + sigma * sdt) in
  let d := exp (nu * dt - sigma * sdt) in
  let p := 1 / 2 in
  ret [u; d; p].

Definition JD (r sigma T : R) (nsteps : Z) : M (list R) :=
  dt <- py_div T nsteps ;;
  let sdt := sqrt dt in
  let nu := r - 0.5 * sigma ^ 2 in
  let u := exp (sigma * sdt) in
  let d := exp (- sigma * sdt) in
  let p := 0.5 * (1 + nu * sdt / sigma) in
  ret [u; d; p].

Definition EQP (r sigma T : R) (nsteps : Z) : M (list R) :=
  dt <- py_div T nsteps ;;
  let sdt := sqrt dt in
  let nu := r - 0.5 * sigma ^ 2 in
  let u := exp (0.5 * nu * dt + sigma * sdt) in
  let d := exp (1.5 * nu * dt - sigma * sdt) in
  let p := 1 / 2 in
  ret [u; d; p].

Definition TRG (r sigma T : R) (nsteps : Z) : M (list R) :=
  dt <- py_div T nsteps ;;
  let nu := r - 0.5 * sigma ^ 2 in
  let dx := sqrt (sigma ^ 2 * dt + (nu * dt) ^ 2) in
  let u := exp dx in
  let d := exp (- dx) in
  let p := 0.5 * (1 + nu * dt / dx) in
  ret [u; d; p].

(** The argument [mode] of the additive binomial pricers is a callable.
    [Some m] is one of the four functions above, [None] any other object:
    the pricers test [mode not in [CRR, JD, EQP, TRG]] before they call it.
    (The default [mode = TRG] is passed explicitly.) *)
Inductive mode_name : Type := mode_CRR | mode_JD | mode_EQP | mode_TRG.

Definition call_mode (m : mode_name) : R -> R -> R -> Z -> M (list R) :=
  match m with
  | mode_CRR => CRR
  | mode_JD => JD
  | mode_EQP => EQP
  | mode_TRG => TRG
  end.

Record aBM_parameters : Type := {
  bm_dfact : R; bm_p : R; bm_lnu : R; bm_lnd : R
}.

(** The first lines of [aBM_Euro] and [aBM_Amer] (identical): the test of
    [mode], the time step and the discount factor, the call of [mode], the
    logarithms, and the parameter exception. *)
Definition aBM_params (r sigma T : R) (Ntree : Z) (mode : option mode_name)
    : M aBM_parameters :=
  match mode with
  | None => raise mode_exception
  | Some m =>
      dt <- py_div T Ntree ;;
      let dfact := exp (- r * dt) in
      params <- call_mode m r sigma T Ntree ;;
      let u := nth 0 params 0 in
      let d := nth 1 params 0 in
      let p := nth 2 params 0 in
      let lnu := ln u in
      let lnd := ln d in
      if Rltb 0 r && Rltb 0 sigma
      then ret {| bm_dfact := dfact; bm_p := p; bm_lnu := lnu; bm_lnd := lnd |}
      else raise parameter_exception
  end.

(** The asset prices
    [Pmat[Ntree-t:, t] = S0*np.exp(lnu*exponents[::-1] + lnd*exponents)]. *)
Definition aBM_prices (S0 lnu lnd : R) (Ntree : Z) : M matrix :=
  let n := Z.to_nat Ntree in
  Pmat <- np_zeros2 (Ntree + 1) (Ntree + 1) ;;
  Pmat <- store_item Pmat Ntree 0 S0 ;;
  for_each (range (n + 1)) (fun t Pmat =>
    let exponents := seq 0 (t + 1) in
    e <- np_add (map (fun k => lnu * INR k) (rev exponents))
                (map (fun k => lnd * INR k) exponents) ;;
    store_col Pmat (n - t) (nrows Pmat) t (scal S0 (map exp e))) Pmat.

Definition aBM_payoff (S0 K lnu lnd : R) (Ntree : Z) (optype : string) : M matrix :=
  let n := Z.to_nat Ntree in
  Pmat <- aBM_prices S0 lnu lnd Ntree ;;
  let Kmat := mmap (Rmult K) (np_fliplr (np_tri (n + 1))) in
  Pmat <- np_sub2 Pmat Kmat ;;
  payoff_by_optype mmap optype Pmat.

(** The backward loops are those of the multiplicative model. *)
Definition aBM_Euro (S0 K r sigma T : R) (Ntree : Z) (optype : string)
    (mode : option mode_name) : M matrix :=
  let n := Z.to_nat Ntree in
  prm <- aBM_params r sigma T Ntree mode ;;
  Pmat <- aBM_payoff S0 K (bm_lnu prm) (bm_lnd prm) Ntree optype ;;
  Vmat <- terminal_values (Ntree + 1) (Ntree + 1) Pmat ;;
  for_each (enumerate (range_down n)) (fun mt Vmat =>
    let '(m, t) := mt in
    C <- BM_continuation (bm_dfact prm) (bm_p prm) n m t Vmat ;;
    store_col Vmat (m + 1) (nrows Vmat) t C) Vmat.

Definition aBM_Amer (S0 K r sigma T : R) (Ntree : Z) (optype : string)
    (mode : option mode_name) (exmat : bool) : M matrix :=
  let n := Z.to_nat Ntree in
  prm <- aBM_params r sigma T Ntree mode ;;
  let dfact := bm_dfact prm in
  let p := bm_p prm in
  Pmat <- aBM_payoff S0 K (bm_lnu prm) (bm_lnd prm) Ntree optype ;;
  Vmat <- terminal_values (Ntree + 1) (Ntree + 1) Pmat ;;
  Vmat <- (if exmat then
      Exmat <- np_zeros2 (Ntree + 1) (Ntree + 1) ;;
      '(Vmat, Exmat) <- for_each (enumerate (range_down n)) (fun mt st =>
          let '(m, t) := mt in
          let '(Vmat, Exmat) := st in
          C <- BM_continuation dfact p n m t Vmat ;;
          P <- load_col Pmat (m + 1) (nrows Pmat) t ;;
          V <- np_maximum C P ;;
          Vmat <- store_col Vmat (m + 1) (nrows Vmat) t V ;;
          C' <- BM_continuation dfact p n m t Vmat ;;
          P' <- load_col Pmat (m + 1) (nrows Pmat) t ;;
          D <- np_sub C' P' ;;
          Exmat <- store_col Exmat (m + 1) (nrows Exmat) t (map exercise_flag D) ;;
          ret (Vmat, Exmat)) (Vmat, Exmat) ;;
      emit (EvMatshow Exmat) ;;
      emit (EvTitle "Early exercise") ;;
      ret Vmat
    else ret Vmat) ;;
  if negb exmat then
    for_each (enumerate (range_down n)) (fun mt Vmat =>
      let '(m, t) := mt in
      C <- BM_continuation dfact p n m t Vmat ;;
      P <- load_col Pmat (m + 1) (nrows Pmat) t ;;
      V <- np_maximum C P ;;
      store_col Vmat (m + 1) (nrows Vmat) t V) Vmat
  else ret Vmat.

(** * Vocabulary of the statements *)

(** ** Outcomes and shapes *)

(** [yields m Q]: the computation ends with a value, and the log and the
    value satisfy [Q]. *)
Definition yields {A} (m : M A) (Q : list event -> A -> Prop) : Prop :=
  exists tr a, m = (tr, inr a) /\ Q tr a.

(** [shape Mx r c]: [Mx] has [r] rows of [c] entries each. *)
Definition shape (Mx : matrix) (r c : nat) : Prop :=
  length Mx = r /\ Forall (fun row => length row = c) Mx.

(** ** Inputs *)

(** The no-arbitrage bracket, as the specification writes it. *)
Definition no_arbitrage_bracket (r u d dt : R) : Prop :=
  0 < d /\ d < exp (r * dt) /\ exp (r * dt) < u.

Definition valid_optype (optype : string) : Prop :=
  optype = "call"%string \/ optype = "put"%string.

(** ** Payoffs *)

(** The payoff the code computes from the excess [S - K] of a node. *)
Definition payoff_fn (optype : string) : R -> R :=
  if (optype =? "call")%string then clamp_call else clamp_put.

(** The intrinsic payoff as the specification writes it. *)
Definition intrinsic (optype : string) (S K : R) : R :=
  if (optype =? "call")%string then Rmax (S - K) 0 else Rmax (K - S) 0.

(** ** One backward step, and the invariant of the backward loop

    A backward step at column [t] overwrites the rows [lo t .. hi t] of that
    column with a value computed from the three neighbouring entries of
    column [t + 1] of a matrix [W] (the value lattice itself, or the value
    lattice when the early-exercise matrix is filled).  After [k] steps the
    columns [n - k .. n - 1] satisfy the recurrence and every other entry is
    as it was in the initial matrix [V0]. *)

Definition recurrence (rule : R -> R -> R -> nat -> nat -> R)
    (V : matrix) (i t : nat) : R :=
  rule (get V (i - 1) (t + 1)) (get V i (t + 1)) (get V (i + 1) (t + 1)) i t.

Definition in_lattice (n : nat) (lo hi : nat -> nat) (k i c : nat) : Prop :=
  (n - k <= c < n)%nat /\ (lo c <= i <= hi c)%nat.

Definition step_spec (rows cols : nat) (lo hi : nat -> nat)
    (rule : R -> R -> R -> nat -> nat -> R) (t : nat) (V W V' : matrix) : Prop :=
  shape V' rows cols /\
  forall i c, get V' i c =
    if (c =? t)%nat && (lo t <=? i)%nat && (i <=? hi t)%nat
    then recurrence rule W i t else get V i c.

Definition lattice_inv (rows cols n : nat) (lo hi : nat -> nat)
    (rule : R -> R -> R -> nat -> nat -> R)
    (V0 : matrix) (k : nat) (W V : matrix) : Prop :=
  shape V rows cols /\
  (forall i c, ~ in_lattice n lo hi k i c -> get V i c = get V0 i c) /\
  (forall i t, in_lattice n lo hi k i t -> get V i t = recurrence rule W i t).

(** A finished value lattice with [n] steps: the payoff in the last column,
    [node] at the reachable entries [lo t .. hi t] of every earlier column
    [t], zero elsewhere. *)
Definition value_lattice (rows n : nat) (lo hi : nat -> nat)
    (payoff : nat -> R) (node : matrix -> nat -> nat -> R) (V : matrix) : Prop :=
  shape V rows (n + 1) /\
  (forall i, get V i n = payoff i) /\
  (forall i t, (t < n)%nat -> (lo t <= i <= hi t)%nat -> get V i t = node V i t) /\
  (forall i t, (t < n)%nat -> ~ (lo t <= i <= hi t)%nat -> get V i t = 0).

(** ** The binomial lattice

    Row [n - j] of column [t] holds the node with [j] up moves at time step
    [t]; the reachable entries are those with [n <= row + column]. *)

Definition in_triangle (n i c : nat) : bool :=
  (n <=? i + c)%nat && (i <=? n)%nat && (c <=? n)%nat.

Definition BM_node_price (S0 u d : R) (n i c : nat) : R :=
  S0 * u ^ (n - i) * d ^ (i + c - n).

Definition BM_node_payoff (S0 K u d : R) (optype : string) (n i c : nat) : R :=
  if in_triangle n i c
  then intrinsic optype (BM_node_price S0 u d n i c) K else 0.

(** What [BM_prices] logs: the allocation of the price lattice, the store
    of [S0], and one column store per time step. *)
Definition BM_prices_trace (n : nat) : list event :=
  EvAlloc [(n + 1)%nat; (n + 1)%nat] :: EvStore n 1 0 ::
  map (fun t => EvStore (n - t) (t + 1) t) (seq 0 (n + 1)).

Definition BM_lo (n t : nat) : nat := n - t.

Definition BM_hi (n : nat) (_ : nat) : nat := n.

(** The three column updates of the binomial loops: European value,
    American value, early-exercise flag. *)
Definition BM_rule_euro (dfact p : R) : R -> R -> R -> nat -> nat -> R :=
  fun up mid _ _ _ => dfact * (p * up + (1 - p) * mid).

Definition BM_rule_amer (dfact p : R) (Pmat : matrix)
    : R -> R -> R -> nat -> nat -> R :=
  fun up mid _ i t => Rmax (dfact * (p * up + (1 - p) * mid)) (get Pmat i t).

Definition BM_rule_flag (dfact p : R) (Pmat : matrix)
    : R -> R -> R -> nat -> nat -> R :=
  fun up mid _ i t =>
    exercise_flag (dfact * (p * up + (1 - p) * mid) - get Pmat i t).

Definition BM_inv (n : nat) :=
  lattice_inv (n + 1) (n + 1) n (BM_lo n) (BM_hi n).

Definition BM_step (n : nat) :=
  step_spec (n + 1) (n + 1) (BM_lo n) (BM_hi n).

(** The discounted continuation value at row [i] of column [t]. *)
Definition BM_cont (dfact p : R) (V : matrix) (i t : nat) : R :=
  dfact * (p * get V (i - 1) (t + 1) + (1 - p) * get V i (t + 1)).

Definition BM_lattice (S0 K u d : R) (optype : string) (n : nat)
    (node : matrix -> nat -> nat -> R) (V : matrix) : Prop :=
  value_lattice (n + 1) n (fun t => n - t)%nat (fun _ => n)
    (fun i => BM_node_payoff S0 K u d optype n i n) node V.

Definition BM_euro_node (dfact p : R) : matrix -> nat -> nat -> R :=
  fun V i t => BM_cont dfact p V i t.

Definition BM_amer_node (S0 K u d : R) (optype : string) (n : nat)
    (dfact p : R) : matrix -> nat -> nat -> R :=
  fun V i t => Rmax (BM_cont dfact p V i t) (BM_node_payoff S0 K u d optype n i t).

(** The early-exercise matrix that belongs to a value lattice [V]. *)
Definition BM_flags (S0 K u d : R) (optype : string) (n : nat)
    (dfact p : R) (V Ex : matrix) : Prop :=
  shape Ex (n + 1) (n + 1) /\
  (forall i t, (t < n)%nat -> (n - t <= i <= n)%nat ->
     get Ex i t = exercise_flag (BM_cont dfact p V i t
                                 - BM_node_payoff S0 K u d optype n i t)) /\
  (forall i t, ~ ((t < n)%nat /\ (n - t <= i <= n)%nat) -> get Ex i t = 0).

(** ** The trinomial lattice

    Row [n - j] of column [t] holds the node at log price [j * dx]; the
    reachable entries are the rows [n - t .. n + t]. *)

Definition in_diamond (n i c : nat) : bool :=
  (c <=? n)%nat && (n - c <=? i)%nat && (i <=? n + c)%nat.

Definition aTM_node_price (S0 dx : R) (n i : nat) : R :=
  S0 * exp (dx * IZR (Z.of_nat n - Z.of_nat i)).

Definition aTM_node_payoff (S0 K dx : R) (optype : string) (n i c : nat) : R :=
  if in_diamond n i c
  then intrinsic optype (aTM_node_price S0 dx n i) K else 0.

(** What [aTM_prices] logs: the allocations of the price and strike
    matrices, then two column stores per time step. *)
Definition aTM_prices_trace (n : nat) : list event :=
  [EvAlloc [(2 * n + 1)%nat; (n + 1)%nat]; EvAlloc [(2 * n + 1)%nat; (n + 1)%nat]] ++
  flat_map (fun t => [EvStore (n - t) (2 * t + 1) t; EvStore (n - t) (2 * t + 1) t])
           (seq 0 (n + 1)).

Definition aTM_lo (n t : nat) : nat := n - t.

Definition aTM_hi (n t : nat) : nat := n + t.

Definition aTM_rule_euro (prm : aTM_parameters)
    : R -> R -> R -> nat -> nat -> R :=
  fun up mid down _ _ =>
    tm_dfact prm * (tm_pu prm * up + tm_pm prm * mid + tm_pd prm * down).

Definition aTM_rule_amer (prm : aTM_parameters) (Pmat : matrix)
    : R -> R -> R -> nat -> nat -> R :=
  fun up mid down i t =>
    Rmax (tm_dfact prm * (tm_pu prm * up + tm_pm prm * mid + tm_pd prm * down))
         (get Pmat i t).

Definition aTM_rule_flag (prm : aTM_parameters) (Pmat : matrix)
    : R -> R -> R -> nat -> nat -> R :=
  fun up mid down i t =>
    exercise_flag
      (tm_dfact prm * (tm_pu prm * up + tm_pm prm * mid + tm_pd prm * down)
       - get Pmat i t).

Definition aTM_inv (n : nat) :=
  lattice_inv (2 * n + 1) (n + 1) n (aTM_lo n) (aTM_hi n).

Definition aTM_step (n : nat) :=
  step_spec (2 * n + 1) (n + 1) (aTM_lo n) (aTM_hi n).

Definition aTM_cont (prm : aTM_parameters) (V : matrix) (i t : nat) : R :=
  tm_dfact prm * (tm_pu prm * get V (i - 1) (t + 1)
                  + tm_pm prm * get V i (t + 1)
                  + tm_pd prm * get V (i + 1) (t + 1)).

Definition aTM_lattice (S0 K dx : R) (optype : string) (n : nat)
    (node : matrix -> nat -> nat -> R) (V : matrix) : Prop :=
  value_lattice (2 * n + 1) n (fun t => n - t)%nat (fun t => n + t)%nat
    (fun i => aTM_node_payoff S0 K dx optype n i n) node V.

Definition aTM_euro_node (prm : aTM_parameters) : matrix -> nat -> nat -> R :=
  fun V i t => aTM_cont prm V i t.

Definition aTM_amer_node (S0 K : R) (optype : string) (n : nat)
    (prm : aTM_parameters) : matrix -> nat -> nat -> R :=
  fun V i t =>
    Rmax (aTM_cont prm V i t) (aTM_node_payoff S0 K (tm_dx prm) optype n i t).

Definition aTM_flags (S0 K : R) (optype : string) (n : nat)
    (prm : aTM_parameters) (V Ex : matrix) : Prop :=
  shape Ex (2 * n + 1) (n + 1) /\
  (forall i t, (t < n)%nat -> (n - t <= i <= n + t)%nat ->
     get Ex i t = exercise_flag (aTM_cont prm V i t
                                 - aTM_node_payoff S0 K (tm_dx prm) optype n i t)) /\
  (forall i t, ~ ((t < n)%nat /\ (n - t <= i <= n + t)%nat) -> get Ex i t = 0).

(** ** The properties in the words of the specification *)

(** Node [(i, j)] of a binomial lattice with [n] steps: time step [i],
    [j] up moves. *)
Definition node (n : nat) (V : matrix) (i j : nat) : R := get V (n - j) i.

(** Node [(t, j)] of a trinomial lattice with [n] steps: time step [t], log
    price [j * dx] with [-t <= j <= t]. *)
Definition tnode (n : nat) (V : matrix) (t : nat) (j : Z) : R :=
  get V (Z.to_nat (Z.of_nat n - j)) t.



(** A stored flag is correct for a continuation value [C] and an intrinsic
    payoff [I]: it is 1 (true) exactly when [C < I], and 0 otherwise. *)
Definition flag_correct (flag C I : R) : Prop :=
  (flag = 1 <-> C < I) /\ (flag = 0 <-> ~ C < I).

(** ** Further statements about the lattices *)

(** The European trinomial lattice, node by node. *)
Definition aTM_European_lattice_spec (S0 K r sigma div T : R) (Ntree : Z)
    (optype : string) (V : matrix) : Prop :=
  let n := Z.to_nat Ntree in
  let prm := aTM_prm r sigma div (T / IZR Ntree) in
  (forall j : Z, (- Z.of_nat n <= j <= Z.of_nat n)%Z ->
     tnode n V n j = intrinsic optype (S0 * exp (tm_dx prm * IZR j)) K) /\
  (forall (t : nat) (j : Z), (t < n)%nat -> (- Z.of_nat t <= j <= Z.of_nat t)%Z ->
     tnode n V t j =
     tm_dfact prm * (tm_pu prm * tnode n V (t + 1) (j + 1)
                     + tm_pm prm * tnode n V (t + 1) j
                     + tm_pd prm * tnode n V (t + 1) (j - 1))).

(** The American lattices, node by node: the larger of the discounted
    continuation value and the intrinsic payoff of the node. *)
Definition BM_American_lattice_spec (S0 K r u d T : R) (Ntree : Z)
    (optype : string) (V : matrix) : Prop :=
  let n := Z.to_nat Ntree in
  let dt := T / IZR Ntree in
  let p := (exp (r * dt) - d) / (u - d) in
  (forall j, (j <= n)%nat ->
     node n V n j = intrinsic optype (S0 * u ^ j * d ^ (n - j)) K) /\
  (forall i j, (i < n)%nat -> (j <= i)%nat ->
     node n V i j =
     Rmax (exp (- r * dt) * (p * node n V (i + 1) (j + 1) + (1 - p) * node n V (i + 1) j))
          (intrinsic optype (S0 * u ^ j * d ^ (i - j)) K)).

Definition aTM_American_lattice_spec (S0 K r sigma div T : R) (Ntree : Z)
    (optype : string) (V : matrix) : Prop :=
  let n := Z.to_nat Ntree in
  let prm := aTM_prm r sigma div (T / IZR Ntree) in
  (forall j : Z, (- Z.of_nat n <= j <= Z.of_nat n)%Z ->
     tnode n V n j = intrinsic optype (S0 * exp (tm_dx prm * IZR j)) K) /\
  (forall (t : nat) (j : Z), (t < n)%nat -> (- Z.of_nat t <= j <= Z.of_nat t)%Z ->
     tnode n V t j =
     Rmax (tm_dfact prm * (tm_pu prm * tnode n V (t + 1) (j + 1)
                           + tm_pm prm * tnode n V (t + 1) j
                           + tm_pd prm * tnode n V (t + 1) (j - 1)))
          (intrinsic optype (S0 * exp (tm_dx prm * IZR j)) K)).

(** ** Binomial lattices with a given probability

    The lattice of a binomial pricer that steps with the factors [u] and
    [d], discounts with [dfact] and weighs the up move with [p]. *)
Definition binomial_European_spec (S0 K u d dfact p : R) (n : nat)
    (optype : string) (V : matrix) : Prop :=
  (forall j, (j <= n)%nat ->
     node n V n j = intrinsic optype (S0 * u ^ j * d ^ (n - j)) K) /\
  (forall i j, (i < n)%nat -> (j <= i)%nat ->
     node n V i j
     = dfact * (p * node n V (i + 1) (j + 1) + (1 - p) * node n V (i + 1) j)).

Definition binomial_American_spec (S0 K u d dfact p : R) (n : nat)
    (optype : string) (V : matrix) : Prop :=
  (forall j, (j <= n)%nat ->
     node n V n j = intrinsic optype (S0 * u ^ j * d ^ (n - j)) K) /\
  (forall i j, (i < n)%nat -> (j <= i)%nat ->
     node n V i j
     = Rmax (dfact * (p * node n V (i + 1) (j + 1) + (1 - p) * node n V (i + 1) j))
            (intrinsic optype (S0 * u ^ j * d ^ (i - j)) K)).

(** ** The binomial distribution *)



(** ** Sample paths and estimates *)

(** The increment of the logarithm of path [i] at step [k]. *)
Definition log_increment (normal : nat -> nat -> R) (mu sigma dt : R)
    (i k : nat) : R :=
  (mu - 0.5 * sigma ^ 2) * dt + sigma * (sqrt dt * normal i k).

(** The price of path [i] after [k] steps, and its price at maturity after
    [n] steps of length [T / n]. *)
Definition path_value (normal : nat -> nat -> R) (S0 mu sigma dt : R)
    (i k : nat) : R :=
  S0 * exp (sum (map (log_increment normal mu sigma dt i) (seq 0 k))).

Definition terminal_price (normal : nat -> nat -> R) (S0 mu sigma T : R)
    (n i : nat) : R :=
  S0 * exp ((mu - 0.5 * sigma ^ 2) * T
            + sigma * sqrt (T / INR n) * sum (map (normal i) (seq 0 n))).

(** The antithetic draws. *)
Definition antithetic (normal : nat -> nat -> R) : nat -> nat -> R :=
  fun i k => - normal i k.

(** The parameters the Monte Carlo estimators accept. *)
Definition MC_accepts (r sigma div : R) : Prop := 0 < r /\ 0 < sigma /\ 0 <= div.

(** The discounted average payoff over [m] paths of [n] steps. *)
Definition MC_estimate (normal : nat -> nat -> R) (S0 K r sigma div T : R)
    (n m : nat) (optype : string) : R :=
  exp (- (r * T))
  * (sum (map (fun i => intrinsic optype
                          (terminal_price normal S0 (r - div) sigma T n i) K)
              (seq 0 m))
     / INR m).

(** ** Plotting *)

(** The plotting calls in a log. *)
Definition is_plot (ev : event) : bool :=
  match ev with
  | EvMatshow _ | EvTitle _ => true
  | _ => false
  end.

Definition plots (tr : list event) : list event := filter is_plot tr.

(** A call plots nothing. *)
Definition quiet {A} (m : M A) : Prop := plots (trace m) = [].

(** A call shows the early-exercise matrix, once, exactly when it returns. *)
Definition plots_iff_returns {A} (m : M A) : Prop :=
  match outcome m with
  | inr _ => exists Ex, plots (trace m) = [EvMatshow Ex; EvTitle "Early exercise"]
  | inl _ => plots (trace m) = []
  end.

(** * Rounded arithmetic

    The pricers once more, with every arithmetic operation followed by a
    rounding.  The rounded operations are a parameter of the embedding:
    float64 arithmetic is one choice of them (for values that are neither
    infinite nor [nan]), arithmetic without rounding another.  Comparisons,
    negation and [np.maximum] are exact, as they are on floats. *)

(** The operations of float64 arithmetic that the pricers use, on the real
    numbers that the float64 values denote: [+], [-], [*], [/], [x ** k]
    for an integer [k >= 0], [np.sqrt], [np.exp], [np.log], and the
    conversion of a Python int to a float, which [T/Ntree] makes of the
    step count.  Each operation returns the rounded result; nothing is
    assumed about the rounding.  (The integer exponents of the asset
    prices index the rows of an allocated matrix; they convert without
    rounding.) *)
Record arithmetic : Type := {
  fadd : R -> R -> R;
  fsub : R -> R -> R;
  fmul : R -> R -> R;
  fdiv : R -> R -> R;
  fpow : R -> nat -> R;
  fsqrt : R -> R;
  fexp : R -> R;
  fln : R -> R;
  fint : Z -> R
}.

(** Arithmetic without rounding. *)
Definition exact_arithmetic : arithmetic :=
  {| fadd := Rplus; fsub := Rminus; fmul := Rmult; fdiv := Rdiv;
     fpow := pow; fsqrt := sqrt; fexp := exp; fln := ln; fint := IZR |}.

(** Each definition of [Rounded] follows the source as the definition of
    the same name in the first embedding does, with the operations of [fl]
    in the place of the exact ones. *)
Module Rounded.
Section Arithmetic.

Variable fl : arithmetic.

(** [x / n] for a Python float [x] and a Python int [n]. *)
Definition py_div (x : R) (n : Z) : M R :=
  if (n =? 0)%Z then raise ZeroDivisionError else ret (fdiv fl x (fint fl n)).

(** Elementwise operations on one-dimensional arrays, [k * a] for a scalar
    [k], and [A - B] for two-dimensional arrays of one shape. *)
Definition np_add := broadcast (fadd fl).
Definition np_sub := broadcast (fsub fl).
Definition np_mul := broadcast (fmul fl).

Definition scal (k : R) (a : array) : array := map (fmul fl k) a.

Definition np_sub2 (A B : matrix) : M matrix :=
  if same_shape A B then ret (zip_with (zip_with (fsub fl)) A B)
  else raise ValueError.

(** *** Multiplicative binomial model *)

(** Lines 60-68 of [BM_Euro] (138-146 of [BM_Amer]): the parameter
    exception tests the computed [1/dfact]. *)
Definition BM_params (r u d T : R) (Ntree : Z) : M (R * R) :=
  dt <- py_div T Ntree ;;
  let dfact := fexp fl (fmul fl (- r) dt) in
  let p := fdiv fl (fsub fl (fexp fl (fmul fl r dt)) d) (fsub fl u d) in
  if Rltb 0 d && Rltb d (fdiv fl 1 dfact) && Rltb (fdiv fl 1 dfact) u
  then ret (dfact, p)
  else raise parameter_exception.

(** Lines 72-77 (150-155): [S0*(u**exponents[::-1])*(d**exponents)]. *)
Definition BM_prices (S0 u d : R) (Ntree : Z) : M matrix :=
  let n := Z.to_nat Ntree in
  Pmat <- np_zeros2 (Ntree + 1) (Ntree + 1) ;;
  Pmat <- store_item Pmat Ntree 0 S0 ;;
  for_each (range (n + 1)) (fun t Pmat =>
    let exponents := seq 0 (t + 1) in
    vals <- np_mul (scal S0 (map (fpow fl u) (rev exponents)))
                   (map (fpow fl d) exponents) ;;
    store_col Pmat (n - t) (nrows Pmat) t vals) Pmat.

(** Lines 78-87 (156-165). *)
Definition BM_payoff (S0 K u d : R) (Ntree : Z) (optype : string) : M matrix :=
  let n := Z.to_nat Ntree in
  Pmat <- BM_prices S0 u d Ntree ;;
  let Kmat := mmap (fmul fl K) (np_fliplr (np_tri (n + 1))) in
  Pmat <- np_sub2 Pmat Kmat ;;
  payoff_by_optype mmap optype Pmat.

(** [dfact*(p*Vmat[m:Ntree, t+1] + (1-p)*Vmat[m+1:, t+1])] *)
Definition BM_continuation (dfact p : R) (n m t : nat) (Vmat : matrix) : M array :=
  up <- load_col Vmat m n (t + 1) ;;
  down <- load_col Vmat (m + 1) (nrows Vmat) (t + 1) ;;
  s <- np_add (scal p up) (scal (fsub fl 1 p) down) ;;
  ret (scal dfact s).

Definition BM_Euro (S0 K r u d T : R) (Ntree : Z) (optype : string) : M matrix :=
  let n := Z.to_nat Ntree in
  '(dfact, p) <- BM_params r u d T Ntree ;;
  Pmat <- BM_payoff S0 K u d Ntree optype ;;
  Vmat <- terminal_values (Ntree + 1) (Ntree + 1) Pmat ;;
  for_each (enumerate (range_down n)) (fun mt Vmat =>
    let '(m, t) := mt in
    C <- BM_continuation dfact p n m t Vmat ;;
    store_col Vmat (m + 1) (nrows Vmat) t C) Vmat.

Definition BM_Amer (S0 K r u d T : R) (Ntree : Z) (optype : string)
    (exmat : bool) : M matrix :=
  let n := Z.to_nat Ntree in
  '(dfact, p) <- BM_params r u d T Ntree ;;
  Pmat <- BM_payoff S0 K u d Ntree optype ;;
  Vmat <- terminal_values (Ntree + 1) (Ntree + 1) Pmat ;;
  Vmat <- (if exmat then
      Exmat <- np_zeros2 (Ntree + 1) (Ntree + 1) ;;
      '(Vmat, Exmat) <- for_each (enumerate (range_down n)) (fun mt st =>
          let '(m, t) := mt in
          let '(Vmat, Exmat) := st in
          C <- BM_continuation dfact p n m t Vmat ;;
          P <- load_col Pmat (m + 1) (nrows Pmat) t ;;
          V <- np_maximum C P ;;
          Vmat <- store_col Vmat (m + 1) (nrows Vmat) t V ;;
          C' <- BM_continuation dfact p n m t Vmat ;;
          P' <- load_col Pmat (m + 1) (nrows Pmat) t ;;
          D <- np_sub C' P' ;;
          Exmat <- store_col Exmat (m + 1) (nrows Exmat) t (map exercise_flag D) ;;
          ret (Vmat, Exmat)) (Vmat, Exmat) ;;
      emit (EvMatshow Exmat) ;;
      emit (EvTitle "Early exercise") ;;
      ret Vmat
    else ret Vmat) ;;
  if negb exmat then
    for_each (enumerate (range_down n)) (fun mt Vmat =>
      let '(m, t) := mt in
      C <- BM_continuation dfact p n m t Vmat ;;
      P <- load_col Pmat (m + 1) (nrows Pmat) t ;;
      V <- np_maximum C P ;;
      store_col Vmat (m + 1) (nrows Vmat) t V) Vmat
  else ret Vmat.

(** *** Additive trinomial model *)

(** Lines 160-179 of [aTM_Amer]. *)
Definition aTM_dx (sigma dt : R) : R :=
  fmul fl (fmul fl (fsqrt fl 3) sigma) (fsqrt fl dt).
Definition aTM_nu (r sigma div : R) : R :=
  fsub fl (fsub fl r div) (fmul fl 0.5 (fpow fl sigma 2)).
Definition aTM_sf (r sigma div dt : R) : R :=
  fdiv fl (fadd fl (fmul fl (fpow fl sigma 2) dt)
                   (fpow fl (fmul fl (aTM_nu r sigma div) dt) 2))
          (fpow fl (aTM_dx sigma dt) 2).
Definition aTM_af (r sigma div dt : R) : R :=
  fdiv fl (fmul fl (aTM_nu r sigma div) dt) (aTM_dx sigma dt).
Definition aTM_pu (r sigma div dt : R) : R :=
  fmul fl 0.5 (fadd fl (aTM_sf r sigma div dt) (aTM_af r sigma div dt)).
Definition aTM_pm (r sigma div dt : R) : R := fsub fl 1 (aTM_sf r sigma div dt).
Definition aTM_pd (r sigma div dt : R) : R :=
  fmul fl 0.5 (fsub fl (aTM_sf r sigma div dt) (aTM_af r sigma div dt)).

Definition aTM_prm (r sigma div dt : R) : aTM_parameters :=
  {| tm_dx := aTM_dx sigma dt;
     tm_dfact := fexp fl (fmul fl (- r) dt);
     tm_pu := aTM_pu r sigma div dt;
     tm_pm := aTM_pm r sigma div dt;
     tm_pd := aTM_pd r sigma div dt |}.

Definition aTM_params (r sigma div T : R) (Ntree : Z) : M aTM_parameters :=
  dt <- py_div T Ntree ;;
  let prm := aTM_prm r sigma div dt in
  if Rltb 0 r && Rltb 0 sigma then ret prm else raise parameter_exception.

(** Lines 181-199: [S0*np.exp(dx*exponents[::-1])], the strikes, the
    payoff. *)
Definition aTM_prices (S0 K dx : R) (Ntree : Z) : M (matrix * matrix) :=
  let n := Z.to_nat Ntree in
  let j0 := n in
  Pmat <- np_zeros2 (2 * Ntree + 1) (Ntree + 1) ;;
  Kmat <- np_zeros2 (2 * Ntree + 1) (Ntree + 1) ;;
  for_each (range (n + 1)) (fun t st =>
    let '(Pmat, Kmat) := st in
    let exponents := arange (- Z.of_nat t) (Z.of_nat t + 1) in
    Pmat <- store_col Pmat (j0 - t) (j0 + (t + 1)) t
              (scal S0 (map (fun e => fexp fl (fmul fl dx (IZR e))) (rev exponents))) ;;
    Kmat <- store_col Kmat (j0 - t) (j0 + (t + 1)) t [K] ;;
    ret (Pmat, Kmat)) (Pmat, Kmat).

Definition aTM_payoff (S0 K dx : R) (Ntree : Z) (optype : string) : M matrix :=
  '(Pmat, Kmat) <- aTM_prices S0 K dx Ntree ;;
  Pmat <- np_sub2 Pmat Kmat ;;
  payoff_by_optype mmap optype Pmat.

Definition aTM_continuation (prm : aTM_parameters) (n m t : nat)
    (Vmat : matrix) : M array :=
  up <- load_col Vmat m (2 * n - (m + 1)) (t + 1) ;;
  mid <- load_col Vmat (m + 1) (2 * n - m) (t + 1) ;;
  down <- load_col Vmat (m + 2) (2 * n + 1 - m) (t + 1) ;;
  s <- np_add (scal (tm_pu prm) up) (scal (tm_pm prm) mid) ;;
  s <- np_add s (scal (tm_pd prm) down) ;;
  ret (scal (tm_dfact prm) s).

Definition aTM_Amer (S0 K r sigma div T : R) (Ntree : Z) (optype : string)
    (exmat : bool) : M matrix :=
  let n := Z.to_nat Ntree in
  let j0 := n in
  prm <- aTM_params r sigma div T Ntree ;;
  Pmat <- aTM_payoff S0 K (tm_dx prm) Ntree optype ;;
  Vmat <- terminal_values (2 * Ntree + 1) (Ntree + 1) Pmat ;;
  Vmat <- (if exmat then
      Exmat <- np_zeros2 (2 * Ntree + 1) (Ntree + 1) ;;
      '(Vmat, Exmat) <- for_each (enumerate (range_down n)) (fun mt st =>
          let '(m, t) := mt in
          let '(Vmat, Exmat) := st in
          C <- aTM_continuation prm n m t Vmat ;;
          P <- load_col Pmat (j0 - t) (j0 + (t + 1)) t ;;
          V <- np_maximum C P ;;
          Vmat <- store_col Vmat (j0 - t) (j0 + (t + 1)) t V ;;
          C' <- aTM_continuation prm n m t Vmat ;;
          P' <- load_col Pmat (j0 - t) (j0 + (t + 1)) t ;;
          D <- np_sub C' P' ;;
          Exmat <- store_col Exmat (j0 - t) (j0 + (t + 1)) t (map exercise_flag D) ;;
          ret (Vmat, Exmat)) (Vmat, Exmat) ;;
      emit (EvMatshow Exmat) ;;
      emit (EvTitle "Early exercise") ;;
      ret Vmat
    else ret Vmat) ;;
  if negb exmat then
    for_each (enumerate (range_down n)) (fun mt Vmat =>
      let '(m, t) := mt in
      C <- aTM_continuation prm n m t Vmat ;;
      P <- load_col Pmat (j0 - t) (j0 + (t + 1)) t ;;
      V <- np_maximum C P ;;
      store_col Vmat (j0 - t) (j0 + (t + 1)) t V) Vmat
  else ret Vmat.

(** *** Additive binomial model *)

(** The four parameter choices, [aBM_Amer] up to its parameter exception,
    the asset prices [S0*np.exp(lnu*exponents[::-1] + lnd*exponents)] and
    the payoff. *)
Definition CRR (r sigma T : R) (nsteps : Z) : M (list R) :=
  dt <- py_div T nsteps ;;
  let sdt := fsqrt fl dt in
  let nu := fsub fl r (fmul fl 0.5 (fpow fl sigma 2)) in
  let u := fexp fl (fadd fl (fmul fl nu dt) (fmul fl sigma sdt)) in
  let d := fexp fl (fsub fl (fmul fl nu dt) (fmul fl sigma sdt)) in
  let p := fdiv fl 1 2 in
  ret [u; d; p].

Definition JD (r sigma T : R) (nsteps : Z) : M (list R) :=
  dt <- py_div T nsteps ;;
  let sdt := fsqrt fl dt in
  let nu := fsub fl r (fmul fl 0.5 (fpow fl sigma 2)) in
  let u := fexp fl (fmul fl sigma sdt) in
  let d := fexp fl (fmul fl (- sigma) sdt) in
  let p := fmul fl 0.5 (fadd fl 1 (fdiv fl (fmul fl nu sdt) sigma)) in
  ret [u; d; p].

Definition EQP (r sigma T : R) (nsteps : Z) : M (list R) :=
  dt <- py_div T nsteps ;;
  let sdt := fsqrt fl dt in
  let nu := fsub fl r (fmul fl 0.5 (fpow fl sigma 2)) in
  let u := fexp fl (fadd fl (fmul fl (fmul fl 0.5 nu) dt) (fmul fl sigma sdt)) in
  let d := fexp fl (fsub fl (fmul fl (fmul fl 1.5 nu) dt) (fmul fl sigma sdt)) in
  let p := fdiv fl 1 2 in
  ret [u; d; p].

Definition TRG (r sigma T : R) (nsteps : Z) : M (list R) :=
  dt <- py_div T nsteps ;;
  let nu := fsub fl r (fmul fl 0.5 (fpow fl sigma 2)) in
  let dx := fsqrt fl (fadd fl (fmul fl (fpow fl sigma 2) dt)
                              (fpow fl (fmul fl nu dt) 2)) in
  let u := fexp fl dx in
  let d := fexp fl (- dx) in
  let p := fmul fl 0.5 (fadd fl 1 (fdiv fl (fmul fl nu dt) dx)) in
  ret [u; d; p].

Definition call_mode (m : mode_name) : R -> R -> R -> Z -> M (list R) :=
  match m with
  | mode_CRR => CRR
  | mode_JD => JD
  | mode_EQP => EQP
  | mode_TRG => TRG
  end.

Definition aBM_params (r sigma T : R) (Ntree : Z) (mode : option mode_name)
    : M aBM_parameters :=
  match mode with
  | None => raise mode_exception
  | Some m =>
      dt <- py_div T Ntree ;;
      let dfact := fexp fl (fmul fl (- r) dt) in
      params <- call_mode m r sigma T Ntree ;;
      let u := nth 0 params 0 in
      let d := nth 1 params 0 in
      let p := nth 2 params 0 in
      let lnu := fln fl u in
      let lnd := fln fl d in
      if Rltb 0 r && Rltb 0 sigma
      then ret {| bm_dfact := dfact; bm_p := p; bm_lnu := lnu; bm_lnd := lnd |}
      else raise parameter_exception
  end.

Definition aBM_prices (S0 lnu lnd : R) (Ntree : Z) : M matrix :=
  let n := Z.to_nat Ntree in
  Pmat <- np_zeros2 (Ntree + 1) (Ntree + 1) ;;
  Pmat <- store_item Pmat Ntree 0 S0 ;;
  for_each (range (n + 1)) (fun t Pmat =>
    let exponents := seq 0 (t + 1) in
    e <- np_add (map (fun k => fmul fl lnu (INR k)) (rev exponents))
                (map (fun k => fmul fl lnd (INR k)) exponents) ;;
    store_col Pmat (n - t) (nrows Pmat) t (scal S0 (map (fexp fl) e))) Pmat.

Definition aBM_payoff (S0 K lnu lnd : R) (Ntree : Z) (optype : string) : M matrix :=
  let n := Z.to_nat Ntree in
  Pmat <- aBM_prices S0 lnu lnd Ntree ;;
  let Kmat := mmap (fmul fl K) (np_fliplr (np_tri (n + 1))) in
  Pmat <- np_sub2 Pmat Kmat ;;
  payoff_by_optype mmap optype Pmat.

Definition aBM_Amer (S0 K r sigma T : R) (Ntree : Z) (optype : string)
    (mode : option mode_name) (exmat : bool) : M matrix :=
  let n := Z.to_nat Ntree in
  prm <- aBM_params r sigma T Ntree mode ;;
  let dfact := bm_dfact prm in
  let p := bm_p prm in
  Pmat <- aBM_payoff S0 K (bm_lnu prm) (bm_lnd prm) Ntree optype ;;
  Vmat <- terminal_values (Ntree + 1) (Ntree + 1) Pmat ;;
  Vmat <- (if exmat then
      Exmat <- np_zeros2 (Ntree + 1) (Ntree + 1) ;;
      '(Vmat, Exmat) <- for_each (enumerate (range_down n)) (fun mt st =>
          let '(m, t) := mt in
          let '(Vmat, Exmat) := st in
          C <- BM_continuation dfact p n m t Vmat ;;
          P <- load_col Pmat (m + 1) (nrows Pmat) t ;;
          V <- np_maximum C P ;;
          Vmat <- store_col Vmat (m + 1) (nrows Vmat) t V ;;
          C' <- BM_continuation dfact p n m t Vmat ;;
          P' <- load_col Pmat (m + 1) (nrows Pmat) t ;;
          D <- np_sub C' P' ;;
          Exmat <- store_col Exmat (m + 1) (nrows Exmat) t (map exercise_flag D) ;;
          ret (Vmat, Exmat)) (Vmat, Exmat) ;;
      emit (EvMatshow Exmat) ;;
      emit (EvTitle "Early exercise") ;;
      ret Vmat
    else ret Vmat) ;;
  if negb exmat then
    for_each (enumerate (range_down n)) (fun mt Vmat =>
      let '(m, t) := mt in
      C <- BM_continuation dfact p n m t Vmat ;;
      P <- load_col Pmat (m + 1) (nrows Pmat) t ;;
      V <- np_maximum C P ;;
      store_col Vmat (m + 1) (nrows Vmat) t V) Vmat
  else ret Vmat.

End Arithmetic.
End Rounded.

(** ** Statements about the rounded pricers *)

(** The value and flag rules of an American backward step, over the rule of
    the European one. *)
Definition rule_amer (rule : R -> R -> R -> nat -> nat -> R) (Pmat : matrix)
    : R -> R -> R -> nat -> nat -> R :=
  fun up mid down i t => Rmax (rule up mid down i t) (get Pmat i t).

Definition rule_flag (sub : R -> R -> R)
    (rule : R -> R -> R -> nat -> nat -> R) (Pmat : matrix)
    : R -> R -> R -> nat -> nat -> R :=
  fun up mid down i t => exercise_flag (sub (rule up mid down i t) (get Pmat i t)).

(** The sign of a rounded difference is the sign of the exact difference,
    as in IEEE 754 arithmetic with gradual underflow. *)
Definition sign_exact (fl : arithmetic) : Prop :=
  forall x y, fsub fl x y < 0 <-> x < y.


Module RoundedSpec.
Section Arithmetic.

Variable fl : arithmetic.

(** The test [(0<d) and (d<1/dfact) and (1/dfact<u)] on the computed
    discount factor. *)
Definition bracket (r u d dt : R) : Prop :=
  0 < d /\
  d < fdiv fl 1 (fexp fl (fmul fl (- r) dt)) /\
  fdiv fl 1 (fexp fl (fmul fl (- r) dt)) < u.

Definition BM_dfact (r T : R) (Ntree : Z) : R :=
  fexp fl (fmul fl (- r) (fdiv fl T (fint fl Ntree))).

Definition BM_p (r u d T : R) (Ntree : Z) : R :=
  fdiv fl (fsub fl (fexp fl (fmul fl r (fdiv fl T (fint fl Ntree)))) d) (fsub fl u d).

Definition BM_rule_euro (dfact p : R) : R -> R -> R -> nat -> nat -> R :=
  fun up mid _ _ _ =>
    fmul fl dfact (fadd fl (fmul fl p up) (fmul fl (fsub fl 1 p) mid)).

(** The computed payoff of the node with [j] up moves at time step [i]. *)
Definition BM_payoff_at (S0 K u d : R) (optype : string) (i j : nat) : R :=
  payoff_fn optype
    (fsub fl (fmul fl (fmul fl S0 (fpow fl u j)) (fpow fl d (i - j)))
             (fmul fl K 1)).

(** The computed continuation value of node [(i, j)] of a lattice [V]. *)
Definition BM_continuation_at (dfact p : R) (n : nat) (V : matrix) (i j : nat) : R :=
  fmul fl dfact (fadd fl (fmul fl p (node n V (i + 1) (j + 1)))
                         (fmul fl (fsub fl 1 p) (node n V (i + 1) j))).

Definition BM_European_lattice_spec (S0 K r u d T : R) (Ntree : Z)
    (optype : string) (V : matrix) : Prop :=
  let n := Z.to_nat Ntree in
  (forall j, (j <= n)%nat -> node n V n j = BM_payoff_at S0 K u d optype n j) /\
  (forall i j, (i < n)%nat -> (j <= i)%nat ->
     node n V i j =
     BM_continuation_at (BM_dfact r T Ntree) (BM_p r u d T Ntree) n V i j).

Definition BM_American_lattice_spec (S0 K r u d T : R) (Ntree : Z)
    (optype : string) (V : matrix) : Prop :=
  let n := Z.to_nat Ntree in
  (forall j, (j <= n)%nat -> node n V n j = BM_payoff_at S0 K u d optype n j) /\
  (forall i j, (i < n)%nat -> (j <= i)%nat ->
     node n V i j =
     Rmax (BM_continuation_at (BM_dfact r T Ntree) (BM_p r u d T Ntree) n V i j)
          (BM_payoff_at S0 K u d optype i j)).

(** What the code stores as the flag for a continuation value [C] and a
    payoff [I], [(C - I) < 0]: 1 (true) exactly when the rounded difference
    is negative, and 0 otherwise. *)
Definition flag_stored (flag C I : R) : Prop :=
  (flag = 1 <-> fsub fl C I < 0) /\ (flag = 0 <-> ~ fsub fl C I < 0).

Definition BM_stored_flags_spec (S0 K r u d T : R) (Ntree : Z)
    (optype : string) (V Ex : matrix) : Prop :=
  let n := Z.to_nat Ntree in
  forall i j, (i < n)%nat -> (j <= i)%nat ->
    flag_stored (node n Ex i j)
      (BM_continuation_at (BM_dfact r T Ntree) (BM_p r u d T Ntree) n V i j)
      (BM_payoff_at S0 K u d optype i j).

Definition BM_exercise_flags_spec (S0 K r u d T : R) (Ntree : Z)
    (optype : string) (V Ex : matrix) : Prop :=
  let n := Z.to_nat Ntree in
  forall i j, (i < n)%nat -> (j <= i)%nat ->
    flag_correct (node n Ex i j)
      (BM_continuation_at (BM_dfact r T Ntree) (BM_p r u d T Ntree) n V i j)
      (BM_payoff_at S0 K u d optype i j).

Definition aTM_rule_euro (prm : aTM_parameters)
    : R -> R -> R -> nat -> nat -> R :=
  fun up mid down _ _ =>
    fmul fl (tm_dfact prm)
      (fadd fl (fadd fl (fmul fl (tm_pu prm) up) (fmul fl (tm_pm prm) mid))
               (fmul fl (tm_pd prm) down)).

(** The computed payoff of the node at log price [j * dx]. *)
Definition aTM_payoff_at (S0 K dx : R) (optype : string) (j : Z) : R :=
  payoff_fn optype (fsub fl (fmul fl S0 (fexp fl (fmul fl dx (IZR j)))) K).

Definition aTM_continuation_at (prm : aTM_parameters) (n : nat) (V : matrix)
    (t : nat) (j : Z) : R :=
  fmul fl (tm_dfact prm)
    (fadd fl (fadd fl (fmul fl (tm_pu prm) (tnode n V (t + 1) (j + 1)))
                      (fmul fl (tm_pm prm) (tnode n V (t + 1) j)))
             (fmul fl (tm_pd prm) (tnode n V (t + 1) (j - 1)))).

Definition aTM_stored_flags_spec (S0 K r sigma div T : R) (Ntree : Z)
    (optype : string) (V Ex : matrix) : Prop :=
  let n := Z.to_nat Ntree in
  let prm := Rounded.aTM_prm fl r sigma div (fdiv fl T (fint fl Ntree)) in
  forall (t : nat) (j : Z), (t < n)%nat -> (- Z.of_nat t <= j <= Z.of_nat t)%Z ->
    flag_stored (tnode n Ex t j)
      (aTM_continuation_at prm n V t j)
      (aTM_payoff_at S0 K (tm_dx prm) optype j).

Definition aTM_exercise_flags_spec (S0 K r sigma div T : R) (Ntree : Z)
    (optype : string) (V Ex : matrix) : Prop :=
  let n := Z.to_nat Ntree in
  let prm := Rounded.aTM_prm fl r sigma div (fdiv fl T (fint fl Ntree)) in
  forall (t : nat) (j : Z), (t < n)%nat -> (- Z.of_nat t <= j <= Z.of_nat t)%Z ->
    flag_correct (tnode n Ex t j)
      (aTM_continuation_at prm n V t j)
      (aTM_payoff_at S0 K (tm_dx prm) optype j).

(** The computed payoff of the node with [j] up moves at time step [i] in
    the additive binomial model. *)
Definition aBM_payoff_at (S0 K lnu lnd : R) (optype : string) (i j : nat) : R :=
  payoff_fn optype
    (fsub fl (fmul fl S0 (fexp fl (fadd fl (fmul fl lnu (INR j))
                                          (fmul fl lnd (INR (i - j))))))
             (fmul fl K 1)).

Definition aBM_stored_flags_spec (S0 K u d dfact p : R) (n : nat)
    (optype : string) (V Ex : matrix) : Prop :=
  forall i j, (i < n)%nat -> (j <= i)%nat ->
    flag_stored (node n Ex i j)
      (BM_continuation_at dfact p n V i j)
      (aBM_payoff_at S0 K (fln fl u) (fln fl d) optype i j).

Definition aBM_exercise_flags_spec (S0 K u d dfact p : R) (n : nat)
    (optype : string) (V Ex : matrix) : Prop :=
  forall i j, (i < n)%nat -> (j <= i)%nat ->
    flag_correct (node n Ex i j)
      (BM_continuation_at dfact p n V i j)
      (aBM_payoff_at S0 K (fln fl u) (fln fl d) optype i j).

End Arithmetic.
End RoundedSpec.

(** * Binary64

    The scalar computations at the head of the pricers in float64, with
    Rocq's binary64 floats: addition, subtraction, multiplication, division,
    square root and the comparisons are the IEEE 754 operations that Python
    and numpy use. *)

Module Binary64.

(** A Python int as a float: the nearest float64.  (Python raises
    [OverflowError] for an int beyond the float64 range, where this
    conversion gives infinity.) *)
Definition of_int (z : Z) : float :=
  SF2Prim (binary_normalize prec emax z 0 false).

(** [np.exp] is modelled as the correctly rounded exponential: the value
    of the power series, computed in fixed point with 256 binary digits
    after halving the argument until it is below 1/2, then rounded to the
    nearest float64.  The library promises an error below one unit in the
    last place, and may differ from this model in the last digit on rare
    arguments. *)
Definition exp_digits : Z := 256.
Definition inv_digits : Z := 1536.

Fixpoint exp_series (fuel : nat) (y term acc k : Z) : Z :=
  match fuel with
  | O => acc
  | S fuel' =>
      let term' := (term * y / 2 ^ exp_digits / k)%Z in
      exp_series fuel' y term' (acc + term')%Z (k + 1)%Z
  end.

Fixpoint square_times (h : nat) (s : Z) : Z :=
  match h with
  | O => s
  | S h' => square_times h' (s * s / 2 ^ exp_digits)%Z
  end.

(** [exp(m * 2^e) * 2^256], for [0 < m] and [m * 2^e < 2^11]. *)
Definition exp_scaled (m e : Z) : Z :=
  let h := Z.max 0 (Z.log2 m + e + 2) in
  let sh := (e - h + exp_digits)%Z in
  let y := if (0 <=? sh)%Z then (m * 2 ^ sh)%Z else (m / 2 ^ (- sh))%Z in
  square_times (Z.to_nat h)
    (exp_series 64 y (2 ^ exp_digits) (2 ^ exp_digits) 1)%Z.

Definition np_exp (x : float) : float :=
  match Prim2SF x with
  | S754_nan => nan
  | S754_infinity false => infinity
  | S754_infinity true => zero
  | S754_zero _ => one
  | S754_finite s m e =>
      if (11 <=? Z.log2 (Z.pos m) + e + 1)%Z then (if s then zero else infinity)
      else
        let a := exp_scaled (Z.pos m) e in
        if s then
          SF2Prim (binary_normalize prec emax
                     (2 ^ (exp_digits + inv_digits) / a) (- inv_digits) false)
        else SF2Prim (binary_normalize prec emax a (- exp_digits) false)
  end.

(** [x ** 2] for a float [x]: the rounded product. *)
Definition square (x : float) : float := (x * x)%float.

(** Lines 60-68 of [BM_Euro] (138-146 of [BM_Amer], identical). *)
Definition BM_params (r u d T : float) (Ntree : Z) : M (float * float) :=
  if (Ntree =? 0)%Z then raise ZeroDivisionError
  else
    let dt := (T / of_int Ntree)%float in
    let dfact := np_exp (- r * dt)%float in
    let p := ((np_exp (r * dt) - d) / (u - d))%float in
    if ((0 <? d) && (d <? 1 / dfact) && (1 / dfact <? u))%float
    then ret (dfact, p)
    else raise parameter_exception.

(** Lines 66-78 of [aTM_Euro] (161-173 of [aTM_Amer], identical). *)
Definition aTM_dx (sigma dt : float) : float :=
  (PrimFloat.sqrt 3 * sigma * PrimFloat.sqrt dt)%float.
Definition aTM_nu (r sigma div : float) : float :=
  ((r - div) - 0.5 * square sigma)%float.
Definition aTM_sf (r sigma div dt : float) : float :=
  ((square sigma * dt + square (aTM_nu r sigma div * dt))
   / square (aTM_dx sigma dt))%float.
Definition aTM_af (r sigma div dt : float) : float :=
  (aTM_nu r sigma div * dt / aTM_dx sigma dt)%float.
Definition aTM_pu (r sigma div dt : float) : float :=
  (0.5 * (aTM_sf r sigma div dt + aTM_af r sigma div dt))%float.
Definition aTM_pm (r sigma div dt : float) : float :=
  (1 - aTM_sf r sigma div dt)%float.
Definition aTM_pd (r sigma div dt : float) : float :=
  (0.5 * (aTM_sf r sigma div dt - aTM_af r sigma div dt))%float.

End Binary64.

(** The real number that a finite float denotes, as a fraction. *)
Definition numerator (x : float) : Z :=
  match Prim2SF x with
  | S754_finite s m e => ((if s then Z.neg m else Z.pos m) * 2 ^ Z.max 0 e)%Z
  | _ => 0%Z
  end.

Definition denominator (x : float) : Z :=
  match Prim2SF x with
  | S754_finite _ _ e => (2 ^ Z.max 0 (- e))%Z
  | _ => 1%Z
  end.

Definition B2R (x : float) : R := IZR (numerator x) / IZR (denominator x).

(** ** The exponential series *)

Fixpoint Rfact (n : nat) : R :=
  match n with O => 1 | S k => INR (S k) * Rfact k end.

Definition exp_term (x : R) (k : nat) : R := / Rfact k * x ^ k.

Definition exp_pair (x : R) (k : nat) : R :=
  exp_term (- x) (2 * k) + exp_term (- x) (S (2 * k)).

(** * Reasoning principles *)

(** ** The monad *)

Lemma bind_value {A B} (m : M A) (f : A -> M B) tr a tr' r :
  m = (tr, inr a) -> f a = (tr', r) -> bind m f = (tr ++ tr', r).
Proof. intros -> H. unfold bind. now rewrite H. Qed.

Lemma bind_raise {A B} (m : M A) (f : A -> M B) tr e :
  m = (tr, inl e) -> bind m f = (tr, inl e).
Proof. now intros ->. Qed.

Lemma ret_bind {A B} (a : A) (f : A -> M B) : bind (ret a) f = f a.
Proof. unfold bind, ret. now destruct (f a). Qed.

Lemma bind_assoc {A B C} (m : M A) (f : A -> M B) (g : B -> M C) :
  bind (bind m f) g = bind m (fun x => bind (f x) g).
Proof.
  destruct m as [tr [e | a]]; simpl; [reflexivity |].
  destruct (f a) as [tr' [e | b]]; simpl; [reflexivity |].
  destruct (g b) as [tr'' r]. now rewrite app_assoc.
Qed.

Lemma bind_ext {A B} (m : M A) (f g : A -> M B) :
  (forall a, f a = g a) -> bind m f = bind m g.
Proof.
  intros H. destruct m as [tr [e | a]]; simpl; [reflexivity |]. now rewrite H.
Qed.

Lemma outcome_bind {A B} (m : M A) (f : A -> M B) :
  outcome (bind m f) =
  match outcome m with inl e => inl e | inr a => outcome (f a) end.
Proof.
  destruct m as [tr [e | a]]; simpl; [reflexivity |].
  unfold outcome. now destruct (f a).
Qed.

Lemma yields_ret {A} (a : A) (Q : list event -> A -> Prop) :
  Q [] a -> yields (ret a) Q.
Proof. intros H. now exists [], a. Qed.

Lemma yields_weaken {A} (m : M A) (Q Q' : list event -> A -> Prop) :
  yields m Q -> (forall tr a, Q tr a -> Q' tr a) -> yields m Q'.
Proof. intros (tr & a & E & H) HQ. exists tr, a. auto. Qed.

Lemma yields_bind {A B} (m : M A) (f : A -> M B) Q1 (Q : list event -> B -> Prop) :
  yields m Q1 ->
  (forall tr a, Q1 tr a -> yields (f a) (fun tr' b => Q (tr ++ tr') b)) ->
  yields (bind m f) Q.
Proof.
  intros (tr & a & E & H1) Hf.
  destruct (Hf tr a H1) as (tr' & b & E' & H2).
  exists (tr ++ tr'), b. split; [| exact H2].
  now apply bind_value with (a := a).
Qed.

(** A loop over [g 0, ..., g (n-1)] with an invariant indexed by the number
    of iterations done. *)
Lemma for_each_seq_from {A St} (I : nat -> list event -> St -> Prop)
    (g : nat -> A) (body : A -> St -> M St) (n len a : nat) :
  forall tr s,
  (a + len = n)%nat ->
  I a tr s ->
  (forall k tr s, (k < n)%nat -> I k tr s ->
     yields (body (g k) s) (fun tr' s' => I (S k) (tr ++ tr') s')) ->
  yields (for_each (map g (seq a len)) body s) (fun tr' s' => I n (tr ++ tr') s').
Proof.
  revert a. induction len as [| len IH]; intros a tr s Hlen HI Hstep; simpl.
  - apply yields_ret. rewrite app_nil_r. now replace n with a by lia.
  - eapply yields_bind.
    + apply (Hstep a tr s); [lia | exact HI].
    + intros tr1 s1 H1. simpl in H1.
      eapply yields_weaken.
      * apply (IH (S a) (tr ++ tr1) s1); [lia | exact H1 | exact Hstep].
      * intros tr2 s2 H2. simpl in H2. now rewrite app_assoc.
Qed.

Lemma for_each_seq {A St} (I : nat -> list event -> St -> Prop)
    (g : nat -> A) (body : A -> St -> M St) (n : nat) (s : St) :
  I 0%nat [] s ->
  (forall k tr s, (k < n)%nat -> I k tr s ->
     yields (body (g k) s) (fun tr' s' => I (S k) (tr ++ tr') s')) ->
  yields (for_each (map g (seq 0 n)) body s) (I n).
Proof.
  intros H0 Hstep.
  eapply yields_weaken.
  - apply (for_each_seq_from I g body n n 0%nat [] s); auto.
  - intros tr s' H. exact H.
Qed.

(** ** Index lists *)

Lemma rev_seq (n : nat) :
  rev (seq 0 n) = map (fun k => n - 1 - k)%nat (seq 0 n).
Proof.
  induction n as [| n IH]; [reflexivity |].
  replace (rev (seq 0 (S n))) with (n :: rev (seq 0 n))
    by (rewrite seq_S, rev_app_distr; reflexivity).
  rewrite IH. simpl seq. simpl map. f_equal; [lia |].
  rewrite <- seq_shift, map_map.
  apply map_ext_in. intros k Hk. apply in_seq in Hk. lia.
Qed.

Lemma combine_map_r {A B} (f : A -> B) (l : list A) :
  combine l (map f l) = map (fun k => (k, f k)) l.
Proof. induction l as [| x l IH]; simpl; [reflexivity | now rewrite IH]. Qed.

Lemma enumerate_range_down (n : nat) :
  enumerate (range_down n) = map (fun k => (k, n - 1 - k)%nat) (seq 0 n).
Proof.
  unfold enumerate, range_down.
  rewrite length_rev, length_seq, rev_seq.
  apply combine_map_r.
Qed.

Lemma range_as_map (n : nat) : range n = map (fun k => k) (seq 0 n).
Proof. unfold range. now rewrite map_id. Qed.

(** ** Arrays *)

Lemma nth_scal (k : R) (a : array) (j : nat) :
  nth j (scal k a) 0 = k * nth j a 0.
Proof.
  unfold scal. replace 0 with (k * 0) at 1 by ring. apply map_nth.
Qed.

Lemma length_scal (k : R) (a : array) : length (scal k a) = length a.
Proof. apply length_map. Qed.

Lemma length_zip_with {A B C} (f : A -> B -> C) a b :
  length (zip_with f a b) = Nat.min (length a) (length b).
Proof. unfold zip_with. now rewrite length_map, length_combine. Qed.

Lemma nth_zip_with (f : R -> R -> R) (a b : array) (j : nat) :
  length a = length b -> (j < length a)%nat ->
  nth j (zip_with f a b) 0 = f (nth j a 0) (nth j b 0).
Proof.
  intros Hl Hj. unfold zip_with.
  rewrite nth_indep with (d' := f (fst (0, 0)) (snd (0, 0))).
  - rewrite (map_nth (fun xy => f (fst xy) (snd xy))).
    now rewrite combine_nth.
  - rewrite length_map, length_combine. lia.
Qed.

Lemma broadcast_same_length (f : R -> R -> R) (a b : array) :
  length a = length b -> broadcast f a b = ret (zip_with f a b).
Proof. intros H. unfold broadcast. now rewrite H, Nat.eqb_refl. Qed.

Lemma nth_upd (l : array) (i j : nat) (v : R) :
  nth j (upd l i v) 0 =
  if (j =? i)%nat && (i <? length l)%nat then v else nth j l 0.
Proof.
  revert i j. induction l as [| x l IH]; intros i j; simpl.
  - rewrite andb_false_r. now destruct j.
  - destruct i as [| i]; destruct j as [| j]; simpl; try reflexivity.
    rewrite IH. reflexivity.
Qed.

Lemma length_upd (l : array) (i : nat) (v : R) : length (upd l i v) = length l.
Proof.
  revert i. induction l as [| x l IH]; intros [| i]; simpl; auto.
Qed.

(** ** Matrices *)

Lemma shape_zeros (r c : nat) : shape (repeat (repeat 0 c) r) r c.
Proof.
  split; [apply repeat_length |].
  apply Forall_forall. intros row H. apply repeat_spec in H. subst.
  apply repeat_length.
Qed.

Lemma get_zeros (r c i j : nat) : get (repeat (repeat 0 c) r) i j = 0.
Proof.
  unfold get.
  destruct (Nat.lt_ge_cases i r) as [H | H].
  - rewrite nth_indep with (d' := repeat 0 c) by now rewrite repeat_length.
    rewrite nth_repeat. apply nth_repeat.
  - rewrite (nth_overflow (repeat (repeat 0 c) r)) by now rewrite repeat_length.
    now destruct j.
Qed.

Lemma ncols_shape (Mx : matrix) (r c : nat) :
  shape Mx r c -> (0 < r)%nat -> ncols Mx = c.
Proof.
  intros [Hr Hc] Hpos. destruct Mx as [| row Mx]; simpl in *; [lia |].
  now inversion Hc.
Qed.

Lemma get_out_of_shape (Mx : matrix) (r c i j : nat) :
  shape Mx r c -> (r <= i \/ c <= j)%nat -> get Mx i j = 0.
Proof.
  intros [Hr Hc] H. unfold get.
  destruct (Nat.lt_ge_cases i r) as [Hi | Hi].
  - apply nth_overflow.
    rewrite Forall_nth in Hc. rewrite (Hc i []) by lia. lia.
  - rewrite (nth_overflow Mx) by lia. now destruct j.
Qed.

Lemma write_col_shape (Mx : matrix) (a c : nat) (vals : array) (r k : nat) :
  shape Mx r k -> shape (write_col Mx a c vals) r k.
Proof.
  intros [Hr Hc]. subst r.
  revert a vals. induction Hc as [| row Mx Hrow Hc IH]; intros a vals.
  - split; [reflexivity | constructor].
  - simpl. destruct a as [| a].
    + destruct vals as [| v vs].
      * split; [reflexivity | now constructor].
      * destruct (IH 0%nat vs) as [Hl Hf]. split; simpl; [now rewrite Hl |].
        constructor; [now rewrite length_upd | exact Hf].
    + destruct (IH a vals) as [Hl Hf]. split; simpl; [now rewrite Hl |].
      now constructor.
Qed.

Lemma get_write_col (Mx : matrix) (a c : nat) (vals : array) (r k i j : nat) :
  shape Mx r k -> (c < k)%nat -> (a + length vals <= r)%nat ->
  get (write_col Mx a c vals) i j =
  if (j =? c)%nat && (a <=? i)%nat && (i <? a + length vals)%nat
  then nth (i - a) vals 0 else get Mx i j.
Proof.
  intros [Hr Hc] Hck. subst r.
  revert a vals i. induction Hc as [| row Mx Hrow Hc IH]; intros a vals i Hlen.
  - simpl in *. assert (length vals = 0%nat) as Hv by lia.
    destruct vals; [| discriminate].
    assert (get [] i j = 0) as -> by (unfold get; now destruct i, j).
    destruct (_ && _); [| reflexivity]. now destruct (i - a)%nat.
  - simpl. destruct a as [| a].
    + destruct vals as [| v vs].
      * simpl. rewrite andb_false_r. reflexivity.
      * destruct i as [| i].
        -- unfold get. simpl. rewrite nth_upd.
           replace (c <? length row)%nat with true
             by (symmetry; apply Nat.ltb_lt; lia).
           now rewrite !andb_true_r.
        -- change (get (upd row c v :: write_col Mx 0 c vs) (S i) j)
             with (get (write_col Mx 0 c vs) i j).
           rewrite IH by (simpl in Hlen; lia).
           simpl length. simpl Nat.leb. rewrite Nat.sub_0_r.
           change (S i <? S (length vs))%nat with (i <? length vs)%nat.
           simpl plus. reflexivity.
    + destruct i as [| i].
      * simpl. rewrite andb_false_r. reflexivity.
      * change (get (row :: write_col Mx a c vals) (S i) j)
          with (get (write_col Mx a c vals) i j).
        rewrite IH by (simpl in Hlen; lia).
        reflexivity.
Qed.

Lemma length_col_slice (Mx : matrix) (a b c : nat) :
  length (col_slice Mx a b c) = Nat.min (b - a) (length Mx - a).
Proof.
  unfold col_slice. now rewrite length_map, length_firstn, length_skipn.
Qed.

Lemma nth_col_slice (Mx : matrix) (a b c j : nat) :
  (j < b - a)%nat -> nth j (col_slice Mx a b c) 0 = get Mx (a + j) c.
Proof.
  intros Hj. unfold col_slice, get.
  transitivity (nth c (nth j (firstn (b - a) (skipn a Mx)) []) 0).
  { rewrite <- (map_nth (fun row : list R => nth c row 0) _ [] j).
    f_equal. now destruct c. }
  rewrite nth_firstn.
  replace (j <? b - a)%nat with true by (symmetry; now apply Nat.ltb_lt).
  now rewrite nth_skipn.
Qed.

(** ** The primitives on well-shaped matrices *)

Lemma np_zeros2_ok (r c : Z) :
  (0 <= r)%Z -> (0 <= c)%Z ->
  np_zeros2 r c = ([EvAlloc [Z.to_nat r; Z.to_nat c]],
                   inr (repeat (repeat 0 (Z.to_nat c)) (Z.to_nat r))).
Proof.
  intros Hr Hc. unfold np_zeros2.
  replace ((r <? 0) || (c <? 0))%Z with false; [reflexivity |].
  symmetry. apply orb_false_iff. split; apply Z.ltb_ge; assumption.
Qed.

Lemma load_col_ok (Mx : matrix) (r k a b c : nat) :
  shape Mx r k -> (0 < r)%nat -> (c < k)%nat ->
  load_col Mx a b c = ret (col_slice Mx a b c).
Proof.
  intros Hs Hr Hc. unfold load_col.
  rewrite (ncols_shape Mx r k Hs Hr).
  replace (k <=? c)%nat with false; [reflexivity |].
  symmetry. apply Nat.leb_gt. exact Hc.
Qed.

Lemma store_col_ok (Mx : matrix) (r k a b c : nat) (vals : array) :
  shape Mx r k -> (0 < r)%nat -> (c < k)%nat ->
  length vals = Nat.min (b - a) (r - a) ->
  store_col Mx a b c vals =
  ([EvStore a (length vals) c], inr (write_col Mx a c vals)).
Proof.
  intros Hs Hr Hc Hlen. unfold store_col.
  rewrite (ncols_shape Mx r k Hs Hr).
  replace (k <=? c)%nat with false by (symmetry; now apply Nat.leb_gt).
  rewrite length_firstn, length_skipn.
  destruct Hs as [Hrows _]. rewrite Hrows, <- Hlen, Nat.eqb_refl.
  reflexivity.
Qed.

Lemma store_col_scalar_ok (Mx : matrix) (r k a b c : nat) (v : R) :
  shape Mx r k -> (0 < r)%nat -> (c < k)%nat ->
  store_col Mx a b c [v] =
  ([EvStore a (Nat.min (b - a) (r - a)) c],
   inr (write_col Mx a c (repeat v (Nat.min (b - a) (r - a))))).
Proof.
  intros Hs Hr Hc. unfold store_col.
  rewrite (ncols_shape Mx r k Hs Hr).
  replace (k <=? c)%nat with false by (symmetry; now apply Nat.leb_gt).
  rewrite length_firstn, length_skipn.
  destruct Hs as [Hrows _]. rewrite Hrows.
  simpl length. simpl hd.
  destruct (Nat.eqb_spec 1 (Nat.min (b - a) (r - a))) as [E | E].
  - rewrite <- E. reflexivity.
  - reflexivity.
Qed.

(** ** Backward induction on a lattice

    A backward step at column [t] overwrites the rows [lo t .. hi t] of that
    column with a value computed from the three neighbouring entries of
    column [t + 1].  After [k] steps the columns [n - k .. n - 1] satisfy
    the recurrence and every other entry is as it was. *)

Section Lattice.

Variables (rows cols n : nat) (lo hi : nat -> nat).

Local Abbreviation in_lattice := (in_lattice n lo hi).
Local Abbreviation step_spec := (step_spec rows cols lo hi).
Local Abbreviation lattice_inv := (lattice_inv rows cols n lo hi).

Lemma in_lattice_S (k i c : nat) :
  (k < n)%nat ->
  in_lattice (S k) i c <->
  in_lattice k i c \/ (c = n - 1 - k /\ lo c <= i <= hi c)%nat.
Proof. unfold in_lattice. lia. Qed.

Lemma step_cond (t i c : nat) :
  (c =? t)%nat && (lo t <=? i)%nat && (i <=? hi t)%nat = true <->
  (c = t /\ lo t <= i <= hi t)%nat.
Proof.
  rewrite !andb_true_iff, Nat.eqb_eq, !Nat.leb_le. lia.
Qed.

Lemma recurrence_frame rule (t t' : nat) (V V' : matrix) (i : nat) :
  (forall j c, c <> t -> get V' j c = get V j c) ->
  (t' + 1 <> t)%nat ->
  recurrence rule V' i t' = recurrence rule V i t'.
Proof.
  intros Hframe Hne. unfold recurrence. now rewrite !Hframe.
Qed.

Lemma step_frame rule (t : nat) (V W V' : matrix) :
  step_spec rule t V W V' ->
  forall j c, c <> t -> get V' j c = get V j c.
Proof.
  intros [_ Hget] j c Hc. rewrite Hget.
  replace (c =? t)%nat with false; [reflexivity |].
  symmetry. now apply Nat.eqb_neq.
Qed.

(** The value lattice: the recurrence reads the lattice itself. *)
Lemma lattice_inv_step rule (V0 V V' : matrix) (k : nat) :
  (k < n)%nat ->
  lattice_inv rule V0 k V V ->
  step_spec rule (n - 1 - k) V V V' ->
  lattice_inv rule V0 (S k) V' V'.
Proof.
  intros Hk (Hshape & Hout & Hin) Hstep.
  pose proof (step_frame _ _ _ _ _ Hstep) as Hframe.
  destruct Hstep as [Hshape' Hget].
  split; [exact Hshape' |]. split.
  - intros i c Hnot. rewrite Hget.
    destruct (_ && _) eqn:E.
    + apply step_cond in E. destruct E as [-> E]. exfalso. apply Hnot.
      apply in_lattice_S; [exact Hk | right; lia].
    + apply Hout. intros H. apply Hnot.
      apply in_lattice_S; [exact Hk | now left].
  - intros i t Hlat. apply in_lattice_S in Hlat; [| exact Hk].
    rewrite Hget. destruct (_ && _) eqn:E.
    + apply step_cond in E. destruct E as [-> _].
      symmetry. apply (recurrence_frame rule (n - 1 - k)); [exact Hframe | lia].
    + destruct Hlat as [Hlat | Hlat].
      * rewrite (Hin i t Hlat).
        symmetry. apply (recurrence_frame rule (n - 1 - k)); [exact Hframe |].
        unfold in_lattice in Hlat. lia.
      * exfalso. apply not_true_iff_false in E. apply E.
        apply step_cond. destruct Hlat as [-> Hlat]. lia.
Qed.

(** A second matrix filled along with the value lattice, from the value
    lattice (the early-exercise matrix). *)
Lemma lattice_inv_step2 frule (V V' E0 Ex Ex' : matrix) (k : nat) :
  (k < n)%nat ->
  (forall j c, c <> (n - 1 - k)%nat -> get V' j c = get V j c) ->
  lattice_inv frule E0 k V Ex ->
  step_spec frule (n - 1 - k) Ex V' Ex' ->
  lattice_inv frule E0 (S k) V' Ex'.
Proof.
  intros Hk Hframe (Hshape & Hout & Hin) [Hshape' Hget].
  split; [exact Hshape' |]. split.
  - intros i c Hnot. rewrite Hget.
    destruct (_ && _) eqn:E.
    + apply step_cond in E. destruct E as [-> E]. exfalso. apply Hnot.
      apply in_lattice_S; [exact Hk | right; lia].
    + apply Hout. intros H. apply Hnot.
      apply in_lattice_S; [exact Hk | now left].
  - intros i t Hlat. apply in_lattice_S in Hlat; [| exact Hk].
    rewrite Hget. destruct (_ && _) eqn:E.
    + apply step_cond in E. now destruct E as [-> _].
    + destruct Hlat as [Hlat | Hlat].
      * rewrite (Hin i t Hlat).
        symmetry. apply (recurrence_frame frule (n - 1 - k)); [exact Hframe |].
        unfold in_lattice in Hlat. lia.
      * exfalso. apply not_true_iff_false in E. apply E.
        apply step_cond. destruct Hlat as [-> Hlat]. lia.
Qed.

Lemma lattice_inv_0 rule (V0 W : matrix) :
  shape V0 rows cols -> lattice_inv rule V0 0 W V0.
Proof.
  intros Hs. split; [exact Hs |]. split; [reflexivity |].
  intros i t [H _]. lia.
Qed.

(** What a store of a computed column establishes. *)
Lemma store_step rule (t : nat) (V W : matrix) (vals : array) :
  shape V rows cols -> (t < cols)%nat -> (hi t < rows)%nat ->
  (lo t <= hi t)%nat ->
  length vals = (hi t + 1 - lo t)%nat ->
  (forall j, (j < length vals)%nat ->
     nth j vals 0 = recurrence rule W (lo t + j) t) ->
  step_spec rule t V W (write_col V (lo t) t vals).
Proof.
  intros Hs Ht Hhi Hlohi Hlen Hvals. split.
  - now apply write_col_shape.
  - intros i c.
    rewrite (get_write_col V (lo t) t vals rows cols) by (auto; lia).
    rewrite Hlen.
    replace (i <? lo t + (hi t + 1 - lo t))%nat with (i <=? hi t)%nat.
    + destruct (_ && _) eqn:E; [| reflexivity].
      apply step_cond in E.
      rewrite Hvals by lia. f_equal. lia.
    + destruct (Nat.leb_spec i (hi t)), (Nat.ltb_spec i (lo t + (hi t + 1 - lo t)));
        auto; lia.
Qed.

End Lattice.

Lemma yields_exact {A} (m : M A) tr0 a0 :
  m = (tr0, inr a0) -> yields m (fun tr a => tr = tr0 /\ a = a0).
Proof. intros E. exists tr0, a0. auto. Qed.

Lemma store_item_ok (Mx : matrix) (r k : nat) (i j : Z) (v : R) :
  shape Mx r k -> (0 <= i < Z.of_nat r)%Z -> (0 <= j < Z.of_nat k)%Z ->
  store_item Mx i j v =
  ([EvStore (Z.to_nat i) 1 (Z.to_nat j)],
   inr (write_col Mx (Z.to_nat i) (Z.to_nat j) [v])).
Proof.
  intros Hs Hi Hj. unfold store_item, py_index.
  rewrite (ncols_shape Mx r k Hs) by lia.
  destruct Hs as [Hr _]. unfold nrows. rewrite Hr.
  replace (0 <=? i)%Z with true by (symmetry; apply Z.leb_le; lia).
  replace (i <? Z.of_nat r)%Z with true by (symmetry; apply Z.ltb_lt; lia).
  replace (0 <=? j)%Z with true by (symmetry; apply Z.leb_le; lia).
  replace (j <? Z.of_nat k)%Z with true by (symmetry; apply Z.ltb_lt; lia).
  reflexivity.
Qed.

Lemma nth_map_seq (g : nat -> R) (m j : nat) :
  (j < m)%nat -> nth j (map g (seq 0 m)) 0 = g j.
Proof.
  intros Hj. rewrite nth_indep with (d' := g 0%nat) by now rewrite length_map, length_seq.
  rewrite map_nth, seq_nth by exact Hj. reflexivity.
Qed.

Lemma get_mmap (f : R -> R) (Mx : matrix) (i j : nat) :
  f 0 = 0 -> get (mmap f Mx) i j = f (get Mx i j).
Proof.
  intros Hf. unfold get, mmap.
  change (@nil R) with (map f []) at 1.
  rewrite (map_nth (map f)). rewrite <- Hf at 1. apply map_nth.
Qed.

Lemma shape_mmap (f : R -> R) (Mx : matrix) (r c : nat) :
  shape Mx r c -> shape (mmap f Mx) r c.
Proof.
  intros [Hr Hc]. split; unfold mmap.
  - now rewrite length_map.
  - apply Forall_forall. intros row Hin. apply in_map_iff in Hin.
    destruct Hin as (row' & <- & Hin). rewrite length_map.
    rewrite Forall_forall in Hc. now apply Hc.
Qed.

Lemma Rltb_true (x y : R) : Rltb x y = true <-> x < y.
Proof. unfold Rltb. destruct (Rlt_dec x y); split; auto; discriminate. Qed.

Lemma Rleb_true (x y : R) : Rleb x y = true <-> x <= y.
Proof. unfold Rleb. destruct (Rle_dec x y); split; auto; discriminate. Qed.

(** * The multiplicative binomial pricers *)

Lemma inv_dfact (r dt : R) : 1 / exp (- r * dt) = exp (r * dt).
Proof.
  replace (- r * dt) with (- (r * dt)) by ring.
  rewrite exp_Ropp. field. apply Rgt_not_eq, exp_pos.
Qed.

Lemma bracket_test (r u d dt : R) :
  Rltb 0 d && Rltb d (1 / exp (- r * dt)) && Rltb (1 / exp (- r * dt)) u = true
  <-> no_arbitrage_bracket r u d dt.
Proof.
  rewrite inv_dfact, !andb_true_iff, !Rltb_true.
  unfold no_arbitrage_bracket. tauto.
Qed.

Lemma BM_params_zero (r u d T : R) :
  BM_params r u d T 0 = raise ZeroDivisionError.
Proof. reflexivity. Qed.

Lemma BM_params_ok (r u d T : R) (Ntree : Z) :
  Ntree <> 0%Z -> no_arbitrage_bracket r u d (T / IZR Ntree) ->
  BM_params r u d T Ntree =
  ret (exp (- r * (T / IZR Ntree)),
       (exp (r * (T / IZR Ntree)) - d) / (u - d)).
Proof.
  intros HN Hb. unfold BM_params, py_div.
  replace (Ntree =? 0)%Z with false by (symmetry; now apply Z.eqb_neq).
  rewrite ret_bind. apply bracket_test in Hb. now rewrite Hb.
Qed.

Lemma BM_params_fail (r u d T : R) (Ntree : Z) :
  Ntree <> 0%Z -> ~ no_arbitrage_bracket r u d (T / IZR Ntree) ->
  BM_params r u d T Ntree = raise parameter_exception.
Proof.
  intros HN Hb. unfold BM_params, py_div.
  replace (Ntree =? 0)%Z with false by (symmetry; now apply Z.eqb_neq).
  rewrite ret_bind.
  destruct (_ && _) eqn:E; [| reflexivity].
  apply bracket_test in E. contradiction.
Qed.

Lemma in_triangle_true (n i c : nat) :
  in_triangle n i c = true <-> (n <= i + c /\ i <= n /\ c <= n)%nat.
Proof. unfold in_triangle. rewrite !andb_true_iff, !Nat.leb_le. tauto. Qed.

Lemma BM_price_column (S0 u d : R) (t j : nat) :
  (j <= t)%nat ->
  nth j (zip_with Rmult (scal S0 (map (pow u) (rev (seq 0 (t + 1)))))
                        (map (pow d) (seq 0 (t + 1)))) 0
  = S0 * u ^ (t - j) * d ^ j.
Proof.
  intros Hj.
  rewrite nth_zip_with.
  - rewrite nth_scal, rev_seq, map_map, !nth_map_seq by lia.
    do 2 f_equal. f_equal. lia.
  - now rewrite length_scal, !length_map, length_rev.
  - rewrite length_scal, length_map, length_rev, length_seq. lia.
Qed.

Lemma BM_prices_run (S0 u d : R) (Ntree : Z) :
  (1 <= Ntree)%Z ->
  yields (BM_prices S0 u d Ntree) (fun tr P =>
    tr = BM_prices_trace (Z.to_nat Ntree) /\
    shape P (Z.to_nat Ntree + 1) (Z.to_nat Ntree + 1) /\
    forall i c, get P i c =
      if in_triangle (Z.to_nat Ntree) i c
      then BM_node_price S0 u d (Z.to_nat Ntree) i c else 0).
Proof.
  intros HN. unfold BM_prices.
  set (n := Z.to_nat Ntree).
  assert (Z.to_nat (Ntree + 1) = (n + 1)%nat) as Hn1 by (unfold n; lia).
  eapply yields_bind.
  { apply yields_exact, np_zeros2_ok; lia. }
  intros ? ? [-> ->]. rewrite Hn1.
  eapply yields_bind.
  { apply yields_exact, (store_item_ok _ (n + 1) (n + 1));
      [apply shape_zeros | unfold n; lia | lia]. }
  intros ? ? [-> ->].
  replace (Z.to_nat Ntree) with n by reflexivity. change (Z.to_nat 0) with 0%nat.
  set (P0 := write_col (repeat (repeat 0 (n + 1)%nat) (n + 1)%nat) n 0 [S0]).
  assert (shape P0 (n + 1) (n + 1)) as HP0
    by (apply write_col_shape, shape_zeros).
  assert (forall i c, get P0 i c = if (c =? 0)%nat && (i =? n)%nat then S0 else 0)
    as HgetP0.
  { intros i c. unfold P0.
    rewrite (get_write_col _ n 0 [S0] (n + 1) (n + 1)) by (auto using shape_zeros; simpl; lia).
    rewrite get_zeros. simpl length.
    destruct (Nat.eqb_spec c 0); simpl; [| reflexivity].
    destruct (Nat.eqb_spec i n).
    - subst i. replace (n <=? n)%nat with true by (symmetry; apply Nat.leb_le; lia).
      replace (n <? n + 1)%nat with true by (symmetry; apply Nat.ltb_lt; lia).
      rewrite Nat.sub_diag. reflexivity.
    - destruct (Nat.leb_spec n i), (Nat.ltb_spec i (n + 1)); simpl; auto; lia. }
  rewrite range_as_map.
  eapply yields_weaken.
  { apply (for_each_seq (fun k tr P =>
       tr = map (fun t => EvStore (n - t) (t + 1) t) (seq 0 k) /\
       shape P (n + 1) (n + 1) /\
       forall i c, get P i c =
         if (c <? k)%nat && in_triangle n i c
         then BM_node_price S0 u d n i c else get P0 i c)).
    - split; [reflexivity |]. split; [exact HP0 |]. reflexivity.
    - intros k tr P Hk (-> & Hs & Hget).
      unfold np_mul. rewrite broadcast_same_length
        by now rewrite length_scal, !length_map, length_rev.
      rewrite ret_bind.
      unfold nrows. rewrite (proj1 Hs).
      rewrite (store_col_ok P (n + 1) (n + 1)); [| exact Hs | lia | lia |].
      2:{ rewrite length_zip_with, length_scal, !length_map, length_rev, length_seq. lia. }
      eexists _, _. split; [reflexivity |].
      split; [| split].
      + rewrite seq_S, map_app. simpl. do 3 f_equal.
        rewrite length_zip_with, length_scal, !length_map, length_rev, length_seq. lia.
      + now apply write_col_shape.
      + intros i c.
        rewrite (get_write_col P _ _ _ (n + 1) (n + 1)); [| exact Hs | lia |].
        2:{ rewrite length_zip_with, length_scal, !length_map, length_rev, length_seq. lia. }
        rewrite length_zip_with, length_scal, !length_map, length_rev, length_seq.
        rewrite Nat.min_id, Hget.
        destruct (Nat.eqb_spec c k) as [-> | Hc].
        * replace (k <? k)%nat with false by (symmetry; apply Nat.ltb_ge; lia).
          replace (k <? S k)%nat with true by (symmetry; apply Nat.ltb_lt; lia).
          simpl andb.
          destruct (in_triangle n i k) eqn:E.
          -- apply in_triangle_true in E.
             replace (n - k <=? i)%nat with true by (symmetry; apply Nat.leb_le; lia).
             replace (i <? n - k + (k + 1))%nat with true by (symmetry; apply Nat.ltb_lt; lia).
             simpl. rewrite BM_price_column by lia.
             unfold BM_node_price.
             replace (k - (i - (n - k)))%nat with (n - i)%nat by lia.
             replace (i - (n - k))%nat with (i + k - n)%nat by lia.
             reflexivity.
          -- destruct ((n - k <=? i)%nat && (i <? n - k + (k + 1))%nat) eqn:E2;
               [| reflexivity].
             apply andb_true_iff in E2. destruct E2 as [E2 E3].
             apply Nat.leb_le in E2. apply Nat.ltb_lt in E3.
             apply not_true_iff_false in E. exfalso. apply E.
             apply in_triangle_true. lia.
        * simpl andb.
          replace (c <? S k)%nat with (c <? k)%nat; [reflexivity |].
          destruct (Nat.ltb_spec c k), (Nat.ltb_spec c (S k)); auto; lia. }
  intros tr P (-> & Hs & Hget). split; [| split].
  - reflexivity.
  - exact Hs.
  - intros i c. rewrite Hget, HgetP0.
    destruct (in_triangle n i c) eqn:E.
    + apply in_triangle_true in E.
      replace (c <? n + 1)%nat with true by (symmetry; apply Nat.ltb_lt; lia).
      reflexivity.
    + rewrite andb_false_r.
      destruct (Nat.eqb_spec c 0); simpl; [| reflexivity].
      destruct (Nat.eqb_spec i n); [| reflexivity].
      apply not_true_iff_false in E. exfalso. apply E.
      apply in_triangle_true. lia.
Qed.

(** ** Whole-array subtraction and the strike matrix *)

Lemma shape_zip_with (f : R -> R -> R) (A B : matrix) (r c : nat) :
  shape A r c -> shape B r c -> shape (zip_with (zip_with f) A B) r c.
Proof.
  intros [HrA HcA] [HrB HcB]. split.
  - rewrite length_zip_with. lia.
  - apply Forall_forall. intros row Hin. unfold zip_with at 1 in Hin.
    apply in_map_iff in Hin. destruct Hin as ([ra rb] & <- & Hin). simpl.
    rewrite length_zip_with.
    rewrite Forall_forall in HcA, HcB.
    rewrite (HcA ra), (HcB rb); [lia | |].
    + eapply in_combine_r; eauto.
    + eapply in_combine_l; eauto.
Qed.

Lemma shape_row (Mx : matrix) (r c i : nat) :
  shape Mx r c -> (i < r)%nat -> length (nth i Mx []) = c.
Proof.
  intros [Hr Hc] Hi. rewrite Forall_nth in Hc. apply Hc. lia.
Qed.

Lemma get_zip_with (f : R -> R -> R) (A B : matrix) (r c i j : nat) :
  f 0 0 = 0 ->
  shape A r c -> shape B r c ->
  get (zip_with (zip_with f) A B) i j = f (get A i j) (get B i j).
Proof.
  intros Hf HA HB.
  pose proof (shape_zip_with f A B r c HA HB) as HZ.
  destruct (Nat.lt_ge_cases i r) as [Hi | Hi];
    [destruct (Nat.lt_ge_cases j c) as [Hj | Hj] |].
  - unfold get.
    assert (nth i (zip_with (zip_with f) A B) [] =
            zip_with f (nth i A []) (nth i B [])) as ->.
    { unfold zip_with at 1.
      rewrite nth_indep with (d' := (fun xy : list R * list R =>
                                       zip_with f (fst xy) (snd xy)) ([], []))
        by (rewrite length_map, length_combine; destruct HA, HB; lia).
      rewrite (map_nth (fun xy : list R * list R => zip_with f (fst xy) (snd xy))).
      rewrite combine_nth by (destruct HA, HB; lia). reflexivity. }
    apply nth_zip_with.
    + now rewrite (shape_row A r c), (shape_row B r c).
    + now rewrite (shape_row A r c).
  - rewrite (get_out_of_shape _ r c), (get_out_of_shape A r c),
      (get_out_of_shape B r c); auto.
  - rewrite (get_out_of_shape _ r c), (get_out_of_shape A r c),
      (get_out_of_shape B r c); auto.
Qed.

Lemma same_shape_true (A B : matrix) (r c : nat) :
  shape A r c -> shape B r c -> same_shape A B = true.
Proof.
  intros [HrA HcA] [HrB HcB]. unfold same_shape, nrows.
  rewrite HrA, HrB, Nat.eqb_refl. simpl.
  apply forallb_forall. intros [ra rb] Hin. simpl.
  rewrite Forall_forall in HcA, HcB.
  rewrite (HcA ra), (HcB rb); [apply Nat.eqb_refl | |].
  - eapply in_combine_r; eauto.
  - eapply in_combine_l; eauto.
Qed.

Lemma np_sub2_ok (A B : matrix) (r c : nat) :
  shape A r c -> shape B r c ->
  np_sub2 A B = ret (zip_with (zip_with Rminus) A B).
Proof.
  intros HA HB. unfold np_sub2. now rewrite (same_shape_true A B r c).
Qed.

Lemma shape_strikes (K : R) (m : nat) :
  shape (mmap (Rmult K) (np_fliplr (np_tri m))) m m.
Proof.
  apply shape_mmap. split.
  - unfold np_fliplr, np_tri. now rewrite !length_map, length_seq.
  - apply Forall_forall. intros row Hin. unfold np_fliplr, np_tri in Hin.
    rewrite map_map in Hin. apply in_map_iff in Hin.
    destruct Hin as (i & <- & _).
    now rewrite length_rev, length_map, length_seq.
Qed.

Lemma get_strikes (K : R) (n i j : nat) :
  get (mmap (Rmult K) (np_fliplr (np_tri (n + 1)))) i j =
  if in_triangle n i j then K else 0.
Proof.
  rewrite get_mmap by ring.
  destruct (in_triangle n i j) eqn:E.
  - apply in_triangle_true in E.
    unfold get, np_fliplr, np_tri. rewrite map_map.
    rewrite nth_indep with (d' := rev (map (fun j0 => if (j0 <=? 0)%nat then 1 else 0)
                                          (seq 0 (n + 1))))
      by (rewrite length_map, length_seq; lia).
    rewrite (map_nth (fun i0 => rev (map (fun j0 => if (j0 <=? i0)%nat then 1 else 0)
                                        (seq 0 (n + 1))))).
    rewrite seq_nth by lia. simpl plus.
    rewrite rev_nth by (rewrite length_map, length_seq; lia).
    rewrite length_map, length_seq, nth_map_seq by lia.
    replace (n + 1 - S j <=? i)%nat with true by (symmetry; apply Nat.leb_le; lia).
    ring.
  - destruct (Nat.lt_ge_cases i (n + 1)) as [Hi | Hi];
      [destruct (Nat.lt_ge_cases j (n + 1)) as [Hj | Hj] |].
    + unfold get, np_fliplr, np_tri. rewrite map_map.
      rewrite nth_indep with (d' := rev (map (fun j0 => if (j0 <=? 0)%nat then 1 else 0)
                                            (seq 0 (n + 1))))
        by (rewrite length_map, length_seq; lia).
      rewrite (map_nth (fun i0 => rev (map (fun j0 => if (j0 <=? i0)%nat then 1 else 0)
                                          (seq 0 (n + 1))))).
      rewrite seq_nth by lia. simpl plus.
      rewrite rev_nth by (rewrite length_map, length_seq; lia).
      rewrite length_map, length_seq, nth_map_seq by lia.
      replace (n + 1 - S j <=? i)%nat with false; [ring |].
      symmetry. apply Nat.leb_gt.
      apply not_true_iff_false in E. rewrite in_triangle_true in E. lia.
    + rewrite (get_out_of_shape (np_fliplr (np_tri (n + 1))) (n + 1) (n + 1));
        [ring | | auto].
      pose proof (shape_strikes 1 (n + 1)) as H.
      unfold mmap in H. destruct H as [H1 H2]. split.
      * now rewrite length_map in H1.
      * apply Forall_forall. intros row Hin.
        rewrite Forall_forall in H2.
        specialize (H2 (map (Rmult 1) row) (in_map _ _ _ Hin)).
        now rewrite length_map in H2.
    + rewrite (get_out_of_shape (np_fliplr (np_tri (n + 1))) (n + 1) (n + 1));
        [ring | | auto].
      pose proof (shape_strikes 1 (n + 1)) as H.
      unfold mmap in H. destruct H as [H1 H2]. split.
      * now rewrite length_map in H1.
      * apply Forall_forall. intros row Hin.
        rewrite Forall_forall in H2.
        specialize (H2 (map (Rmult 1) row) (in_map _ _ _ Hin)).
        now rewrite length_map in H2.
Qed.

(** ** The payoff by option type *)

Lemma clamp_call_0 : clamp_call 0 = 0.
Proof.
  unfold clamp_call. destruct (Rltb 0 0) eqn:E; [| reflexivity].
  apply Rltb_true in E. lra.
Qed.

Lemma clamp_put_0 : clamp_put 0 = 0.
Proof. unfold clamp_put. destruct (Rltb 0 0); ring. Qed.

Lemma payoff_fn_0 (optype : string) : payoff_fn optype 0 = 0.
Proof.
  unfold payoff_fn. destruct (_ =? _)%string;
    [apply clamp_call_0 | apply clamp_put_0].
Qed.

Lemma payoff_fn_intrinsic (optype : string) (S K : R) :
  payoff_fn optype (S - K) = intrinsic optype S K.
Proof.
  unfold payoff_fn, intrinsic, clamp_call, clamp_put, Rltb.
  destruct (_ =? _)%string.
  - destruct (Rlt_dec (S - K) 0).
    + rewrite Rmax_right; lra.
    + rewrite Rmax_left; lra.
  - destruct (Rlt_dec 0 (S - K)).
    + rewrite Rmax_right; lra.
    + rewrite Rmax_left; lra.
Qed.

Lemma intrinsic_nonneg (optype : string) (S K : R) : 0 <= intrinsic optype S K.
Proof. unfold intrinsic. destruct (_ =? _)%string; apply Rmax_r. Qed.

Lemma payoff_by_optype_valid {A} (amap : (R -> R) -> A -> A) optype (X : A) :
  valid_optype optype ->
  payoff_by_optype amap optype X = ret (amap (payoff_fn optype) X).
Proof.
  intros [-> | ->]; reflexivity.
Qed.

Lemma payoff_by_optype_invalid {A} (amap : (R -> R) -> A -> A) optype (X : A) :
  ~ valid_optype optype ->
  payoff_by_optype amap optype X = raise optype_exception.
Proof.
  intros H. unfold payoff_by_optype.
  destruct (String.eqb_spec optype "call") as [E | _];
    [exfalso; apply H; now left |].
  destruct (String.eqb_spec optype "put") as [E | _];
    [exfalso; apply H; now right |].
  reflexivity.
Qed.

(** ** The binomial payoff matrix *)

Lemma BM_payoff_run (S0 K u d : R) (Ntree : Z) :
  (1 <= Ntree)%Z ->
  exists X, shape X (Z.to_nat Ntree + 1) (Z.to_nat Ntree + 1) /\
    (forall optype i c, get (mmap (payoff_fn optype) X) i c =
                        BM_node_payoff S0 K u d optype (Z.to_nat Ntree) i c) /\
    forall optype,
      BM_payoff S0 K u d Ntree optype =
      bind (BM_prices_trace (Z.to_nat Ntree), inr X) (payoff_by_optype mmap optype).
Proof.
  intros HN.
  destruct (BM_prices_run S0 u d Ntree HN) as (tr & P & E & -> & Hs & Hget).
  set (n := Z.to_nat Ntree) in *.
  exists (zip_with (zip_with Rminus) P (mmap (Rmult K) (np_fliplr (np_tri (n + 1))))).
  split; [| split].
  - apply shape_zip_with; [exact Hs | apply shape_strikes].
  - intros optype i c.
    rewrite get_mmap by apply payoff_fn_0.
    rewrite (get_zip_with Rminus _ _ (n + 1) (n + 1));
      [| ring | exact Hs | apply shape_strikes].
    rewrite Hget, get_strikes. unfold BM_node_payoff.
    destruct (in_triangle n i c).
    + apply payoff_fn_intrinsic.
    + rewrite Rminus_0_r. apply payoff_fn_0.
  - intros optype. unfold BM_payoff. rewrite E. fold n.
    unfold bind at 1. unfold bind at 2.
    rewrite (np_sub2_ok _ _ (n + 1) (n + 1)); [| exact Hs | apply shape_strikes].
    rewrite ret_bind. reflexivity.
Qed.

Lemma bind_value_ret {A B} tr (a : A) (b : B) (f : A -> M B) :
  f a = ret b -> bind (tr, inr a) f = (tr, inr b).
Proof. intros H. unfold bind. rewrite H. simpl. now rewrite app_nil_r. Qed.

Lemma bind_value_raise {A B} tr (a : A) e (f : A -> M B) :
  f a = raise e -> bind (tr, inr a) f = (tr, inl e).
Proof. intros H. unfold bind. rewrite H. simpl. now rewrite app_nil_r. Qed.

(** ** The value matrix at maturity *)

Lemma terminal_values_run (rows cols : Z) (Pmat : matrix) :
  (0 < rows)%Z -> (0 < cols)%Z ->
  shape Pmat (Z.to_nat rows) (Z.to_nat cols) ->
  yields (terminal_values rows cols Pmat) (fun tr V =>
    tr = [EvAlloc [Z.to_nat rows; Z.to_nat cols];
          EvStore 0 (Z.to_nat rows) (Z.to_nat cols - 1)] /\
    shape V (Z.to_nat rows) (Z.to_nat cols) /\
    forall i j, get V i j =
      if (j =? Z.to_nat cols - 1)%nat then get Pmat i j else 0).
Proof.
  intros Hr Hc Hs. unfold terminal_values.
  set (r := Z.to_nat rows) in *. set (c := Z.to_nat cols) in *.
  assert (0 < r)%nat as Hr' by (unfold r; lia).
  assert (0 < c)%nat as Hc' by (unfold c; lia).
  rewrite np_zeros2_ok by lia. fold r c.
  pose proof (shape_zeros r c) as Hz.
  set (Z0 := repeat (repeat 0 c) r) in *.
  unfold bind at 1.
  rewrite (ncols_shape Pmat r c Hs Hr'), (load_col_ok Pmat r c) by (auto; lia).
  rewrite ret_bind.
  rewrite (ncols_shape Z0 r c Hz Hr').
  unfold nrows. rewrite (proj1 Hs), (proj1 Hz).
  assert (length (col_slice Pmat 0 r (c - 1)) = r) as Hlen.
  { rewrite length_col_slice, (proj1 Hs). lia. }
  rewrite (store_col_ok Z0 r c); [| exact Hz | lia | lia | rewrite Hlen; lia].
  rewrite Hlen. simpl app.
  eexists _, _. split; [reflexivity |].
  split; [reflexivity |]. split; [now apply write_col_shape |].
  intros i j.
  rewrite (get_write_col Z0 _ _ _ r c); [| exact Hz | lia | lia].
  rewrite Hlen. unfold Z0. rewrite get_zeros. simpl Nat.leb. rewrite andb_true_r.
  destruct (Nat.eqb_spec j (c - 1)) as [-> | _]; simpl; [| reflexivity].
  destruct (Nat.ltb_spec i r) as [Hi | Hi].
  - rewrite nth_col_slice by lia. f_equal. lia.
  - symmetry. apply (get_out_of_shape Pmat r c); auto.
Qed.

(** ** Backward steps *)

Lemma store_col_step (rows cols : nat) (lo hi : nat -> nat) rule
    (t a b : nat) (V W : matrix) (vals : array) :
  shape V rows cols -> (t < cols)%nat -> (hi t < rows)%nat ->
  (lo t <= hi t)%nat -> a = lo t -> b = (hi t + 1)%nat ->
  length vals = (hi t + 1 - lo t)%nat ->
  (forall j, (j < length vals)%nat ->
     nth j vals 0 = recurrence rule W (lo t + j) t) ->
  yields (store_col V a b t vals)
         (fun _ V' => step_spec rows cols lo hi rule t V W V').
Proof.
  intros Hs Ht Hhi Hlohi -> -> Hlen Hvals.
  rewrite (store_col_ok V rows cols); [| exact Hs | lia | exact Ht | lia].
  eexists _, _. split; [reflexivity |].
  now apply store_step.
Qed.

Section Binomial.

Variables (dfact p : R) (n : nat) (Pmat : matrix).

Local Abbreviation BM_lo := (BM_lo n).
Local Abbreviation BM_hi := (BM_hi n).
Local Abbreviation BM_rule_euro := (BM_rule_euro dfact p).
Local Abbreviation BM_rule_amer := (BM_rule_amer dfact p Pmat).
Local Abbreviation BM_rule_flag := (BM_rule_flag dfact p Pmat).
Local Abbreviation BM_inv := (BM_inv n).
Local Abbreviation BM_step := (BM_step n).

Lemma BM_continuation_run (m t : nat) (V : matrix) :
  shape V (n + 1) (n + 1) -> (m + t + 1 = n)%nat ->
  exists C, BM_continuation dfact p n m t V = ret C /\
    length C = (t + 1)%nat /\
    forall j, (j < t + 1)%nat ->
      nth j C 0 = recurrence BM_rule_euro V (BM_lo t + j) t.
Proof.
  intros Hs Hmt. unfold BM_continuation, nrows.
  rewrite (proj1 Hs).
  rewrite !(load_col_ok V (n + 1) (n + 1)) by (auto; lia).
  rewrite !ret_bind. unfold np_add.
  assert (length (col_slice V m n (t + 1)) = (t + 1)%nat) as L1
    by (rewrite length_col_slice, (proj1 Hs); lia).
  assert (length (col_slice V (m + 1) (n + 1) (t + 1)) = (t + 1)%nat) as L2
    by (rewrite length_col_slice, (proj1 Hs); lia).
  rewrite broadcast_same_length by (rewrite !length_scal; lia).
  rewrite ret_bind. eexists. split; [reflexivity |]. split.
  - rewrite length_scal, length_zip_with, !length_scal. lia.
  - intros j Hj.
    rewrite nth_scal, nth_zip_with, !nth_scal, !nth_col_slice
      by (rewrite ?length_scal; lia).
    unfold recurrence, BM_rule_euro, BM_lo.
    do 3 f_equal; f_equal; lia.
Qed.

Lemma BM_payoff_column (m t : nat) :
  shape Pmat (n + 1) (n + 1) -> (m + t + 1 = n)%nat ->
  load_col Pmat (m + 1) (nrows Pmat) t
  = ret (col_slice Pmat (m + 1) (n + 1) t) /\
  length (col_slice Pmat (m + 1) (n + 1) t) = (t + 1)%nat /\
  forall j, (j < t + 1)%nat ->
    nth j (col_slice Pmat (m + 1) (n + 1) t) 0 = get Pmat (BM_lo t + j) t.
Proof.
  intros Hs Hmt. unfold nrows. rewrite (proj1 Hs).
  rewrite (load_col_ok Pmat (n + 1) (n + 1)) by (auto; lia).
  split; [reflexivity |]. split.
  - rewrite length_col_slice, (proj1 Hs). lia.
  - intros j Hj. rewrite nth_col_slice by lia. unfold BM_lo. f_equal. lia.
Qed.

Lemma BM_Euro_step (k : nat) (V : matrix) :
  (k < n)%nat -> shape V (n + 1) (n + 1) ->
  yields (C <- BM_continuation dfact p n k (n - 1 - k) V ;;
          store_col V (k + 1) (nrows V) (n - 1 - k) C)
         (fun _ V' => BM_step BM_rule_euro (n - 1 - k) V V V').
Proof.
  intros Hk Hs.
  destruct (BM_continuation_run k (n - 1 - k) V Hs) as (C & -> & HL & HC);
    [lia |].
  rewrite ret_bind. unfold nrows. rewrite (proj1 Hs).
  apply (store_col_step (n + 1) (n + 1) BM_lo BM_hi); unfold BM_lo, BM_hi;
    auto; try lia.
  intros j Hj. apply HC. lia.
Qed.

Lemma BM_Amer_store (k : nat) (V : matrix) :
  (k < n)%nat -> shape V (n + 1) (n + 1) -> shape Pmat (n + 1) (n + 1) ->
  yields (C <- BM_continuation dfact p n k (n - 1 - k) V ;;
          P <- load_col Pmat (k + 1) (nrows Pmat) (n - 1 - k) ;;
          W <- np_maximum C P ;;
          store_col V (k + 1) (nrows V) (n - 1 - k) W)
         (fun _ V' => BM_step BM_rule_amer (n - 1 - k) V V V').
Proof.
  intros Hk Hs HP.
  destruct (BM_continuation_run k (n - 1 - k) V Hs) as (C & -> & HL & HC);
    [lia |].
  destruct (BM_payoff_column k (n - 1 - k) HP) as (-> & HLP & HPj); [lia |].
  rewrite !ret_bind. unfold np_maximum.
  rewrite broadcast_same_length by lia.
  rewrite ret_bind. unfold nrows. rewrite (proj1 Hs).
  apply (store_col_step (n + 1) (n + 1) BM_lo BM_hi); unfold BM_lo, BM_hi;
    auto; try lia.
  - rewrite length_zip_with. lia.
  - intros j Hj. rewrite length_zip_with in Hj.
    rewrite nth_zip_with, HC, HPj by lia. reflexivity.
Qed.

Lemma BM_flag_store (k : nat) (V Ex : matrix) :
  (k < n)%nat -> shape V (n + 1) (n + 1) -> shape Pmat (n + 1) (n + 1) ->
  shape Ex (n + 1) (n + 1) ->
  yields (C <- BM_continuation dfact p n k (n - 1 - k) V ;;
          P <- load_col Pmat (k + 1) (nrows Pmat) (n - 1 - k) ;;
          D <- np_sub C P ;;
          store_col Ex (k + 1) (nrows Ex) (n - 1 - k) (map exercise_flag D))
         (fun _ Ex' => BM_step BM_rule_flag (n - 1 - k) Ex V Ex').
Proof.
  intros Hk Hs HP HE.
  destruct (BM_continuation_run k (n - 1 - k) V Hs) as (C & -> & HL & HC);
    [lia |].
  destruct (BM_payoff_column k (n - 1 - k) HP) as (-> & HLP & HPj); [lia |].
  rewrite !ret_bind. unfold np_sub.
  rewrite broadcast_same_length by lia.
  rewrite ret_bind. unfold nrows. rewrite (proj1 HE).
  apply (store_col_step (n + 1) (n + 1) BM_lo BM_hi); unfold BM_lo, BM_hi;
    auto; try lia.
  - rewrite length_map, length_zip_with. lia.
  - intros j Hj. rewrite length_map, length_zip_with in Hj.
    rewrite nth_indep with (d' := exercise_flag 0)
      by (rewrite length_map, length_zip_with; lia).
    rewrite map_nth, nth_zip_with, HC, HPj by lia. reflexivity.
Qed.

(** The three backward loops. *)
Lemma BM_Euro_loop (V0 : matrix) :
  shape V0 (n + 1) (n + 1) ->
  yields (for_each (enumerate (range_down n)) (fun mt Vmat =>
            let '(m, t) := mt in
            C <- BM_continuation dfact p n m t Vmat ;;
            store_col Vmat (m + 1) (nrows Vmat) t C) V0)
         (fun _ V => BM_inv BM_rule_euro V0 n V V).
Proof.
  intros Hs. rewrite enumerate_range_down.
  apply (for_each_seq (fun k _ V => BM_inv BM_rule_euro V0 k V V)).
  - now apply lattice_inv_0.
  - intros k tr V Hk Hinv.
    eapply yields_weaken; [apply BM_Euro_step; [exact Hk | apply Hinv] |].
    intros ? V' Hstep. now apply lattice_inv_step with (V := V).
Qed.

Lemma BM_Amer_loop (V0 : matrix) :
  shape V0 (n + 1) (n + 1) -> shape Pmat (n + 1) (n + 1) ->
  yields (for_each (enumerate (range_down n)) (fun mt Vmat =>
            let '(m, t) := mt in
            C <- BM_continuation dfact p n m t Vmat ;;
            P <- load_col Pmat (m + 1) (nrows Pmat) t ;;
            V <- np_maximum C P ;;
            store_col Vmat (m + 1) (nrows Vmat) t V) V0)
         (fun _ V => BM_inv BM_rule_amer V0 n V V).
Proof.
  intros Hs HP. rewrite enumerate_range_down.
  apply (for_each_seq (fun k _ V => BM_inv BM_rule_amer V0 k V V)).
  - now apply lattice_inv_0.
  - intros k tr V Hk Hinv.
    eapply yields_weaken; [apply BM_Amer_store; [exact Hk | apply Hinv | exact HP] |].
    intros ? V' Hstep. now apply lattice_inv_step with (V := V).
Qed.

Lemma BM_Amer_exmat_loop (V0 E0 : matrix) :
  shape V0 (n + 1) (n + 1) -> shape Pmat (n + 1) (n + 1) ->
  shape E0 (n + 1) (n + 1) ->
  yields (for_each (enumerate (range_down n)) (fun mt st =>
            let '(m, t) := mt in
            let '(Vmat, Exmat) := st in
            C <- BM_continuation dfact p n m t Vmat ;;
            P <- load_col Pmat (m + 1) (nrows Pmat) t ;;
            V <- np_maximum C P ;;
            Vmat <- store_col Vmat (m + 1) (nrows Vmat) t V ;;
            C' <- BM_continuation dfact p n m t Vmat ;;
            P' <- load_col Pmat (m + 1) (nrows Pmat) t ;;
            D <- np_sub C' P' ;;
            Exmat <- store_col Exmat (m + 1) (nrows Exmat) t (map exercise_flag D) ;;
            ret (Vmat, Exmat)) (V0, E0))
         (fun _ st => BM_inv BM_rule_amer V0 n (fst st) (fst st) /\
                      BM_inv BM_rule_flag E0 n (fst st) (snd st)).
Proof.
  intros Hs HP HE. rewrite enumerate_range_down.
  apply (for_each_seq (fun k _ st =>
           BM_inv BM_rule_amer V0 k (fst st) (fst st) /\
           BM_inv BM_rule_flag E0 k (fst st) (snd st))).
  - split; now apply lattice_inv_0.
  - intros k tr [V Ex] Hk [HinvV HinvE]. simpl in HinvV, HinvE.
    match goal with |- yields ?body _ =>
      assert (body =
        (V' <- (C <- BM_continuation dfact p n k (n - 1 - k) V ;;
                P <- load_col Pmat (k + 1) (nrows Pmat) (n - 1 - k) ;;
                W <- np_maximum C P ;;
                store_col V (k + 1) (nrows V) (n - 1 - k) W) ;;
         Ex' <- (C <- BM_continuation dfact p n k (n - 1 - k) V' ;;
                 P <- load_col Pmat (k + 1) (nrows Pmat) (n - 1 - k) ;;
                 D <- np_sub C P ;;
                 store_col Ex (k + 1) (nrows Ex) (n - 1 - k)
                   (map exercise_flag D)) ;;
         ret (V', Ex'))) as ->
    end.
    { symmetry.
      do 3 (rewrite bind_assoc; apply bind_ext; intro).
      apply bind_ext; intro.
      do 3 (rewrite bind_assoc; apply bind_ext; intro).
      reflexivity. }
    eapply yields_bind; [apply BM_Amer_store; [exact Hk | apply HinvV | exact HP] |].
    intros tr1 V' Hstep. simpl in Hstep.
    eapply yields_bind;
      [apply BM_flag_store; [exact Hk | apply Hstep | exact HP | apply HinvE] |].
    intros tr2 Ex' Hstep2. simpl in Hstep2.
    apply yields_ret. simpl. split.
    + now apply lattice_inv_step with (V := V).
    + apply lattice_inv_step2 with (V := V) (Ex := Ex); auto.
      eapply step_frame. exact Hstep.
Qed.

End Binomial.

(** ** The lattices the binomial pricers return

    Node [(i, j)] of the specification, time step [i] with [j] up moves, is
    the entry [V[n - j, i]] of the returned matrix. *)

Lemma BM_inv_lattice (S0 K u d : R) (optype : string) (n : nat)
    (rule : R -> R -> R -> nat -> nat -> R) (node : matrix -> nat -> nat -> R)
    (Pmat V0 V : matrix) :
  (forall i c, get Pmat i c = BM_node_payoff S0 K u d optype n i c) ->
  (forall i j, get V0 i j = if (j =? n)%nat then get Pmat i j else 0) ->
  (forall W i t, recurrence rule W i t = node W i t) ->
  BM_inv n rule V0 n V V ->
  BM_lattice S0 K u d optype n node V.
Proof.
  intros HP HV0 Hrule (Hs & Hout & Hin).
  split; [exact Hs |]. split; [| split].
  - intros i. rewrite Hout, HV0, Nat.eqb_refl; [apply HP |].
    unfold in_lattice. lia.
  - intros i t Ht Hi. rewrite Hin; [apply Hrule |].
    unfold in_lattice, BM_lo, BM_hi. lia.
  - intros i t Ht Hi. rewrite Hout, HV0.
    + replace (t =? n)%nat with false; [reflexivity |].
      symmetry. apply Nat.eqb_neq. lia.
    + unfold in_lattice, BM_lo, BM_hi. lia.
Qed.

Lemma BM_inv_flags (S0 K u d : R) (optype : string) (n : nat) (dfact p : R)
    (Pmat V Ex : matrix) :
  (forall i c, get Pmat i c = BM_node_payoff S0 K u d optype n i c) ->
  BM_inv n (BM_rule_flag dfact p Pmat) (repeat (repeat 0 (n + 1)%nat) (n + 1)%nat)
         n V Ex ->
  BM_flags S0 K u d optype n dfact p V Ex.
Proof.
  intros HP (Hs & Hout & Hin).
  split; [exact Hs |]. split.
  - intros i t Ht Hi. rewrite Hin.
    + unfold recurrence, BM_rule_flag, BM_cont. now rewrite HP.
    + unfold in_lattice, BM_lo, BM_hi. lia.
  - intros i t Hnot. rewrite Hout; [apply get_zeros |].
    unfold in_lattice, BM_lo, BM_hi. lia.
Qed.

Section BinomialRuns.

Variables (S0 K r u d T : R) (Ntree : Z) (optype : string).

Hypothesis HN : (1 <= Ntree)%Z.
Hypothesis Hbracket : no_arbitrage_bracket r u d (T / IZR Ntree).
Hypothesis Hoptype : valid_optype optype.

Lemma BM_Euro_run :
  yields (BM_Euro S0 K r u d T Ntree optype)
         (fun _ V => BM_lattice S0 K u d optype (Z.to_nat Ntree)
                       (BM_euro_node (exp (- r * (T / IZR Ntree)))
                          ((exp (r * (T / IZR Ntree)) - d) / (u - d))) V).
Proof.
  set (n := Z.to_nat Ntree).
  set (dfact := exp (- r * (T / IZR Ntree))).
  set (p := (exp (r * (T / IZR Ntree)) - d) / (u - d)).
  unfold BM_Euro.
  rewrite BM_params_ok by (auto; lia). rewrite ret_bind.
  destruct (BM_payoff_run S0 K u d Ntree HN) as (X & HsX & HgetX & E).
  rewrite E, (bind_value_ret _ X _ _ (payoff_by_optype_valid mmap optype X Hoptype)).
  eapply yields_bind; [apply yields_exact; reflexivity |].
  intros ? Pmat [-> ->].
  assert (shape (mmap (payoff_fn optype) X) (n + 1) (n + 1)) as HsP
    by now apply shape_mmap.
  assert (Z.to_nat (Ntree + 1) = (n + 1)%nat) as Hn1 by (unfold n; lia).
  eapply yields_bind.
  { apply terminal_values_run; [lia | lia |]. now rewrite Hn1. }
  intros tr V0 (_ & HsV0 & HgetV0). simpl in HsV0, HgetV0.
  rewrite Hn1 in HsV0, HgetV0.
  replace (n + 1 - 1)%nat with n in HgetV0 by lia.
  eapply yields_weaken; [apply BM_Euro_loop; exact HsV0 |].
  intros tr' V Hinv. simpl.
  eapply BM_inv_lattice; [apply HgetX | exact HgetV0 | | exact Hinv].
  intros W i t. reflexivity.
Qed.

Lemma BM_Amer_run_plain :
  yields (BM_Amer S0 K r u d T Ntree optype false)
         (fun _ V => BM_lattice S0 K u d optype (Z.to_nat Ntree)
                       (BM_amer_node S0 K u d optype (Z.to_nat Ntree) (exp (- r * (T / IZR Ntree)))
                ((exp (r * (T / IZR Ntree)) - d) / (u - d))) V).
Proof.
  set (n := Z.to_nat Ntree).
  set (dfact := exp (- r * (T / IZR Ntree))).
  set (p := (exp (r * (T / IZR Ntree)) - d) / (u - d)).
  unfold BM_Amer.
  rewrite BM_params_ok by (auto; lia). rewrite ret_bind.
  destruct (BM_payoff_run S0 K u d Ntree HN) as (X & HsX & HgetX & E).
  rewrite E, (bind_value_ret _ X _ _ (payoff_by_optype_valid mmap optype X Hoptype)).
  eapply yields_bind; [apply yields_exact; reflexivity |].
  intros ? Pmat [-> ->].
  assert (shape (mmap (payoff_fn optype) X) (n + 1) (n + 1)) as HsP
    by now apply shape_mmap.
  assert (Z.to_nat (Ntree + 1) = (n + 1)%nat) as Hn1 by (unfold n; lia).
  eapply yields_bind.
  { apply terminal_values_run; [lia | lia |]. now rewrite Hn1. }
  intros tr V0 (_ & HsV0 & HgetV0). simpl in HsV0, HgetV0.
  rewrite Hn1 in HsV0, HgetV0.
  replace (n + 1 - 1)%nat with n in HgetV0 by lia.
  simpl negb. cbv iota. rewrite ret_bind.
  eapply yields_weaken; [apply BM_Amer_loop; [exact HsV0 | exact HsP] |].
  intros tr' V Hinv. simpl.
  eapply BM_inv_lattice; [apply HgetX | exact HgetV0 | | exact Hinv].
  intros W i t. unfold recurrence, BM_rule_amer, BM_amer_node, BM_cont.
  now rewrite HgetX.
Qed.

Lemma BM_Amer_run_exmat :
  yields (BM_Amer S0 K r u d T Ntree optype true)
         (fun tr V =>
            BM_lattice S0 K u d optype (Z.to_nat Ntree)
              (BM_amer_node S0 K u d optype (Z.to_nat Ntree) (exp (- r * (T / IZR Ntree)))
                ((exp (r * (T / IZR Ntree)) - d) / (u - d))) V /\
            exists tr0 Ex,
              tr = tr0 ++ [EvMatshow Ex; EvTitle "Early exercise"] /\
              BM_flags S0 K u d optype (Z.to_nat Ntree) (exp (- r * (T / IZR Ntree)))
                ((exp (r * (T / IZR Ntree)) - d) / (u - d)) V Ex).
Proof.
  set (n := Z.to_nat Ntree).
  set (dfact := exp (- r * (T / IZR Ntree))).
  set (p := (exp (r * (T / IZR Ntree)) - d) / (u - d)).
  unfold BM_Amer.
  rewrite BM_params_ok by (auto; lia). rewrite ret_bind.
  destruct (BM_payoff_run S0 K u d Ntree HN) as (X & HsX & HgetX & E).
  rewrite E, (bind_value_ret _ X _ _ (payoff_by_optype_valid mmap optype X Hoptype)).
  eapply yields_bind; [apply yields_exact; reflexivity |].
  intros ? Pmat [-> ->].
  assert (shape (mmap (payoff_fn optype) X) (n + 1) (n + 1)) as HsP
    by now apply shape_mmap.
  assert (Z.to_nat (Ntree + 1) = (n + 1)%nat) as Hn1 by (unfold n; lia).
  eapply yields_bind.
  { apply terminal_values_run; [lia | lia |]. now rewrite Hn1. }
  intros tr V0 (_ & HsV0 & HgetV0). simpl in HsV0, HgetV0.
  rewrite Hn1 in HsV0, HgetV0.
  replace (n + 1 - 1)%nat with n in HgetV0 by lia.
  simpl negb. cbv iota.
  destruct (BM_Amer_exmat_loop dfact p n (mmap (payoff_fn optype) X) V0
              (repeat (repeat 0 (n + 1)%nat) (n + 1)%nat) HsV0 HsP
              (shape_zeros _ _)) as (trL & [V Ex] & EL & HinvV & HinvE).
  simpl in HinvV, HinvE.
  eexists _, V. split.
  { eapply bind_value; [| reflexivity].
    eapply bind_value; [apply np_zeros2_ok; lia |]. rewrite Hn1.
    eapply bind_value; [exact EL |]. reflexivity. }
  split.
  - eapply BM_inv_lattice; [apply HgetX | exact HgetV0 | | exact HinvV].
    intros W i t. unfold recurrence, BM_rule_amer, BM_amer_node, BM_cont.
    now rewrite HgetX.
  - exists ((BM_prices_trace (Z.to_nat Ntree) ++ tr) ++
            [EvAlloc [Z.to_nat (Ntree + 1); Z.to_nat (Ntree + 1)]] ++ trL), Ex.
    split.
    + repeat rewrite <- app_assoc. reflexivity.
    + eapply BM_inv_flags; [apply HgetX | exact HinvE].
Qed.

End BinomialRuns.

(** * The additive trinomial pricers *)

Lemma aTM_params_zero (r sigma div T : R) :
  aTM_params r sigma div T 0 = raise ZeroDivisionError.
Proof. reflexivity. Qed.

Lemma aTM_params_ok (r sigma div T : R) (Ntree : Z) :
  Ntree <> 0%Z -> 0 < r -> 0 < sigma ->
  aTM_params r sigma div T Ntree = ret (aTM_prm r sigma div (T / IZR Ntree)).
Proof.
  intros HN Hr Hs. unfold aTM_params, py_div.
  replace (Ntree =? 0)%Z with false by (symmetry; now apply Z.eqb_neq).
  rewrite ret_bind.
  apply Rltb_true in Hr, Hs. now rewrite Hr, Hs.
Qed.

Lemma aTM_params_fail (r sigma div T : R) (Ntree : Z) :
  Ntree <> 0%Z -> ~ (0 < r /\ 0 < sigma) ->
  aTM_params r sigma div T Ntree = raise parameter_exception.
Proof.
  intros HN H. unfold aTM_params, py_div.
  replace (Ntree =? 0)%Z with false by (symmetry; now apply Z.eqb_neq).
  rewrite ret_bind.
  destruct (_ && _) eqn:E; [| reflexivity].
  apply andb_true_iff in E. rewrite !Rltb_true in E. contradiction.
Qed.

Lemma in_diamond_true (n i c : nat) :
  in_diamond n i c = true <-> (c <= n /\ n - c <= i <= n + c)%nat.
Proof. unfold in_diamond. rewrite !andb_true_iff, !Nat.leb_le. tauto. Qed.

Lemma length_arange (lo hi : Z) : length (arange lo hi) = Z.to_nat (hi - lo).
Proof. unfold arange. now rewrite length_map, length_seq. Qed.

Lemma aTM_price_column (S0 dx : R) (t j : nat) :
  (j < 2 * t + 1)%nat ->
  nth j (scal S0 (map (fun e => exp (dx * IZR e))
                      (rev (arange (- Z.of_nat t) (Z.of_nat t + 1))))) 0
  = S0 * exp (dx * IZR (Z.of_nat t - Z.of_nat j)).
Proof.
  intros Hj. rewrite nth_scal. f_equal.
  assert (length (arange (- Z.of_nat t) (Z.of_nat t + 1)) = (2 * t + 1)%nat) as HL
    by (rewrite length_arange; lia).
  rewrite nth_indep with (d' := (fun e => exp (dx * IZR e)) 0%Z)
    by (rewrite length_map, length_rev; lia).
  rewrite (map_nth (fun e => exp (dx * IZR e))).
  rewrite rev_nth by lia. rewrite HL.
  unfold arange.
  rewrite nth_indep with (d' := (fun k => (- Z.of_nat t + Z.of_nat k)%Z) 0%nat)
    by (rewrite length_map, length_seq; lia).
  rewrite (map_nth (fun k => (- Z.of_nat t + Z.of_nat k)%Z)).
  rewrite seq_nth by lia.
  do 3 f_equal. lia.
Qed.

Lemma flat_map_seq_S {A} (f : nat -> list A) (k : nat) :
  flat_map f (seq 0 (S k)) = flat_map f (seq 0 k) ++ f k.
Proof. now rewrite seq_S, flat_map_app; simpl; rewrite app_nil_r. Qed.

Lemma nth_repeat_lt (v : R) (m j : nat) :
  (j < m)%nat -> nth j (repeat v m) 0 = v.
Proof.
  intros H. rewrite nth_indep with (d' := v) by now rewrite repeat_length.
  apply nth_repeat.
Qed.

Lemma aTM_prices_run (S0 K dx : R) (Ntree : Z) :
  (1 <= Ntree)%Z ->
  yields (aTM_prices S0 K dx Ntree) (fun tr PK =>
    tr = aTM_prices_trace (Z.to_nat Ntree) /\
    shape (fst PK) (2 * Z.to_nat Ntree + 1) (Z.to_nat Ntree + 1) /\
    shape (snd PK) (2 * Z.to_nat Ntree + 1) (Z.to_nat Ntree + 1) /\
    forall i c,
      get (fst PK) i c =
        (if in_diamond (Z.to_nat Ntree) i c
         then aTM_node_price S0 dx (Z.to_nat Ntree) i else 0) /\
      get (snd PK) i c =
        (if in_diamond (Z.to_nat Ntree) i c then K else 0)).
Proof.
  intros HN. unfold aTM_prices.
  set (n := Z.to_nat Ntree).
  assert (Z.to_nat (2 * Ntree + 1) = (2 * n + 1)%nat) as Hr by (unfold n; lia).
  assert (Z.to_nat (Ntree + 1) = (n + 1)%nat) as Hc by (unfold n; lia).
  eapply yields_bind; [apply yields_exact, np_zeros2_ok; lia |].
  intros ? ? [-> ->].
  eapply yields_bind; [apply yields_exact, np_zeros2_ok; lia |].
  intros ? ? [-> ->]. rewrite Hr, Hc.
  set (Z0 := repeat (repeat 0 (n + 1)%nat) (2 * n + 1)%nat).
  rewrite range_as_map.
  eapply yields_weaken.
  { apply (for_each_seq (fun k tr PK =>
       tr = flat_map (fun t => [EvStore (n - t) (2 * t + 1) t;
                                EvStore (n - t) (2 * t + 1) t]) (seq 0 k) /\
       shape (fst PK) (2 * n + 1) (n + 1) /\
       shape (snd PK) (2 * n + 1) (n + 1) /\
       forall i c,
         get (fst PK) i c =
           (if (c <? k)%nat && in_diamond n i c
            then aTM_node_price S0 dx n i else 0) /\
         get (snd PK) i c =
           (if (c <? k)%nat && in_diamond n i c then K else 0))).
    - split; [reflexivity |]. cbn [fst snd].
      split; [apply shape_zeros |]. split; [apply shape_zeros |].
      intros i c. unfold Z0. rewrite get_zeros. simpl. auto.
    - intros k tr [P Km] Hk (-> & HsP & HsK & Hget). cbn [fst snd] in *.
      cbv iota.
      assert (length (scal S0 (map (fun e => exp (dx * IZR e))
                 (rev (arange (- Z.of_nat k) (Z.of_nat k + 1))))) = (2 * k + 1)%nat)
        as HL by (rewrite length_scal, length_map, length_rev, length_arange; lia).
      rewrite (store_col_ok P (2 * n + 1) (n + 1));
        [| exact HsP | lia | lia | rewrite HL; lia].
      unfold bind at 1.
      rewrite (store_col_scalar_ok Km (2 * n + 1) (n + 1)); [| exact HsK | lia | lia].
      replace (Nat.min (n + (k + 1) - (n - k)) (2 * n + 1 - (n - k)))
        with (2 * k + 1)%nat by lia.
      rewrite HL.
      eexists _, (_, _). split; [reflexivity |].
      cbn [fst snd].
      split; [| split; [| split]].
      + now rewrite flat_map_seq_S, app_nil_r.
      + now apply write_col_shape.
      + now apply write_col_shape.
      + intros i c.
        rewrite (get_write_col P _ _ _ (2 * n + 1) (n + 1));
          [| exact HsP | lia | rewrite HL; lia].
        rewrite (get_write_col Km _ _ _ (2 * n + 1) (n + 1));
          [| exact HsK | lia | rewrite repeat_length; lia].
        rewrite HL, repeat_length.
        destruct (Hget i c) as [HgP HgK]. rewrite HgP, HgK.
        destruct (Nat.eqb_spec c k) as [-> | Hck].
        * replace (k <? k)%nat with false by (symmetry; apply Nat.ltb_ge; lia).
          replace (k <? S k)%nat with true by (symmetry; apply Nat.ltb_lt; lia).
          cbn [andb].
          destruct (in_diamond n i k) eqn:E.
          -- apply in_diamond_true in E.
             replace (n - k <=? i)%nat with true by (symmetry; apply Nat.leb_le; lia).
             replace (i <? n - k + (2 * k + 1))%nat with true
               by (symmetry; apply Nat.ltb_lt; lia).
             rewrite aTM_price_column, nth_repeat_lt by lia.
             cbn [andb]. split; [| reflexivity].
             unfold aTM_node_price.
             replace (Z.of_nat k - Z.of_nat (i - (n - k)))%Z
               with (Z.of_nat n - Z.of_nat i)%Z by lia.
             reflexivity.
          -- destruct ((n - k <=? i)%nat && (i <? n - k + (2 * k + 1))%nat) eqn:E2;
               [| auto].
             apply andb_true_iff in E2. destruct E2 as [E2 E3].
             apply Nat.leb_le in E2. apply Nat.ltb_lt in E3.
             apply not_true_iff_false in E. exfalso. apply E.
             apply in_diamond_true. lia.
        * cbn [andb].
          replace (c <? S k)%nat with (c <? k)%nat; [auto |].
          destruct (Nat.ltb_spec c k), (Nat.ltb_spec c (S k)); auto; lia. }
  intros tr [P Km] (-> & HsP & HsK & Hget). cbn [fst snd] in *.
  split; [reflexivity |]. split; [exact HsP |]. split; [exact HsK |].
  intros i c. destruct (Hget i c) as [HgP HgK]. rewrite HgP, HgK.
  destruct (in_diamond n i c) eqn:E.
  - apply in_diamond_true in E.
    replace (c <? n + 1)%nat with true by (symmetry; apply Nat.ltb_lt; lia).
    auto.
  - rewrite andb_false_r. auto.
Qed.

Lemma aTM_payoff_run (S0 K dx : R) (Ntree : Z) :
  (1 <= Ntree)%Z ->
  exists X, shape X (2 * Z.to_nat Ntree + 1) (Z.to_nat Ntree + 1) /\
    (forall optype i c, get (mmap (payoff_fn optype) X) i c =
                        aTM_node_payoff S0 K dx optype (Z.to_nat Ntree) i c) /\
    forall optype,
      aTM_payoff S0 K dx Ntree optype =
      bind (aTM_prices_trace (Z.to_nat Ntree), inr X) (payoff_by_optype mmap optype).
Proof.
  intros HN.
  destruct (aTM_prices_run S0 K dx Ntree HN)
    as (tr & [P Km] & E & -> & HsP & HsK & Hget).
  cbn [fst snd] in *.
  set (n := Z.to_nat Ntree) in *.
  exists (zip_with (zip_with Rminus) P Km).
  split; [| split].
  - now apply shape_zip_with.
  - intros optype i c.
    rewrite get_mmap by apply payoff_fn_0.
    rewrite (get_zip_with Rminus _ _ (2 * n + 1) (n + 1)); [| ring | auto | auto].
    destruct (Hget i c) as [-> ->]. unfold aTM_node_payoff.
    destruct (in_diamond n i c).
    + apply payoff_fn_intrinsic.
    + rewrite Rminus_0_r. apply payoff_fn_0.
  - intros optype. unfold aTM_payoff. rewrite E.
    unfold bind at 1. unfold bind at 2.
    rewrite (np_sub2_ok _ _ (2 * n + 1) (n + 1)); [| exact HsP | exact HsK].
    rewrite ret_bind. reflexivity.
Qed.

Section Trinomial.

Variables (prm : aTM_parameters) (n : nat) (Pmat : matrix).

Local Abbreviation aTM_lo := (aTM_lo n).
Local Abbreviation aTM_hi := (aTM_hi n).
Local Abbreviation aTM_rule_euro := (aTM_rule_euro prm).
Local Abbreviation aTM_rule_amer := (aTM_rule_amer prm Pmat).
Local Abbreviation aTM_rule_flag := (aTM_rule_flag prm Pmat).
Local Abbreviation aTM_inv := (aTM_inv n).
Local Abbreviation aTM_step := (aTM_step n).

Lemma aTM_continuation_run (m t : nat) (V : matrix) :
  shape V (2 * n + 1) (n + 1) -> (m + t + 1 = n)%nat ->
  exists C, aTM_continuation prm n m t V = ret C /\
    length C = (2 * t + 1)%nat /\
    forall j, (j < 2 * t + 1)%nat ->
      nth j C 0 = recurrence aTM_rule_euro V (aTM_lo t + j) t.
Proof.
  intros Hs Hmt. unfold aTM_continuation.
  rewrite !(load_col_ok V (2 * n + 1) (n + 1)) by (auto; lia).
  rewrite !ret_bind. unfold np_add.
  assert (length (col_slice V m (2 * n - (m + 1)) (t + 1)) = (2 * t + 1)%nat) as L1
    by (rewrite length_col_slice, (proj1 Hs); lia).
  assert (length (col_slice V (m + 1) (2 * n - m) (t + 1)) = (2 * t + 1)%nat) as L2
    by (rewrite length_col_slice, (proj1 Hs); lia).
  assert (length (col_slice V (m + 2) (2 * n + 1 - m) (t + 1)) = (2 * t + 1)%nat) as L3
    by (rewrite length_col_slice, (proj1 Hs); lia).
  rewrite broadcast_same_length by (rewrite !length_scal; lia).
  rewrite ret_bind.
  rewrite broadcast_same_length
    by (rewrite length_zip_with, !length_scal; lia).
  rewrite ret_bind. eexists. split; [reflexivity |]. split.
  - rewrite length_scal, !length_zip_with, !length_scal. lia.
  - intros j Hj.
    rewrite nth_scal, nth_zip_with
      by (rewrite ?length_zip_with, ?length_scal; lia).
    rewrite nth_zip_with by (rewrite ?length_scal; lia).
    rewrite !nth_scal, !nth_col_slice by lia.
    unfold recurrence, aTM_rule_euro, aTM_lo.
    replace (n - t + j - 1)%nat with (m + j)%nat by lia.
    replace (n - t + j + 1)%nat with (m + 2 + j)%nat by lia.
    replace (n - t + j)%nat with (m + 1 + j)%nat by lia.
    reflexivity.
Qed.

Lemma aTM_payoff_column (t : nat) :
  shape Pmat (2 * n + 1) (n + 1) -> (t < n)%nat ->
  load_col Pmat (n - t) (n + (t + 1)) t
  = ret (col_slice Pmat (n - t) (n + (t + 1)) t) /\
  length (col_slice Pmat (n - t) (n + (t + 1)) t) = (2 * t + 1)%nat /\
  forall j, (j < 2 * t + 1)%nat ->
    nth j (col_slice Pmat (n - t) (n + (t + 1)) t) 0 = get Pmat (aTM_lo t + j) t.
Proof.
  intros Hs Ht.
  rewrite (load_col_ok Pmat (2 * n + 1) (n + 1)) by (auto; lia).
  split; [reflexivity |]. split.
  - rewrite length_col_slice, (proj1 Hs). lia.
  - intros j Hj. rewrite nth_col_slice by lia. reflexivity.
Qed.

Lemma aTM_Euro_store (k : nat) (V : matrix) :
  (k < n)%nat -> shape V (2 * n + 1) (n + 1) ->
  yields (C <- aTM_continuation prm n k (n - 1 - k) V ;;
          store_col V (n - (n - 1 - k)) (n + (n - 1 - k + 1)) (n - 1 - k) C)
         (fun _ V' => aTM_step aTM_rule_euro (n - 1 - k) V V V').
Proof.
  intros Hk Hs.
  destruct (aTM_continuation_run k (n - 1 - k) V Hs) as (C & -> & HL & HC);
    [lia |].
  rewrite ret_bind.
  apply (store_col_step (2 * n + 1) (n + 1) aTM_lo aTM_hi);
    unfold aTM_lo, aTM_hi; auto; try lia.
  intros j Hj. apply HC. lia.
Qed.

Lemma aTM_Amer_store (k : nat) (V : matrix) :
  (k < n)%nat -> shape V (2 * n + 1) (n + 1) ->
  shape Pmat (2 * n + 1) (n + 1) ->
  yields (C <- aTM_continuation prm n k (n - 1 - k) V ;;
          P <- load_col Pmat (n - (n - 1 - k)) (n + (n - 1 - k + 1)) (n - 1 - k) ;;
          W <- np_maximum C P ;;
          store_col V (n - (n - 1 - k)) (n + (n - 1 - k + 1)) (n - 1 - k) W)
         (fun _ V' => aTM_step aTM_rule_amer (n - 1 - k) V V V').
Proof.
  intros Hk Hs HP.
  destruct (aTM_continuation_run k (n - 1 - k) V Hs) as (C & -> & HL & HC);
    [lia |].
  destruct (aTM_payoff_column (n - 1 - k) HP) as (-> & HLP & HPj); [lia |].
  rewrite !ret_bind. unfold np_maximum.
  rewrite broadcast_same_length by lia.
  rewrite ret_bind.
  apply (store_col_step (2 * n + 1) (n + 1) aTM_lo aTM_hi);
    unfold aTM_lo, aTM_hi; auto; try lia.
  - rewrite length_zip_with. lia.
  - intros j Hj. rewrite length_zip_with in Hj.
    rewrite nth_zip_with, HC, HPj by lia. reflexivity.
Qed.

Lemma aTM_flag_store (k : nat) (V Ex : matrix) :
  (k < n)%nat -> shape V (2 * n + 1) (n + 1) ->
  shape Pmat (2 * n + 1) (n + 1) -> shape Ex (2 * n + 1) (n + 1) ->
  yields (C <- aTM_continuation prm n k (n - 1 - k) V ;;
          P <- load_col Pmat (n - (n - 1 - k)) (n + (n - 1 - k + 1)) (n - 1 - k) ;;
          D <- np_sub C P ;;
          store_col Ex (n - (n - 1 - k)) (n + (n - 1 - k + 1)) (n - 1 - k)
            (map exercise_flag D))
         (fun _ Ex' => aTM_step aTM_rule_flag (n - 1 - k) Ex V Ex').
Proof.
  intros Hk Hs HP HE.
  destruct (aTM_continuation_run k (n - 1 - k) V Hs) as (C & -> & HL & HC);
    [lia |].
  destruct (aTM_payoff_column (n - 1 - k) HP) as (-> & HLP & HPj); [lia |].
  rewrite !ret_bind. unfold np_sub.
  rewrite broadcast_same_length by lia.
  rewrite ret_bind.
  apply (store_col_step (2 * n + 1) (n + 1) aTM_lo aTM_hi);
    unfold aTM_lo, aTM_hi; auto; try lia.
  - rewrite length_map, length_zip_with. lia.
  - intros j Hj. rewrite length_map, length_zip_with in Hj.
    rewrite nth_indep with (d' := exercise_flag 0)
      by (rewrite length_map, length_zip_with; lia).
    rewrite map_nth, nth_zip_with, HC, HPj by lia. reflexivity.
Qed.

Lemma aTM_Euro_loop (V0 : matrix) :
  shape V0 (2 * n + 1) (n + 1) ->
  yields (for_each (enumerate (range_down n)) (fun mt Vmat =>
            let '(m, t) := mt in
            C <- aTM_continuation prm n m t Vmat ;;
            store_col Vmat (n - t) (n + (t + 1)) t C) V0)
         (fun _ V => aTM_inv aTM_rule_euro V0 n V V).
Proof.
  intros Hs. rewrite enumerate_range_down.
  apply (for_each_seq (fun k _ V => aTM_inv aTM_rule_euro V0 k V V)).
  - now apply lattice_inv_0.
  - intros k tr V Hk Hinv.
    eapply yields_weaken; [apply aTM_Euro_store; [exact Hk | apply Hinv] |].
    intros ? V' Hstep. now apply lattice_inv_step with (V := V).
Qed.

Lemma aTM_Amer_loop (V0 : matrix) :
  shape V0 (2 * n + 1) (n + 1) -> shape Pmat (2 * n + 1) (n + 1) ->
  yields (for_each (enumerate (range_down n)) (fun mt Vmat =>
            let '(m, t) := mt in
            C <- aTM_continuation prm n m t Vmat ;;
            P <- load_col Pmat (n - t) (n + (t + 1)) t ;;
            V <- np_maximum C P ;;
            store_col Vmat (n - t) (n + (t + 1)) t V) V0)
         (fun _ V => aTM_inv aTM_rule_amer V0 n V V).
Proof.
  intros Hs HP. rewrite enumerate_range_down.
  apply (for_each_seq (fun k _ V => aTM_inv aTM_rule_amer V0 k V V)).
  - now apply lattice_inv_0.
  - intros k tr V Hk Hinv.
    eapply yields_weaken;
      [apply aTM_Amer_store; [exact Hk | apply Hinv | exact HP] |].
    intros ? V' Hstep. now apply lattice_inv_step with (V := V).
Qed.

Lemma aTM_Amer_exmat_loop (V0 E0 : matrix) :
  shape V0 (2 * n + 1) (n + 1) -> shape Pmat (2 * n + 1) (n + 1) ->
  shape E0 (2 * n + 1) (n + 1) ->
  yields (for_each (enumerate (range_down n)) (fun mt st =>
            let '(m, t) := mt in
            let '(Vmat, Exmat) := st in
            C <- aTM_continuation prm n m t Vmat ;;
            P <- load_col Pmat (n - t) (n + (t + 1)) t ;;
            V <- np_maximum C P ;;
            Vmat <- store_col Vmat (n - t) (n + (t + 1)) t V ;;
            C' <- aTM_continuation prm n m t Vmat ;;
            P' <- load_col Pmat (n - t) (n + (t + 1)) t ;;
            D <- np_sub C' P' ;;
            Exmat <- store_col Exmat (n - t) (n + (t + 1)) t (map exercise_flag D) ;;
            ret (Vmat, Exmat)) (V0, E0))
         (fun _ st => aTM_inv aTM_rule_amer V0 n (fst st) (fst st) /\
                      aTM_inv aTM_rule_flag E0 n (fst st) (snd st)).
Proof.
  intros Hs HP HE. rewrite enumerate_range_down.
  apply (for_each_seq (fun k _ st =>
           aTM_inv aTM_rule_amer V0 k (fst st) (fst st) /\
           aTM_inv aTM_rule_flag E0 k (fst st) (snd st))).
  - split; now apply lattice_inv_0.
  - intros k tr [V Ex] Hk [HinvV HinvE]. cbn [fst snd] in HinvV, HinvE.
    match goal with |- yields ?body _ =>
      assert (body =
        (V' <- (C <- aTM_continuation prm n k (n - 1 - k) V ;;
                P <- load_col Pmat (n - (n - 1 - k)) (n + (n - 1 - k + 1)) (n - 1 - k) ;;
                W <- np_maximum C P ;;
                store_col V (n - (n - 1 - k)) (n + (n - 1 - k + 1)) (n - 1 - k) W) ;;
         Ex' <- (C <- aTM_continuation prm n k (n - 1 - k) V' ;;
                 P <- load_col Pmat (n - (n - 1 - k)) (n + (n - 1 - k + 1)) (n - 1 - k) ;;
                 D <- np_sub C P ;;
                 store_col Ex (n - (n - 1 - k)) (n + (n - 1 - k + 1)) (n - 1 - k)
                   (map exercise_flag D)) ;;
         ret (V', Ex'))) as ->
    end.
    { symmetry.
      do 3 (rewrite bind_assoc; apply bind_ext; intro).
      apply bind_ext; intro.
      do 3 (rewrite bind_assoc; apply bind_ext; intro).
      reflexivity. }
    eapply yields_bind;
      [apply aTM_Amer_store; [exact Hk | apply HinvV | exact HP] |].
    intros tr1 V' Hstep. cbn beta in Hstep.
    eapply yields_bind;
      [apply aTM_flag_store; [exact Hk | apply Hstep | exact HP | apply HinvE] |].
    intros tr2 Ex' Hstep2. cbn beta in Hstep2.
    apply yields_ret. cbn [fst snd]. split.
    + now apply lattice_inv_step with (V := V).
    + apply lattice_inv_step2 with (V := V) (Ex := Ex); auto.
      eapply step_frame. exact Hstep.
Qed.

End Trinomial.

(** ** The lattices the trinomial pricers return

    The node at time step [t] and log price [j * dx], [-t <= j <= t], is the
    entry [V[n - j, t]] of the returned matrix. *)

Lemma aTM_inv_lattice (S0 K dx : R) (optype : string) (n : nat)
    (rule : R -> R -> R -> nat -> nat -> R) (node : matrix -> nat -> nat -> R)
    (Pmat V0 V : matrix) :
  (forall i c, get Pmat i c = aTM_node_payoff S0 K dx optype n i c) ->
  (forall i j, get V0 i j = if (j =? n)%nat then get Pmat i j else 0) ->
  (forall W i t, recurrence rule W i t = node W i t) ->
  aTM_inv n rule V0 n V V ->
  aTM_lattice S0 K dx optype n node V.
Proof.
  intros HP HV0 Hrule (Hs & Hout & Hin).
  split; [exact Hs |]. split; [| split].
  - intros i. rewrite Hout, HV0, Nat.eqb_refl; [apply HP |].
    unfold in_lattice. lia.
  - intros i t Ht Hi. rewrite Hin; [apply Hrule |].
    unfold in_lattice, aTM_lo, aTM_hi. lia.
  - intros i t Ht Hi. rewrite Hout, HV0.
    + replace (t =? n)%nat with false; [reflexivity |].
      symmetry. apply Nat.eqb_neq. lia.
    + unfold in_lattice, aTM_lo, aTM_hi. lia.
Qed.

Lemma aTM_inv_flags (S0 K : R) (optype : string) (n : nat) (prm : aTM_parameters)
    (Pmat V Ex : matrix) :
  (forall i c, get Pmat i c = aTM_node_payoff S0 K (tm_dx prm) optype n i c) ->
  aTM_inv n (aTM_rule_flag prm Pmat)
          (repeat (repeat 0 (n + 1)%nat) (2 * n + 1)%nat) n V Ex ->
  aTM_flags S0 K optype n prm V Ex.
Proof.
  intros HP (Hs & Hout & Hin).
  split; [exact Hs |]. split.
  - intros i t Ht Hi. rewrite Hin.
    + unfold recurrence, aTM_rule_flag, aTM_cont. now rewrite HP.
    + unfold in_lattice, aTM_lo, aTM_hi. lia.
  - intros i t Hnot. rewrite Hout; [apply get_zeros |].
    unfold in_lattice, aTM_lo, aTM_hi. lia.
Qed.

Section TrinomialRuns.

Variables (S0 K r sigma div T : R) (Ntree : Z) (optype : string).

Hypothesis HN : (1 <= Ntree)%Z.
Hypothesis Hr : 0 < r.
Hypothesis Hsigma : 0 < sigma.
Hypothesis Hoptype : valid_optype optype.

Lemma aTM_Euro_run :
  yields (aTM_Euro S0 K r sigma div T Ntree optype)
         (fun _ V => aTM_lattice S0 K (tm_dx (aTM_prm r sigma div (T / IZR Ntree))) optype (Z.to_nat Ntree) (aTM_euro_node (aTM_prm r sigma div (T / IZR Ntree))) V).
Proof.
  set (n := Z.to_nat Ntree).
  set (prm := aTM_prm r sigma div (T / IZR Ntree)).
  unfold aTM_Euro.
  rewrite aTM_params_ok by (auto; lia). rewrite ret_bind. fold prm.
  destruct (aTM_payoff_run S0 K (tm_dx prm) Ntree HN) as (X & HsX & HgetX & E).
  rewrite E, (bind_value_ret _ X _ _ (payoff_by_optype_valid mmap optype X Hoptype)).
  eapply yields_bind; [apply yields_exact; reflexivity |].
  intros ? Pmat [-> ->].
  assert (Z.to_nat (2 * Ntree + 1) = (2 * n + 1)%nat) as Hn2 by (unfold n; lia).
  assert (Z.to_nat (Ntree + 1) = (n + 1)%nat) as Hn1 by (unfold n; lia).
  assert (shape (mmap (payoff_fn optype) X) (2 * n + 1) (n + 1)) as HsP
    by now apply shape_mmap.
  eapply yields_bind.
  { apply terminal_values_run; [lia | lia |]. now rewrite Hn1, Hn2. }
  intros tr V0 (_ & HsV0 & HgetV0). cbn beta in HsV0, HgetV0.
  rewrite Hn1 in HsV0, HgetV0. rewrite Hn2 in HsV0.
  replace (n + 1 - 1)%nat with n in HgetV0 by lia.
  eapply yields_weaken; [apply aTM_Euro_loop; exact HsV0 |].
  intros tr' V Hinv. cbn beta in Hinv.
  eapply aTM_inv_lattice; [apply HgetX | exact HgetV0 | | exact Hinv].
  intros W i t. reflexivity.
Qed.

Lemma aTM_Amer_run_plain :
  yields (aTM_Amer S0 K r sigma div T Ntree optype false)
         (fun _ V => aTM_lattice S0 K (tm_dx (aTM_prm r sigma div (T / IZR Ntree))) optype (Z.to_nat Ntree)
                       (aTM_amer_node S0 K optype (Z.to_nat Ntree) (aTM_prm r sigma div (T / IZR Ntree))) V).
Proof.
  set (n := Z.to_nat Ntree).
  set (prm := aTM_prm r sigma div (T / IZR Ntree)).
  unfold aTM_Amer.
  rewrite aTM_params_ok by (auto; lia). rewrite ret_bind. fold prm.
  destruct (aTM_payoff_run S0 K (tm_dx prm) Ntree HN) as (X & HsX & HgetX & E).
  rewrite E, (bind_value_ret _ X _ _ (payoff_by_optype_valid mmap optype X Hoptype)).
  eapply yields_bind; [apply yields_exact; reflexivity |].
  intros ? Pmat [-> ->].
  assert (Z.to_nat (2 * Ntree + 1) = (2 * n + 1)%nat) as Hn2 by (unfold n; lia).
  assert (Z.to_nat (Ntree + 1) = (n + 1)%nat) as Hn1 by (unfold n; lia).
  assert (shape (mmap (payoff_fn optype) X) (2 * n + 1) (n + 1)) as HsP
    by now apply shape_mmap.
  eapply yields_bind.
  { apply terminal_values_run; [lia | lia |]. now rewrite Hn1, Hn2. }
  intros tr V0 (_ & HsV0 & HgetV0). cbn beta in HsV0, HgetV0.
  rewrite Hn1 in HsV0, HgetV0. rewrite Hn2 in HsV0.
  replace (n + 1 - 1)%nat with n in HgetV0 by lia.
  cbn [negb]. cbv iota. rewrite ret_bind.
  eapply yields_weaken; [apply aTM_Amer_loop; [exact HsV0 | exact HsP] |].
  intros tr' V Hinv. cbn beta in Hinv.
  eapply aTM_inv_lattice; [apply HgetX | exact HgetV0 | | exact Hinv].
  intros W i t. unfold recurrence, aTM_rule_amer, aTM_amer_node, aTM_cont.
  now rewrite HgetX.
Qed.

Lemma aTM_Amer_run_exmat :
  yields (aTM_Amer S0 K r sigma div T Ntree optype true)
         (fun tr V =>
            aTM_lattice S0 K (tm_dx (aTM_prm r sigma div (T / IZR Ntree))) optype (Z.to_nat Ntree)
              (aTM_amer_node S0 K optype (Z.to_nat Ntree) (aTM_prm r sigma div (T / IZR Ntree))) V /\
            exists tr0 Ex,
              tr = tr0 ++ [EvMatshow Ex; EvTitle "Early exercise"] /\
              aTM_flags S0 K optype (Z.to_nat Ntree) (aTM_prm r sigma div (T / IZR Ntree)) V Ex).
Proof.
  set (n := Z.to_nat Ntree).
  set (prm := aTM_prm r sigma div (T / IZR Ntree)).
  unfold aTM_Amer.
  rewrite aTM_params_ok by (auto; lia). rewrite ret_bind. fold prm.
  destruct (aTM_payoff_run S0 K (tm_dx prm) Ntree HN) as (X & HsX & HgetX & E).
  rewrite E, (bind_value_ret _ X _ _ (payoff_by_optype_valid mmap optype X Hoptype)).
  eapply yields_bind; [apply yields_exact; reflexivity |].
  intros ? Pmat [-> ->].
  assert (Z.to_nat (2 * Ntree + 1) = (2 * n + 1)%nat) as Hn2 by (unfold n; lia).
  assert (Z.to_nat (Ntree + 1) = (n + 1)%nat) as Hn1 by (unfold n; lia).
  assert (shape (mmap (payoff_fn optype) X) (2 * n + 1) (n + 1)) as HsP
    by now apply shape_mmap.
  eapply yields_bind.
  { apply terminal_values_run; [lia | lia |]. now rewrite Hn1, Hn2. }
  intros tr V0 (_ & HsV0 & HgetV0). cbn beta in HsV0, HgetV0.
  rewrite Hn1 in HsV0, HgetV0. rewrite Hn2 in HsV0.
  replace (n + 1 - 1)%nat with n in HgetV0 by lia.
  cbn [negb]. cbv iota.
  destruct (aTM_Amer_exmat_loop prm n (mmap (payoff_fn optype) X) V0
              (repeat (repeat 0 (n + 1)%nat) (2 * n + 1)%nat) HsV0 HsP
              (shape_zeros _ _)) as (trL & [V Ex] & EL & HinvV & HinvE).
  cbn [fst snd] in HinvV, HinvE.
  eexists _, V. split.
  { eapply bind_value; [| reflexivity].
    eapply bind_value; [apply np_zeros2_ok; lia |]. rewrite Hn1, Hn2.
    eapply bind_value; [exact EL |]. reflexivity. }
  split.
  - eapply aTM_inv_lattice; [apply HgetX | exact HgetV0 | | exact HinvV].
    intros W i t. unfold recurrence, aTM_rule_amer, aTM_amer_node, aTM_cont.
    now rewrite HgetX.
  - exists ((aTM_prices_trace (Z.to_nat Ntree) ++ tr) ++
            [EvAlloc [Z.to_nat (2 * Ntree + 1); Z.to_nat (Ntree + 1)]] ++ trL), Ex.
    split.
    + repeat rewrite <- app_assoc. reflexivity.
    + eapply aTM_inv_flags; [apply HgetX | exact HinvE].
Qed.

End TrinomialRuns.

(** * Properties of value lattices *)

(** Two lattices over the same payoff are related entry by entry as soon as
    the node rules preserve the relation from one column to the previous
    one. *)
Lemma value_lattice_rel (Rel : R -> R -> Prop) (rows n : nat) (lo hi : nat -> nat)
    (payoff : nat -> R) (node1 node2 : matrix -> nat -> nat -> R)
    (V1 V2 : matrix) :
  value_lattice rows n lo hi payoff node1 V1 ->
  value_lattice rows n lo hi payoff node2 V2 ->
  Rel 0 0 ->
  (forall i, Rel (payoff i) (payoff i)) ->
  (forall i t, (t < n)%nat -> (lo t <= i <= hi t)%nat ->
     (forall i', Rel (get V1 i' (t + 1)) (get V2 i' (t + 1))) ->
     Rel (node1 V1 i t) (node2 V2 i t)) ->
  forall i c, Rel (get V1 i c) (get V2 i c).
Proof.
  intros (Hs1 & Hp1 & Hn1 & Hz1) (Hs2 & Hp2 & Hn2 & Hz2) H0 Hpay Hnode.
  assert (forall k, (k <= n)%nat ->
            forall i, Rel (get V1 i (n - k)) (get V2 i (n - k))) as Hind.
  { induction k as [| k IH]; intros Hk i.
    - rewrite Nat.sub_0_r, Hp1, Hp2. apply Hpay.
    - assert (n - S k < n)%nat as Ht by lia.
      destruct (le_dec (lo (n - S k)%nat) i) as [Hlo | Hlo];
        [destruct (le_dec i (hi (n - S k)%nat)) as [Hhi | Hhi] |].
      + rewrite Hn1, Hn2 by lia. apply Hnode; [lia | lia |].
        intros i'. replace (n - S k + 1)%nat with (n - k)%nat by lia.
        apply IH. lia.
      + rewrite Hz1, Hz2 by lia. exact H0.
      + rewrite Hz1, Hz2 by lia. exact H0. }
  intros i c. destruct (le_lt_dec c n) as [Hc | Hc].
  - replace c with (n - (n - c))%nat by lia. apply Hind. lia.
  - rewrite (get_out_of_shape V1 rows (n + 1)), (get_out_of_shape V2 rows (n + 1));
      auto; right; lia.
Qed.

Lemma matrix_ext (A B : matrix) (r c : nat) :
  shape A r c -> shape B r c ->
  (forall i j, get A i j = get B i j) -> A = B.
Proof.
  intros HA HB H.
  apply nth_ext with (d := []) (d' := []); [destruct HA, HB; lia |].
  intros i Hi.
  assert (i < r)%nat as Hir by (destruct HA; lia).
  apply nth_ext with (d := 0) (d' := 0).
  - now rewrite (shape_row A r c), (shape_row B r c).
  - intros j _. apply H.
Qed.

(** A lattice is determined by its payoff and its node rule. *)
Lemma value_lattice_unique (rows n : nat) (lo hi : nat -> nat)
    (payoff : nat -> R) (node : matrix -> nat -> nat -> R) (V1 V2 : matrix) :
  (forall V V' i t, (forall i', get V i' (t + 1) = get V' i' (t + 1)) ->
                    node V i t = node V' i t) ->
  value_lattice rows n lo hi payoff node V1 ->
  value_lattice rows n lo hi payoff node V2 ->
  V1 = V2.
Proof.
  intros Hnode H1 H2.
  apply (matrix_ext V1 V2 rows (n + 1)); [apply H1 | apply H2 |].
  apply (value_lattice_rel eq rows n lo hi payoff node node); auto.
Qed.





(** Failure of the set-up on a negative step count. *)
Lemma BM_payoff_negative (S0 K u d : R) (Ntree : Z) :
  (Ntree < 0)%Z ->
  exists tr e, (e = ValueError \/ e = IndexError) /\
    forall optype, BM_payoff S0 K u d Ntree optype = (tr, inl e).
Proof.
  intros HN. destruct (Z.eq_dec Ntree (-1)) as [-> | Hne].
  - exists [EvAlloc [0%nat; 0%nat]], IndexError. split; [now right |].
    intros optype. reflexivity.
  - exists [], ValueError. split; [now left |].
    intros optype. unfold BM_payoff, BM_prices, np_zeros2.
    replace (Ntree + 1 <? 0)%Z with true by (symmetry; apply Z.ltb_lt; lia).
    reflexivity.
Qed.

Lemma aTM_payoff_negative (S0 K dx : R) (Ntree : Z) (optype : string) :
  (Ntree < 0)%Z -> aTM_payoff S0 K dx Ntree optype = raise ValueError.
Proof.
  intros HN. unfold aTM_payoff, aTM_prices, np_zeros2.
  replace (2 * Ntree + 1 <? 0)%Z with true by (symmetry; apply Z.ltb_lt; lia).
  reflexivity.
Qed.

Lemma valid_optype_dec (optype : string) :
  {valid_optype optype} + {~ valid_optype optype}.
Proof.
  destruct (string_dec optype "call") as [-> | H1]; [left; now left |].
  destruct (string_dec optype "put") as [-> | H2]; [left; now right |].
  right. intros [H | H]; contradiction.
Qed.

Lemma bracket_dec (r u d dt : R) :
  {no_arbitrage_bracket r u d dt} + {~ no_arbitrage_bracket r u d dt}.
Proof.
  unfold no_arbitrage_bracket.
  destruct (Rlt_dec 0 d); [| right; tauto].
  destruct (Rlt_dec d (exp (r * dt))); [| right; tauto].
  destruct (Rlt_dec (exp (r * dt)) u); [| right; tauto].
  left. tauto.
Qed.


Lemma BM_Amer_invalid_optype (S0 K r u d T : R) (Ntree : Z) (optype : string)
    (exmat : bool) :
  (1 <= Ntree)%Z -> no_arbitrage_bracket r u d (T / IZR Ntree) ->
  ~ valid_optype optype ->
  BM_Amer S0 K r u d T Ntree optype exmat
  = (BM_prices_trace (Z.to_nat Ntree), inl optype_exception).
Proof.
  intros HN Hb Hopt. unfold BM_Amer.
  rewrite BM_params_ok by (auto; lia). rewrite ret_bind.
  destruct (BM_payoff_run S0 K u d Ntree HN) as (X & _ & _ & E).
  rewrite E, (bind_value_raise _ X _ _ (payoff_by_optype_invalid mmap optype X Hopt)).
  reflexivity.
Qed.

Lemma aTM_Euro_invalid_optype (S0 K r sigma div T : R) (Ntree : Z) (optype : string) :
  (1 <= Ntree)%Z -> 0 < r -> 0 < sigma -> ~ valid_optype optype ->
  aTM_Euro S0 K r sigma div T Ntree optype
  = (aTM_prices_trace (Z.to_nat Ntree), inl optype_exception).
Proof.
  intros HN Hr Hs Hopt. unfold aTM_Euro.
  rewrite aTM_params_ok by (auto; lia). rewrite ret_bind.
  destruct (aTM_payoff_run S0 K (tm_dx (aTM_prm r sigma div (T / IZR Ntree))) Ntree HN)
    as (X & _ & _ & E).
  rewrite E, (bind_value_raise _ X _ _ (payoff_by_optype_invalid mmap optype X Hopt)).
  reflexivity.
Qed.

Lemma aTM_Amer_invalid_optype (S0 K r sigma div T : R) (Ntree : Z) (optype : string)
    (exmat : bool) :
  (1 <= Ntree)%Z -> 0 < r -> 0 < sigma -> ~ valid_optype optype ->
  aTM_Amer S0 K r sigma div T Ntree optype exmat
  = (aTM_prices_trace (Z.to_nat Ntree), inl optype_exception).
Proof.
  intros HN Hr Hs Hopt. unfold aTM_Amer.
  rewrite aTM_params_ok by (auto; lia). rewrite ret_bind.
  destruct (aTM_payoff_run S0 K (tm_dx (aTM_prm r sigma div (T / IZR Ntree))) Ntree HN)
    as (X & _ & _ & E).
  rewrite E, (bind_value_raise _ X _ _ (payoff_by_optype_invalid mmap optype X Hopt)).
  reflexivity.
Qed.

Lemma MC_Euro_invalid_optype (normal : nat -> nat -> R)
    (S0 K r sigma div T : R) (Nsteps Nsim : Z) (optype : string) :
  (1 <= Nsteps)%Z -> (0 <= Nsim)%Z -> 0 < r -> 0 < sigma -> 0 <= div ->
  ~ valid_optype optype ->
  MC_Euro normal S0 K r sigma div T Nsteps Nsim optype
  = ([EvAlloc [Z.to_nat Nsteps]; EvDraw (Z.to_nat Nsim) (Z.to_nat Nsteps)],
     inl optype_exception).
Proof.
  intros HN HM Hr Hs Hd Hopt.
  unfold MC_Euro, S1_GBM, py_div, np_zeros1, standard_normal.
  replace (Nsteps =? 0)%Z with false by (symmetry; apply Z.eqb_neq; lia).
  replace (Nsteps <? 0)%Z with false by (symmetry; apply Z.ltb_ge; lia).
  replace (Nsim <? 0)%Z with false by (symmetry; apply Z.ltb_ge; lia).
  apply Rltb_true in Hr, Hs. apply Rleb_true in Hd. rewrite Hr, Hs, Hd.
  cbn [orb andb]. unfold emit, ret. cbn [bind app].
  rewrite payoff_by_optype_invalid by exact Hopt.
  reflexivity.
Qed.

(** ** Outcomes of the pricers *)

Lemma BM_Euro_outcome (S0 K r u d T : R) (Ntree : Z) (optype : string) :
  (1 <= Ntree)%Z -> no_arbitrage_bracket r u d (T / IZR Ntree) ->
  valid_optype optype ->
  exists V, outcome (BM_Euro S0 K r u d T Ntree optype) = inr V /\
    BM_lattice S0 K u d optype (Z.to_nat Ntree)
      (BM_euro_node (exp (- r * (T / IZR Ntree)))
                    ((exp (r * (T / IZR Ntree)) - d) / (u - d))) V.
Proof.
  intros HN Hb Ho.
  destruct (BM_Euro_run S0 K r u d T Ntree optype HN Hb Ho) as (tr & V & E & H).
  exists V. rewrite E. auto.
Qed.

Lemma BM_Amer_outcome (S0 K r u d T : R) (Ntree : Z) (optype : string)
    (exmat : bool) :
  (1 <= Ntree)%Z -> no_arbitrage_bracket r u d (T / IZR Ntree) ->
  valid_optype optype ->
  exists V, outcome (BM_Amer S0 K r u d T Ntree optype exmat) = inr V /\
    BM_lattice S0 K u d optype (Z.to_nat Ntree)
      (BM_amer_node S0 K u d optype (Z.to_nat Ntree)
         (exp (- r * (T / IZR Ntree)))
         ((exp (r * (T / IZR Ntree)) - d) / (u - d))) V.
Proof.
  intros HN Hb Ho. destruct exmat.
  - destruct (BM_Amer_run_exmat S0 K r u d T Ntree optype HN Hb Ho)
      as (tr & V & E & H & _).
    exists V. rewrite E. auto.
  - destruct (BM_Amer_run_plain S0 K r u d T Ntree optype HN Hb Ho)
      as (tr & V & E & H).
    exists V. rewrite E. auto.
Qed.

Lemma aTM_Euro_outcome (S0 K r sigma div T : R) (Ntree : Z) (optype : string) :
  (1 <= Ntree)%Z -> 0 < r -> 0 < sigma -> valid_optype optype ->
  exists V, outcome (aTM_Euro S0 K r sigma div T Ntree optype) = inr V /\
    aTM_lattice S0 K (tm_dx (aTM_prm r sigma div (T / IZR Ntree))) optype (Z.to_nat Ntree)
      (aTM_euro_node (aTM_prm r sigma div (T / IZR Ntree))) V.
Proof.
  intros HN Hr Hs Ho.
  destruct (aTM_Euro_run S0 K r sigma div T Ntree optype HN Hr Hs Ho)
    as (tr & V & E & H).
  exists V. rewrite E. auto.
Qed.

Lemma aTM_Amer_outcome (S0 K r sigma div T : R) (Ntree : Z) (optype : string)
    (exmat : bool) :
  (1 <= Ntree)%Z -> 0 < r -> 0 < sigma -> valid_optype optype ->
  exists V, outcome (aTM_Amer S0 K r sigma div T Ntree optype exmat) = inr V /\
    aTM_lattice S0 K (tm_dx (aTM_prm r sigma div (T / IZR Ntree))) optype (Z.to_nat Ntree)
      (aTM_amer_node S0 K optype (Z.to_nat Ntree) (aTM_prm r sigma div (T / IZR Ntree))) V.
Proof.
  intros HN Hr Hs Ho. destruct exmat.
  - destruct (aTM_Amer_run_exmat S0 K r sigma div T Ntree optype HN Hr Hs Ho)
      as (tr & V & E & H & _).
    exists V. rewrite E. auto.
  - destruct (aTM_Amer_run_plain S0 K r sigma div T Ntree optype HN Hr Hs Ho)
      as (tr & V & E & H).
    exists V. rewrite E. auto.
Qed.

(** ** Failures after the parameters have been computed *)

Lemma BM_Euro_bad_bracket (S0 K r u d T : R) (Ntree : Z) (optype : string) :
  Ntree <> 0%Z -> ~ no_arbitrage_bracket r u d (T / IZR Ntree) ->
  BM_Euro S0 K r u d T Ntree optype = raise parameter_exception.
Proof.
  intros HN Hb. unfold BM_Euro. now rewrite BM_params_fail.
Qed.

Lemma BM_Amer_bad_bracket (S0 K r u d T : R) (Ntree : Z) (optype : string)
    (exmat : bool) :
  Ntree <> 0%Z -> ~ no_arbitrage_bracket r u d (T / IZR Ntree) ->
  BM_Amer S0 K r u d T Ntree optype exmat = raise parameter_exception.
Proof.
  intros HN Hb. unfold BM_Amer. now rewrite BM_params_fail.
Qed.

Lemma BM_Euro_negative (S0 K r u d T : R) (Ntree : Z) (optype : string) :
  (Ntree < 0)%Z -> no_arbitrage_bracket r u d (T / IZR Ntree) ->
  exists tr e, (e = ValueError \/ e = IndexError) /\
    BM_Euro S0 K r u d T Ntree optype = (tr, inl e).
Proof.
  intros HN Hb.
  destruct (BM_payoff_negative S0 K u d Ntree HN) as (tr & e & He & E).
  exists tr, e. split; [exact He |].
  unfold BM_Euro. rewrite BM_params_ok by (auto; lia).
  rewrite ret_bind. now rewrite E.
Qed.

Lemma BM_Amer_negative (S0 K r u d T : R) (Ntree : Z) (optype : string) :
  (Ntree < 0)%Z -> no_arbitrage_bracket r u d (T / IZR Ntree) ->
  exists tr e, (e = ValueError \/ e = IndexError) /\
    forall exmat, BM_Amer S0 K r u d T Ntree optype exmat = (tr, inl e).
Proof.
  intros HN Hb.
  destruct (BM_payoff_negative S0 K u d Ntree HN) as (tr & e & He & E).
  exists tr, e. split; [exact He |]. intros exmat.
  unfold BM_Amer. rewrite BM_params_ok by (auto; lia).
  rewrite ret_bind. now rewrite E.
Qed.

Lemma aTM_Amer_negative (S0 K r sigma div T : R) (Ntree : Z) (optype : string)
    (exmat : bool) :
  (Ntree < 0)%Z -> 0 < r -> 0 < sigma ->
  aTM_Amer S0 K r sigma div T Ntree optype exmat = raise ValueError.
Proof.
  intros HN Hr Hs. unfold aTM_Amer.
  rewrite aTM_params_ok by (auto; lia). rewrite ret_bind.
  now rewrite aTM_payoff_negative.
Qed.

Lemma aTM_Amer_bad_parameters (S0 K r sigma div T : R) (Ntree : Z)
    (optype : string) (exmat : bool) :
  Ntree <> 0%Z -> ~ (0 < r /\ 0 < sigma) ->
  aTM_Amer S0 K r sigma div T Ntree optype exmat = raise parameter_exception.
Proof.
  intros HN H. unfold aTM_Amer. now rewrite aTM_params_fail.
Qed.

(** ** Auxiliary facts *)

(** The parameters of the notebook's sample calls:
    [r=0.06, u=1.1, d=0.9091, T=1, Ntree=3]. *)
Lemma bracket_notebook : no_arbitrage_bracket 0.06 1.1 0.9091 (1 / 3).
Proof.
  unfold no_arbitrage_bracket.
  replace (0.06 * (1 / 3)) with 0.02 by lra.
  assert (1 + 0.02 < exp 0.02) as Hlo by (apply exp_ineq1; lra).
  assert (1 + - (0.02) < exp (- (0.02))) as Hhi by (apply exp_ineq1; lra).
  rewrite exp_Ropp in Hhi.
  pose proof (exp_pos 0.02) as Hpos.
  assert (exp 0.02 < 1.1) as Hup.
  { assert (0.98 * exp 0.02 < 1) as H.
    { apply Rmult_lt_reg_r with (r := / exp 0.02).
      - now apply Rinv_0_lt_compat.
      - rewrite Rmult_assoc, Rinv_r by lra. lra. }
    lra. }
  lra.
Qed.

(** A one-step tree by hand: [S0 = K = 100], [r = 0], [u = 2], [d = 1/2].
    The call pays 100 in the up state, [p = 1/3], and the price is [100/3]
    in the bottom-left entry. *)
Example BM_Euro_one_step :
  outcome (BM_Euro 100 100 0 2 (1 / 2) 1 1 "call")
  = inr [[0; 100]; [100 / 3; 0]].
Proof.
  assert (no_arbitrage_bracket 0 2 (1 / 2) (1 / 1)) as Hb.
  { unfold no_arbitrage_bracket. rewrite Rmult_0_l, exp_0. lra. }
  destruct (BM_Euro_outcome 100 100 0 2 (1 / 2) 1 1 "call")
    as (V & E & Hs & Hpay & Hnode & Hzero);
    [lia | exact Hb | left; reflexivity |].
  rewrite E. f_equal.
  change (Z.to_nat 1) with 1%nat in *.
  assert (get V 0 1 = 100) as H01.
  { rewrite Hpay. unfold BM_node_payoff, BM_node_price, intrinsic. simpl.
    rewrite Rmax_left; lra. }
  assert (get V 1 1 = 0) as H11.
  { rewrite Hpay. unfold BM_node_payoff, BM_node_price, intrinsic. simpl.
    rewrite Rmax_right; lra. }
  assert (get V 1 0 = 100 / 3) as H10.
  { rewrite Hnode by lia. unfold BM_euro_node, BM_cont. simpl.
    rewrite H01, H11.
    replace (- 0 * (1 / 1)) with 0 by lra.
    replace (0 * (1 / 1)) with 0 by lra.
    rewrite exp_0. lra. }
  assert (get V 0 0 = 0) as H00 by (apply Hzero; lia).
  apply (matrix_ext V _ 2 2); [exact Hs | |].
  - split; [reflexivity |]. repeat constructor.
  - intros i j.
    destruct (Nat.lt_ge_cases i 2) as [Hi | Hi];
      [destruct (Nat.lt_ge_cases j 2) as [Hj | Hj] |].
    + destruct i as [| [| i]]; [| | lia]; (destruct j as [| [| j]]; [| | lia]);
        assumption.
    + rewrite (get_out_of_shape V 2 2) by auto.
      symmetry. apply (get_out_of_shape _ 2 2); [| auto].
      split; [reflexivity |]. repeat constructor.
    + rewrite (get_out_of_shape V 2 2) by auto.
      symmetry. apply (get_out_of_shape _ 2 2); [| auto].
      split; [reflexivity |]. repeat constructor.
Qed.

(** * The pricers in rounded arithmetic *)

Lemma nth_map_lt (f : R -> R) (l : array) (j : nat) :
  (j < length l)%nat -> nth j (map f l) 0 = f (nth j l 0).
Proof.
  intros H. rewrite nth_indep with (d' := f 0) by now rewrite length_map.
  apply map_nth.
Qed.

Lemma get_in_shape_zip_with (f : R -> R -> R) (A B : matrix) (r c i j : nat) :
  shape A r c -> shape B r c -> (i < r)%nat -> (j < c)%nat ->
  get (zip_with (zip_with f) A B) i j = f (get A i j) (get B i j).
Proof.
  intros HA HB Hi Hj. unfold get.
  assert (nth i (zip_with (zip_with f) A B) [] =
          zip_with f (nth i A []) (nth i B [])) as ->.
  { unfold zip_with at 1.
    rewrite nth_indep with (d' := (fun xy : list R * list R =>
                                     zip_with f (fst xy) (snd xy)) ([], []))
      by (rewrite length_map, length_combine; destruct HA, HB; lia).
    rewrite (map_nth (fun xy : list R * list R => zip_with f (fst xy) (snd xy))).
    rewrite combine_nth by (destruct HA, HB; lia). reflexivity. }
  apply nth_zip_with.
  - now rewrite (shape_row A r c), (shape_row B r c).
  - now rewrite (shape_row A r c).
Qed.

Lemma get_in_shape_mmap (f : R -> R) (Mx : matrix) (r c i j : nat) :
  shape Mx r c -> (i < r)%nat -> (j < c)%nat ->
  get (mmap f Mx) i j = f (get Mx i j).
Proof.
  intros Hs Hi Hj. unfold get, mmap.
  rewrite nth_indep with (d' := map f []) by (rewrite length_map; destruct Hs; lia).
  rewrite (map_nth (map f)).
  apply nth_map_lt. now rewrite (shape_row Mx r c).
Qed.

(** ** The backward loops, for any continuation rule *)

Section BackwardLoops.

Variables (rows cols n : nat) (lo hi : nat -> nat).
Variable rule : R -> R -> R -> nat -> nat -> R.
Variable cont : nat -> nat -> matrix -> M array.
Variable sa : nat -> nat -> nat.
Variable sb : nat -> nat -> matrix -> nat.
Variable sub : R -> R -> R.
Variable Pmat : matrix.

Hypothesis Hcont : forall k V, (k < n)%nat -> shape V rows cols ->
  exists C, cont k (n - 1 - k) V = ret C /\
    length C = (hi (n - 1 - k) + 1 - lo (n - 1 - k))%nat /\
    forall j, (j < length C)%nat ->
      nth j C 0 = recurrence rule V (lo (n - 1 - k) + j) (n - 1 - k).
Hypothesis Hsa : forall k, (k < n)%nat -> sa k (n - 1 - k) = lo (n - 1 - k).
Hypothesis Hsb : forall k X, (k < n)%nat -> shape X rows cols ->
  sb k (n - 1 - k) X = (hi (n - 1 - k) + 1)%nat.
Hypothesis Hcols : (n < cols)%nat.
Hypothesis Hrows : forall t, (t < n)%nat -> (lo t <= hi t < rows)%nat.

Lemma payoff_column (k : nat) :
  (k < n)%nat -> shape Pmat rows cols ->
  exists P, load_col Pmat (sa k (n - 1 - k)) (sb k (n - 1 - k) Pmat) (n - 1 - k)
            = ret P /\
    length P = (hi (n - 1 - k) + 1 - lo (n - 1 - k))%nat /\
    forall j, (j < length P)%nat ->
      nth j P 0 = get Pmat (lo (n - 1 - k) + j) (n - 1 - k).
Proof.
  intros Hk HP. rewrite Hsa, (Hsb k Pmat) by assumption.
  pose proof (Hrows (n - 1 - k)) as Hr.
  rewrite (load_col_ok Pmat rows cols) by (auto; lia).
  eexists. split; [reflexivity |].
  assert (length (col_slice Pmat (lo (n - 1 - k)) (hi (n - 1 - k) + 1) (n - 1 - k))
          = (hi (n - 1 - k) + 1 - lo (n - 1 - k))%nat) as HL
    by (rewrite length_col_slice, (proj1 HP); lia).
  split; [exact HL |].
  intros j Hj. rewrite HL in Hj. now rewrite nth_col_slice by lia.
Qed.

Lemma euro_store (k : nat) (V : matrix) :
  (k < n)%nat -> shape V rows cols ->
  yields (C <- cont k (n - 1 - k) V ;;
          store_col V (sa k (n - 1 - k)) (sb k (n - 1 - k) V) (n - 1 - k) C)
         (fun _ V' => step_spec rows cols lo hi rule (n - 1 - k) V V V').
Proof.
  intros Hk Hs.
  destruct (Hcont k V Hk Hs) as (C & -> & HL & HC).
  rewrite ret_bind, Hsa, (Hsb k V) by assumption.
  pose proof (Hrows (n - 1 - k)) as Hr.
  apply (store_col_step rows cols lo hi); auto; try lia.
Qed.

Lemma amer_store (k : nat) (V : matrix) :
  (k < n)%nat -> shape V rows cols -> shape Pmat rows cols ->
  yields (C <- cont k (n - 1 - k) V ;;
          P <- load_col Pmat (sa k (n - 1 - k)) (sb k (n - 1 - k) Pmat) (n - 1 - k) ;;
          W <- np_maximum C P ;;
          store_col V (sa k (n - 1 - k)) (sb k (n - 1 - k) V) (n - 1 - k) W)
         (fun _ V' =>
            step_spec rows cols lo hi (rule_amer rule Pmat) (n - 1 - k) V V V').
Proof.
  intros Hk Hs HP.
  destruct (Hcont k V Hk Hs) as (C & -> & HL & HC).
  destruct (payoff_column k Hk HP) as (P & -> & HLP & HPj).
  rewrite !ret_bind. unfold np_maximum.
  rewrite broadcast_same_length by lia.
  rewrite ret_bind, Hsa, (Hsb k V) by assumption.
  pose proof (Hrows (n - 1 - k)) as Hr.
  apply (store_col_step rows cols lo hi); auto; try lia.
  - rewrite length_zip_with. lia.
  - intros j Hj. rewrite length_zip_with in Hj.
    rewrite nth_zip_with, HC, HPj by lia. reflexivity.
Qed.

Lemma flag_store (k : nat) (V Ex : matrix) :
  (k < n)%nat -> shape V rows cols -> shape Pmat rows cols ->
  shape Ex rows cols ->
  yields (C <- cont k (n - 1 - k) V ;;
          P <- load_col Pmat (sa k (n - 1 - k)) (sb k (n - 1 - k) Pmat) (n - 1 - k) ;;
          D <- broadcast sub C P ;;
          store_col Ex (sa k (n - 1 - k)) (sb k (n - 1 - k) Ex) (n - 1 - k)
            (map exercise_flag D))
         (fun _ Ex' =>
            step_spec rows cols lo hi (rule_flag sub rule Pmat) (n - 1 - k) Ex V Ex').
Proof.
  intros Hk Hs HP HE.
  destruct (Hcont k V Hk Hs) as (C & -> & HL & HC).
  destruct (payoff_column k Hk HP) as (P & -> & HLP & HPj).
  rewrite !ret_bind.
  rewrite broadcast_same_length by lia.
  rewrite ret_bind, Hsa, (Hsb k Ex) by assumption.
  pose proof (Hrows (n - 1 - k)) as Hr.
  apply (store_col_step rows cols lo hi); auto; try lia.
  - rewrite length_map, length_zip_with. lia.
  - intros j Hj. rewrite length_map, length_zip_with in Hj.
    rewrite nth_indep with (d' := exercise_flag 0)
      by (rewrite length_map, length_zip_with; lia).
    rewrite map_nth, nth_zip_with, HC, HPj by lia. reflexivity.
Qed.

Lemma euro_loop (V0 : matrix) :
  shape V0 rows cols ->
  yields (for_each (enumerate (range_down n)) (fun mt Vmat =>
            let '(m, t) := mt in
            C <- cont m t Vmat ;;
            store_col Vmat (sa m t) (sb m t Vmat) t C) V0)
         (fun _ V => lattice_inv rows cols n lo hi rule V0 n V V).
Proof.
  intros Hs. rewrite enumerate_range_down.
  apply (for_each_seq (fun k _ V => lattice_inv rows cols n lo hi rule V0 k V V)).
  - now apply lattice_inv_0.
  - intros k tr V Hk Hinv.
    eapply yields_weaken; [apply euro_store; [exact Hk | apply Hinv] |].
    intros ? V' Hstep. now apply lattice_inv_step with (V := V).
Qed.

Lemma amer_loop (V0 : matrix) :
  shape V0 rows cols -> shape Pmat rows cols ->
  yields (for_each (enumerate (range_down n)) (fun mt Vmat =>
            let '(m, t) := mt in
            C <- cont m t Vmat ;;
            P <- load_col Pmat (sa m t) (sb m t Pmat) t ;;
            V <- np_maximum C P ;;
            store_col Vmat (sa m t) (sb m t Vmat) t V) V0)
         (fun _ V => lattice_inv rows cols n lo hi (rule_amer rule Pmat) V0 n V V).
Proof.
  intros Hs HP. rewrite enumerate_range_down.
  apply (for_each_seq (fun k _ V =>
           lattice_inv rows cols n lo hi (rule_amer rule Pmat) V0 k V V)).
  - now apply lattice_inv_0.
  - intros k tr V Hk Hinv.
    eapply yields_weaken; [apply amer_store; [exact Hk | apply Hinv | exact HP] |].
    intros ? V' Hstep. now apply lattice_inv_step with (V := V).
Qed.

Lemma exmat_loop (V0 E0 : matrix) :
  shape V0 rows cols -> shape Pmat rows cols -> shape E0 rows cols ->
  yields (for_each (enumerate (range_down n)) (fun mt st =>
            let '(m, t) := mt in
            let '(Vmat, Exmat) := st in
            C <- cont m t Vmat ;;
            P <- load_col Pmat (sa m t) (sb m t Pmat) t ;;
            V <- np_maximum C P ;;
            Vmat <- store_col Vmat (sa m t) (sb m t Vmat) t V ;;
            C' <- cont m t Vmat ;;
            P' <- load_col Pmat (sa m t) (sb m t Pmat) t ;;
            D <- broadcast sub C' P' ;;
            Exmat <- store_col Exmat (sa m t) (sb m t Exmat) t (map exercise_flag D) ;;
            ret (Vmat, Exmat)) (V0, E0))
         (fun _ st =>
            lattice_inv rows cols n lo hi (rule_amer rule Pmat) V0 n (fst st) (fst st) /\
            lattice_inv rows cols n lo hi (rule_flag sub rule Pmat) E0 n (fst st) (snd st)).
Proof.
  intros Hs HP HE. rewrite enumerate_range_down.
  apply (for_each_seq (fun k _ st =>
           lattice_inv rows cols n lo hi (rule_amer rule Pmat) V0 k (fst st) (fst st) /\
           lattice_inv rows cols n lo hi (rule_flag sub rule Pmat) E0 k (fst st) (snd st))).
  - split; now apply lattice_inv_0.
  - intros k tr [V Ex] Hk [HinvV HinvE]. cbn [fst snd] in HinvV, HinvE.
    match goal with |- yields ?body _ =>
      assert (body =
        (V' <- (C <- cont k (n - 1 - k) V ;;
                P <- load_col Pmat (sa k (n - 1 - k)) (sb k (n - 1 - k) Pmat) (n - 1 - k) ;;
                W <- np_maximum C P ;;
                store_col V (sa k (n - 1 - k)) (sb k (n - 1 - k) V) (n - 1 - k) W) ;;
         Ex' <- (C <- cont k (n - 1 - k) V' ;;
                 P <- load_col Pmat (sa k (n - 1 - k)) (sb k (n - 1 - k) Pmat) (n - 1 - k) ;;
                 D <- broadcast sub C P ;;
                 store_col Ex (sa k (n - 1 - k)) (sb k (n - 1 - k) Ex) (n - 1 - k)
                   (map exercise_flag D)) ;;
         ret (V', Ex'))) as ->
    end.
    { symmetry.
      do 3 (rewrite bind_assoc; apply bind_ext; intro).
      apply bind_ext; intro.
      do 3 (rewrite bind_assoc; apply bind_ext; intro).
      reflexivity. }
    eapply yields_bind; [apply amer_store; [exact Hk | apply HinvV | exact HP] |].
    intros tr1 V' Hstep. cbn beta in Hstep.
    eapply yields_bind;
      [apply flag_store; [exact Hk | apply Hstep | exact HP | apply HinvE] |].
    intros tr2 Ex' Hstep2. cbn beta in Hstep2.
    apply yields_ret. cbn [fst snd]. split.
    + now apply lattice_inv_step with (V := V).
    + apply lattice_inv_step2 with (V := V) (Ex := Ex); auto.
      eapply step_frame. exact Hstep.
Qed.

End BackwardLoops.

(** ** The multiplicative binomial pricers *)

Lemma rounded_bracket_test (fl : arithmetic) (r u d dt : R) :
  Rltb 0 d && Rltb d (fdiv fl 1 (fexp fl (fmul fl (- r) dt)))
           && Rltb (fdiv fl 1 (fexp fl (fmul fl (- r) dt))) u = true
  <-> RoundedSpec.bracket fl r u d dt.
Proof.
  rewrite !andb_true_iff, !Rltb_true. unfold RoundedSpec.bracket. tauto.
Qed.

Lemma rounded_bracket_dec (fl : arithmetic) (r u d dt : R) :
  {RoundedSpec.bracket fl r u d dt} + {~ RoundedSpec.bracket fl r u d dt}.
Proof.
  destruct (Rltb 0 d && Rltb d (fdiv fl 1 (fexp fl (fmul fl (- r) dt)))
            && Rltb (fdiv fl 1 (fexp fl (fmul fl (- r) dt))) u) eqn:E.
  - left. now apply rounded_bracket_test.
  - right. intros H. apply rounded_bracket_test in H. congruence.
Qed.

(** Without rounding the test is the no-arbitrage bracket. *)
Lemma exact_bracket (r u d dt : R) :
  RoundedSpec.bracket exact_arithmetic r u d dt <-> no_arbitrage_bracket r u d dt.
Proof.
  unfold RoundedSpec.bracket, no_arbitrage_bracket. cbn [fdiv fexp fmul exact_arithmetic].
  now rewrite inv_dfact.
Qed.

Lemma rounded_BM_params_ok (fl : arithmetic) (r u d T : R) (Ntree : Z) :
  Ntree <> 0%Z -> RoundedSpec.bracket fl r u d (fdiv fl T (fint fl Ntree)) ->
  Rounded.BM_params fl r u d T Ntree =
  ret (RoundedSpec.BM_dfact fl r T Ntree, RoundedSpec.BM_p fl r u d T Ntree).
Proof.
  intros HN Hb. unfold Rounded.BM_params, Rounded.py_div.
  replace (Ntree =? 0)%Z with false by (symmetry; now apply Z.eqb_neq).
  rewrite ret_bind. apply rounded_bracket_test in Hb. now rewrite Hb.
Qed.

Lemma rounded_BM_params_fail (fl : arithmetic) (r u d T : R) (Ntree : Z) :
  Ntree <> 0%Z -> ~ RoundedSpec.bracket fl r u d (fdiv fl T (fint fl Ntree)) ->
  Rounded.BM_params fl r u d T Ntree = raise parameter_exception.
Proof.
  intros HN Hb. unfold Rounded.BM_params, Rounded.py_div.
  replace (Ntree =? 0)%Z with false by (symmetry; now apply Z.eqb_neq).
  rewrite ret_bind.
  destruct (_ && _) eqn:E; [| reflexivity].
  apply rounded_bracket_test in E. contradiction.
Qed.

Lemma rounded_BM_price_column (fl : arithmetic) (S0 u d : R) (t j : nat) :
  (j <= t)%nat ->
  nth j (zip_with (fmul fl)
           (Rounded.scal fl S0 (map (fpow fl u) (rev (seq 0 (t + 1)))))
           (map (fpow fl d) (seq 0 (t + 1)))) 0
  = fmul fl (fmul fl S0 (fpow fl u (t - j))) (fpow fl d j).
Proof.
  intros Hj. unfold Rounded.scal.
  rewrite nth_zip_with.
  - rewrite nth_map_lt by (rewrite length_map, length_rev, length_seq; lia).
    rewrite rev_seq, map_map, !nth_map_seq by lia.
    do 3 f_equal. lia.
  - now rewrite !length_map, length_rev.
  - rewrite !length_map, length_rev, length_seq. lia.
Qed.

Lemma rounded_BM_prices_run (fl : arithmetic) (S0 u d : R) (Ntree : Z) :
  (1 <= Ntree)%Z ->
  yields (Rounded.BM_prices fl S0 u d Ntree) (fun _ P =>
    shape P (Z.to_nat Ntree + 1) (Z.to_nat Ntree + 1) /\
    forall i c, in_triangle (Z.to_nat Ntree) i c = true ->
      get P i c = fmul fl (fmul fl S0 (fpow fl u (Z.to_nat Ntree - i)))
                          (fpow fl d (i + c - Z.to_nat Ntree))).
Proof.
  intros HN. unfold Rounded.BM_prices.
  set (n := Z.to_nat Ntree).
  assert (Z.to_nat (Ntree + 1) = (n + 1)%nat) as Hn1 by (unfold n; lia).
  eapply yields_bind.
  { apply yields_exact, np_zeros2_ok; lia. }
  intros ? ? [-> ->]. rewrite Hn1.
  eapply yields_bind.
  { apply yields_exact, (store_item_ok _ (n + 1) (n + 1));
      [apply shape_zeros | unfold n; lia | lia]. }
  intros ? ? [-> ->].
  replace (Z.to_nat Ntree) with n by reflexivity. change (Z.to_nat 0) with 0%nat.
  set (P0 := write_col (repeat (repeat 0 (n + 1)%nat) (n + 1)%nat) n 0 [S0]).
  assert (shape P0 (n + 1) (n + 1)) as HP0
    by (apply write_col_shape, shape_zeros).
  rewrite range_as_map.
  eapply yields_weaken.
  { apply (for_each_seq (fun k (_ : list event) P =>
       shape P (n + 1) (n + 1) /\
       forall i c, (c < k)%nat -> in_triangle n i c = true ->
         get P i c = fmul fl (fmul fl S0 (fpow fl u (n - i)))
                             (fpow fl d (i + c - n)))).
    - split; [exact HP0 |]. intros i c Hc. lia.
    - intros k tr P Hk (Hs & Hget).
      unfold Rounded.np_mul. rewrite broadcast_same_length
        by (unfold Rounded.scal; now rewrite !length_map, length_rev).
      rewrite ret_bind.
      unfold nrows. rewrite (proj1 Hs).
      assert (length (zip_with (fmul fl)
                (Rounded.scal fl S0 (map (fpow fl u) (rev (seq 0 (k + 1)))))
                (map (fpow fl d) (seq 0 (k + 1)))) = (k + 1)%nat) as HL.
      { unfold Rounded.scal.
        rewrite length_zip_with, !length_map, length_rev, length_seq. lia. }
      rewrite (store_col_ok P (n + 1) (n + 1)); [| exact Hs | lia | lia | rewrite HL; lia].
      eexists _, _. split; [reflexivity |].
      split; [now apply write_col_shape |].
      intros i c Hc Ht. apply in_triangle_true in Ht.
      rewrite (get_write_col P _ _ _ (n + 1) (n + 1)); [| exact Hs | lia | rewrite HL; lia].
      rewrite HL.
      destruct (Nat.eqb_spec c k) as [-> | Hck].
      + replace (n - k <=? i)%nat with true by (symmetry; apply Nat.leb_le; lia).
        replace (i <? n - k + (k + 1))%nat with true by (symmetry; apply Nat.ltb_lt; lia).
        cbn [andb]. rewrite rounded_BM_price_column by lia.
        replace (k - (i - (n - k)))%nat with (n - i)%nat by lia.
        replace (i - (n - k))%nat with (i + k - n)%nat by lia.
        reflexivity.
      + cbn [andb]. apply Hget; [lia |]. apply in_triangle_true. lia. }
  intros tr P (Hs & Hget). split; [exact Hs |].
  intros i c Ht. apply Hget; [| exact Ht].
  apply in_triangle_true in Ht. lia.
Qed.

Lemma get_tri (n i j : nat) :
  in_triangle n i j = true -> get (np_fliplr (np_tri (n + 1))) i j = 1.
Proof.
  intros Ht. pose proof (get_strikes 1 n i j) as H.
  rewrite Ht in H. rewrite <- H.
  apply in_triangle_true in Ht.
  assert (shape (np_fliplr (np_tri (n + 1))) (n + 1) (n + 1)) as Hs.
  { pose proof (shape_strikes 1 (n + 1)) as [H1 H2]. unfold mmap in H1, H2.
    split.
    - now rewrite length_map in H1.
    - apply Forall_forall. intros row Hin.
      rewrite Forall_forall in H2.
      specialize (H2 (map (Rmult 1) row) (in_map _ _ _ Hin)).
      now rewrite length_map in H2. }
  rewrite (get_in_shape_mmap _ _ (n + 1) (n + 1)) by (auto; lia). ring.
Qed.

Lemma shape_tri (m : nat) : shape (np_fliplr (np_tri m)) m m.
Proof.
  split.
  - unfold np_fliplr, np_tri. now rewrite !length_map, length_seq.
  - apply Forall_forall. intros row Hin. unfold np_fliplr, np_tri in Hin.
    rewrite map_map in Hin. apply in_map_iff in Hin.
    destruct Hin as (i & <- & _).
    now rewrite length_rev, length_map, length_seq.
Qed.

Lemma rounded_np_sub2_ok (fl : arithmetic) (A B : matrix) (r c : nat) :
  shape A r c -> shape B r c ->
  Rounded.np_sub2 fl A B = ret (zip_with (zip_with (fsub fl)) A B).
Proof.
  intros HA HB. unfold Rounded.np_sub2. now rewrite (same_shape_true A B r c).
Qed.

(** The payoff matrix: its shape, and the node [(c, n - i)] in row [i] of
    column [c]. *)
Lemma rounded_BM_payoff_run (fl : arithmetic) (S0 K u d : R) (Ntree : Z)
    (optype : string) :
  (1 <= Ntree)%Z -> valid_optype optype ->
  yields (Rounded.BM_payoff fl S0 K u d Ntree optype) (fun _ Pmat =>
    shape Pmat (Z.to_nat Ntree + 1) (Z.to_nat Ntree + 1) /\
    forall i c, in_triangle (Z.to_nat Ntree) i c = true ->
      get Pmat i c =
      RoundedSpec.BM_payoff_at fl S0 K u d optype c (Z.to_nat Ntree - i)).
Proof.
  intros HN Ho. unfold Rounded.BM_payoff.
  set (n := Z.to_nat Ntree).
  eapply yields_bind; [apply rounded_BM_prices_run; exact HN |].
  intros tr P (Hs & Hget). fold n in Hs, Hget. cbn beta.
  assert (shape (mmap (fmul fl K) (np_fliplr (np_tri (n + 1)))) (n + 1) (n + 1))
    as HsK by apply shape_mmap, shape_tri.
  rewrite (rounded_np_sub2_ok fl _ _ (n + 1) (n + 1) Hs HsK), ret_bind.
  rewrite payoff_by_optype_valid by exact Ho.
  apply yields_ret. split.
  - apply shape_mmap. now apply shape_zip_with.
  - intros i c Ht. pose proof Ht as Ht'. apply in_triangle_true in Ht'.
    rewrite (get_in_shape_mmap _ _ (n + 1) (n + 1));
      [| now apply shape_zip_with | lia | lia].
    rewrite (get_in_shape_zip_with _ _ _ (n + 1) (n + 1)) by (auto; lia).
    rewrite (get_in_shape_mmap _ _ (n + 1) (n + 1)) by (auto using shape_tri; lia).
    rewrite Hget, get_tri by exact Ht.
    unfold RoundedSpec.BM_payoff_at.
    replace (c - (n - i))%nat with (i + c - n)%nat by lia.
    reflexivity.
Qed.

Lemma rounded_BM_continuation_run (fl : arithmetic) (dfact p : R) (n m t : nat)
    (V : matrix) :
  shape V (n + 1) (n + 1) -> (m + t + 1 = n)%nat ->
  exists C, Rounded.BM_continuation fl dfact p n m t V = ret C /\
    length C = (t + 1)%nat /\
    forall j, (j < t + 1)%nat ->
      nth j C 0 = recurrence (RoundedSpec.BM_rule_euro fl dfact p) V (BM_lo n t + j) t.
Proof.
  intros Hs Hmt. unfold Rounded.BM_continuation, nrows.
  rewrite (proj1 Hs).
  rewrite !(load_col_ok V (n + 1) (n + 1)) by (auto; lia).
  rewrite !ret_bind. unfold Rounded.np_add, Rounded.scal.
  assert (length (col_slice V m n (t + 1)) = (t + 1)%nat) as L1
    by (rewrite length_col_slice, (proj1 Hs); lia).
  assert (length (col_slice V (m + 1) (n + 1) (t + 1)) = (t + 1)%nat) as L2
    by (rewrite length_col_slice, (proj1 Hs); lia).
  rewrite broadcast_same_length by (rewrite !length_map; lia).
  rewrite ret_bind. eexists. split; [reflexivity |]. split.
  - rewrite length_map, length_zip_with, !length_map. lia.
  - intros j Hj.
    rewrite nth_map_lt by (rewrite length_zip_with, !length_map; lia).
    rewrite nth_zip_with by (rewrite ?length_map; lia).
    rewrite !nth_map_lt, !nth_col_slice by lia.
    unfold recurrence, RoundedSpec.BM_rule_euro, BM_lo.
    do 3 f_equal; f_equal; lia.
Qed.

(** With exact arithmetic the rounded pricers are the pricers of the first
    embedding. *)
Lemma rounded_BM_Euro_exact S0 K r u d T Ntree optype :
  Rounded.BM_Euro exact_arithmetic S0 K r u d T Ntree optype
  = BM_Euro S0 K r u d T Ntree optype.
Proof. reflexivity. Qed.

Lemma rounded_BM_Amer_exact S0 K r u d T Ntree optype exmat :
  Rounded.BM_Amer exact_arithmetic S0 K r u d T Ntree optype exmat
  = BM_Amer S0 K r u d T Ntree optype exmat.
Proof. reflexivity. Qed.

Lemma rounded_aTM_Amer_exact S0 K r sigma div T Ntree optype exmat :
  Rounded.aTM_Amer exact_arithmetic S0 K r sigma div T Ntree optype exmat
  = aTM_Amer S0 K r sigma div T Ntree optype exmat.
Proof. reflexivity. Qed.

Lemma rounded_aBM_Amer_exact S0 K r sigma T Ntree optype mode exmat :
  Rounded.aBM_Amer exact_arithmetic S0 K r sigma T Ntree optype mode exmat
  = aBM_Amer S0 K r sigma T Ntree optype mode exmat.
Proof. reflexivity. Qed.

Lemma exercise_flag_sign (x : R) :
  (exercise_flag x = 1 <-> x < 0) /\ (exercise_flag x = 0 <-> ~ x < 0).
Proof.
  unfold exercise_flag, Rltb.
  destruct (Rlt_dec x 0) as [H | H]; split; split; intros; try lra; tauto.
Qed.

Lemma rounded_flag_stored (fl : arithmetic) (C I : R) :
  RoundedSpec.flag_stored fl (exercise_flag (fsub fl C I)) C I.
Proof. exact (exercise_flag_sign (fsub fl C I)). Qed.

Lemma rounded_flag_correct (fl : arithmetic) (C I : R) :
  sign_exact fl -> flag_correct (exercise_flag (fsub fl C I)) C I.
Proof.
  intros Hfl. unfold flag_correct.
  destruct (exercise_flag_sign (fsub fl C I)) as [H1 H0].
  rewrite H1, H0, (Hfl C I). tauto.
Qed.

Lemma rounded_BM_payoff_invalid (fl : arithmetic) (S0 K u d : R) (Ntree : Z)
    (optype : string) :
  (1 <= Ntree)%Z -> ~ valid_optype optype ->
  outcome (Rounded.BM_payoff fl S0 K u d Ntree optype) = inl optype_exception.
Proof.
  intros HN Ho. unfold Rounded.BM_payoff.
  destruct (rounded_BM_prices_run fl S0 u d Ntree HN) as (tr & P & -> & Hs & _).
  set (n := Z.to_nat Ntree) in *.
  rewrite outcome_bind. cbn [outcome snd].
  rewrite (rounded_np_sub2_ok fl _ _ (n + 1) (n + 1) Hs)
    by apply shape_mmap, shape_tri.
  rewrite ret_bind. now rewrite payoff_by_optype_invalid.
Qed.

Lemma rounded_BM_payoff_negative (fl : arithmetic) (S0 K u d : R) (Ntree : Z)
    (optype : string) :
  (Ntree < 0)%Z ->
  outcome (Rounded.BM_payoff fl S0 K u d Ntree optype)
  = inl (if (Ntree =? -1)%Z then IndexError else ValueError).
Proof.
  intros HN. destruct (Z.eqb_spec Ntree (-1)) as [-> | Hne]; [reflexivity |].
  unfold Rounded.BM_payoff, Rounded.BM_prices, np_zeros2.
  replace (Ntree + 1 <? 0)%Z with true by (symmetry; apply Z.ltb_lt; lia).
  reflexivity.
Qed.

Section RoundedBinomialRuns.

Variable fl : arithmetic.
Variables (S0 K r u d T : R) (Ntree : Z) (optype : string).

Hypothesis HN : (1 <= Ntree)%Z.
Hypothesis Hbracket : RoundedSpec.bracket fl r u d (fdiv fl T (fint fl Ntree)).
Hypothesis Hoptype : valid_optype optype.

Local Abbreviation n := (Z.to_nat Ntree).
Local Abbreviation dfact := (RoundedSpec.BM_dfact fl r T Ntree).
Local Abbreviation p := (RoundedSpec.BM_p fl r u d T Ntree).
Local Abbreviation rule := (RoundedSpec.BM_rule_euro fl dfact p).

Lemma rounded_BM_inv_terminal (Pmat V0 V : matrix) rl :
  (forall i c, in_triangle n i c = true ->
     get Pmat i c = RoundedSpec.BM_payoff_at fl S0 K u d optype c (n - i)) ->
  (forall i j, get V0 i j = if (j =? n)%nat then get Pmat i j else 0) ->
  BM_inv n rl V0 n V V ->
  forall j, (j <= n)%nat ->
    node n V n j = RoundedSpec.BM_payoff_at fl S0 K u d optype n j.
Proof.
  intros HP HV0 (_ & Hout & _) j Hj. unfold node.
  rewrite Hout, HV0, Nat.eqb_refl by (unfold in_lattice; lia).
  rewrite HP by (apply in_triangle_true; lia).
  f_equal. lia.
Qed.

Lemma rounded_BM_Euro_run :
  yields (Rounded.BM_Euro fl S0 K r u d T Ntree optype)
         (fun _ V => RoundedSpec.BM_European_lattice_spec fl S0 K r u d T Ntree optype V).
Proof.
  unfold Rounded.BM_Euro.
  rewrite rounded_BM_params_ok by (auto; lia). rewrite ret_bind.
  eapply yields_bind; [apply rounded_BM_payoff_run; assumption |].
  intros tr0 Pmat (HsP & HgetP). cbn beta.
  assert (Z.to_nat (Ntree + 1) = (n + 1)%nat) as Hn1 by lia.
  eapply yields_bind.
  { apply terminal_values_run; [lia | lia |]. now rewrite Hn1. }
  intros tr V0 (_ & HsV0 & HgetV0). cbn beta.
  rewrite Hn1 in HsV0, HgetV0.
  replace (n + 1 - 1)%nat with n in HgetV0 by lia.
  eapply yields_weaken.
  { apply (euro_loop (n + 1) (n + 1) n (BM_lo n) (BM_hi n) rule
             (fun m t V => Rounded.BM_continuation fl dfact p n m t V)
             (fun m _ => (m + 1)%nat) (fun _ _ X => nrows X)); try exact HsV0.
    - intros k V Hk Hs.
      destruct (rounded_BM_continuation_run fl dfact p n k (n - 1 - k) V Hs)
        as (C & E & HL & HC); [lia |].
      exists C. split; [exact E |]. unfold BM_lo, BM_hi. split; [lia |].
      intros j Hj. apply HC. lia.
    - intros k Hk. unfold BM_lo. lia.
    - intros k X Hk HX. unfold BM_hi, nrows. now rewrite (proj1 HX).
    - lia.
    - intros t Ht. unfold BM_lo, BM_hi. lia. }
  intros tr' V Hinv. cbn beta in Hinv |- *.
  split.
  - exact (rounded_BM_inv_terminal Pmat V0 V _ HgetP HgetV0 Hinv).
  - intros i j Hi Hj. destruct Hinv as (_ & _ & Hin). unfold node.
    rewrite Hin by (unfold in_lattice, BM_lo, BM_hi; lia).
    unfold recurrence, RoundedSpec.BM_rule_euro, RoundedSpec.BM_continuation_at, node.
    replace (n - j - 1)%nat with (n - (j + 1))%nat by lia. reflexivity.
Qed.

Lemma rounded_BM_amer_nodes (Pmat V0 V : matrix) :
  (forall i c, in_triangle n i c = true ->
     get Pmat i c = RoundedSpec.BM_payoff_at fl S0 K u d optype c (n - i)) ->
  (forall i j, get V0 i j = if (j =? n)%nat then get Pmat i j else 0) ->
  BM_inv n (rule_amer rule Pmat) V0 n V V ->
  RoundedSpec.BM_American_lattice_spec fl S0 K r u d T Ntree optype V.
Proof.
  intros HP HV0 Hinv. split.
  - exact (rounded_BM_inv_terminal Pmat V0 V _ HP HV0 Hinv).
  - intros i j Hi Hj. destruct Hinv as (_ & _ & Hin). unfold node.
    rewrite Hin by (unfold in_lattice, BM_lo, BM_hi; lia).
    unfold recurrence, rule_amer, RoundedSpec.BM_rule_euro,
      RoundedSpec.BM_continuation_at, node.
    rewrite HP by (apply in_triangle_true; lia).
    replace (n - j - 1)%nat with (n - (j + 1))%nat by lia.
    replace (n - (n - j))%nat with j by lia. reflexivity.
Qed.

Lemma rounded_BM_Amer_run_plain :
  yields (Rounded.BM_Amer fl S0 K r u d T Ntree optype false)
         (fun _ V => RoundedSpec.BM_American_lattice_spec fl S0 K r u d T Ntree optype V).
Proof.
  unfold Rounded.BM_Amer.
  rewrite rounded_BM_params_ok by (auto; lia). rewrite ret_bind.
  eapply yields_bind; [apply rounded_BM_payoff_run; assumption |].
  intros tr0 Pmat (HsP & HgetP). cbn beta.
  assert (Z.to_nat (Ntree + 1) = (n + 1)%nat) as Hn1 by lia.
  eapply yields_bind.
  { apply terminal_values_run; [lia | lia |]. now rewrite Hn1. }
  intros tr V0 (_ & HsV0 & HgetV0). cbn beta.
  rewrite Hn1 in HsV0, HgetV0.
  replace (n + 1 - 1)%nat with n in HgetV0 by lia.
  cbn [negb]. cbv iota. rewrite ret_bind.
  eapply yields_weaken.
  { apply (amer_loop (n + 1) (n + 1) n (BM_lo n) (BM_hi n) rule
             (fun m t V => Rounded.BM_continuation fl dfact p n m t V)
             (fun m _ => (m + 1)%nat) (fun _ _ X => nrows X) Pmat);
      try assumption.
    - intros k V Hk Hs.
      destruct (rounded_BM_continuation_run fl dfact p n k (n - 1 - k) V Hs)
        as (C & E & HL & HC); [lia |].
      exists C. split; [exact E |]. unfold BM_lo, BM_hi. split; [lia |].
      intros j Hj. apply HC. lia.
    - intros k Hk. unfold BM_lo. lia.
    - intros k X Hk HX. unfold BM_hi, nrows. now rewrite (proj1 HX).
    - lia.
    - intros t Ht. unfold BM_lo, BM_hi. lia. }
  intros tr' V Hinv. cbn beta in Hinv |- *.
  exact (rounded_BM_amer_nodes Pmat V0 V HgetP HgetV0 Hinv).
Qed.

Lemma rounded_BM_Amer_run_exmat :
  yields (Rounded.BM_Amer fl S0 K r u d T Ntree optype true)
         (fun tr V =>
            RoundedSpec.BM_American_lattice_spec fl S0 K r u d T Ntree optype V /\
            exists tr0 Ex,
              tr = tr0 ++ [EvMatshow Ex; EvTitle "Early exercise"] /\
              forall i j, (i < n)%nat -> (j <= i)%nat ->
                node n Ex i j =
                exercise_flag
                  (fsub fl (RoundedSpec.BM_continuation_at fl dfact p n V i j)
                           (RoundedSpec.BM_payoff_at fl S0 K u d optype i j))).
Proof.
  unfold Rounded.BM_Amer.
  rewrite rounded_BM_params_ok by (auto; lia). rewrite ret_bind.
  destruct (rounded_BM_payoff_run fl S0 K u d Ntree optype HN Hoptype)
    as (trP & Pmat & -> & HsP & HgetP).
  assert (Z.to_nat (Ntree + 1) = (n + 1)%nat) as Hn1 by lia.
  destruct (terminal_values_run (Ntree + 1) (Ntree + 1) Pmat) as (trV & V0 & EV & _ & HsV0 & HgetV0);
    [lia | lia | now rewrite Hn1 |].
  rewrite Hn1 in HsV0, HgetV0.
  replace (n + 1 - 1)%nat with n in HgetV0 by lia.
  destruct (exmat_loop (n + 1) (n + 1) n (BM_lo n) (BM_hi n) rule
             (fun m t V => Rounded.BM_continuation fl dfact p n m t V)
             (fun m _ => (m + 1)%nat) (fun _ _ X => nrows X) (fsub fl) Pmat)
    with (V0 := V0) (E0 := repeat (repeat 0 (n + 1)%nat) (n + 1)%nat)
    as (trL & [V Ex] & EL & HinvV & HinvE); try assumption.
  { intros k V Hk Hs.
    destruct (rounded_BM_continuation_run fl dfact p n k (n - 1 - k) V Hs)
      as (C & E & HL & HC); [lia |].
    exists C. split; [exact E |]. unfold BM_lo, BM_hi. split; [lia |].
    intros j Hj. apply HC. lia. }
  { intros k Hk. unfold BM_lo. lia. }
  { intros k X Hk HX. unfold BM_hi, nrows. now rewrite (proj1 HX). }
  { lia. }
  { intros t Ht. unfold BM_lo, BM_hi. lia. }
  { apply shape_zeros. }
  cbn [fst snd] in HinvV, HinvE.
  eexists _, V. split.
  { eapply bind_value; [reflexivity |].
    eapply bind_value; [exact EV |].
    cbn [negb]. cbv iota.
    eapply bind_value; [| reflexivity].
    eapply bind_value; [apply np_zeros2_ok; lia |]. rewrite Hn1.
    eapply bind_value; [exact EL |]. reflexivity. }
  split.
  - exact (rounded_BM_amer_nodes Pmat V0 V HgetP HgetV0 HinvV).
  - exists (trP ++ trV ++ [EvAlloc [(n + 1)%nat; (n + 1)%nat]] ++ trL), Ex. split.
    + rewrite Hn1, app_nil_r. repeat rewrite <- app_assoc. reflexivity.
    + intros i j Hi Hj. destruct HinvE as (_ & _ & Hin). unfold node.
      rewrite Hin by (unfold in_lattice, BM_lo, BM_hi; lia).
      unfold recurrence, rule_flag, RoundedSpec.BM_rule_euro,
        RoundedSpec.BM_continuation_at, node.
      rewrite HgetP by (apply in_triangle_true; lia).
      replace (n - j - 1)%nat with (n - (j + 1))%nat by lia.
      replace (n - (n - j))%nat with j by lia. reflexivity.
Qed.

End RoundedBinomialRuns.

(** ** The additive trinomial pricer *)

Lemma rounded_aTM_params_ok (fl : arithmetic) (r sigma div T : R) (Ntree : Z) :
  Ntree <> 0%Z -> 0 < r -> 0 < sigma ->
  Rounded.aTM_params fl r sigma div T Ntree
  = ret (Rounded.aTM_prm fl r sigma div (fdiv fl T (fint fl Ntree))).
Proof.
  intros HN Hr Hs. unfold Rounded.aTM_params, Rounded.py_div.
  replace (Ntree =? 0)%Z with false by (symmetry; now apply Z.eqb_neq).
  rewrite ret_bind.
  apply Rltb_true in Hr, Hs. now rewrite Hr, Hs.
Qed.

Lemma rounded_aTM_price_column (fl : arithmetic) (S0 dx : R) (t j : nat) :
  (j < 2 * t + 1)%nat ->
  nth j (Rounded.scal fl S0 (map (fun e => fexp fl (fmul fl dx (IZR e)))
                      (rev (arange (- Z.of_nat t) (Z.of_nat t + 1))))) 0
  = fmul fl S0 (fexp fl (fmul fl dx (IZR (Z.of_nat t - Z.of_nat j)))).
Proof.
  intros Hj.
  assert (length (arange (- Z.of_nat t) (Z.of_nat t + 1)) = (2 * t + 1)%nat) as HL
    by (rewrite length_arange; lia).
  unfold Rounded.scal.
  rewrite nth_map_lt by (rewrite length_map, length_rev; lia). f_equal.
  rewrite nth_indep with (d' := (fun e => fexp fl (fmul fl dx (IZR e))) 0%Z)
    by (rewrite length_map, length_rev; lia).
  rewrite (map_nth (fun e => fexp fl (fmul fl dx (IZR e)))).
  rewrite rev_nth by lia. rewrite HL.
  unfold arange.
  rewrite nth_indep with (d' := (fun k => (- Z.of_nat t + Z.of_nat k)%Z) 0%nat)
    by (rewrite length_map, length_seq; lia).
  rewrite (map_nth (fun k => (- Z.of_nat t + Z.of_nat k)%Z)).
  rewrite seq_nth by lia.
  do 3 f_equal. lia.
Qed.

Lemma rounded_aTM_prices_run (fl : arithmetic) (S0 K dx : R) (Ntree : Z) :
  (1 <= Ntree)%Z ->
  yields (Rounded.aTM_prices fl S0 K dx Ntree) (fun _ PK =>
    shape (fst PK) (2 * Z.to_nat Ntree + 1) (Z.to_nat Ntree + 1) /\
    shape (snd PK) (2 * Z.to_nat Ntree + 1) (Z.to_nat Ntree + 1) /\
    forall i c, in_diamond (Z.to_nat Ntree) i c = true ->
      get (fst PK) i c =
        fmul fl S0 (fexp fl (fmul fl dx (IZR (Z.of_nat (Z.to_nat Ntree) - Z.of_nat i)))) /\
      get (snd PK) i c = K).
Proof.
  intros HN. unfold Rounded.aTM_prices.
  set (n := Z.to_nat Ntree).
  assert (Z.to_nat (2 * Ntree + 1) = (2 * n + 1)%nat) as Hr by (unfold n; lia).
  assert (Z.to_nat (Ntree + 1) = (n + 1)%nat) as Hc by (unfold n; lia).
  eapply yields_bind; [apply yields_exact, np_zeros2_ok; lia |].
  intros ? ? [-> ->].
  eapply yields_bind; [apply yields_exact, np_zeros2_ok; lia |].
  intros ? ? [-> ->]. rewrite Hr, Hc.
  rewrite range_as_map.
  eapply yields_weaken.
  { apply (for_each_seq (fun k (_ : list event) PK =>
       shape (fst PK) (2 * n + 1) (n + 1) /\
       shape (snd PK) (2 * n + 1) (n + 1) /\
       forall i c, (c < k)%nat -> in_diamond n i c = true ->
         get (fst PK) i c =
           fmul fl S0 (fexp fl (fmul fl dx (IZR (Z.of_nat n - Z.of_nat i)))) /\
         get (snd PK) i c = K)).
    - cbn [fst snd].
      split; [apply shape_zeros |]. split; [apply shape_zeros |].
      intros i c Hc0. lia.
    - intros k tr [P Km] Hk (HsP & HsK & Hget). cbn [fst snd] in *.
      cbv iota.
      assert (length (Rounded.scal fl S0 (map (fun e => fexp fl (fmul fl dx (IZR e)))
                 (rev (arange (- Z.of_nat k) (Z.of_nat k + 1))))) = (2 * k + 1)%nat)
        as HL by (unfold Rounded.scal;
                  rewrite !length_map, length_rev, length_arange; lia).
      rewrite (store_col_ok P (2 * n + 1) (n + 1));
        [| exact HsP | lia | lia | rewrite HL; lia].
      unfold bind at 1.
      rewrite (store_col_scalar_ok Km (2 * n + 1) (n + 1)); [| exact HsK | lia | lia].
      replace (Nat.min (n + (k + 1) - (n - k)) (2 * n + 1 - (n - k)))
        with (2 * k + 1)%nat by lia.
      rewrite HL.
      eexists _, (_, _). split; [reflexivity |].
      cbn [fst snd].
      split; [| split].
      + now apply write_col_shape.
      + now apply write_col_shape.
      + intros i c Hck Hd. pose proof Hd as Hd'. apply in_diamond_true in Hd'.
        rewrite (get_write_col P _ _ _ (2 * n + 1) (n + 1));
          [| exact HsP | lia | rewrite HL; lia].
        rewrite (get_write_col Km _ _ _ (2 * n + 1) (n + 1));
          [| exact HsK | lia | rewrite repeat_length; lia].
        rewrite HL, repeat_length.
        destruct (Nat.eqb_spec c k) as [-> | Hne].
        * replace (n - k <=? i)%nat with true by (symmetry; apply Nat.leb_le; lia).
          replace (i <? n - k + (2 * k + 1))%nat with true
            by (symmetry; apply Nat.ltb_lt; lia).
          cbn [andb].
          rewrite rounded_aTM_price_column, nth_repeat_lt by lia.
          split; [| reflexivity].
          replace (Z.of_nat k - Z.of_nat (i - (n - k)))%Z
            with (Z.of_nat n - Z.of_nat i)%Z by lia.
          reflexivity.
        * cbn [andb]. apply Hget; [lia | exact Hd]. }
  intros tr [P Km] (HsP & HsK & Hget). cbn [fst snd] in *.
  split; [exact HsP |]. split; [exact HsK |].
  intros i c Hd. apply Hget; [| exact Hd].
  apply in_diamond_true in Hd. lia.
Qed.

Lemma rounded_aTM_payoff_run (fl : arithmetic) (S0 K dx : R) (Ntree : Z)
    (optype : string) :
  (1 <= Ntree)%Z -> valid_optype optype ->
  yields (Rounded.aTM_payoff fl S0 K dx Ntree optype) (fun _ Pmat =>
    shape Pmat (2 * Z.to_nat Ntree + 1) (Z.to_nat Ntree + 1) /\
    forall i c, in_diamond (Z.to_nat Ntree) i c = true ->
      get Pmat i c =
      RoundedSpec.aTM_payoff_at fl S0 K dx optype
        (Z.of_nat (Z.to_nat Ntree) - Z.of_nat i)).
Proof.
  intros HN Ho. unfold Rounded.aTM_payoff.
  set (n := Z.to_nat Ntree).
  eapply yields_bind; [apply rounded_aTM_prices_run; exact HN |].
  intros tr [P Km] (HsP & HsK & Hget). fold n in HsP, HsK, Hget.
  cbn [fst snd] in *. cbv iota.
  rewrite (rounded_np_sub2_ok fl _ _ (2 * n + 1) (n + 1) HsP HsK), ret_bind.
  rewrite payoff_by_optype_valid by exact Ho.
  apply yields_ret. split.
  - apply shape_mmap. now apply shape_zip_with.
  - intros i c Hd. pose proof Hd as Hd'. apply in_diamond_true in Hd'.
    rewrite (get_in_shape_mmap _ _ (2 * n + 1) (n + 1));
      [| now apply shape_zip_with | lia | lia].
    rewrite (get_in_shape_zip_with _ _ _ (2 * n + 1) (n + 1)) by (auto; lia).
    destruct (Hget i c Hd) as [-> ->]. reflexivity.
Qed.

Lemma rounded_aTM_continuation_run (fl : arithmetic) (prm : aTM_parameters)
    (n m t : nat) (V : matrix) :
  shape V (2 * n + 1) (n + 1) -> (m + t + 1 = n)%nat ->
  exists C, Rounded.aTM_continuation fl prm n m t V = ret C /\
    length C = (2 * t + 1)%nat /\
    forall j, (j < 2 * t + 1)%nat ->
      nth j C 0 = recurrence (RoundedSpec.aTM_rule_euro fl prm) V (aTM_lo n t + j) t.
Proof.
  intros Hs Hmt. unfold Rounded.aTM_continuation.
  rewrite !(load_col_ok V (2 * n + 1) (n + 1)) by (auto; lia).
  rewrite !ret_bind. unfold Rounded.np_add, Rounded.scal.
  assert (length (col_slice V m (2 * n - (m + 1)) (t + 1)) = (2 * t + 1)%nat) as L1
    by (rewrite length_col_slice, (proj1 Hs); lia).
  assert (length (col_slice V (m + 1) (2 * n - m) (t + 1)) = (2 * t + 1)%nat) as L2
    by (rewrite length_col_slice, (proj1 Hs); lia).
  assert (length (col_slice V (m + 2) (2 * n + 1 - m) (t + 1)) = (2 * t + 1)%nat) as L3
    by (rewrite length_col_slice, (proj1 Hs); lia).
  rewrite broadcast_same_length by (rewrite !length_map; lia).
  rewrite ret_bind.
  rewrite broadcast_same_length
    by (rewrite length_zip_with, !length_map; lia).
  rewrite ret_bind. eexists. split; [reflexivity |]. split.
  - rewrite length_map, !length_zip_with, !length_map. lia.
  - intros j Hj.
    rewrite nth_map_lt by (rewrite !length_zip_with, !length_map; lia).
    rewrite nth_zip_with
      by (rewrite ?length_zip_with, ?length_map; lia).
    rewrite nth_zip_with by (rewrite ?length_map; lia).
    rewrite !nth_map_lt, !nth_col_slice by lia.
    unfold recurrence, RoundedSpec.aTM_rule_euro, aTM_lo.
    replace (n - t + j - 1)%nat with (m + j)%nat by lia.
    replace (n - t + j + 1)%nat with (m + 2 + j)%nat by lia.
    replace (n - t + j)%nat with (m + 1 + j)%nat by lia.
    reflexivity.
Qed.

Lemma rounded_aTM_Amer_run_exmat (fl : arithmetic)
    (S0 K r sigma div T : R) (Ntree : Z) (optype : string) :
  (1 <= Ntree)%Z -> 0 < r -> 0 < sigma -> valid_optype optype ->
  exists tr0 Ex V,
    Rounded.aTM_Amer fl S0 K r sigma div T Ntree optype true
    = (tr0 ++ [EvMatshow Ex; EvTitle "Early exercise"], inr V) /\
    forall (t : nat) (j : Z),
      (t < Z.to_nat Ntree)%nat -> (- Z.of_nat t <= j <= Z.of_nat t)%Z ->
      tnode (Z.to_nat Ntree) Ex t j =
      exercise_flag
        (fsub fl
           (RoundedSpec.aTM_continuation_at fl
              (Rounded.aTM_prm fl r sigma div (fdiv fl T (fint fl Ntree)))
              (Z.to_nat Ntree) V t j)
           (RoundedSpec.aTM_payoff_at fl S0 K
              (tm_dx (Rounded.aTM_prm fl r sigma div (fdiv fl T (fint fl Ntree))))
              optype j)).
Proof.
  intros HN Hr Hsig Ho.
  set (n := Z.to_nat Ntree).
  set (prm := Rounded.aTM_prm fl r sigma div (fdiv fl T (fint fl Ntree))).
  unfold Rounded.aTM_Amer.
  rewrite rounded_aTM_params_ok by (auto; lia). rewrite ret_bind. fold prm.
  destruct (rounded_aTM_payoff_run fl S0 K (tm_dx prm) Ntree optype HN Ho)
    as (trP & Pmat & -> & HsP & HgetP). fold n in HsP, HgetP.
  assert (Z.to_nat (2 * Ntree + 1) = (2 * n + 1)%nat) as Hn2 by (unfold n; lia).
  assert (Z.to_nat (Ntree + 1) = (n + 1)%nat) as Hn1 by (unfold n; lia).
  destruct (terminal_values_run (2 * Ntree + 1) (Ntree + 1) Pmat)
    as (trV & V0 & EV & _ & HsV0 & HgetV0);
    [lia | lia | now rewrite Hn1, Hn2 |].
  rewrite Hn1 in HsV0, HgetV0. rewrite Hn2 in HsV0.
  destruct (exmat_loop (2 * n + 1) (n + 1) n (aTM_lo n) (aTM_hi n)
              (RoundedSpec.aTM_rule_euro fl prm)
              (fun m t V => Rounded.aTM_continuation fl prm n m t V)
              (fun _ t => (n - t)%nat) (fun _ t _ => (n + (t + 1))%nat)
              (fsub fl) Pmat)
    with (V0 := V0) (E0 := repeat (repeat 0 (n + 1)%nat) (2 * n + 1)%nat)
    as (trL & [V Ex] & EL & HinvV & HinvE); try assumption.
  { intros k V Hk Hs.
    destruct (rounded_aTM_continuation_run fl prm n k (n - 1 - k) V Hs)
      as (C & E & HL & HC); [lia |].
    exists C. split; [exact E |]. unfold aTM_lo, aTM_hi. split; [lia |].
    intros j Hj. apply HC. lia. }
  { intros k Hk. reflexivity. }
  { intros k X Hk HX. unfold aTM_hi. lia. }
  { lia. }
  { intros t Ht. unfold aTM_lo, aTM_hi. lia. }
  { apply shape_zeros. }
  cbn [fst snd] in HinvV, HinvE.
  match goal with |- exists tr0 Ex V, ?m = _ /\ _ =>
    assert (exists tr, m = (tr, inr V) /\
              tr = (trP ++ trV ++ [EvAlloc [(2 * n + 1)%nat; (n + 1)%nat]] ++ trL)
                   ++ [EvMatshow Ex; EvTitle "Early exercise"]) as (tr & E & ->)
  end.
  { eexists. split.
    { eapply bind_value; [reflexivity |].
      eapply bind_value; [exact EV |].
      cbn [negb]. cbv iota.
      eapply bind_value; [| reflexivity].
      eapply bind_value; [apply np_zeros2_ok; lia |]. rewrite Hn1, Hn2.
      eapply bind_value; [exact EL |]. reflexivity. }
    rewrite Hn1, Hn2, app_nil_r. repeat rewrite <- app_assoc. reflexivity. }
  exists (trP ++ trV ++ [EvAlloc [(2 * n + 1)%nat; (n + 1)%nat]] ++ trL), Ex, V.
  split; [exact E |].
  intros t j Ht Hj. destruct HinvE as (_ & _ & Hin). unfold tnode.
  rewrite Hin by (unfold in_lattice, aTM_lo, aTM_hi; lia).
  unfold recurrence, rule_flag, RoundedSpec.aTM_rule_euro,
    RoundedSpec.aTM_continuation_at, tnode.
  rewrite HgetP by (apply in_diamond_true; lia).
  replace (Z.to_nat (Z.of_nat n - j) - 1)%nat
    with (Z.to_nat (Z.of_nat n - (j + 1))) by lia.
  replace (Z.to_nat (Z.of_nat n - j) + 1)%nat
    with (Z.to_nat (Z.of_nat n - (j - 1))) by lia.
  replace (Z.of_nat n - Z.of_nat (Z.to_nat (Z.of_nat n - j)))%Z with j by lia.
  reflexivity.
Qed.

(** ** Outcomes of the binomial pricers *)

Lemma rounded_BM_Euro_outcome (fl : arithmetic) (S0 K r u d T : R) (Ntree : Z)
    (optype : string) :
  (1 <= Ntree)%Z -> RoundedSpec.bracket fl r u d (fdiv fl T (fint fl Ntree)) ->
  valid_optype optype ->
  exists V, outcome (Rounded.BM_Euro fl S0 K r u d T Ntree optype) = inr V /\
    RoundedSpec.BM_European_lattice_spec fl S0 K r u d T Ntree optype V.
Proof.
  intros HN Hb Ho.
  destruct (rounded_BM_Euro_run fl S0 K r u d T Ntree optype HN Hb Ho)
    as (tr & V & E & H).
  exists V. rewrite E. auto.
Qed.

Lemma rounded_BM_Amer_outcome (fl : arithmetic) (S0 K r u d T : R) (Ntree : Z)
    (optype : string) (exmat : bool) :
  (1 <= Ntree)%Z -> RoundedSpec.bracket fl r u d (fdiv fl T (fint fl Ntree)) ->
  valid_optype optype ->
  exists V, outcome (Rounded.BM_Amer fl S0 K r u d T Ntree optype exmat) = inr V /\
    RoundedSpec.BM_American_lattice_spec fl S0 K r u d T Ntree optype V.
Proof.
  intros HN Hb Ho. destruct exmat.
  - destruct (rounded_BM_Amer_run_exmat fl S0 K r u d T Ntree optype HN Hb Ho)
      as (tr & V & E & H & _).
    exists V. rewrite E. auto.
  - destruct (rounded_BM_Amer_run_plain fl S0 K r u d T Ntree optype HN Hb Ho)
      as (tr & V & E & H).
    exists V. rewrite E. auto.
Qed.

(** When the payoff matrix is not built, neither pricer goes further. *)
Lemma rounded_BM_payoff_failure (fl : arithmetic) (S0 K r u d T : R) (Ntree : Z)
    (optype : string) (exmat : bool) (e : exn) :
  Ntree <> 0%Z -> RoundedSpec.bracket fl r u d (fdiv fl T (fint fl Ntree)) ->
  outcome (Rounded.BM_payoff fl S0 K u d Ntree optype) = inl e ->
  outcome (Rounded.BM_Euro fl S0 K r u d T Ntree optype) = inl e /\
  outcome (Rounded.BM_Amer fl S0 K r u d T Ntree optype exmat) = inl e.
Proof.
  intros HN Hb E. unfold Rounded.BM_Euro, Rounded.BM_Amer.
  rewrite rounded_BM_params_ok by assumption.
  rewrite !ret_bind, !outcome_bind, E. auto.
Qed.

Lemma rounded_BM_bad_bracket (fl : arithmetic) (S0 K r u d T : R) (Ntree : Z)
    (optype : string) (exmat : bool) :
  Ntree <> 0%Z -> ~ RoundedSpec.bracket fl r u d (fdiv fl T (fint fl Ntree)) ->
  Rounded.BM_Euro fl S0 K r u d T Ntree optype = raise parameter_exception /\
  Rounded.BM_Amer fl S0 K r u d T Ntree optype exmat = raise parameter_exception.
Proof.
  intros HN Hb. unfold Rounded.BM_Euro, Rounded.BM_Amer.
  now rewrite rounded_BM_params_fail.
Qed.

Lemma sign_exact_exact : sign_exact exact_arithmetic.
Proof. intros x y. cbn [fsub exact_arithmetic]. lra. Qed.

(** * Binary64 computations *)

Ltac eval_B2R :=
  unfold B2R;
  repeat match goal with
  | |- context [numerator ?x] =>
      let v := eval vm_compute in (numerator x) in change (numerator x) with v
  | |- context [denominator ?x] =>
      let v := eval vm_compute in (denominator x) in change (denominator x) with v
  end.

Lemma INR_fact (n : nat) : INR (fact n) = Rfact n.
Proof.
  induction n as [| n IH]; [reflexivity |].
  rewrite fact_simpl, mult_INR, IH. reflexivity.
Qed.

Lemma Rfact_pos (n : nat) : 0 < Rfact n.
Proof. rewrite <- INR_fact. apply INR_fact_lt_0. Qed.

Lemma exp_series_cv (x : R) : Un_cv (fun n => sum_f_R0 (exp_term x) n) (exp x).
Proof.
  unfold exp. destruct (exist_exp x) as [l Hl]. cbn [proj1_sig].
  intros eps Heps. destruct (Hl eps Heps) as [N HN]. exists N.
  intros n Hn. specialize (HN n Hn).
  rewrite (sum_eq _ (fun i => / INR (fact i) * x ^ i)); [exact HN |].
  intros i _. unfold exp_term. now rewrite INR_fact.
Qed.

(** The partial sums of the series bound the exponential from below at
    [x >= 0], and those of odd order at [-x] for [0 <= x <= 1]. *)
Lemma exp_lower_bound (x : R) (n : nat) :
  0 <= x -> sum_f_R0 (exp_term x) n <= exp x.
Proof.
  intros Hx. apply sum_incr; [apply exp_series_cv |].
  intros k. unfold exp_term. apply Rmult_le_pos.
  - left. apply Rinv_0_lt_compat, Rfact_pos.
  - now apply pow_le.
Qed.

Lemma sum_exp_pairs (x : R) (n : nat) :
  sum_f_R0 (exp_pair x) n = sum_f_R0 (exp_term (- x)) (S (2 * n)).
Proof.
  induction n as [| n IH].
  - reflexivity.
  - replace (S (2 * S n)) with (S (S (S (2 * n)))) by lia.
    cbn [sum_f_R0]. rewrite IH. unfold exp_pair.
    replace (2 * S n)%nat with (S (S (2 * n))) by lia.
    cbn [sum_f_R0]. ring.
Qed.

Lemma exp_pair_nonneg (x : R) (k : nat) : 0 <= x <= 1 -> 0 <= exp_pair x k.
Proof.
  intros Hx. unfold exp_pair, exp_term.
  assert ((- x) ^ (2 * k) = x ^ (2 * k)) as He.
  { rewrite !pow_mult. f_equal. ring. }
  change ((- x) ^ S (2 * k)) with (- x * (- x) ^ (2 * k)).
  rewrite He. cbn [Rfact].
  assert (0 < Rfact (2 * k)) as Hf by apply Rfact_pos.
  assert (0 <= x ^ (2 * k)) as Hp by (apply pow_le; lra).
  assert (1 <= INR (S (2 * k))) as Hk.
  { rewrite S_INR. pose proof (pos_INR (2 * k)). lra. }
  rewrite Rinv_mult.
  assert (0 < / Rfact (2 * k)) as Hi by now apply Rinv_0_lt_compat.
  assert (0 < / INR (S (2 * k)) <= 1) as Hj.
  { split; [apply Rinv_0_lt_compat; lra |].
    rewrite <- Rinv_1. apply Rinv_le_contravar; lra. }
  assert (0 <= / Rfact (2 * k) * x ^ (2 * k)) as Hq by (apply Rmult_le_pos; lra).
  replace (/ Rfact (2 * k) * x ^ (2 * k)
           + / INR (S (2 * k)) * / Rfact (2 * k) * (- x * x ^ (2 * k)))
    with (/ Rfact (2 * k) * x ^ (2 * k) * (1 - / INR (S (2 * k)) * x)) by ring.
  apply Rmult_le_pos; [exact Hq |]. nra.
Qed.

Lemma exp_neg_lower_bound (x : R) (n : nat) :
  0 <= x <= 1 -> sum_f_R0 (exp_term (- x)) (S (2 * n)) <= exp (- x).
Proof.
  intros Hx. rewrite <- sum_exp_pairs.
  apply sum_incr; [| intros k; now apply exp_pair_nonneg].
  intros eps Heps. destruct (exp_series_cv (- x) eps Heps) as [N HN].
  exists N. intros m Hm. rewrite sum_exp_pairs. apply HN. lia.
Qed.

(** [exp(-1/4)] lies within half a unit in the last place of the float
    0x1.8ebef9eac820bp-1. *)
Lemma exp_minus_quarter :
  7014813832872459 / 9007199254740992 - / 18014398509481984 < exp (- (1 / 4))
  /\ exp (- (1 / 4)) < 7014813832872459 / 9007199254740992 + / 18014398509481984.
Proof.
  split.
  - eapply Rlt_le_trans; [| apply (exp_neg_lower_bound (1 / 4) 6); lra].
    unfold sum_f_R0, exp_term. cbn [Nat.mul Nat.add Rfact]. simpl INR. lra.
  - pose proof (exp_lower_bound (1 / 4) 12) as H.
    assert (0 <= 1 / 4) as H0 by lra. specialize (H H0).
    rewrite exp_Ropp.
    assert (0 < exp (1 / 4)) as Hp by apply exp_pos.
    unfold sum_f_R0, exp_term in H. cbn [Rfact] in H. simpl INR in H.
    apply Rmult_lt_reg_r with (exp (1 / 4)); [exact Hp |].
    rewrite Rinv_l by lra.
    eapply Rlt_le_trans; [| apply Rmult_le_compat_l; [lra | exact H]].
    lra.
Qed.

(** The float 0x1.48b5e3c3e8186p+0 lies strictly inside the bracket of
    [r = 1/4], [dt = 1] and [u = 2]. *)
Lemma bracket_at_the_edge :
  no_arbitrage_bracket (1 / 4) 2 (5782736388129158 / 4503599627370496) (1 / IZR 1).
Proof.
  unfold no_arbitrage_bracket.
  replace (1 / 4 * (1 / 1)) with (1 / 4) by lra.
  split; [lra |]. split.
  - eapply Rlt_le_trans; [| apply (exp_lower_bound (1 / 4) 13); lra].
    unfold sum_f_R0, exp_term. cbn [Rfact]. simpl INR. lra.
  - pose proof (exp_ineq1_le (- (1 / 4))) as H.
    rewrite exp_Ropp in H.
    assert (0 < exp (1 / 4)) as Hp by apply exp_pos.
    assert (exp (1 / 4) * / exp (1 / 4) = 1) as Hi by (field; lra).
    nra.
Qed.

(** * The properties of the specification, C1 to C10 *)





(** C3.  With [exmat = True] and accepted parameters, [BM_Amer] and
    [aTM_Amer] show (with [plt.matshow]) an early-exercise matrix whose flag
    at every interior node is set by the test [(C - I) < 0] on the rounded
    difference of [C], the discounted continuation value that the code
    computes from the final values of the successor column, and [I], the
    payoff that the code computed for the node.  The values are the computed
    ones and the statement holds for every rounding of the arithmetic
    operations.  Where the sign of a rounded difference is the sign of the
    exact difference, as in IEEE 754, the flag is true exactly when [C] is
    strictly less than [I]. *)
Theorem C3_exercise_flags_on_computed_values (fl : arithmetic)
    (S0 K r u d sigma div T : R) (Ntree : Z) (optype : string) :
  (1 <= Ntree)%Z -> valid_optype optype ->
  (RoundedSpec.bracket fl r u d (fdiv fl T (fint fl Ntree)) ->
   exists tr0 Ex V,
     Rounded.BM_Amer fl S0 K r u d T Ntree optype true
     = (tr0 ++ [EvMatshow Ex; EvTitle "Early exercise"], inr V) /\
     RoundedSpec.BM_stored_flags_spec fl S0 K r u d T Ntree optype V Ex /\
     (sign_exact fl ->
      RoundedSpec.BM_exercise_flags_spec fl S0 K r u d T Ntree optype V Ex)) /\
  (0 < r -> 0 < sigma ->
   exists tr0 Ex V,
     Rounded.aTM_Amer fl S0 K r sigma div T Ntree optype true
     = (tr0 ++ [EvMatshow Ex; EvTitle "Early exercise"], inr V) /\
     RoundedSpec.aTM_stored_flags_spec fl S0 K r sigma div T Ntree optype V Ex /\
     (sign_exact fl ->
      RoundedSpec.aTM_exercise_flags_spec fl S0 K r sigma div T Ntree optype V Ex)).
Proof.
  intros HN Ho. split.
  - intros Hb.
    destruct (rounded_BM_Amer_run_exmat fl S0 K r u d T Ntree optype HN Hb Ho)
      as (tr & V & E & _ & tr0 & Ex & -> & Hflag).
    exists tr0, Ex, V. split; [exact E |]. split.
    + intros i j Hi Hj. rewrite Hflag by assumption.
      apply rounded_flag_stored.
    + intros Hfl i j Hi Hj. rewrite Hflag by assumption.
      now apply rounded_flag_correct.
  - intros Hr Hs.
    destruct (rounded_aTM_Amer_run_exmat fl S0 K r sigma div T Ntree optype
                HN Hr Hs Ho) as (tr0 & Ex & V & E & Hflag).
    exists tr0, Ex, V. split; [exact E |]. split.
    + intros t j Ht Hj. rewrite Hflag by assumption.
      apply rounded_flag_stored.
    + intros Hfl t j Ht Hj. rewrite Hflag by assumption.
      now apply rounded_flag_correct.
Qed.

Lemma C3_witness :
  (1 <= 3)%Z /\ valid_optype "put" /\
  RoundedSpec.bracket exact_arithmetic 0.06 1.1 0.9091
    (fdiv exact_arithmetic 1 (fint exact_arithmetic 3)) /\
  0 < 0.06 /\ 0 < 0.2 /\ sign_exact exact_arithmetic /\
  (exists tr0 Ex V,
     Rounded.BM_Amer exact_arithmetic 100 100 0.06 1.1 0.9091 1 3 "put" true
     = (tr0 ++ [EvMatshow Ex; EvTitle "Early exercise"], inr V) /\
     RoundedSpec.BM_stored_flags_spec exact_arithmetic
       100 100 0.06 1.1 0.9091 1 3 "put" V Ex /\
     RoundedSpec.BM_exercise_flags_spec exact_arithmetic
       100 100 0.06 1.1 0.9091 1 3 "put" V Ex) /\
  (exists tr0 Ex V,
     Rounded.aTM_Amer exact_arithmetic 100 100 0.06 0.2 0.03 1 3 "put" true
     = (tr0 ++ [EvMatshow Ex; EvTitle "Early exercise"], inr V) /\
     RoundedSpec.aTM_stored_flags_spec exact_arithmetic
       100 100 0.06 0.2 0.03 1 3 "put" V Ex /\
     RoundedSpec.aTM_exercise_flags_spec exact_arithmetic
       100 100 0.06 0.2 0.03 1 3 "put" V Ex).
Proof.
  assert (1 <= 3)%Z as H1 by lia.
  assert (valid_optype "put") as H2 by (right; reflexivity).
  assert (RoundedSpec.bracket exact_arithmetic 0.06 1.1 0.9091
            (fdiv exact_arithmetic 1 (fint exact_arithmetic 3))) as H3
    by (apply exact_bracket; exact bracket_notebook).
  assert (0 < 0.06) as H4 by lra.
  assert (0 < 0.2) as H5 by lra.
  pose proof sign_exact_exact as H6.
  split; [exact H1 |]. split; [exact H2 |]. split; [exact H3 |].
  split; [exact H4 |]. split; [exact H5 |]. split; [exact H6 |].
  destruct (C3_exercise_flags_on_computed_values exact_arithmetic
              100 100 0.06 1.1 0.9091 0.2 0.03 1 3 "put" H1 H2) as [HB HT].
  split.
  - destruct (HB H3) as (tr0 & Ex & V & E & Hst & Hex).
    exists tr0, Ex, V. split; [exact E |]. split; [exact Hst | exact (Hex H6)].
  - destruct (HT H4 H5) as (tr0 & Ex & V & E & Hst & Hex).
    exists tr0, Ex, V. split; [exact E |]. split; [exact Hst | exact (Hex H6)].
Defined.




(** C5, as the code has it.  The parameter exception of the trinomial
    pricers tests [0 < r] and [0 < sigma] only.  With a negative dividend
    yield (and [r > 0], [sigma > 0], [T > 0], [N >= 1], a valid option type)
    [aTM_Euro] and [aTM_Amer] do not fail: each returns the value lattice
    computed with the drift [nu = (r - div) - sigma^2/2]. *)
Theorem C5_negative_dividend_yield_is_accepted
    (S0 K r sigma div T : R) (Ntree : Z) (optype : string) (exmat : bool) :
  div < 0 -> 0 < r -> 0 < sigma -> 0 < T -> (1 <= Ntree)%Z ->
  valid_optype optype ->
  (exists V, outcome (aTM_Euro S0 K r sigma div T Ntree optype) = inr V /\
     aTM_lattice S0 K (aTM_dx sigma (T / IZR Ntree)) optype (Z.to_nat Ntree)
       (aTM_euro_node (aTM_prm r sigma div (T / IZR Ntree))) V) /\
  (exists V, outcome (aTM_Amer S0 K r sigma div T Ntree optype exmat) = inr V /\
     aTM_lattice S0 K (aTM_dx sigma (T / IZR Ntree)) optype (Z.to_nat Ntree)
       (aTM_amer_node S0 K optype (Z.to_nat Ntree)
          (aTM_prm r sigma div (T / IZR Ntree))) V).
Proof.
  intros _ Hr Hs _ HN Ho. split.
  - now apply aTM_Euro_outcome.
  - now apply aTM_Amer_outcome.
Qed.

Lemma C5_witness :
  - (0.03) < 0 /\ 0 < 0.06 /\ 0 < 0.2 /\ 0 < 1 /\ (1 <= 3)%Z /\
  valid_optype "call" /\
  (exists V, outcome (aTM_Euro 100 100 0.06 0.2 (- (0.03)) 1 3 "call") = inr V /\
     aTM_lattice 100 100 (aTM_dx 0.2 (1 / 3)) "call" (Z.to_nat 3)
       (aTM_euro_node (aTM_prm 0.06 0.2 (- (0.03)) (1 / 3))) V) /\
  (exists V, outcome (aTM_Amer 100 100 0.06 0.2 (- (0.03)) 1 3 "call" true) = inr V /\
     aTM_lattice 100 100 (aTM_dx 0.2 (1 / 3)) "call" (Z.to_nat 3)
       (aTM_amer_node 100 100 "call" (Z.to_nat 3)
          (aTM_prm 0.06 0.2 (- (0.03)) (1 / 3))) V).
Proof.
  assert (- (0.03) < 0) as H1 by lra.
  assert (0 < 0.06) as H2 by lra.
  assert (0 < 0.2) as H3 by lra.
  assert (0 < 1) as H4 by lra.
  assert (1 <= 3)%Z as H5 by lia.
  assert (valid_optype "call") as H6 by (left; reflexivity).
  split; [exact H1 |]. split; [exact H2 |]. split; [exact H3 |].
  split; [exact H4 |]. split; [exact H5 |]. split; [exact H6 |].
  exact (C5_negative_dividend_yield_is_accepted
           100 100 0.06 0.2 (- (0.03)) 1 3 "call" true H1 H2 H3 H4 H5 H6).
Defined.

(** C5, counterexample to the specification's wording: with the notebook's
    parameters and the dividend yield negated, [aTM_Euro] raises nothing and returns a lattice. *)
Lemma C5_counterexample :
  - (0.03) < 0 /\
  (exists V, outcome (aTM_Euro 100 100 0.06 0.2 (- (0.03)) 1 3 "call") = inr V) /\
  outcome (aTM_Euro 100 100 0.06 0.2 (- (0.03)) 1 3 "call")
  <> inl parameter_exception.
Proof.
  split; [lra |].
  destruct (aTM_Euro_outcome 100 100 0.06 0.2 (- (0.03)) 1 3 "call")
    as (V & E & _); [lia | lra | lra | left; reflexivity |].
  split; [now exists V |]. rewrite E. discriminate.
Qed.

(** C6, as the code has it.  Called with [Ntree = 0], each of the four
    lattice pricers ends with [ZeroDivisionError], raised by [dt = T/Ntree]
    on its first line: nothing has been allocated and no lattice is
    returned. *)
Theorem C6_zero_steps_raise_ZeroDivisionError
    (S0 K r u d sigma div T : R) (optype : string) (exmat : bool) :
  BM_Euro S0 K r u d T 0 optype = ([], inl ZeroDivisionError) /\
  BM_Amer S0 K r u d T 0 optype exmat = ([], inl ZeroDivisionError) /\
  aTM_Euro S0 K r sigma div T 0 optype = ([], inl ZeroDivisionError) /\
  aTM_Amer S0 K r sigma div T 0 optype exmat = ([], inl ZeroDivisionError).
Proof. repeat split; reflexivity. Qed.

(** C6, counterexample to the specification's wording: with the notebook's
    parameters and [Ntree = 0], [BM_Euro] returns no lattice. *)
Lemma C6_counterexample :
  outcome (BM_Euro 100 100 0.06 1.1 0.9091 1 0 "call") = inl ZeroDivisionError /\
  ~ exists V, outcome (BM_Euro 100 100 0.06 1.1 0.9091 1 0 "call") = inr V.
Proof.
  split; [reflexivity |]. intros [V E]. discriminate E.
Qed.

(** C7, as the code has it.  With a valid option type and a step count for
    which [dt = T/N] is defined, [BM_Euro] and [BM_Amer] raise the parameter
    exception if and only if the test [(0<d) and (d<1/dfact) and (1/dfact<u)]
    fails on the computed discount factor [dfact = np.exp(-r*dt)], whatever
    the rounding of the operations is; when the test passes (and [N >= 1])
    each call goes on and returns the lattice computed with
    [p = (np.exp(r*dt) - d)/(u - d)].  In exact arithmetic [1/dfact] is
    [exp(r*dt)] and the test is the bracket [0 < d < exp(r*dt) < u]. *)
Theorem C7_parameter_exception_iff_computed_test_fails (fl : arithmetic)
    (S0 K r u d T : R) (Ntree : Z) (optype : string) (exmat : bool) :
  Ntree <> 0%Z -> valid_optype optype ->
  (outcome (Rounded.BM_Euro fl S0 K r u d T Ntree optype) = inl parameter_exception
   <-> ~ RoundedSpec.bracket fl r u d (fdiv fl T (fint fl Ntree))) /\
  (outcome (Rounded.BM_Amer fl S0 K r u d T Ntree optype exmat)
   = inl parameter_exception
   <-> ~ RoundedSpec.bracket fl r u d (fdiv fl T (fint fl Ntree))) /\
  ((1 <= Ntree)%Z -> RoundedSpec.bracket fl r u d (fdiv fl T (fint fl Ntree)) ->
   (exists V, outcome (Rounded.BM_Euro fl S0 K r u d T Ntree optype) = inr V /\
      RoundedSpec.BM_European_lattice_spec fl S0 K r u d T Ntree optype V) /\
   (exists V, outcome (Rounded.BM_Amer fl S0 K r u d T Ntree optype exmat) = inr V /\
      RoundedSpec.BM_American_lattice_spec fl S0 K r u d T Ntree optype V)) /\
  (RoundedSpec.bracket exact_arithmetic r u d (T / IZR Ntree)
   <-> no_arbitrage_bracket r u d (T / IZR Ntree)).
Proof.
  intros HN Ho.
  assert (RoundedSpec.bracket fl r u d (fdiv fl T (fint fl Ntree)) ->
          outcome (Rounded.BM_Euro fl S0 K r u d T Ntree optype)
          <> inl parameter_exception /\
          outcome (Rounded.BM_Amer fl S0 K r u d T Ntree optype exmat)
          <> inl parameter_exception) as Hgoes.
  { intros Hb. destruct (Z_lt_le_dec Ntree 0) as [Hneg | Hpos].
    - destruct (rounded_BM_payoff_failure fl S0 K r u d T Ntree optype exmat _
                  HN Hb (rounded_BM_payoff_negative fl S0 K u d Ntree optype Hneg))
        as [-> ->].
      split; destruct (Ntree =? -1)%Z; discriminate.
    - destruct (rounded_BM_Euro_outcome fl S0 K r u d T Ntree optype)
        as (V & -> & _); [lia | exact Hb | exact Ho |].
      destruct (rounded_BM_Amer_outcome fl S0 K r u d T Ntree optype exmat)
        as (V' & -> & _); [lia | exact Hb | exact Ho |].
      split; discriminate. }
  split; [| split; [| split]].
  - split.
    + intros E Hb. now apply (proj1 (Hgoes Hb)).
    + intros Hb.
      destruct (rounded_BM_bad_bracket fl S0 K r u d T Ntree optype exmat HN Hb)
        as [-> _]. reflexivity.
  - split.
    + intros E Hb. now apply (proj2 (Hgoes Hb)).
    + intros Hb.
      destruct (rounded_BM_bad_bracket fl S0 K r u d T Ntree optype exmat HN Hb)
        as [_ ->]. reflexivity.
  - intros HN1 Hb. split.
    + now apply rounded_BM_Euro_outcome.
    + now apply rounded_BM_Amer_outcome.
  - apply exact_bracket.
Qed.

Lemma C7_witness :
  3%Z <> 0%Z /\ valid_optype "put" /\
  (1 <= 3)%Z /\
  RoundedSpec.bracket exact_arithmetic 0.06 1.1 0.9091
    (fdiv exact_arithmetic 1 (fint exact_arithmetic 3)) /\
  (outcome (Rounded.BM_Euro exact_arithmetic 100 100 0.06 1.1 0.9091 1 3 "put")
   = inl parameter_exception
   <-> ~ RoundedSpec.bracket exact_arithmetic 0.06 1.1 0.9091
           (fdiv exact_arithmetic 1 (fint exact_arithmetic 3))) /\
  (outcome (Rounded.BM_Amer exact_arithmetic 100 100 0.06 1.1 0.9091 1 3 "put" true)
   = inl parameter_exception
   <-> ~ RoundedSpec.bracket exact_arithmetic 0.06 1.1 0.9091
           (fdiv exact_arithmetic 1 (fint exact_arithmetic 3))) /\
  (exists V,
     outcome (Rounded.BM_Euro exact_arithmetic 100 100 0.06 1.1 0.9091 1 3 "put")
     = inr V /\
     RoundedSpec.BM_European_lattice_spec exact_arithmetic
       100 100 0.06 1.1 0.9091 1 3 "put" V) /\
  (exists V,
     outcome (Rounded.BM_Amer exact_arithmetic 100 100 0.06 1.1 0.9091 1 3 "put" true)
     = inr V /\
     RoundedSpec.BM_American_lattice_spec exact_arithmetic
       100 100 0.06 1.1 0.9091 1 3 "put" V).
Proof.
  assert (3 <> 0)%Z as H1 by lia.
  assert (valid_optype "put") as H2 by (right; reflexivity).
  assert (1 <= 3)%Z as H3 by lia.
  assert (RoundedSpec.bracket exact_arithmetic 0.06 1.1 0.9091
            (fdiv exact_arithmetic 1 (fint exact_arithmetic 3))) as H4
    by (apply exact_bracket; exact bracket_notebook).
  split; [exact H1 |]. split; [exact H2 |]. split; [exact H3 |].
  split; [exact H4 |].
  destruct (C7_parameter_exception_iff_computed_test_fails exact_arithmetic
              100 100 0.06 1.1 0.9091 1 3 "put" true H1 H2) as (A & B & C & _).
  split; [exact A |]. split; [exact B |]. exact (C H3 H4).
Defined.

(** C7 fails as stated.  At [r = 0.25], [T = 1], [N = 1], [u = 2] and
    [d = 0x1.48b5e3c3e8186p+0] (1.2840254166877414) the bracket
    [0 < d < exp(r*dt) < u] holds, [d] being below [exp(0.25)] by 9e-17.
    In float64 [dfact = np.exp(-0.25)] is the float nearest to [exp(-0.25)]
    and [1/dfact] rounds to [d] itself, so that [d < 1/dfact] is false and
    the parameter check with which [BM_Euro] and [BM_Amer] begin raises the
    parameter exception. *)
Lemma C7_counterexample :
  no_arbitrage_bracket (B2R 0.25) (B2R 2) (B2R 0x1.48b5e3c3e8186p+0)
                       (B2R 1 / IZR 1) /\
  Rabs (B2R (Binary64.np_exp (- 0.25 * (1 / Binary64.of_int 1)))
        - exp (- B2R 0.25 * (B2R 1 / IZR 1))) < / 18014398509481984 /\
  (1 / Binary64.np_exp (- 0.25 * (1 / Binary64.of_int 1)))%float
  = 0x1.48b5e3c3e8186p+0%float /\
  outcome (Binary64.BM_params 0.25 2 0x1.48b5e3c3e8186p+0 1 1)
  = inl parameter_exception.
Proof.
  assert (B2R 0.25 = 1 / 4) as Hq by (eval_B2R; lra).
  assert (B2R 1 = 1) as H1 by (eval_B2R; lra).
  assert (B2R 2 = 2) as H2 by (eval_B2R; lra).
  assert (B2R 0x1.48b5e3c3e8186p+0 = 5782736388129158 / 4503599627370496) as Hd
    by (eval_B2R; lra).
  split; [| split; [| split]].
  - rewrite Hq, H1, H2, Hd. exact bracket_at_the_edge.
  - rewrite Hq, H1.
    replace (- (1 / 4) * (1 / 1)) with (- (1 / 4)) by lra.
    match goal with |- context [B2R ?x] =>
      let v := eval vm_compute in x in change x with v
    end.
    eval_B2R.
    pose proof exp_minus_quarter as [Hlo Hhi].
    apply Rabs_def1; lra.
  - vm_compute. reflexivity.
  - vm_compute. reflexivity.
Qed.

(** ** The trinomial probabilities, exactly and rounded *)









(** C9.  [BM_Amer] returns the same outcome, hence on success the same value
    lattice, whether [exmat] is true or false, and so does [aTM_Amer]: the
    argument only adds the early-exercise matrix and its plot. *)
Theorem C9_exmat_does_not_change_the_lattice
    (S0 K r u d sigma div T : R) (Ntree : Z) (optype : string) :
  outcome (BM_Amer S0 K r u d T Ntree optype true)
  = outcome (BM_Amer S0 K r u d T Ntree optype false) /\
  outcome (aTM_Amer S0 K r sigma div T Ntree optype true)
  = outcome (aTM_Amer S0 K r sigma div T Ntree optype false).
Proof.
  destruct (Z.eq_dec Ntree 0) as [-> | HN0]; [split; reflexivity |].
  split.
  - destruct (bracket_dec r u d (T / IZR Ntree)) as [Hb | Hb];
      [| now rewrite !BM_Amer_bad_bracket].
    destruct (Z_lt_le_dec Ntree 0) as [Hneg | Hpos].
    { destruct (BM_Amer_negative S0 K r u d T Ntree optype Hneg Hb)
        as (tr & e & _ & E).
      now rewrite !E. }
    assert (1 <= Ntree)%Z as HN by lia.
    destruct (valid_optype_dec optype) as [Ho | Ho];
      [| now rewrite !BM_Amer_invalid_optype].
    destruct (BM_Amer_outcome S0 K r u d T Ntree optype true HN Hb Ho)
      as (V1 & E1 & H1).
    destruct (BM_Amer_outcome S0 K r u d T Ntree optype false HN Hb Ho)
      as (V2 & E2 & H2).
    rewrite E1, E2. f_equal.
    eapply value_lattice_unique; [| exact H1 | exact H2].
    intros V V' i t H. unfold BM_amer_node, BM_cont. now rewrite !H.
  - destruct (Rlt_dec 0 r) as [Hr | Hr];
      [| rewrite !aTM_Amer_bad_parameters; tauto].
    destruct (Rlt_dec 0 sigma) as [Hs | Hs];
      [| rewrite !aTM_Amer_bad_parameters; tauto].
    destruct (Z_lt_le_dec Ntree 0) as [Hneg | Hpos];
      [now rewrite !aTM_Amer_negative |].
    assert (1 <= Ntree)%Z as HN by lia.
    destruct (valid_optype_dec optype) as [Ho | Ho];
      [| now rewrite !aTM_Amer_invalid_optype].
    destruct (aTM_Amer_outcome S0 K r sigma div T Ntree optype true HN Hr Hs Ho)
      as (V1 & E1 & H1).
    destruct (aTM_Amer_outcome S0 K r sigma div T Ntree optype false HN Hr Hs Ho)
      as (V2 & E2 & H2).
    rewrite E1, E2. f_equal.
    eapply value_lattice_unique; [| exact H1 | exact H2].
    intros V V' i t H. unfold aTM_amer_node, aTM_cont. now rewrite !H.
Qed.



(** * Further properties of the code, X1 to X27

    Properties read off the code: the American lattices and their relation
    to the European ones, put-call parity, the binomial formula, the inputs
    on which each function returns and the order of its failures, the
    sample paths and the estimates of the Monte Carlo functions, and the
    additive binomial pricers with their parameter choices. *)

(** ** Node-by-node readings of the lattices *)

Lemma aTM_lattice_terminal (S0 K dx : R) (optype : string) (n : nat)
    (nd : matrix -> nat -> nat -> R) (V : matrix) (j : Z) :
  aTM_lattice S0 K dx optype n nd V ->
  (- Z.of_nat n <= j <= Z.of_nat n)%Z ->
  tnode n V n j = intrinsic optype (S0 * exp (dx * IZR j)) K.
Proof.
  intros (_ & Hpay & _) Hj. unfold tnode. rewrite Hpay.
  unfold aTM_node_payoff, aTM_node_price.
  replace (in_diamond n (Z.to_nat (Z.of_nat n - j)) n) with true
    by (symmetry; apply in_diamond_true; lia).
  replace (Z.of_nat n - Z.of_nat (Z.to_nat (Z.of_nat n - j)))%Z with j by lia.
  reflexivity.
Qed.

Lemma aTM_lattice_node (S0 K dx : R) (optype : string) (n : nat)
    (nd : matrix -> nat -> nat -> R) (V : matrix) (t : nat) (j : Z) :
  aTM_lattice S0 K dx optype n nd V ->
  (t < n)%nat -> (- Z.of_nat t <= j <= Z.of_nat t)%Z ->
  tnode n V t j = nd V (Z.to_nat (Z.of_nat n - j)) t.
Proof.
  intros (_ & _ & Hnode & _) Ht Hj. unfold tnode. apply Hnode; lia.
Qed.

Lemma aTM_cont_tnode (prm : aTM_parameters) (n : nat) (V : matrix) (t : nat) (j : Z) :
  (- Z.of_nat t <= j <= Z.of_nat t)%Z -> (t < n)%nat ->
  aTM_cont prm V (Z.to_nat (Z.of_nat n - j)) t
  = tm_dfact prm * (tm_pu prm * tnode n V (t + 1) (j + 1)
                    + tm_pm prm * tnode n V (t + 1) j
                    + tm_pd prm * tnode n V (t + 1) (j - 1)).
Proof.
  intros Hj Ht. unfold aTM_cont, tnode.
  replace (Z.to_nat (Z.of_nat n - j) - 1)%nat
    with (Z.to_nat (Z.of_nat n - (j + 1))) by lia.
  replace (Z.to_nat (Z.of_nat n - j) + 1)%nat
    with (Z.to_nat (Z.of_nat n - (j - 1))) by lia.
  reflexivity.
Qed.

Lemma aTM_node_payoff_tnode (S0 K dx : R) (optype : string) (n t : nat) (j : Z) :
  (- Z.of_nat t <= j <= Z.of_nat t)%Z -> (t <= n)%nat ->
  aTM_node_payoff S0 K dx optype n (Z.to_nat (Z.of_nat n - j)) t
  = intrinsic optype (S0 * exp (dx * IZR j)) K.
Proof.
  intros Hj Ht. unfold aTM_node_payoff, aTM_node_price.
  replace (in_diamond n (Z.to_nat (Z.of_nat n - j)) t) with true
    by (symmetry; apply in_diamond_true; lia).
  replace (Z.of_nat n - Z.of_nat (Z.to_nat (Z.of_nat n - j)))%Z with j by lia.
  reflexivity.
Qed.

Lemma BM_node_payoff_node (S0 K u d : R) (optype : string) (n i j : nat) :
  (i <= n)%nat -> (j <= i)%nat ->
  BM_node_payoff S0 K u d optype n (n - j) i
  = intrinsic optype (S0 * u ^ j * d ^ (i - j)) K.
Proof.
  intros Hi Hj. unfold BM_node_payoff, BM_node_price.
  replace (in_triangle n (n - j) i) with true
    by (symmetry; apply in_triangle_true; lia).
  replace (n - (n - j))%nat with j by lia.
  replace (n - j + i - n)%nat with (i - j)%nat by lia.
  reflexivity.
Qed.

Lemma BM_cont_node (dfact p : R) (n : nat) (V : matrix) (i j : nat) :
  BM_cont dfact p V (n - j) i
  = dfact * (p * node n V (i + 1) (j + 1) + (1 - p) * node n V (i + 1) j).
Proof.
  unfold BM_cont, node.
  replace (n - j - 1)%nat with (n - (j + 1))%nat by lia. reflexivity.
Qed.

(** X1.  [aTM_Euro], for [r > 0], [sigma > 0], [T > 0], [N >= 1] and a valid
    option type, returns a lattice of [2N+1] rows and [N+1] columns.  Its
    last column is the intrinsic payoff at the prices [S0 * exp(j*dx)],
    [-N <= j <= N], and every earlier node [(t, j)], [-t <= j <= t], is the
    discounted expectation
    [dfact * (pu*V(t+1,j+1) + pm*V(t+1,j) + pd*V(t+1,j-1))] of its three
    successors. *)
Theorem X1_aTM_Euro_backward_induction
    (S0 K r sigma div T : R) (Ntree : Z) (optype : string) :
  0 < r -> 0 < sigma -> 0 < T -> (1 <= Ntree)%Z -> valid_optype optype ->
  exists V, outcome (aTM_Euro S0 K r sigma div T Ntree optype) = inr V /\
            shape V (2 * Z.to_nat Ntree + 1) (Z.to_nat Ntree + 1) /\
            aTM_European_lattice_spec S0 K r sigma div T Ntree optype V.
Proof.
  intros Hr Hs _ HN Ho.
  destruct (aTM_Euro_outcome S0 K r sigma div T Ntree optype HN Hr Hs Ho)
    as (V & E & HV).
  exists V. split; [exact E |]. split; [apply HV |].
  split.
  - intros j Hj. now apply (aTM_lattice_terminal _ _ _ _ _ _ _ _ HV).
  - intros t j Ht Hj.
    rewrite (aTM_lattice_node _ _ _ _ _ _ _ _ _ HV Ht Hj).
    unfold aTM_euro_node. now apply aTM_cont_tnode.
Qed.

Lemma X1_witness :
  0 < 0.06 /\ 0 < 0.2 /\ 0 < 1 /\ (1 <= 3)%Z /\ valid_optype "call" /\
  exists V, outcome (aTM_Euro 100 100 0.06 0.2 0.03 1 3 "call") = inr V /\
            shape V (2 * Z.to_nat 3 + 1) (Z.to_nat 3 + 1) /\
            aTM_European_lattice_spec 100 100 0.06 0.2 0.03 1 3 "call" V.
Proof.
  assert (0 < 0.06) as H1 by lra.
  assert (0 < 0.2) as H2 by lra.
  assert (0 < 1) as H3 by lra.
  assert (1 <= 3)%Z as H4 by lia.
  assert (valid_optype "call") as H5 by (left; reflexivity).
  split; [exact H1 |]. split; [exact H2 |]. split; [exact H3 |].
  split; [exact H4 |]. split; [exact H5 |].
  exact (X1_aTM_Euro_backward_induction 100 100 0.06 0.2 0.03 1 3 "call"
           H1 H2 H3 H4 H5).
Defined.



(** X3.  For accepted parameters [aTM_Amer], with or without [exmat],
    returns the American trinomial lattice: the intrinsic payoff at
    maturity, and at every earlier node the larger of the discounted
    expectation of the three successors and the intrinsic payoff of the
    node.  So no node is worth less than its immediate exercise. *)
Theorem X3_aTM_Amer_node_values
    (S0 K r sigma div T : R) (Ntree : Z) (optype : string) (exmat : bool) :
  0 < r -> 0 < sigma -> 0 < T -> (1 <= Ntree)%Z -> valid_optype optype ->
  exists V, outcome (aTM_Amer S0 K r sigma div T Ntree optype exmat) = inr V /\
    aTM_American_lattice_spec S0 K r sigma div T Ntree optype V /\
    forall (t : nat) (j : Z), (t <= Z.to_nat Ntree)%nat ->
      (- Z.of_nat t <= j <= Z.of_nat t)%Z ->
      intrinsic optype (S0 * exp (aTM_dx sigma (T / IZR Ntree) * IZR j)) K
      <= tnode (Z.to_nat Ntree) V t j.
Proof.
  intros Hr Hs _ HN Ho.
  destruct (aTM_Amer_outcome S0 K r sigma div T Ntree optype exmat HN Hr Hs Ho)
    as (V & E & HV).
  exists V. split; [exact E |].
  set (n := Z.to_nat Ntree) in *.
  set (prm := aTM_prm r sigma div (T / IZR Ntree)) in *.
  assert (forall j : Z, (- Z.of_nat n <= j <= Z.of_nat n)%Z ->
     tnode n V n j = intrinsic optype (S0 * exp (tm_dx prm * IZR j)) K) as Hterm.
  { intros j Hj. now apply (aTM_lattice_terminal _ _ _ _ _ _ _ _ HV). }
  assert (forall (t : nat) (j : Z), (t < n)%nat -> (- Z.of_nat t <= j <= Z.of_nat t)%Z ->
     tnode n V t j =
     Rmax (tm_dfact prm * (tm_pu prm * tnode n V (t + 1) (j + 1)
                           + tm_pm prm * tnode n V (t + 1) j
                           + tm_pd prm * tnode n V (t + 1) (j - 1)))
          (intrinsic optype (S0 * exp (tm_dx prm * IZR j)) K)) as Hint.
  { intros t j Ht Hj.
    rewrite (aTM_lattice_node _ _ _ _ _ _ _ _ _ HV Ht Hj).
    unfold aTM_amer_node.
    rewrite aTM_cont_tnode, aTM_node_payoff_tnode by lia. reflexivity. }
  split; [split; assumption |].
  intros t j Ht Hj. change (aTM_dx sigma (T / IZR Ntree)) with (tm_dx prm).
  destruct (Nat.eq_dec t n) as [-> | Hne].
  - rewrite Hterm by lia. apply Rle_refl.
  - rewrite Hint by lia. apply Rmax_r.
Qed.

Lemma X3_witness :
  0 < 0.06 /\ 0 < 0.2 /\ 0 < 1 /\ (1 <= 3)%Z /\ valid_optype "put" /\
  exists V, outcome (aTM_Amer 100 100 0.06 0.2 0.03 1 3 "put" true) = inr V /\
    aTM_American_lattice_spec 100 100 0.06 0.2 0.03 1 3 "put" V /\
    forall (t : nat) (j : Z), (t <= Z.to_nat 3)%nat ->
      (- Z.of_nat t <= j <= Z.of_nat t)%Z ->
      intrinsic "put" (100 * exp (aTM_dx 0.2 (1 / 3) * IZR j)) 100
      <= tnode (Z.to_nat 3) V t j.
Proof.
  assert (0 < 0.06) as H1 by lra.
  assert (0 < 0.2) as H2 by lra.
  assert (0 < 1) as H3 by lra.
  assert (1 <= 3)%Z as H4 by lia.
  assert (valid_optype "put") as H5 by (right; reflexivity).
  split; [exact H1 |]. split; [exact H2 |]. split; [exact H3 |].
  split; [exact H4 |]. split; [exact H5 |].
  exact (X3_aTM_Amer_node_values 100 100 0.06 0.2 0.03 1 3 "put" true
           H1 H2 H3 H4 H5).
Defined.

(** ** Relations between two lattices, entry by entry *)



(** ** Put-call parity on the binomial lattice *)



Lemma intrinsic_parity (S K : R) :
  intrinsic "call" S K - intrinsic "put" S K = S - K.
Proof.
  unfold intrinsic. simpl.
  destruct (Rle_dec (S - K) 0) as [H | H].
  - rewrite Rmax_right, Rmax_left; lra.
  - rewrite Rmax_left, Rmax_right; lra.
Qed.





(** ** The trinomial probabilities *)

Lemma aTM_dx_sqr (sigma dt : R) :
  0 <= dt -> aTM_dx sigma dt ^ 2 = 3 * sigma ^ 2 * dt.
Proof.
  intros Hdt. unfold aTM_dx.
  replace ((sqrt 3 * sigma * sqrt dt) ^ 2)
    with ((sqrt 3 * sqrt 3) * sigma ^ 2 * (sqrt dt * sqrt dt)) by ring.
  rewrite !sqrt_sqrt by lra. reflexivity.
Qed.

Lemma aTM_dx_pos (sigma dt : R) : 0 < sigma -> 0 < dt -> 0 < aTM_dx sigma dt.
Proof.
  intros Hs Hdt. unfold aTM_dx.
  apply Rmult_lt_0_compat; [apply Rmult_lt_0_compat |]; try assumption;
    apply sqrt_lt_R0; lra.
Qed.

(** [sf = 1/3 + af^2]: the spread factor in terms of the drift factor. *)
Lemma aTM_sf_af (r sigma div dt : R) :
  0 < sigma -> 0 < dt ->
  aTM_sf r sigma div dt = 1 / 3 + aTM_af r sigma div dt ^ 2.
Proof.
  intros Hs Hdt. unfold aTM_sf, aTM_af.
  pose proof (aTM_dx_pos sigma dt Hs Hdt) as Hdx.
  pose proof (aTM_dx_sqr sigma dt (Rlt_le _ _ Hdt)) as Hsq.
  set (dx := aTM_dx sigma dt) in *. set (nu := aTM_nu r sigma div).
  replace ((nu * dt / dx) ^ 2) with ((nu * dt) ^ 2 / dx ^ 2) by (field; lra).
  rewrite Hsq. field. split; lra.
Qed.

Lemma aTM_af_sqr (r sigma div dt : R) :
  0 < sigma -> 0 < dt ->
  aTM_af r sigma div dt ^ 2 = aTM_nu r sigma div ^ 2 * dt / (3 * sigma ^ 2).
Proof.
  intros Hs Hdt. unfold aTM_af.
  pose proof (aTM_dx_pos sigma dt Hs Hdt) as Hdx.
  pose proof (aTM_dx_sqr sigma dt (Rlt_le _ _ Hdt)) as Hsq.
  set (dx := aTM_dx sigma dt) in *. set (nu := aTM_nu r sigma div).
  replace ((nu * dt / dx) ^ 2) with ((nu * dt) ^ 2 / dx ^ 2) by (field; lra).
  rewrite Hsq. field. split; lra.
Qed.

Lemma aTM_probability_signs (r sigma div dt : R) :
  0 < sigma -> 0 < dt ->
  0 < aTM_pu r sigma div dt /\ 0 < aTM_pd r sigma div dt /\
  (0 <= aTM_pm r sigma div dt
   <-> aTM_nu r sigma div ^ 2 * dt <= 2 * sigma ^ 2).
Proof.
  intros Hs Hdt.
  pose proof (aTM_sf_af r sigma div dt Hs Hdt) as Hsf.
  pose proof (aTM_af_sqr r sigma div dt Hs Hdt) as Haf.
  unfold aTM_pu, aTM_pd, aTM_pm. rewrite Hsf.
  set (a := aTM_af r sigma div dt) in *.
  pose proof (pow2_ge_0 (a + 1 / 2)) as Hup.
  pose proof (pow2_ge_0 (a - 1 / 2)) as Hdn.
  split.
  { replace (0.5 * (1 / 3 + a ^ 2 + a)) with (0.5 * ((a + 1 / 2) ^ 2 + 1 / 12))
      by field. lra. }
  split.
  { replace (0.5 * (1 / 3 + a ^ 2 - a)) with (0.5 * ((a - 1 / 2) ^ 2 + 1 / 12))
      by field. lra. }
  rewrite Haf.
  assert (0 < 3 * sigma ^ 2) as H3 by nra.
  set (x := aTM_nu r sigma div ^ 2 * dt).
  split; intros H.
  - assert (x / (3 * sigma ^ 2) <= 2 / 3) as H' by lra.
    apply Rmult_le_compat_r with (r := 3 * sigma ^ 2) in H'; [| lra].
    unfold Rdiv in H'. rewrite Rmult_assoc, Rinv_l in H' by lra. lra.
  - assert (x / (3 * sigma ^ 2) <= 2 / 3); [| lra].
    apply Rmult_le_reg_r with (r := 3 * sigma ^ 2); [lra |].
    unfold Rdiv at 1. rewrite Rmult_assoc, Rinv_l by lra. lra.
Qed.

Lemma positive_time_step (T : R) (Ntree : Z) :
  0 < T -> (1 <= Ntree)%Z -> 0 < T / IZR Ntree.
Proof.
  intros HT HN. apply Rdiv_lt_0_compat; [exact HT |]. apply IZR_lt. lia.
Qed.



(** ** Monotonicity of the trinomial backward step *)

Lemma aTM_cont_mono (prm : aTM_parameters) (V V' : matrix) (i t : nat) :
  0 <= tm_dfact prm -> 0 <= tm_pu prm -> 0 <= tm_pm prm -> 0 <= tm_pd prm ->
  (forall i', get V i' (t + 1) <= get V' i' (t + 1)) ->
  aTM_cont prm V i t <= aTM_cont prm V' i t.
Proof.
  intros Hd Hu Hm Hdn H. unfold aTM_cont.
  apply Rmult_le_compat_l; [exact Hd |].
  repeat apply Rplus_le_compat; apply Rmult_le_compat_l; try assumption; apply H.
Qed.

Lemma aTM_cont_nonneg (prm : aTM_parameters) (V : matrix) (i t : nat) :
  0 <= tm_dfact prm -> 0 <= tm_pu prm -> 0 <= tm_pm prm -> 0 <= tm_pd prm ->
  (forall i', 0 <= get V i' (t + 1)) ->
  0 <= aTM_cont prm V i t.
Proof.
  intros Hd Hu Hm Hdn H. unfold aTM_cont.
  apply Rmult_le_pos; [exact Hd |].
  repeat apply Rplus_le_le_0_compat; apply Rmult_le_pos; try assumption; apply H.
Qed.

Lemma aTM_node_payoff_nonneg (S0 K dx : R) optype (n i c : nat) :
  0 <= aTM_node_payoff S0 K dx optype n i c.
Proof.
  unfold aTM_node_payoff. destruct (in_diamond n i c);
    [apply intrinsic_nonneg | lra].
Qed.

(** X7.  When the three trinomial probabilities are non-negative, that is
    when [nu^2 * dt <= 2 * sigma^2], every entry of the lattice of
    [aTM_Euro] is non-negative and at most the corresponding entry of the
    lattice of [aTM_Amer]. *)
Theorem X7_aTM_values_nonnegative_and_ordered
    (S0 K r sigma div T : R) (Ntree : Z) (optype : string) (exmat : bool) :
  0 < r -> 0 < sigma -> 0 < T -> (1 <= Ntree)%Z -> valid_optype optype ->
  ((r - div) - 0.5 * sigma ^ 2) ^ 2 * (T / IZR Ntree) <= 2 * sigma ^ 2 ->
  exists VE VA,
    outcome (aTM_Euro S0 K r sigma div T Ntree optype) = inr VE /\
    outcome (aTM_Amer S0 K r sigma div T Ntree optype exmat) = inr VA /\
    forall i c, 0 <= get VE i c <= get VA i c.
Proof.
  intros Hr Hs HT HN Ho Hstab.
  destruct (aTM_Euro_outcome S0 K r sigma div T Ntree optype HN Hr Hs Ho)
    as (VE & EE & HE).
  destruct (aTM_Amer_outcome S0 K r sigma div T Ntree optype exmat HN Hr Hs Ho)
    as (VA & EA & HA).
  exists VE, VA. split; [exact EE |]. split; [exact EA |].
  pose proof (positive_time_step T Ntree HT HN) as Hdt.
  destruct (aTM_probability_signs r sigma div _ Hs Hdt) as (Hu & Hd & Hm).
  apply Hm in Hstab.
  set (prm := aTM_prm r sigma div (T / IZR Ntree)) in *.
  assert (0 <= tm_dfact prm) as Hdf by (left; apply exp_pos).
  assert (0 <= tm_pu prm) as Hu' by (left; exact Hu).
  assert (0 <= tm_pd prm) as Hd' by (left; exact Hd).
  assert (0 <= tm_pm prm) as Hm' by exact Hstab.
  intros i c. split.
  - revert i c.
    apply (value_lattice_rel (fun x _ => 0 <= x) _ _ _ _ _ _ _ VE VE HE HE).
    + lra.
    + intros i. apply aTM_node_payoff_nonneg.
    + intros i t Ht Hi Hcol. unfold aTM_euro_node.
      now apply aTM_cont_nonneg.
  - revert i c.
    apply (value_lattice_rel Rle _ _ _ _ _ _ _ VE VA HE HA).
    + lra.
    + intros i. lra.
    + intros i t Ht Hi Hcol. unfold aTM_euro_node, aTM_amer_node.
      eapply Rle_trans; [| apply Rmax_l].
      now apply aTM_cont_mono.
Qed.

Lemma X7_witness :
  0 < 0.06 /\ 0 < 0.2 /\ 0 < 1 /\ (1 <= 3)%Z /\ valid_optype "put" /\
  ((0.06 - 0.03) - 0.5 * 0.2 ^ 2) ^ 2 * (1 / 3) <= 2 * 0.2 ^ 2 /\
  exists VE VA,
    outcome (aTM_Euro 100 100 0.06 0.2 0.03 1 3 "put") = inr VE /\
    outcome (aTM_Amer 100 100 0.06 0.2 0.03 1 3 "put" true) = inr VA /\
    forall i c, 0 <= get VE i c <= get VA i c.
Proof.
  assert (0 < 0.06) as H1 by lra.
  assert (0 < 0.2) as H2 by lra.
  assert (0 < 1) as H3 by lra.
  assert (1 <= 3)%Z as H4 by lia.
  assert (valid_optype "put") as H5 by (right; reflexivity).
  assert (((0.06 - 0.03) - 0.5 * 0.2 ^ 2) ^ 2 * (1 / 3) <= 2 * 0.2 ^ 2) as H6 by lra.
  split; [exact H1 |]. split; [exact H2 |]. split; [exact H3 |].
  split; [exact H4 |]. split; [exact H5 |]. split; [exact H6 |].
  exact (X7_aTM_values_nonnegative_and_ordered 100 100 0.06 0.2 0.03 1 3 "put" true
           H1 H2 H3 H4 H5 H6).
Defined.

(** ** The inputs on which the lattice pricers return *)

Lemma BM_negative_outcome (S0 K u d : R) (Ntree : Z) (optype : string) :
  (Ntree < 0)%Z ->
  outcome (BM_payoff S0 K u d Ntree optype)
  = inl (if (Ntree =? -1)%Z then IndexError else ValueError).
Proof.
  intros HN. destruct (Z.eqb_spec Ntree (-1)) as [-> | Hne]; [reflexivity |].
  unfold BM_payoff, BM_prices, np_zeros2.
  replace (Ntree + 1 <? 0)%Z with true by (symmetry; apply Z.ltb_lt; lia).
  reflexivity.
Qed.

Lemma aTM_Euro_negative (S0 K r sigma div T : R) (Ntree : Z) (optype : string) :
  (Ntree < 0)%Z -> 0 < r -> 0 < sigma ->
  aTM_Euro S0 K r sigma div T Ntree optype = raise ValueError.
Proof.
  intros HN Hr Hs. unfold aTM_Euro.
  rewrite aTM_params_ok by (auto; lia). rewrite ret_bind.
  now rewrite aTM_payoff_negative.
Qed.

Lemma aTM_Euro_bad_parameters (S0 K r sigma div T : R) (Ntree : Z)
    (optype : string) :
  Ntree <> 0%Z -> ~ (0 < r /\ 0 < sigma) ->
  aTM_Euro S0 K r sigma div T Ntree optype = raise parameter_exception.
Proof.
  intros HN H. unfold aTM_Euro. now rewrite aTM_params_fail.
Qed.

(** X8.  [BM_Euro] and [BM_Amer] return a lattice exactly when [N >= 1], the
    test [(0<d) and (d<1/dfact) and (1/dfact<u)] passes on the computed
    discount factor and the option type is 'call' or 'put'; on every other
    input they raise.  This holds for every rounding of the operations. *)
Theorem X8_BM_pricers_return_iff (fl : arithmetic)
    (S0 K r u d T : R) (Ntree : Z) (optype : string) (exmat : bool) :
  ((exists V, outcome (Rounded.BM_Euro fl S0 K r u d T Ntree optype) = inr V)
   <-> (1 <= Ntree)%Z /\ RoundedSpec.bracket fl r u d (fdiv fl T (fint fl Ntree))
       /\ valid_optype optype) /\
  ((exists V, outcome (Rounded.BM_Amer fl S0 K r u d T Ntree optype exmat) = inr V)
   <-> (1 <= Ntree)%Z /\ RoundedSpec.bracket fl r u d (fdiv fl T (fint fl Ntree))
       /\ valid_optype optype).
Proof.
  assert ((1 <= Ntree)%Z /\ RoundedSpec.bracket fl r u d (fdiv fl T (fint fl Ntree))
          /\ valid_optype optype \/
          exists e,
            outcome (Rounded.BM_Euro fl S0 K r u d T Ntree optype) = inl e /\
            outcome (Rounded.BM_Amer fl S0 K r u d T Ntree optype exmat) = inl e)
    as [Hok | (e & E1 & E2)].
  { destruct (Z.eq_dec Ntree 0) as [-> | HN0].
    { right. exists ZeroDivisionError. split; reflexivity. }
    destruct (rounded_bracket_dec fl r u d (fdiv fl T (fint fl Ntree))) as [Hb | Hb].
    2:{ right. exists parameter_exception.
        destruct (rounded_BM_bad_bracket fl S0 K r u d T Ntree optype exmat HN0 Hb)
          as [-> ->]. split; reflexivity. }
    destruct (Z_lt_le_dec Ntree 0) as [Hneg | Hpos].
    { right. eexists.
      exact (rounded_BM_payoff_failure fl S0 K r u d T Ntree optype exmat _
               HN0 Hb (rounded_BM_payoff_negative fl S0 K u d Ntree optype Hneg)). }
    destruct (valid_optype_dec optype) as [Ho | Ho].
    - left. repeat split; try apply Hb; [lia | exact Ho].
    - right. eexists.
      apply (rounded_BM_payoff_failure fl S0 K r u d T Ntree optype exmat _ HN0 Hb).
      apply rounded_BM_payoff_invalid; [lia | exact Ho]. }
  - destruct Hok as (HN & Hb & Ho).
    destruct (rounded_BM_Euro_outcome fl S0 K r u d T Ntree optype HN Hb Ho)
      as (V & E & _).
    destruct (rounded_BM_Amer_outcome fl S0 K r u d T Ntree optype exmat HN Hb Ho)
      as (V' & E' & _).
    split; split; intros _; eauto.
  - split; split; intros H.
    + destruct H as [V E]. rewrite E1 in E. discriminate E.
    + exfalso. destruct H as (HN & Hb & Ho).
      destruct (rounded_BM_Euro_outcome fl S0 K r u d T Ntree optype HN Hb Ho)
        as (V & E & _). rewrite E1 in E. discriminate E.
    + destruct H as [V E]. rewrite E2 in E. discriminate E.
    + exfalso. destruct H as (HN & Hb & Ho).
      destruct (rounded_BM_Euro_outcome fl S0 K r u d T Ntree optype HN Hb Ho)
        as (V & E & _). rewrite E1 in E. discriminate E.
Qed.

(** X9.  [aTM_Euro] and [aTM_Amer] return a lattice exactly when [N >= 1],
    [r > 0], [sigma > 0] and the option type is 'call' or 'put'.  When
    [N <> 0] and [r <= 0] or [sigma <= 0] they raise the parameter
    exception, whatever the other arguments are. *)
Theorem X9_aTM_pricers_return_iff
    (S0 K r sigma div T : R) (Ntree : Z) (optype : string) (exmat : bool) :
  ((exists V, outcome (aTM_Euro S0 K r sigma div T Ntree optype) = inr V)
   <-> (1 <= Ntree)%Z /\ 0 < r /\ 0 < sigma /\ valid_optype optype) /\
  ((exists V, outcome (aTM_Amer S0 K r sigma div T Ntree optype exmat) = inr V)
   <-> (1 <= Ntree)%Z /\ 0 < r /\ 0 < sigma /\ valid_optype optype) /\
  (Ntree <> 0%Z -> ~ (0 < r /\ 0 < sigma) ->
   outcome (aTM_Euro S0 K r sigma div T Ntree optype) = inl parameter_exception /\
   outcome (aTM_Amer S0 K r sigma div T Ntree optype exmat) = inl parameter_exception).
Proof.
  split; [| split].
  - split.
    + intros [V E].
      destruct (Z.eq_dec Ntree 0) as [-> | HN0]; [discriminate E |].
      destruct (Rlt_dec 0 r) as [Hr | Hr];
        [| rewrite aTM_Euro_bad_parameters in E by tauto; discriminate E].
      destruct (Rlt_dec 0 sigma) as [Hs | Hs];
        [| rewrite aTM_Euro_bad_parameters in E by tauto; discriminate E].
      destruct (Z_lt_le_dec Ntree 0) as [Hneg | Hpos];
        [rewrite aTM_Euro_negative in E by assumption; discriminate E |].
      destruct (valid_optype_dec optype) as [Ho | Ho].
      * repeat split; [lia | assumption..].
      * rewrite aTM_Euro_invalid_optype in E by (auto; lia). discriminate E.
    + intros (HN & Hr & Hs & Ho).
      destruct (aTM_Euro_outcome S0 K r sigma div T Ntree optype HN Hr Hs Ho)
        as (V & E & _).
      now exists V.
  - split.
    + intros [V E].
      destruct (Z.eq_dec Ntree 0) as [-> | HN0]; [discriminate E |].
      destruct (Rlt_dec 0 r) as [Hr | Hr];
        [| rewrite aTM_Amer_bad_parameters in E by tauto; discriminate E].
      destruct (Rlt_dec 0 sigma) as [Hs | Hs];
        [| rewrite aTM_Amer_bad_parameters in E by tauto; discriminate E].
      destruct (Z_lt_le_dec Ntree 0) as [Hneg | Hpos];
        [rewrite aTM_Amer_negative in E by assumption; discriminate E |].
      destruct (valid_optype_dec optype) as [Ho | Ho].
      * repeat split; [lia | assumption..].
      * rewrite aTM_Amer_invalid_optype in E by (auto; lia). discriminate E.
    + intros (HN & Hr & Hs & Ho).
      destruct (aTM_Amer_outcome S0 K r sigma div T Ntree optype exmat HN Hr Hs Ho)
        as (V & E & _).
      now exists V.
  - intros HN Hbad. split.
    + now rewrite aTM_Euro_bad_parameters.
    + now rewrite aTM_Amer_bad_parameters.
Qed.




(** * Monte Carlo *)

(** ** Sums and cumulative sums *)

Lemma sum_app (a b : array) : sum (a ++ b) = sum a + sum b.
Proof.
  induction a as [| x a IH]; simpl; [ring |].
  unfold sum in *. simpl. rewrite IH. ring.
Qed.

Lemma sum_scal (c : R) (a : array) : sum (scal c a) = c * sum a.
Proof.
  unfold scal, sum. induction a as [| x a IH]; simpl; [ring |].
  rewrite IH. ring.
Qed.

Lemma sum_map_affine {A} (a b : R) (h : A -> R) (l : list A) :
  sum (map (fun k => a + b * h k) l) = a * INR (length l) + b * sum (map h l).
Proof.
  unfold sum. induction l as [| x l IH].
  - simpl. ring.
  - change (length (x :: l)) with (S (length l)). rewrite S_INR.
    simpl map. simpl fold_right. rewrite IH. ring.
Qed.

Lemma sum_map_minus {A} (f g : A -> R) (l : list A) :
  sum (map (fun k => f k - g k) l) = sum (map f l) - sum (map g l).
Proof.
  unfold sum. induction l as [| x l IH]; simpl; [ring |]. rewrite IH. ring.
Qed.

Lemma sum_map_const {A} (c : R) (l : list A) :
  sum (map (fun _ => c) l) = c * INR (length l).
Proof.
  unfold sum. induction l as [| x l IH].
  - simpl. ring.
  - change (length (x :: l)) with (S (length l)). rewrite S_INR.
    simpl. rewrite IH. ring.
Qed.

Lemma sum_nonneg (l : array) : Forall (fun x => 0 <= x) l -> 0 <= sum l.
Proof.
  unfold sum. induction 1 as [| x l Hx Hl IH]; simpl; lra.
Qed.

Lemma length_cumsum_from (acc : R) (l : array) :
  length (cumsum_from acc l) = length l.
Proof.
  revert acc. induction l as [| x l IH]; intros acc; simpl; [reflexivity |].
  now rewrite IH.
Qed.

Lemma nth_cumsum_from (acc : R) (l : array) (k : nat) :
  (k < length l)%nat ->
  nth k (cumsum_from acc l) 0 = acc + sum (firstn (S k) l).
Proof.
  revert acc k. induction l as [| x l IH]; intros acc k Hk; simpl in Hk; [lia |].
  destruct k as [| k].
  - simpl. unfold sum. simpl. ring.
  - change (nth (S k) (cumsum_from acc (x :: l)) 0)
      with (nth k (cumsum_from (acc + x) l) 0).
    rewrite IH by lia.
    change (firstn (S (S k)) (x :: l)) with (x :: firstn (S k) l).
    unfold sum. simpl. ring.
Qed.

Lemma firstn_map_seq {A} (g : nat -> A) (n k : nat) :
  (k <= n)%nat -> firstn k (map g (seq 0 n)) = map g (seq 0 k).
Proof.
  intros Hk. rewrite firstn_map. f_equal.
  replace n with (k + (n - k))%nat by lia.
  rewrite seq_app, firstn_app, length_seq, Nat.sub_diag. simpl.
  rewrite app_nil_r. apply firstn_all2. rewrite length_seq. lia.
Qed.

(** ** The sample paths of [S1_GBM] *)

Lemma mmap_map_seq {A} (f : R -> R) (g : A -> list R) (l : list A) :
  mmap f (map g l) = map (fun i => map f (g i)) l.
Proof. unfold mmap. now rewrite map_map. Qed.

Lemma get_map_seq (f : nat -> list R) (n i k : nat) :
  (i < n)%nat -> get (map f (seq 0 n)) i k = nth k (f i) 0.
Proof.
  intros Hi. unfold get.
  rewrite nth_indep with (d' := f 0%nat) by now rewrite length_map, length_seq.
  rewrite map_nth, seq_nth by exact Hi. reflexivity.
Qed.

Lemma S1_GBM_run (normal : nat -> nat -> R) (S0 mu sigma T : R) (nsteps nsim : Z) :
  (1 <= nsteps)%Z -> (0 <= nsim)%Z ->
  S1_GBM normal S0 mu sigma T nsteps nsim
  = ([EvDraw (Z.to_nat nsim) (Z.to_nat nsteps)],
     inr (map (fun i => map (Rmult S0)
                 (1 :: map exp (cumsum (map (log_increment normal mu sigma
                                               (T / IZR nsteps) i)
                                            (seq 0 (Z.to_nat nsteps))))))
              (seq 0 (Z.to_nat nsim)))).
Proof.
  intros Hn Hm. unfold S1_GBM, py_div, standard_normal.
  replace (nsteps =? 0)%Z with false by (symmetry; apply Z.eqb_neq; lia).
  replace (nsim <? 0)%Z with false by (symmetry; apply Z.ltb_ge; lia).
  replace (nsteps <? 0)%Z with false by (symmetry; apply Z.ltb_ge; lia).
  cbn [orb]. rewrite ret_bind. unfold emit, ret. cbn [bind app].
  do 2 f_equal.
  rewrite !mmap_map_seq. unfold mmap. rewrite !map_map.
  apply map_ext. intros i. rewrite !map_map. reflexivity.
Qed.

Lemma nth_path (g : nat -> R) (S0 : R) (n k : nat) :
  (k <= n)%nat ->
  nth k (map (Rmult S0) (1 :: map exp (cumsum (map g (seq 0 n))))) 0
  = S0 * exp (sum (map g (seq 0 k))).
Proof.
  intros Hk. destruct k as [| k].
  - simpl. unfold sum. simpl. now rewrite exp_0.
  - cbn [map nth].
    replace 0 with (S0 * 0) at 1 by ring. rewrite (map_nth (Rmult S0)). f_equal.
    rewrite nth_indep with (d' := exp 0)
      by (rewrite length_map; unfold cumsum;
          rewrite length_cumsum_from, length_map, length_seq; lia).
    rewrite map_nth. f_equal. unfold cumsum.
    rewrite nth_cumsum_from by (rewrite length_map, length_seq; lia).
    rewrite firstn_map_seq by lia. ring.
Qed.

Lemma length_path (g : nat -> R) (S0 : R) (n : nat) :
  length (map (Rmult S0) (1 :: map exp (cumsum (map g (seq 0 n))))) = (n + 1)%nat.
Proof.
  cbn [map length]. rewrite !length_map. unfold cumsum.
  rewrite length_cumsum_from, length_map, length_seq. lia.
Qed.

Lemma last_nth_length (l : array) :
  last l 0 = nth (length l - 1) l 0.
Proof.
  induction l as [| x l IH]; [reflexivity |].
  destruct l as [| y l]; [reflexivity |].
  change (last (x :: y :: l) 0) with (last (y :: l) 0). rewrite IH.
  simpl length. replace (S (S (length l)) - 1)%nat with (S (length l)) by lia.
  replace (S (length l) - 1)%nat with (length l) by lia. reflexivity.
Qed.

Lemma sum_log_increments (normal : nat -> nat -> R) (mu sigma dt : R) (i k : nat) :
  sum (map (log_increment normal mu sigma dt i) (seq 0 k))
  = (mu - 0.5 * sigma ^ 2) * dt * INR k
    + sigma * sqrt dt * sum (map (normal i) (seq 0 k)).
Proof.
  unfold log_increment.
  transitivity (sum (map (fun k0 => (mu - 0.5 * sigma ^ 2) * dt
                                    + sigma * sqrt dt * normal i k0) (seq 0 k))).
  - f_equal. apply map_ext. intros. ring.
  - rewrite sum_map_affine, length_seq. ring.
Qed.

Lemma path_value_terminal (normal : nat -> nat -> R) (S0 mu sigma T : R)
    (nsteps : Z) (i : nat) :
  (1 <= nsteps)%Z ->
  path_value normal S0 mu sigma (T / IZR nsteps) i (Z.to_nat nsteps)
  = terminal_price normal S0 mu sigma T (Z.to_nat nsteps) i.
Proof.
  intros Hn. unfold path_value, terminal_price.
  rewrite sum_log_increments.
  rewrite INR_IZR_INZ, Z2Nat.id by lia.
  do 2 f_equal. field. apply not_0_IZR. lia.
Qed.

Lemma last_path (normal : nat -> nat -> R) (S0 mu sigma dt : R) (n i : nat) :
  last (map (Rmult S0)
          (1 :: map exp (cumsum (map (log_increment normal mu sigma dt i)
                                     (seq 0 n))))) 0
  = path_value normal S0 mu sigma dt i n.
Proof.
  rewrite last_nth_length, length_path.
  replace (n + 1 - 1)%nat with n by lia.
  now rewrite nth_path.
Qed.

Lemma path_value_0 (normal : nat -> nat -> R) (S0 mu sigma dt : R) (i : nat) :
  path_value normal S0 mu sigma dt i 0 = S0.
Proof. unfold path_value, sum. simpl. rewrite exp_0. ring. Qed.

Lemma path_value_S (normal : nat -> nat -> R) (S0 mu sigma dt : R) (i k : nat) :
  path_value normal S0 mu sigma dt i (k + 1)
  = path_value normal S0 mu sigma dt i k
    * exp (log_increment normal mu sigma dt i k).
Proof.
  unfold path_value. rewrite Nat.add_1_r, seq_S, map_app, sum_app.
  simpl map. unfold sum at 2. simpl fold_right.
  rewrite Rplus_0_r, exp_plus. ring.
Qed.

Lemma path_value_pos (normal : nat -> nat -> R) (S0 mu sigma dt : R) (i k : nat) :
  0 < S0 -> 0 < path_value normal S0 mu sigma dt i k.
Proof.
  intros H. unfold path_value. apply Rmult_lt_0_compat; [exact H | apply exp_pos].
Qed.

Lemma shape_paths (f : nat -> list R) (m c : nat) :
  (forall i, length (f i) = c) -> shape (map f (seq 0 m)) m c.
Proof.
  intros H. split; [now rewrite length_map, length_seq |].
  apply Forall_forall. intros row Hin. apply in_map_iff in Hin.
  destruct Hin as (i & <- & _). apply H.
Qed.

(** X11.  [S1_GBM], for [nsteps >= 1], [nsim >= 0] and [T >= 0], draws one
    [nsim] x [nsteps] sample and returns [nsim] paths of [nsteps + 1]
    prices.  Every path starts at [S0]; each step multiplies the price by
    [exp((mu - sigma^2/2)*dt + sigma*sqrt(dt)*z)] for the draw [z] of that
    step; the last price is
    [S0 * exp((mu - sigma^2/2)*T + sigma*sqrt(dt)*(z_1 + ... + z_n))];
    and with [S0 > 0] every price is positive. *)
Theorem X11_S1_GBM_sample_paths
    (normal : nat -> nat -> R) (S0 mu sigma T : R) (nsteps nsim : Z) :
  (1 <= nsteps)%Z -> (0 <= nsim)%Z -> 0 <= T ->
  exists Sn,
    S1_GBM normal S0 mu sigma T nsteps nsim
    = ([EvDraw (Z.to_nat nsim) (Z.to_nat nsteps)], inr Sn) /\
    shape Sn (Z.to_nat nsim) (Z.to_nat nsteps + 1) /\
    forall i, (i < Z.to_nat nsim)%nat ->
      get Sn i 0 = S0 /\
      (forall k, (k < Z.to_nat nsteps)%nat ->
         get Sn i (k + 1)
         = get Sn i k * exp (log_increment normal mu sigma (T / IZR nsteps) i k)) /\
      get Sn i (Z.to_nat nsteps)
      = terminal_price normal S0 mu sigma T (Z.to_nat nsteps) i /\
      (0 < S0 -> forall k, (k <= Z.to_nat nsteps)%nat -> 0 < get Sn i k).
Proof.
  intros Hn Hm _.
  eexists. split; [now apply S1_GBM_run |].
  split; [apply shape_paths; intros i; apply length_path |].
  set (n := Z.to_nat nsteps). set (dt := T / IZR nsteps).
  assert (forall i k, (i < Z.to_nat nsim)%nat -> (k <= n)%nat ->
            get (map (fun i => map (Rmult S0)
                       (1 :: map exp (cumsum (map (log_increment normal mu sigma dt i)
                                                  (seq 0 n)))))
                     (seq 0 (Z.to_nat nsim))) i k
            = path_value normal S0 mu sigma dt i k) as Hget.
  { intros i k Hi Hk. rewrite get_map_seq by exact Hi. now apply nth_path. }
  intros i Hi. split; [| split; [| split]].
  - rewrite Hget by lia. apply path_value_0.
  - intros k Hk. rewrite !Hget by lia. apply path_value_S.
  - rewrite Hget by lia. now apply path_value_terminal.
  - intros HS k Hk. rewrite Hget by lia. now apply path_value_pos.
Qed.

Lemma X11_witness :
  (1 <= 10)%Z /\ (0 <= 500)%Z /\ 0 <= 1 /\
  exists Sn,
    S1_GBM (fun _ _ => 0) 100 0.03 0.2 1 10 500
    = ([EvDraw (Z.to_nat 500) (Z.to_nat 10)], inr Sn) /\
    shape Sn (Z.to_nat 500) (Z.to_nat 10 + 1) /\
    forall i, (i < Z.to_nat 500)%nat ->
      get Sn i 0 = 100 /\
      (forall k, (k < Z.to_nat 10)%nat ->
         get Sn i (k + 1)
         = get Sn i k * exp (log_increment (fun _ _ => 0) 0.03 0.2 (1 / 10) i k)) /\
      get Sn i (Z.to_nat 10)
      = terminal_price (fun _ _ => 0) 100 0.03 0.2 1 (Z.to_nat 10) i /\
      (0 < 100 -> forall k, (k <= Z.to_nat 10)%nat -> 0 < get Sn i k).
Proof.
  assert (1 <= 10)%Z as H1 by lia.
  assert (0 <= 500)%Z as H2 by lia.
  assert (0 <= 1) as H3 by lra.
  split; [exact H1 |]. split; [exact H2 |]. split; [exact H3 |].
  exact (X11_S1_GBM_sample_paths (fun _ _ => 0) 100 0.03 0.2 1 10 500 H1 H2 H3).
Defined.

(** ** The estimate of [MC_Euro] *)

Lemma mean_scal (c : R) (l : array) : mean (scal c l) = c * mean l.
Proof. unfold mean. rewrite sum_scal, length_scal. unfold Rdiv. ring. Qed.

Lemma sum_dfact (x : R) (n : nat) :
  sum (map (Rplus x) (repeat 0 n)) = x * INR n.
Proof.
  unfold sum. induction n as [| n IH].
  - simpl. ring.
  - rewrite S_INR. simpl. rewrite IH. ring.
Qed.

Lemma discount_to_maturity (r T : R) (Nsteps : Z) :
  (1 <= Nsteps)%Z ->
  exp (- sum (map (Rplus (r * (T / IZR Nsteps))) (repeat 0 (Z.to_nat Nsteps))))
  = exp (- (r * T)).
Proof.
  intros Hn. rewrite sum_dfact, INR_IZR_INZ, Z2Nat.id by lia.
  do 2 f_equal. field. apply not_0_IZR. lia.
Qed.

(** The estimate computed from a matrix of sample paths. *)
Lemma estimate_tail (optype : string) (K c : R) (Smat : matrix) :
  valid_optype optype ->
  bind (payoff_by_optype (@map R R) optype
          (map (fun s => s - K) (map (fun path => last path 0) Smat)))
       (fun Parr => ret (mean (scal c Parr)))
  = ret (c * mean (map (fun path => intrinsic optype (last path 0) K) Smat)).
Proof.
  intros Ho. rewrite payoff_by_optype_valid by exact Ho. rewrite ret_bind.
  rewrite mean_scal, !map_map. do 3 f_equal.
  apply map_ext. intros path. apply payoff_fn_intrinsic.
Qed.

Lemma MC_accepts_test (r sigma div : R) :
  Rltb 0 r && Rltb 0 sigma && Rleb 0 div = true <-> MC_accepts r sigma div.
Proof.
  rewrite !andb_true_iff, !Rltb_true, Rleb_true. unfold MC_accepts. tauto.
Qed.

Lemma MC_Euro_run (normal : nat -> nat -> R) (S0 K r sigma div T : R)
    (Nsteps Nsim : Z) (optype : string) :
  (1 <= Nsteps)%Z -> (0 <= Nsim)%Z -> MC_accepts r sigma div ->
  valid_optype optype ->
  MC_Euro normal S0 K r sigma div T Nsteps Nsim optype
  = ([EvAlloc [Z.to_nat Nsteps]; EvDraw (Z.to_nat Nsim) (Z.to_nat Nsteps)],
     inr (MC_estimate normal S0 K r sigma div T (Z.to_nat Nsteps) (Z.to_nat Nsim)
            optype)).
Proof.
  intros Hn Hm Hacc Ho. unfold MC_Euro.
  rewrite S1_GBM_run by assumption.
  unfold py_div, np_zeros1.
  replace (Nsteps =? 0)%Z with false by (symmetry; apply Z.eqb_neq; lia).
  replace (Nsteps <? 0)%Z with false by (symmetry; apply Z.ltb_ge; lia).
  apply MC_accepts_test in Hacc. rewrite Hacc.
  rewrite ret_bind. unfold emit. cbn [bind app].
  unfold ret at 1. cbn [bind app]. rewrite ret_bind.
  rewrite estimate_tail by exact Ho.
  unfold ret. cbn [app]. do 2 f_equal.
  rewrite discount_to_maturity by exact Hn.
  unfold MC_estimate, mean. rewrite !map_map, length_map, length_seq.
  do 3 f_equal. apply map_ext. intros i.
  rewrite last_path, path_value_terminal by exact Hn. reflexivity.
Qed.

Lemma INR_pos_Z (m : Z) : (1 <= m)%Z -> 0 < INR (Z.to_nat m).
Proof. intros H. apply lt_0_INR. lia. Qed.

(** X12.  [MC_Euro], for [Nsteps >= 1], [Nsim >= 1], accepted parameters and
    a valid option type, allocates the vector of rates, draws one sample,
    and returns [exp(-r*T)] times the average over the paths of the
    intrinsic payoff at the price at maturity.  The estimate is
    non-negative. *)
Theorem X12_MC_Euro_discounted_average_payoff
    (normal : nat -> nat -> R) (S0 K r sigma div T : R)
    (Nsteps Nsim : Z) (optype : string) :
  (1 <= Nsteps)%Z -> (1 <= Nsim)%Z -> 0 < r -> 0 < sigma -> 0 <= div ->
  0 <= T -> valid_optype optype ->
  MC_Euro normal S0 K r sigma div T Nsteps Nsim optype
  = ([EvAlloc [Z.to_nat Nsteps]; EvDraw (Z.to_nat Nsim) (Z.to_nat Nsteps)],
     inr (MC_estimate normal S0 K r sigma div T (Z.to_nat Nsteps) (Z.to_nat Nsim)
            optype)) /\
  0 <= MC_estimate normal S0 K r sigma div T (Z.to_nat Nsteps) (Z.to_nat Nsim)
         optype.
Proof.
  intros Hn Hm Hr Hs Hd _ Ho. split.
  - apply MC_Euro_run; [exact Hn | lia | now repeat split | exact Ho].
  - unfold MC_estimate. apply Rmult_le_pos; [left; apply exp_pos |].
    apply Rmult_le_pos; [| left; apply Rinv_0_lt_compat, INR_pos_Z; exact Hm].
    apply sum_nonneg, Forall_forall. intros x Hin.
    apply in_map_iff in Hin. destruct Hin as (i & <- & _).
    apply intrinsic_nonneg.
Qed.

Lemma X12_witness :
  (1 <= 10)%Z /\ (1 <= 500)%Z /\ 0 < 0.06 /\ 0 < 0.2 /\ 0 <= 0.03 /\ 0 <= 1 /\
  valid_optype "call" /\
  MC_Euro (fun _ _ => 0) 100 100 0.06 0.2 0.03 1 10 500 "call"
  = ([EvAlloc [Z.to_nat 10]; EvDraw (Z.to_nat 500) (Z.to_nat 10)],
     inr (MC_estimate (fun _ _ => 0) 100 100 0.06 0.2 0.03 1 (Z.to_nat 10)
            (Z.to_nat 500) "call")) /\
  0 <= MC_estimate (fun _ _ => 0) 100 100 0.06 0.2 0.03 1 (Z.to_nat 10)
         (Z.to_nat 500) "call".
Proof.
  assert (1 <= 10)%Z as H1 by lia.
  assert (1 <= 500)%Z as H2 by lia.
  assert (0 < 0.06) as H3 by lra.
  assert (0 < 0.2) as H4 by lra.
  assert (0 <= 0.03) as H5 by lra.
  assert (0 <= 1) as H6 by lra.
  assert (valid_optype "call") as H7 by (left; reflexivity).
  split; [exact H1 |]. split; [exact H2 |]. split; [exact H3 |].
  split; [exact H4 |]. split; [exact H5 |]. split; [exact H6 |].
  split; [exact H7 |].
  exact (X12_MC_Euro_discounted_average_payoff (fun _ _ => 0) 100 100 0.06 0.2 0.03 1
           10 500 "call" H1 H2 H3 H4 H5 H6 H7).
Defined.

(** ** Put-call parity of the estimates *)

Lemma MC_estimate_parity (normal : nat -> nat -> R) (S0 K r sigma div T : R)
    (n m : nat) :
  (0 < m)%nat ->
  MC_estimate normal S0 K r sigma div T n m "call"
  - MC_estimate normal S0 K r sigma div T n m "put"
  = exp (- (r * T))
    * (sum (map (terminal_price normal S0 (r - div) sigma T n) (seq 0 m)) / INR m - K).
Proof.
  intros Hm. unfold MC_estimate.
  assert (INR m <> 0) as Hne by (apply not_0_INR; lia).
  set (tp := terminal_price normal S0 (r - div) sigma T n).
  transitivity (exp (- (r * T))
                * ((sum (map (fun i => intrinsic "call" (tp i) K) (seq 0 m))
                    - sum (map (fun i => intrinsic "put" (tp i) K) (seq 0 m)))
                   / INR m)); [field; exact Hne |].
  rewrite <- sum_map_minus.
  replace (map (fun k => intrinsic "call" (tp k) K - intrinsic "put" (tp k) K) (seq 0 m))
    with (map (fun k => tp k - K) (seq 0 m))
    by (apply map_ext; intros k; symmetry; apply intrinsic_parity).
  rewrite sum_map_minus, sum_map_const, length_seq.
  f_equal. field. exact Hne.
Qed.

(** X13.  Put-call parity of the estimates.  On the same draws the call
    estimate and the put estimate of [MC_Euro] differ by
    [exp(-r*T) * (average price at maturity - K)]. *)
Theorem X13_MC_Euro_put_call_parity
    (normal : nat -> nat -> R) (S0 K r sigma div T : R) (Nsteps Nsim : Z) :
  (1 <= Nsteps)%Z -> (1 <= Nsim)%Z -> 0 < r -> 0 < sigma -> 0 <= div -> 0 <= T ->
  exists c p,
    outcome (MC_Euro normal S0 K r sigma div T Nsteps Nsim "call") = inr c /\
    outcome (MC_Euro normal S0 K r sigma div T Nsteps Nsim "put") = inr p /\
    c - p
    = exp (- (r * T))
      * (sum (map (terminal_price normal S0 (r - div) sigma T (Z.to_nat Nsteps))
                  (seq 0 (Z.to_nat Nsim))) / IZR Nsim - K).
Proof.
  intros Hn Hm Hr Hs Hd _.
  assert (MC_accepts r sigma div) as Hacc by now repeat split.
  eexists _, _. split; [| split].
  - rewrite MC_Euro_run; [reflexivity | exact Hn | lia | exact Hacc | now left].
  - rewrite MC_Euro_run; [reflexivity | exact Hn | lia | exact Hacc | now right].
  - rewrite MC_estimate_parity by lia.
    rewrite INR_IZR_INZ, Z2Nat.id by lia. reflexivity.
Qed.

Lemma X13_witness :
  (1 <= 10)%Z /\ (1 <= 500)%Z /\ 0 < 0.06 /\ 0 < 0.2 /\ 0 <= 0.03 /\ 0 <= 1 /\
  exists c p,
    outcome (MC_Euro (fun _ _ => 0) 100 100 0.06 0.2 0.03 1 10 500 "call") = inr c /\
    outcome (MC_Euro (fun _ _ => 0) 100 100 0.06 0.2 0.03 1 10 500 "put") = inr p /\
    c - p
    = exp (- (0.06 * 1))
      * (sum (map (terminal_price (fun _ _ => 0) 100 (0.06 - 0.03) 0.2 1 (Z.to_nat 10))
                  (seq 0 (Z.to_nat 500))) / 500 - 100).
Proof.
  assert (1 <= 10)%Z as H1 by lia.
  assert (1 <= 500)%Z as H2 by lia.
  assert (0 < 0.06) as H3 by lra.
  assert (0 < 0.2) as H4 by lra.
  assert (0 <= 0.03) as H5 by lra.
  assert (0 <= 1) as H6 by lra.
  split; [exact H1 |]. split; [exact H2 |]. split; [exact H3 |].
  split; [exact H4 |]. split; [exact H5 |]. split; [exact H6 |].
  exact (X13_MC_Euro_put_call_parity (fun _ _ => 0) 100 100 0.06 0.2 0.03 1 10 500
           H1 H2 H3 H4 H5 H6).
Defined.

(** ** Failures of [MC_Euro] *)

Lemma MC_accepts_dec (r sigma div : R) :
  {MC_accepts r sigma div} + {~ MC_accepts r sigma div}.
Proof.
  unfold MC_accepts.
  destruct (Rlt_dec 0 r); [| right; tauto].
  destruct (Rlt_dec 0 sigma); [| right; tauto].
  destruct (Rle_dec 0 div); [| right; tauto].
  left. tauto.
Qed.

Lemma MC_Euro_zero_steps (normal : nat -> nat -> R) (S0 K r sigma div T : R)
    (Nsim : Z) (optype : string) :
  MC_Euro normal S0 K r sigma div T 0 Nsim optype = ([], inl ZeroDivisionError).
Proof. reflexivity. Qed.

Lemma MC_Euro_negative_steps (normal : nat -> nat -> R) (S0 K r sigma div T : R)
    (Nsteps Nsim : Z) (optype : string) :
  (Nsteps < 0)%Z ->
  MC_Euro normal S0 K r sigma div T Nsteps Nsim optype = ([], inl ValueError).
Proof.
  intros Hn. unfold MC_Euro, py_div, np_zeros1.
  replace (Nsteps =? 0)%Z with false by (symmetry; apply Z.eqb_neq; lia).
  replace (Nsteps <? 0)%Z with true by (symmetry; apply Z.ltb_lt; lia).
  reflexivity.
Qed.

Lemma MC_Euro_rejected (normal : nat -> nat -> R) (S0 K r sigma div T : R)
    (Nsteps Nsim : Z) (optype : string) :
  (1 <= Nsteps)%Z -> ~ MC_accepts r sigma div ->
  MC_Euro normal S0 K r sigma div T Nsteps Nsim optype
  = ([EvAlloc [Z.to_nat Nsteps]], inl parameter_exception).
Proof.
  intros Hn Hacc. unfold MC_Euro, py_div, np_zeros1.
  replace (Nsteps =? 0)%Z with false by (symmetry; apply Z.eqb_neq; lia).
  replace (Nsteps <? 0)%Z with false by (symmetry; apply Z.ltb_ge; lia).
  destruct (Rltb 0 r && Rltb 0 sigma && Rleb 0 div) eqn:E;
    [apply MC_accepts_test in E; contradiction |].
  reflexivity.
Qed.

Lemma MC_Euro_negative_sample (normal : nat -> nat -> R) (S0 K r sigma div T : R)
    (Nsteps Nsim : Z) (optype : string) :
  (1 <= Nsteps)%Z -> MC_accepts r sigma div -> (Nsim < 0)%Z ->
  MC_Euro normal S0 K r sigma div T Nsteps Nsim optype
  = ([EvAlloc [Z.to_nat Nsteps]], inl ValueError).
Proof.
  intros Hn Hacc Hm. unfold MC_Euro, S1_GBM, py_div, np_zeros1, standard_normal.
  replace (Nsteps =? 0)%Z with false by (symmetry; apply Z.eqb_neq; lia).
  replace (Nsteps <? 0)%Z with false by (symmetry; apply Z.ltb_ge; lia).
  replace (Nsim <? 0)%Z with true by (symmetry; apply Z.ltb_lt; lia).
  apply MC_accepts_test in Hacc. rewrite Hacc.
  reflexivity.
Qed.

(** X14.  The failures of [MC_Euro], in the order of the code: [Nsteps = 0]
    ends with [ZeroDivisionError]; [Nsteps < 0] ends with [ValueError] (the
    allocation [np.zeros(Nsteps)] comes before the parameter check);
    rejected parameters end with the parameter exception before any draw;
    [Nsim < 0] ends with [ValueError] in the draw.  The function returns a
    number exactly when [Nsteps >= 1], [Nsim >= 0], [r > 0], [sigma > 0],
    [div >= 0] and the option type is 'call' or 'put'. *)
Theorem X14_MC_Euro_failures_in_order
    (normal : nat -> nat -> R) (S0 K r sigma div T : R)
    (Nsteps Nsim : Z) (optype : string) :
  (Nsteps = 0%Z ->
   MC_Euro normal S0 K r sigma div T Nsteps Nsim optype
   = ([], inl ZeroDivisionError)) /\
  ((Nsteps < 0)%Z ->
   MC_Euro normal S0 K r sigma div T Nsteps Nsim optype = ([], inl ValueError)) /\
  ((1 <= Nsteps)%Z -> ~ (0 < r /\ 0 < sigma /\ 0 <= div) ->
   MC_Euro normal S0 K r sigma div T Nsteps Nsim optype
   = ([EvAlloc [Z.to_nat Nsteps]], inl parameter_exception)) /\
  ((1 <= Nsteps)%Z -> 0 < r /\ 0 < sigma /\ 0 <= div -> (Nsim < 0)%Z ->
   MC_Euro normal S0 K r sigma div T Nsteps Nsim optype
   = ([EvAlloc [Z.to_nat Nsteps]], inl ValueError)) /\
  ((exists v, outcome (MC_Euro normal S0 K r sigma div T Nsteps Nsim optype) = inr v)
   <-> (1 <= Nsteps)%Z /\ (0 <= Nsim)%Z /\ (0 < r /\ 0 < sigma /\ 0 <= div)
       /\ valid_optype optype).
Proof.
  split; [intros ->; apply MC_Euro_zero_steps |].
  split; [apply MC_Euro_negative_steps |].
  split; [apply MC_Euro_rejected |].
  split; [apply MC_Euro_negative_sample |].
  split.
  - intros [v E].
    destruct (Z.eq_dec Nsteps 0) as [-> | Hn0]; [discriminate E |].
    destruct (Z_lt_le_dec Nsteps 0) as [Hneg | Hpos];
      [rewrite MC_Euro_negative_steps in E by exact Hneg; discriminate E |].
    assert (1 <= Nsteps)%Z as Hn by lia.
    destruct (MC_accepts_dec r sigma div) as [Hacc | Hacc];
      [| rewrite MC_Euro_rejected in E by assumption; discriminate E].
    destruct (Z_lt_le_dec Nsim 0) as [Hmneg | Hm];
      [rewrite MC_Euro_negative_sample in E by assumption; discriminate E |].
    destruct (valid_optype_dec optype) as [Ho | Ho].
    + repeat split; try assumption; apply Hacc.
    + rewrite MC_Euro_invalid_optype in E; try assumption; try apply Hacc.
      discriminate E.
  - intros (Hn & Hm & Hacc & Ho).
    rewrite MC_Euro_run by assumption. eexists. reflexivity.
Qed.

(** ** The two versions of [MC_Euro] *)

(** X15.  The two versions of [MC_Euro] differ at [div = 0] only.  With
    [div <> 0] the version of [MonteCarlo_European.ipynb] behaves as the
    other one on every input; with [div = 0] (and [Nsteps >= 1]) it raises
    the parameter exception, where the other version returns an estimate. *)
Theorem X15_MC_Euro_versions_differ_at_zero_dividend
    (normal : nat -> nat -> R) (S0 K r sigma div T : R)
    (Nsteps Nsim : Z) (optype : string) :
  (div <> 0 ->
   MC_Euro' normal S0 K r sigma div T Nsteps Nsim optype
   = MC_Euro normal S0 K r sigma div T Nsteps Nsim optype) /\
  ((1 <= Nsteps)%Z ->
   MC_Euro' normal S0 K r sigma 0 T Nsteps Nsim optype
   = ([EvAlloc [Z.to_nat Nsteps]], inl parameter_exception)) /\
  ((1 <= Nsteps)%Z -> (0 <= Nsim)%Z -> 0 < r -> 0 < sigma -> valid_optype optype ->
   exists v, outcome (MC_Euro normal S0 K r sigma 0 T Nsteps Nsim optype) = inr v).
Proof.
  split; [| split].
  - intros Hd. unfold MC_Euro', MC_Euro.
    replace (Rltb 0 div) with (Rleb 0 div); [reflexivity |].
    unfold Rltb, Rleb. destruct (Rle_dec 0 div), (Rlt_dec 0 div); try reflexivity; lra.
  - intros Hn. unfold MC_Euro', py_div, np_zeros1.
    replace (Nsteps =? 0)%Z with false by (symmetry; apply Z.eqb_neq; lia).
    replace (Nsteps <? 0)%Z with false by (symmetry; apply Z.ltb_ge; lia).
    replace (Rltb 0 0) with false
      by (unfold Rltb; destruct (Rlt_dec 0 0); [lra | reflexivity]).
    rewrite !andb_false_r. reflexivity.
  - intros Hn Hm Hr Hs Ho.
    rewrite MC_Euro_run; [eexists; reflexivity | assumption.. | | assumption].
    repeat split; [assumption | assumption | lra].
Qed.

(** * Antithetic variates *)

Lemma log_increment_antithetic (normal : nat -> nat -> R) (mu sigma dt : R)
    (i k : nat) :
  log_increment (antithetic normal) mu sigma dt i k
  = (mu - 0.5 * sigma ^ 2) * dt - sigma * (sqrt dt * normal i k).
Proof. unfold log_increment, antithetic. ring. Qed.

Lemma S1AV_GBM_run (normal : nat -> nat -> R) (S0 mu sigma T : R)
    (nsteps nsim : Z) :
  (1 <= nsteps)%Z -> (0 <= nsim)%Z ->
  exists A B,
    S1_GBM normal S0 mu sigma T nsteps nsim
    = ([EvDraw (Z.to_nat nsim) (Z.to_nat nsteps)], inr A) /\
    S1_GBM (antithetic normal) S0 mu sigma T nsteps nsim
    = ([EvDraw (Z.to_nat nsim) (Z.to_nat nsteps)], inr B) /\
    S1AV_GBM normal S0 mu sigma T nsteps nsim
    = ([EvDraw (Z.to_nat nsim) (Z.to_nat nsteps)], inr (A ++ B)) /\
    A = map (fun i => map (Rmult S0)
               (1 :: map exp (cumsum (map (log_increment normal mu sigma
                                             (T / IZR nsteps) i)
                                          (seq 0 (Z.to_nat nsteps))))))
            (seq 0 (Z.to_nat nsim)) /\
    B = map (fun i => map (Rmult S0)
               (1 :: map exp (cumsum (map (log_increment (antithetic normal) mu sigma
                                             (T / IZR nsteps) i)
                                          (seq 0 (Z.to_nat nsteps))))))
            (seq 0 (Z.to_nat nsim)).
Proof.
  intros Hn Hm. eexists _, _.
  split; [now apply S1_GBM_run |]. split; [now apply S1_GBM_run |].
  split; [| split; reflexivity].
  unfold S1AV_GBM, py_div, standard_normal.
  replace (nsteps =? 0)%Z with false by (symmetry; apply Z.eqb_neq; lia).
  replace (nsim <? 0)%Z with false by (symmetry; apply Z.ltb_ge; lia).
  replace (nsteps <? 0)%Z with false by (symmetry; apply Z.ltb_ge; lia).
  cbn [orb]. rewrite ret_bind. unfold emit, ret. cbn [bind app].
  do 2 f_equal.
  rewrite !mmap_map_seq. unfold mmap. rewrite !map_map, !map_app, !map_map.
  f_equal.
  - apply map_ext. intros i. rewrite !map_map. reflexivity.
  - apply map_ext. intros i. rewrite !map_map. cbn [map]. do 4 f_equal.
    apply map_ext. intros k. symmetry. apply log_increment_antithetic.
Qed.

Lemma get_app_l (A B : matrix) (i k : nat) :
  (i < length A)%nat -> get (A ++ B) i k = get A i k.
Proof. intros H. unfold get. now rewrite app_nth1. Qed.

Lemma get_app_r (A B : matrix) (i k : nat) :
  get (A ++ B) (length A + i) k = get B i k.
Proof.
  unfold get. rewrite app_nth2 by lia.
  now replace (length A + i - length A)%nat with i by lia.
Qed.

Lemma path_value_antithetic_product (normal : nat -> nat -> R)
    (S0 mu sigma dt : R) (i k : nat) :
  path_value normal S0 mu sigma dt i k
  * path_value (antithetic normal) S0 mu sigma dt i k
  = S0 ^ 2 * exp (2 * ((mu - 0.5 * sigma ^ 2) * dt * INR k)).
Proof.
  unfold path_value. rewrite !sum_log_increments.
  replace (sum (map (antithetic normal i) (seq 0 k)))
    with (- sum (map (normal i) (seq 0 k))).
  - transitivity (S0 ^ 2
                  * (exp ((mu - 0.5 * sigma ^ 2) * dt * INR k
                          + sigma * sqrt dt * sum (map (normal i) (seq 0 k)))
                     * exp ((mu - 0.5 * sigma ^ 2) * dt * INR k
                            + sigma * sqrt dt * - sum (map (normal i) (seq 0 k)))));
      [ring |].
    rewrite <- exp_plus. do 2 f_equal. ring.
  - unfold antithetic, sum. induction (seq 0 k) as [| x l IH]; simpl; [ring |].
    rewrite <- IH. ring.
Qed.

(** X16.  [S1AV_GBM], for [nsteps >= 1], [nsim >= 0] and [T >= 0], draws one
    sample and returns [2 * nsim] paths: the paths of [S1_GBM] for the
    draws, followed by the paths of [S1_GBM] for the negated draws.  The
    product of a path and its antithetic partner does not depend on the
    draws: after [k] steps it is [S0^2 * exp(2*(mu - sigma^2/2)*dt*k)]. *)
Theorem X16_S1AV_GBM_antithetic_pairs
    (normal : nat -> nat -> R) (S0 mu sigma T : R) (nsteps nsim : Z) :
  (1 <= nsteps)%Z -> (0 <= nsim)%Z -> 0 <= T ->
  exists A B,
    outcome (S1_GBM normal S0 mu sigma T nsteps nsim) = inr A /\
    outcome (S1_GBM (antithetic normal) S0 mu sigma T nsteps nsim) = inr B /\
    S1AV_GBM normal S0 mu sigma T nsteps nsim
    = ([EvDraw (Z.to_nat nsim) (Z.to_nat nsteps)], inr (A ++ B)) /\
    shape (A ++ B) (2 * Z.to_nat nsim) (Z.to_nat nsteps + 1) /\
    forall i k, (i < Z.to_nat nsim)%nat -> (k <= Z.to_nat nsteps)%nat ->
      get (A ++ B) i k * get (A ++ B) (Z.to_nat nsim + i) k
      = S0 ^ 2 * exp (2 * ((mu - 0.5 * sigma ^ 2) * (T / IZR nsteps) * INR k)).
Proof.
  intros Hn Hm _.
  destruct (S1AV_GBM_run normal S0 mu sigma T nsteps nsim Hn Hm)
    as (A & B & EA & EB & EAB & HA & HB).
  exists A, B. rewrite EA, EB. split; [reflexivity |]. split; [reflexivity |].
  split; [exact EAB |].
  set (n := Z.to_nat nsteps) in *. set (m := Z.to_nat nsim) in *.
  assert (shape A m (n + 1)) as HsA
    by (rewrite HA; apply shape_paths; intros i; apply length_path).
  assert (shape B m (n + 1)) as HsB
    by (rewrite HB; apply shape_paths; intros i; apply length_path).
  split.
  - destruct HsA as [HlA HfA], HsB as [HlB HfB]. split.
    + rewrite length_app. lia.
    + apply Forall_app. now split.
  - intros i k Hi Hk.
    rewrite get_app_l by (rewrite (proj1 HsA); exact Hi).
    rewrite <- (proj1 HsA), get_app_r.
    rewrite HA, HB, !get_map_seq, !nth_path by assumption.
    apply path_value_antithetic_product.
Qed.

Lemma X16_witness :
  (1 <= 10)%Z /\ (0 <= 500)%Z /\ 0 <= 1 /\
  exists A B,
    outcome (S1_GBM (fun _ _ => 1) 100 0.03 0.2 1 10 500) = inr A /\
    outcome (S1_GBM (antithetic (fun _ _ => 1)) 100 0.03 0.2 1 10 500) = inr B /\
    S1AV_GBM (fun _ _ => 1) 100 0.03 0.2 1 10 500
    = ([EvDraw (Z.to_nat 500) (Z.to_nat 10)], inr (A ++ B)) /\
    shape (A ++ B) (2 * Z.to_nat 500) (Z.to_nat 10 + 1) /\
    forall i k, (i < Z.to_nat 500)%nat -> (k <= Z.to_nat 10)%nat ->
      get (A ++ B) i k * get (A ++ B) (Z.to_nat 500 + i) k
      = 100 ^ 2 * exp (2 * ((0.03 - 0.5 * 0.2 ^ 2) * (1 / 10) * INR k)).
Proof.
  assert (1 <= 10)%Z as H1 by lia.
  assert (0 <= 500)%Z as H2 by lia.
  assert (0 <= 1) as H3 by lra.
  split; [exact H1 |]. split; [exact H2 |]. split; [exact H3 |].
  exact (X16_S1AV_GBM_antithetic_pairs (fun _ _ => 1) 100 0.03 0.2 1 10 500 H1 H2 H3).
Defined.

(** ** The antithetic estimate *)

Lemma mean_app (a b : array) :
  length a = length b -> (0 < length a)%nat ->
  mean (a ++ b) = (mean a + mean b) / 2.
Proof.
  intros Hl Hpos. unfold mean. rewrite sum_app, length_app, <- Hl, plus_INR.
  assert (0 < INR (length a)) as H by (apply lt_0_INR; exact Hpos).
  field. split; lra.
Qed.

Lemma MCAV_Euro_run (normal : nat -> nat -> R) (S0 K r sigma div T : R)
    (Nsteps Nsim : Z) (optype : string) :
  (1 <= Nsteps)%Z -> (1 <= Nsim)%Z -> MC_accepts r sigma div ->
  valid_optype optype ->
  MCAV_Euro normal S0 K r sigma div T Nsteps Nsim optype
  = ([EvAlloc [Z.to_nat Nsteps]; EvDraw (Z.to_nat Nsim) (Z.to_nat Nsteps)],
     inr ((MC_estimate normal S0 K r sigma div T (Z.to_nat Nsteps) (Z.to_nat Nsim)
             optype
           + MC_estimate (antithetic normal) S0 K r sigma div T (Z.to_nat Nsteps)
               (Z.to_nat Nsim) optype) / 2)).
Proof.
  intros Hn Hm Hacc Ho. unfold MCAV_Euro.
  destruct (S1AV_GBM_run normal S0 (r - div) sigma T Nsteps Nsim Hn)
    as (A & B & _ & _ & EAB & HA & HB); [lia |].
  rewrite EAB.
  unfold py_div, np_zeros1.
  replace (Nsteps =? 0)%Z with false by (symmetry; apply Z.eqb_neq; lia).
  replace (Nsteps <? 0)%Z with false by (symmetry; apply Z.ltb_ge; lia).
  apply MC_accepts_test in Hacc. rewrite Hacc.
  rewrite ret_bind. unfold emit. cbn [bind app].
  unfold ret at 1. cbn [bind app]. rewrite ret_bind.
  rewrite estimate_tail by exact Ho.
  unfold ret. cbn [app]. do 2 f_equal.
  rewrite discount_to_maturity by exact Hn.
  rewrite map_app, mean_app.
  2:{ rewrite !length_map, HA, HB, !length_map. reflexivity. }
  2:{ rewrite length_map, HA, length_map, length_seq. lia. }
  unfold MC_estimate, mean.
  rewrite HA, HB, !map_map, !length_map, !length_seq.
  transitivity
    ((exp (- (r * T))
      * (sum (map (fun i => intrinsic optype
                     (path_value normal S0 (r - div) sigma (T / IZR Nsteps) i
                        (Z.to_nat Nsteps)) K) (seq 0 (Z.to_nat Nsim)))
         / INR (Z.to_nat Nsim))
      + exp (- (r * T))
        * (sum (map (fun i => intrinsic optype
                       (path_value (antithetic normal) S0 (r - div) sigma
                          (T / IZR Nsteps) i (Z.to_nat Nsteps)) K)
                    (seq 0 (Z.to_nat Nsim)))
           / INR (Z.to_nat Nsim))) / 2).
  - assert (INR (Z.to_nat Nsim) <> 0) as Hne by (apply not_0_INR; lia).
    replace (map (fun x => intrinsic optype (last (map (Rmult S0)
               (1 :: map exp (cumsum (map (log_increment normal (r - div) sigma
                                             (T / IZR Nsteps) x)
                                          (seq 0 (Z.to_nat Nsteps)))))) 0) K)
               (seq 0 (Z.to_nat Nsim)))
      with (map (fun i => intrinsic optype
                     (path_value normal S0 (r - div) sigma (T / IZR Nsteps) i
                        (Z.to_nat Nsteps)) K) (seq 0 (Z.to_nat Nsim)))
      by (apply map_ext; intros i; now rewrite last_path).
    replace (map (fun x => intrinsic optype (last (map (Rmult S0)
               (1 :: map exp (cumsum (map (log_increment (antithetic normal) (r - div)
                                             sigma (T / IZR Nsteps) x)
                                          (seq 0 (Z.to_nat Nsteps)))))) 0) K)
               (seq 0 (Z.to_nat Nsim)))
      with (map (fun i => intrinsic optype
                     (path_value (antithetic normal) S0 (r - div) sigma
                        (T / IZR Nsteps) i (Z.to_nat Nsteps)) K)
                (seq 0 (Z.to_nat Nsim)))
      by (apply map_ext; intros i; now rewrite last_path).
    field. exact Hne.
  - do 2 f_equal; do 3 f_equal; apply map_ext; intros i;
      now rewrite path_value_terminal.
Qed.

(** X17.  The estimate of [MCAV_Euro] is the mean of the estimate of
    [MC_Euro] on the draws and of its estimate on the negated draws; it
    uses one sample, as [MC_Euro] does. *)
Theorem X17_MCAV_Euro_averages_the_two_estimates
    (normal : nat -> nat -> R) (S0 K r sigma div T : R)
    (Nsteps Nsim : Z) (optype : string) :
  (1 <= Nsteps)%Z -> (1 <= Nsim)%Z -> 0 < r -> 0 < sigma -> 0 <= div -> 0 <= T ->
  valid_optype optype ->
  exists a b,
    outcome (MC_Euro normal S0 K r sigma div T Nsteps Nsim optype) = inr a /\
    outcome (MC_Euro (antithetic normal) S0 K r sigma div T Nsteps Nsim optype)
    = inr b /\
    outcome (MCAV_Euro normal S0 K r sigma div T Nsteps Nsim optype)
    = inr ((a + b) / 2) /\
    trace (MCAV_Euro normal S0 K r sigma div T Nsteps Nsim optype)
    = trace (MC_Euro normal S0 K r sigma div T Nsteps Nsim optype).
Proof.
  intros Hn Hm Hr Hs Hd _ Ho.
  assert (MC_accepts r sigma div) as Hacc by now repeat split.
  eexists _, _.
  rewrite !MC_Euro_run, MCAV_Euro_run; try assumption; try lia.
  repeat split; reflexivity.
Qed.

Lemma X17_witness :
  (1 <= 10)%Z /\ (1 <= 500)%Z /\ 0 < 0.06 /\ 0 < 0.2 /\ 0 <= 0.03 /\ 0 <= 1 /\
  valid_optype "call" /\
  exists a b,
    outcome (MC_Euro (fun _ _ => 1) 100 100 0.06 0.2 0.03 1 10 500 "call") = inr a /\
    outcome (MC_Euro (antithetic (fun _ _ => 1)) 100 100 0.06 0.2 0.03 1 10 500 "call")
    = inr b /\
    outcome (MCAV_Euro (fun _ _ => 1) 100 100 0.06 0.2 0.03 1 10 500 "call")
    = inr ((a + b) / 2) /\
    trace (MCAV_Euro (fun _ _ => 1) 100 100 0.06 0.2 0.03 1 10 500 "call")
    = trace (MC_Euro (fun _ _ => 1) 100 100 0.06 0.2 0.03 1 10 500 "call").
Proof.
  assert (1 <= 10)%Z as H1 by lia.
  assert (1 <= 500)%Z as H2 by lia.
  assert (0 < 0.06) as H3 by lra.
  assert (0 < 0.2) as H4 by lra.
  assert (0 <= 0.03) as H5 by lra.
  assert (0 <= 1) as H6 by lra.
  assert (valid_optype "call") as H7 by (left; reflexivity).
  split; [exact H1 |]. split; [exact H2 |]. split; [exact H3 |].
  split; [exact H4 |]. split; [exact H5 |]. split; [exact H6 |].
  split; [exact H7 |].
  exact (X17_MCAV_Euro_averages_the_two_estimates (fun _ _ => 1) 100 100 0.06 0.2 0.03 1
           10 500 "call" H1 H2 H3 H4 H5 H6 H7).
Defined.

(** X27.  The two versions of [MCAV_Euro] differ at [div = 0] only.  With
    [div <> 0] the version that tests [0 < div] behaves as the other one on
    every input; with [div = 0] (and [Nsteps >= 1]) it raises the parameter
    exception, where the other version returns an estimate. *)
Theorem X27_MCAV_Euro_versions_differ_at_zero_dividend
    (normal : nat -> nat -> R) (S0 K r sigma div T : R)
    (Nsteps Nsim : Z) (optype : string) :
  (div <> 0 ->
   MCAV_Euro' normal S0 K r sigma div T Nsteps Nsim optype
   = MCAV_Euro normal S0 K r sigma div T Nsteps Nsim optype) /\
  ((1 <= Nsteps)%Z ->
   MCAV_Euro' normal S0 K r sigma 0 T Nsteps Nsim optype
   = ([EvAlloc [Z.to_nat Nsteps]], inl parameter_exception)) /\
  ((1 <= Nsteps)%Z -> (1 <= Nsim)%Z -> 0 < r -> 0 < sigma -> valid_optype optype ->
   exists v, outcome (MCAV_Euro normal S0 K r sigma 0 T Nsteps Nsim optype) = inr v).
Proof.
  split; [| split].
  - intros Hd. unfold MCAV_Euro', MCAV_Euro.
    replace (Rltb 0 div) with (Rleb 0 div); [reflexivity |].
    unfold Rltb, Rleb. destruct (Rle_dec 0 div), (Rlt_dec 0 div); try reflexivity; lra.
  - intros Hn. unfold MCAV_Euro', py_div, np_zeros1.
    replace (Nsteps =? 0)%Z with false by (symmetry; apply Z.eqb_neq; lia).
    replace (Nsteps <? 0)%Z with false by (symmetry; apply Z.ltb_ge; lia).
    replace (Rltb 0 0) with false
      by (unfold Rltb; destruct (Rlt_dec 0 0); [lra | reflexivity]).
    rewrite !andb_false_r. reflexivity.
  - intros Hn Hm Hr Hs Ho.
    rewrite MCAV_Euro_run; [eexists; reflexivity | assumption.. | | assumption].
    repeat split; [assumption | assumption | lra].
Qed.

(** * The additive binomial pricers *)

(** ** The asset prices are those of the multiplicative model *)

Lemma for_each_ext {A St} (l : list A) (body1 body2 : A -> St -> M St) (s : St) :
  (forall x s, body1 x s = body2 x s) ->
  for_each l body1 s = for_each l body2 s.
Proof.
  intros H. revert s. induction l as [| x l IH]; intros s; simpl; [reflexivity |].
  rewrite H. apply bind_ext. exact IH.
Qed.

Lemma exp_mult_INR (x : R) (k : nat) : exp (x * INR k) = exp x ^ k.
Proof.
  induction k as [| k IH].
  - simpl. rewrite Rmult_0_r. apply exp_0.
  - rewrite S_INR, Rmult_plus_distr_l, Rmult_1_r, exp_plus, IH. simpl. ring.
Qed.

Lemma additive_prices (S0 lnu lnd : R) (l1 l2 : list nat) :
  scal S0 (map exp (zip_with Rplus (map (fun k => lnu * INR k) l1)
                                   (map (fun k => lnd * INR k) l2)))
  = zip_with Rmult (scal S0 (map (pow (exp lnu)) l1)) (map (pow (exp lnd)) l2).
Proof.
  revert l2. induction l1 as [| a l1 IH]; intros [| b l2]; try reflexivity.
  unfold zip_with, scal in *. cbn [map combine fst snd].
  rewrite IH, exp_plus, !exp_mult_INR. f_equal. ring.
Qed.

Lemma aBM_prices_eq (S0 lnu lnd : R) (Ntree : Z) :
  aBM_prices S0 lnu lnd Ntree = BM_prices S0 (exp lnu) (exp lnd) Ntree.
Proof.
  unfold aBM_prices, BM_prices.
  apply bind_ext. intros P0. apply bind_ext. intros P1.
  apply for_each_ext. intros t P.
  unfold np_add, np_mul.
  rewrite !broadcast_same_length
    by (rewrite ?length_scal, !length_map, length_rev; reflexivity).
  rewrite !ret_bind. f_equal. apply additive_prices.
Qed.

Lemma aBM_payoff_eq (S0 K lnu lnd : R) (Ntree : Z) (optype : string) :
  aBM_payoff S0 K lnu lnd Ntree optype
  = BM_payoff S0 K (exp lnu) (exp lnd) Ntree optype.
Proof. unfold aBM_payoff, BM_payoff. now rewrite aBM_prices_eq. Qed.

(** ** The parameters *)

Lemma call_mode_positive (m : mode_name) (r sigma T : R) (Ntree : Z) (u d p : R) :
  outcome (call_mode m r sigma T Ntree) = inr [u; d; p] ->
  Ntree <> 0%Z /\ call_mode m r sigma T Ntree = ret [u; d; p] /\ 0 < u /\ 0 < d.
Proof.
  intros E.
  assert (Ntree <> 0%Z) as HN.
  { intros ->. destruct m; discriminate E. }
  split; [exact HN |].
  destruct m; unfold call_mode, CRR, JD, EQP, TRG, py_div in *;
    replace (Ntree =? 0)%Z with false in * by (symmetry; now apply Z.eqb_neq);
    rewrite ret_bind in *; injection E as <- <- <-;
    (split; [reflexivity | split; apply exp_pos]).
Qed.

Lemma aBM_params_ok (m : mode_name) (r sigma T : R) (Ntree : Z) (u d p : R) :
  outcome (call_mode m r sigma T Ntree) = inr [u; d; p] ->
  0 < r -> 0 < sigma ->
  aBM_params r sigma T Ntree (Some m)
  = ret {| bm_dfact := exp (- r * (T / IZR Ntree)); bm_p := p;
           bm_lnu := ln u; bm_lnd := ln d |}.
Proof.
  intros E Hr Hs.
  destruct (call_mode_positive m r sigma T Ntree u d p E) as (HN & Em & _ & _).
  unfold aBM_params, py_div.
  replace (Ntree =? 0)%Z with false by (symmetry; now apply Z.eqb_neq).
  rewrite ret_bind, Em, ret_bind. cbn [nth].
  apply Rltb_true in Hr, Hs. rewrite Hr, Hs. reflexivity.
Qed.

Lemma aBM_params_fail (m : mode_name) (r sigma T : R) (Ntree : Z) :
  Ntree <> 0%Z -> ~ (0 < r /\ 0 < sigma) ->
  aBM_params r sigma T Ntree (Some m) = raise parameter_exception.
Proof.
  intros HN Hbad. unfold aBM_params, py_div.
  replace (Ntree =? 0)%Z with false by (symmetry; now apply Z.eqb_neq).
  rewrite ret_bind.
  assert (exists l, call_mode m r sigma T Ntree = ret l) as [l ->].
  { destruct m; unfold call_mode, CRR, JD, EQP, TRG, py_div;
      replace (Ntree =? 0)%Z with false by (symmetry; now apply Z.eqb_neq);
      rewrite ret_bind; eexists; reflexivity. }
  rewrite ret_bind.
  destruct (Rltb 0 r && Rltb 0 sigma) eqn:E; [| reflexivity].
  apply andb_true_iff in E. rewrite !Rltb_true in E. contradiction.
Qed.

(** ** The lattices *)

Section AdditiveRuns.

Variables (S0 K r sigma T : R) (Ntree : Z) (optype : string) (m : mode_name).
Variables (u d p : R).

Hypothesis HN : (1 <= Ntree)%Z.
Hypothesis Hr : 0 < r.
Hypothesis Hsigma : 0 < sigma.
Hypothesis Hoptype : valid_optype optype.
Hypothesis Hmode : outcome (call_mode m r sigma T Ntree) = inr [u; d; p].

Lemma aBM_Euro_run :
  yields (aBM_Euro S0 K r sigma T Ntree optype (Some m))
         (fun _ V => BM_lattice S0 K u d optype (Z.to_nat Ntree)
                       (BM_euro_node (exp (- r * (T / IZR Ntree))) p) V).
Proof.
  set (n := Z.to_nat Ntree).
  set (dfact := exp (- r * (T / IZR Ntree))).
  destruct (call_mode_positive m r sigma T Ntree u d p Hmode) as (_ & _ & Hu & Hd).
  unfold aBM_Euro.
  rewrite (aBM_params_ok m r sigma T Ntree u d p Hmode Hr Hsigma), ret_bind.
  cbn [bm_dfact bm_p bm_lnu bm_lnd].
  rewrite aBM_payoff_eq, !exp_ln by assumption.
  destruct (BM_payoff_run S0 K u d Ntree HN) as (X & HsX & HgetX & E).
  rewrite E, (bind_value_ret _ X _ _ (payoff_by_optype_valid mmap optype X Hoptype)).
  eapply yields_bind; [apply yields_exact; reflexivity |].
  intros ? Pmat [-> ->].
  assert (shape (mmap (payoff_fn optype) X) (n + 1) (n + 1)) as HsP
    by now apply shape_mmap.
  assert (Z.to_nat (Ntree + 1) = (n + 1)%nat) as Hn1 by (unfold n; lia).
  eapply yields_bind.
  { apply terminal_values_run; [lia | lia |]. now rewrite Hn1. }
  intros tr V0 (_ & HsV0 & HgetV0). simpl in HsV0, HgetV0.
  rewrite Hn1 in HsV0, HgetV0.
  replace (n + 1 - 1)%nat with n in HgetV0 by lia.
  eapply yields_weaken; [apply BM_Euro_loop; exact HsV0 |].
  intros tr' V Hinv. simpl.
  eapply BM_inv_lattice; [apply HgetX | exact HgetV0 | | exact Hinv].
  intros W i t. reflexivity.
Qed.

Lemma aBM_Amer_run_plain :
  yields (aBM_Amer S0 K r sigma T Ntree optype (Some m) false)
         (fun _ V => BM_lattice S0 K u d optype (Z.to_nat Ntree)
                       (BM_amer_node S0 K u d optype (Z.to_nat Ntree)
                          (exp (- r * (T / IZR Ntree))) p) V).
Proof.
  set (n := Z.to_nat Ntree).
  set (dfact := exp (- r * (T / IZR Ntree))).
  destruct (call_mode_positive m r sigma T Ntree u d p Hmode) as (_ & _ & Hu & Hd).
  unfold aBM_Amer.
  rewrite (aBM_params_ok m r sigma T Ntree u d p Hmode Hr Hsigma), ret_bind.
  cbn [bm_dfact bm_p bm_lnu bm_lnd].
  rewrite aBM_payoff_eq, !exp_ln by assumption.
  destruct (BM_payoff_run S0 K u d Ntree HN) as (X & HsX & HgetX & E).
  rewrite E, (bind_value_ret _ X _ _ (payoff_by_optype_valid mmap optype X Hoptype)).
  eapply yields_bind; [apply yields_exact; reflexivity |].
  intros ? Pmat [-> ->].
  assert (shape (mmap (payoff_fn optype) X) (n + 1) (n + 1)) as HsP
    by now apply shape_mmap.
  assert (Z.to_nat (Ntree + 1) = (n + 1)%nat) as Hn1 by (unfold n; lia).
  eapply yields_bind.
  { apply terminal_values_run; [lia | lia |]. now rewrite Hn1. }
  intros tr V0 (_ & HsV0 & HgetV0). simpl in HsV0, HgetV0.
  rewrite Hn1 in HsV0, HgetV0.
  replace (n + 1 - 1)%nat with n in HgetV0 by lia.
  simpl negb. cbv iota. rewrite ret_bind.
  eapply yields_weaken; [apply BM_Amer_loop; [exact HsV0 | exact HsP] |].
  intros tr' V Hinv. simpl.
  eapply BM_inv_lattice; [apply HgetX | exact HgetV0 | | exact Hinv].
  intros W i t. unfold recurrence, BM_rule_amer, BM_amer_node, BM_cont.
  now rewrite HgetX.
Qed.

Lemma aBM_Amer_run_exmat :
  yields (aBM_Amer S0 K r sigma T Ntree optype (Some m) true)
         (fun tr V =>
            BM_lattice S0 K u d optype (Z.to_nat Ntree)
              (BM_amer_node S0 K u d optype (Z.to_nat Ntree)
                 (exp (- r * (T / IZR Ntree))) p) V /\
            exists tr0 Ex,
              tr = tr0 ++ [EvMatshow Ex; EvTitle "Early exercise"] /\
              BM_flags S0 K u d optype (Z.to_nat Ntree)
                (exp (- r * (T / IZR Ntree))) p V Ex).
Proof.
  set (n := Z.to_nat Ntree).
  set (dfact := exp (- r * (T / IZR Ntree))).
  destruct (call_mode_positive m r sigma T Ntree u d p Hmode) as (_ & _ & Hu & Hd).
  unfold aBM_Amer.
  rewrite (aBM_params_ok m r sigma T Ntree u d p Hmode Hr Hsigma), ret_bind.
  cbn [bm_dfact bm_p bm_lnu bm_lnd].
  rewrite aBM_payoff_eq, !exp_ln by assumption.
  destruct (BM_payoff_run S0 K u d Ntree HN) as (X & HsX & HgetX & E).
  rewrite E, (bind_value_ret _ X _ _ (payoff_by_optype_valid mmap optype X Hoptype)).
  eapply yields_bind; [apply yields_exact; reflexivity |].
  intros ? Pmat [-> ->].
  assert (shape (mmap (payoff_fn optype) X) (n + 1) (n + 1)) as HsP
    by now apply shape_mmap.
  assert (Z.to_nat (Ntree + 1) = (n + 1)%nat) as Hn1 by (unfold n; lia).
  eapply yields_bind.
  { apply terminal_values_run; [lia | lia |]. now rewrite Hn1. }
  intros tr V0 (_ & HsV0 & HgetV0). simpl in HsV0, HgetV0.
  rewrite Hn1 in HsV0, HgetV0.
  replace (n + 1 - 1)%nat with n in HgetV0 by lia.
  simpl negb. cbv iota.
  destruct (BM_Amer_exmat_loop dfact p n (mmap (payoff_fn optype) X) V0
              (repeat (repeat 0 (n + 1)%nat) (n + 1)%nat) HsV0 HsP
              (shape_zeros _ _)) as (trL & [V Ex] & EL & HinvV & HinvE).
  simpl in HinvV, HinvE.
  eexists _, V. split.
  { eapply bind_value; [| reflexivity].
    eapply bind_value; [apply np_zeros2_ok; lia |]. rewrite Hn1.
    eapply bind_value; [exact EL |]. reflexivity. }
  split.
  - eapply BM_inv_lattice; [apply HgetX | exact HgetV0 | | exact HinvV].
    intros W i t. unfold recurrence, BM_rule_amer, BM_amer_node, BM_cont.
    now rewrite HgetX.
  - exists ((BM_prices_trace (Z.to_nat Ntree) ++ tr) ++
            [EvAlloc [Z.to_nat (Ntree + 1); Z.to_nat (Ntree + 1)]] ++ trL), Ex.
    split.
    + repeat rewrite <- app_assoc. reflexivity.
    + eapply BM_inv_flags; [apply HgetX | exact HinvE].
Qed.

End AdditiveRuns.

Lemma call_mode_returns (m : mode_name) (r sigma T : R) (Ntree : Z) :
  Ntree <> 0%Z ->
  exists u d p, call_mode m r sigma T Ntree = ret [u; d; p].
Proof.
  intros HN.
  destruct m; unfold call_mode, CRR, JD, EQP, TRG, py_div;
    replace (Ntree =? 0)%Z with false by (symmetry; now apply Z.eqb_neq);
    rewrite ret_bind; eexists _, _, _; reflexivity.
Qed.

Lemma BM_lattice_European_spec (S0 K u d dfact p : R) (n : nat)
    (optype : string) (V : matrix) :
  BM_lattice S0 K u d optype n (BM_euro_node dfact p) V ->
  binomial_European_spec S0 K u d dfact p n optype V.
Proof.
  intros (_ & Hpay & Hnode & _). split.
  - intros j Hj. unfold node. rewrite Hpay. now apply BM_node_payoff_node.
  - intros i j Hi Hj. unfold node at 1. rewrite Hnode by lia.
    unfold BM_euro_node. apply BM_cont_node.
Qed.

Lemma BM_lattice_American_spec (S0 K u d dfact p : R) (n : nat)
    (optype : string) (V : matrix) :
  BM_lattice S0 K u d optype n (BM_amer_node S0 K u d optype n dfact p) V ->
  binomial_American_spec S0 K u d dfact p n optype V.
Proof.
  intros (_ & Hpay & Hnode & _). split.
  - intros j Hj. unfold node. rewrite Hpay. now apply BM_node_payoff_node.
  - intros i j Hi Hj. unfold node at 1. rewrite Hnode by lia.
    unfold BM_amer_node. rewrite BM_cont_node, BM_node_payoff_node by lia.
    reflexivity.
Qed.

Lemma aBM_Amer_outcome (S0 K r sigma T : R) (Ntree : Z) (optype : string)
    (m : mode_name) (exmat : bool) (u d p : R) :
  (1 <= Ntree)%Z -> 0 < r -> 0 < sigma -> valid_optype optype ->
  outcome (call_mode m r sigma T Ntree) = inr [u; d; p] ->
  exists V, outcome (aBM_Amer S0 K r sigma T Ntree optype (Some m) exmat) = inr V /\
    BM_lattice S0 K u d optype (Z.to_nat Ntree)
      (BM_amer_node S0 K u d optype (Z.to_nat Ntree)
         (exp (- r * (T / IZR Ntree))) p) V.
Proof.
  intros HN Hr Hs Ho Hm. destruct exmat.
  - destruct (aBM_Amer_run_exmat S0 K r sigma T Ntree optype m u d p HN Hr Hs Ho Hm)
      as (tr & V & E & H & _).
    exists V. rewrite E. auto.
  - destruct (aBM_Amer_run_plain S0 K r sigma T Ntree optype m u d p HN Hr Hs Ho Hm)
      as (tr & V & E & H).
    exists V. rewrite E. auto.
Qed.

Lemma aBM_Euro_outcome (S0 K r sigma T : R) (Ntree : Z) (optype : string)
    (m : mode_name) (u d p : R) :
  (1 <= Ntree)%Z -> 0 < r -> 0 < sigma -> valid_optype optype ->
  outcome (call_mode m r sigma T Ntree) = inr [u; d; p] ->
  exists V, outcome (aBM_Euro S0 K r sigma T Ntree optype (Some m)) = inr V /\
    BM_lattice S0 K u d optype (Z.to_nat Ntree)
      (BM_euro_node (exp (- r * (T / IZR Ntree))) p) V.
Proof.
  intros HN Hr Hs Ho Hm.
  destruct (aBM_Euro_run S0 K r sigma T Ntree optype m u d p HN Hr Hs Ho Hm)
    as (tr & V & E & H).
  exists V. rewrite E. auto.
Qed.

(** X18.  The additive binomial pricers price on the multiplicative tree of
    the factors that [mode] returns.  For [r > 0], [sigma > 0], [T > 0],
    [N >= 1] and a valid option type, with [[u, d, p]] the list returned by
    [mode]: [aBM_Euro] returns the lattice whose nodes have the prices
    [S0 * u^j * d^(i-j)] and the values
    [exp(-r*dt) * (p*V(i+1,j+1) + (1-p)*V(i+1,j))], and [aBM_Amer] the
    lattice with the larger of that value and the intrinsic payoff. *)
Theorem X18_aBM_prices_on_the_tree_of_mode
    (S0 K r sigma T : R) (Ntree : Z) (optype : string) (m : mode_name)
    (exmat : bool) :
  0 < r -> 0 < sigma -> 0 < T -> (1 <= Ntree)%Z -> valid_optype optype ->
  exists u d p,
    outcome (call_mode m r sigma T Ntree) = inr [u; d; p] /\
    (exists V, outcome (aBM_Euro S0 K r sigma T Ntree optype (Some m)) = inr V /\
       binomial_European_spec S0 K u d (exp (- r * (T / IZR Ntree))) p
         (Z.to_nat Ntree) optype V) /\
    (exists V, outcome (aBM_Amer S0 K r sigma T Ntree optype (Some m) exmat) = inr V /\
       binomial_American_spec S0 K u d (exp (- r * (T / IZR Ntree))) p
         (Z.to_nat Ntree) optype V).
Proof.
  intros Hr Hs _ HN Ho.
  destruct (call_mode_returns m r sigma T Ntree) as (u & d & p & Em); [lia |].
  assert (outcome (call_mode m r sigma T Ntree) = inr [u; d; p]) as Hm
    by now rewrite Em.
  exists u, d, p. split; [exact Hm |]. split.
  - destruct (aBM_Euro_outcome S0 K r sigma T Ntree optype m u d p HN Hr Hs Ho Hm)
      as (V & E & HV).
    exists V. split; [exact E |]. now apply BM_lattice_European_spec.
  - destruct (aBM_Amer_outcome S0 K r sigma T Ntree optype m exmat u d p
                HN Hr Hs Ho Hm) as (V & E & HV).
    exists V. split; [exact E |]. now apply BM_lattice_American_spec.
Qed.

Lemma X18_witness :
  0 < 0.06 /\ 0 < 0.2 /\ 0 < 1 /\ (1 <= 3)%Z /\ valid_optype "call" /\
  exists u d p,
    outcome (call_mode mode_TRG 0.06 0.2 1 3) = inr [u; d; p] /\
    (exists V, outcome (aBM_Euro 100 100 0.06 0.2 1 3 "call" (Some mode_TRG)) = inr V /\
       binomial_European_spec 100 100 u d (exp (- (0.06) * (1 / 3))) p
         (Z.to_nat 3) "call" V) /\
    (exists V, outcome (aBM_Amer 100 100 0.06 0.2 1 3 "call" (Some mode_TRG) true)
               = inr V /\
       binomial_American_spec 100 100 u d (exp (- (0.06) * (1 / 3))) p
         (Z.to_nat 3) "call" V).
Proof.
  assert (0 < 0.06) as H1 by lra.
  assert (0 < 0.2) as H2 by lra.
  assert (0 < 1) as H3 by lra.
  assert (1 <= 3)%Z as H4 by lia.
  assert (valid_optype "call") as H5 by (left; reflexivity).
  split; [exact H1 |]. split; [exact H2 |]. split; [exact H3 |].
  split; [exact H4 |]. split; [exact H5 |].
  exact (X18_aBM_prices_on_the_tree_of_mode 100 100 0.06 0.2 1 3 "call" mode_TRG true
           H1 H2 H3 H4 H5).
Defined.

(** ** Failures of the additive binomial pricers *)

Lemma aBM_Euro_unknown_mode (S0 K r sigma T : R) (Ntree : Z) (optype : string) :
  aBM_Euro S0 K r sigma T Ntree optype None = ([], inl mode_exception).
Proof. reflexivity. Qed.

Lemma aBM_Amer_unknown_mode (S0 K r sigma T : R) (Ntree : Z) (optype : string)
    (exmat : bool) :
  aBM_Amer S0 K r sigma T Ntree optype None exmat = ([], inl mode_exception).
Proof. reflexivity. Qed.

Lemma aBM_zero_steps (S0 K r sigma T : R) (optype : string) (m : mode_name)
    (exmat : bool) :
  aBM_Euro S0 K r sigma T 0 optype (Some m) = ([], inl ZeroDivisionError) /\
  aBM_Amer S0 K r sigma T 0 optype (Some m) exmat = ([], inl ZeroDivisionError).
Proof. split; reflexivity. Qed.

Lemma aBM_params_returns (m : mode_name) (r sigma T : R) (Ntree : Z) :
  Ntree <> 0%Z -> 0 < r -> 0 < sigma ->
  exists u d p, 0 < u /\ 0 < d /\
    outcome (call_mode m r sigma T Ntree) = inr [u; d; p] /\
    aBM_params r sigma T Ntree (Some m)
    = ret {| bm_dfact := exp (- r * (T / IZR Ntree)); bm_p := p;
             bm_lnu := ln u; bm_lnd := ln d |}.
Proof.
  intros HN Hr Hs.
  destruct (call_mode_returns m r sigma T Ntree HN) as (u & d & p & Em).
  assert (outcome (call_mode m r sigma T Ntree) = inr [u; d; p]) as Hm
    by now rewrite Em.
  destruct (call_mode_positive m r sigma T Ntree u d p Hm) as (_ & _ & Hu & Hd).
  exists u, d, p. repeat split; try assumption.
  now apply aBM_params_ok.
Qed.

Lemma aBM_negative_steps (S0 K r sigma T : R) (Ntree : Z) (optype : string)
    (m : mode_name) (exmat : bool) :
  (Ntree < 0)%Z -> 0 < r -> 0 < sigma ->
  outcome (aBM_Euro S0 K r sigma T Ntree optype (Some m))
  = inl (if (Ntree =? -1)%Z then IndexError else ValueError) /\
  outcome (aBM_Amer S0 K r sigma T Ntree optype (Some m) exmat)
  = inl (if (Ntree =? -1)%Z then IndexError else ValueError).
Proof.
  intros HN Hr Hs.
  destruct (aBM_params_returns m r sigma T Ntree) as (u & d & p & Hu & Hd & _ & E);
    [lia | assumption | assumption |].
  unfold aBM_Euro, aBM_Amer. rewrite E, !ret_bind.
  cbn [bm_dfact bm_p bm_lnu bm_lnd].
  rewrite aBM_payoff_eq, !outcome_bind, BM_negative_outcome by exact HN.
  split; reflexivity.
Qed.

Lemma aBM_invalid_optype (S0 K r sigma T : R) (Ntree : Z) (optype : string)
    (m : mode_name) (exmat : bool) :
  (1 <= Ntree)%Z -> 0 < r -> 0 < sigma -> ~ valid_optype optype ->
  aBM_Euro S0 K r sigma T Ntree optype (Some m)
  = (BM_prices_trace (Z.to_nat Ntree), inl optype_exception) /\
  aBM_Amer S0 K r sigma T Ntree optype (Some m) exmat
  = (BM_prices_trace (Z.to_nat Ntree), inl optype_exception).
Proof.
  intros HN Hr Hs Ho.
  destruct (aBM_params_returns m r sigma T Ntree) as (u & d & p & Hu & Hd & _ & E);
    [lia | assumption | assumption |].
  unfold aBM_Euro, aBM_Amer. rewrite E, !ret_bind.
  cbn [bm_dfact bm_p bm_lnu bm_lnd].
  rewrite aBM_payoff_eq, !exp_ln by assumption.
  destruct (BM_payoff_run S0 K u d Ntree HN) as (X & _ & _ & EX).
  rewrite EX, (bind_value_raise _ X _ _ (payoff_by_optype_invalid mmap optype X Ho)).
  split; reflexivity.
Qed.

(** X19.  The failures of [aBM_Euro] and [aBM_Amer], in the order of the
    code: a [mode] that is none of [CRR], [JD], [EQP], [TRG] ends with the
    mode exception before anything else is looked at; then [N = 0] ends
    with [ZeroDivisionError]; then [r <= 0] or [sigma <= 0] ends with the
    parameter exception.  The pricers return a lattice exactly when [mode]
    is one of the four choices, [N >= 1], [r > 0], [sigma > 0] and the
    option type is 'call' or 'put'. *)
Theorem X19_aBM_failures_in_order
    (S0 K r sigma T : R) (Ntree : Z) (optype : string)
    (mode : option mode_name) (exmat : bool) :
  (mode = None ->
   aBM_Euro S0 K r sigma T Ntree optype mode = ([], inl mode_exception) /\
   aBM_Amer S0 K r sigma T Ntree optype mode exmat = ([], inl mode_exception)) /\
  (mode <> None -> Ntree = 0%Z ->
   aBM_Euro S0 K r sigma T Ntree optype mode = ([], inl ZeroDivisionError) /\
   aBM_Amer S0 K r sigma T Ntree optype mode exmat = ([], inl ZeroDivisionError)) /\
  (mode <> None -> Ntree <> 0%Z -> ~ (0 < r /\ 0 < sigma) ->
   aBM_Euro S0 K r sigma T Ntree optype mode = ([], inl parameter_exception) /\
   aBM_Amer S0 K r sigma T Ntree optype mode exmat = ([], inl parameter_exception)) /\
  ((exists V, outcome (aBM_Euro S0 K r sigma T Ntree optype mode) = inr V)
   <-> mode <> None /\ (1 <= Ntree)%Z /\ 0 < r /\ 0 < sigma /\ valid_optype optype) /\
  ((exists V, outcome (aBM_Amer S0 K r sigma T Ntree optype mode exmat) = inr V)
   <-> mode <> None /\ (1 <= Ntree)%Z /\ 0 < r /\ 0 < sigma /\ valid_optype optype).
Proof.
  assert (forall m, Ntree <> 0%Z -> ~ (0 < r /\ 0 < sigma) ->
            aBM_Euro S0 K r sigma T Ntree optype (Some m)
            = ([], inl parameter_exception) /\
            aBM_Amer S0 K r sigma T Ntree optype (Some m) exmat
            = ([], inl parameter_exception)) as Hbad.
  { intros m HN H. unfold aBM_Euro, aBM_Amer.
    rewrite aBM_params_fail by assumption. split; reflexivity. }
  split; [intros ->; split; reflexivity |].
  split.
  { intros Hm ->. destruct mode as [m |]; [| contradiction]. apply aBM_zero_steps. }
  split.
  { intros Hm HN H. destruct mode as [m |]; [| contradiction]. now apply Hbad. }
  assert (forall m,
            ((exists V, outcome (aBM_Euro S0 K r sigma T Ntree optype (Some m)) = inr V)
             \/ (exists V, outcome (aBM_Amer S0 K r sigma T Ntree optype (Some m) exmat)
                           = inr V)) ->
            (1 <= Ntree)%Z /\ 0 < r /\ 0 < sigma /\ valid_optype optype) as Hnec.
  { intros m Hret.
    destruct (Z.eq_dec Ntree 0) as [-> | HN0].
    { destruct (aBM_zero_steps S0 K r sigma T optype m exmat) as [E1 E2].
      rewrite E1, E2 in Hret. destruct Hret as [[V E] | [V E]]; discriminate E. }
    destruct (Rlt_dec 0 r) as [Hr | Hr].
    2:{ destruct (Hbad m HN0) as [E1 E2]; [tauto |].
        rewrite E1, E2 in Hret. destruct Hret as [[V E] | [V E]]; discriminate E. }
    destruct (Rlt_dec 0 sigma) as [Hs | Hs].
    2:{ destruct (Hbad m HN0) as [E1 E2]; [tauto |].
        rewrite E1, E2 in Hret. destruct Hret as [[V E] | [V E]]; discriminate E. }
    destruct (Z_lt_le_dec Ntree 0) as [Hneg | Hpos].
    { destruct (aBM_negative_steps S0 K r sigma T Ntree optype m exmat Hneg Hr Hs)
        as [E1 E2].
      rewrite E1, E2 in Hret. destruct Hret as [[V E] | [V E]]; discriminate E. }
    destruct (valid_optype_dec optype) as [Ho | Ho].
    - repeat split; [lia | assumption..].
    - destruct (aBM_invalid_optype S0 K r sigma T Ntree optype m exmat) as [E1 E2];
        [lia | assumption..|].
      rewrite E1, E2 in Hret. destruct Hret as [[V E] | [V E]]; discriminate E. }
  split; split.
  - intros Hret. destruct mode as [m |]; [| destruct Hret as [V E]; discriminate E].
    split; [discriminate |]. apply (Hnec m). now left.
  - intros (Hm & HN & Hr & Hs & Ho). destruct mode as [m |]; [| contradiction].
    destruct (call_mode_returns m r sigma T Ntree) as (u & d & p & Em); [lia |].
    destruct (aBM_Euro_outcome S0 K r sigma T Ntree optype m u d p HN Hr Hs Ho)
      as (V & E & _); [now rewrite Em |].
    now exists V.
  - intros Hret. destruct mode as [m |]; [| destruct Hret as [V E]; discriminate E].
    split; [discriminate |]. apply (Hnec m). now right.
  - intros (Hm & HN & Hr & Hs & Ho). destruct mode as [m |]; [| contradiction].
    destruct (call_mode_returns m r sigma T Ntree) as (u & d & p & Em); [lia |].
    destruct (aBM_Amer_outcome S0 K r sigma T Ntree optype m exmat u d p HN Hr Hs Ho)
      as (V & E & _); [now rewrite Em |].
    now exists V.
Qed.

(** ** The four parameter choices *)

Lemma call_mode_values (m : mode_name) (r sigma T : R) (Ntree : Z) (u d p : R) :
  outcome (call_mode m r sigma T Ntree) = inr [u; d; p] ->
  let dt := T / IZR Ntree in
  let nu := r - 0.5 * sigma ^ 2 in
  match m with
  | mode_CRR => ln u = nu * dt + sigma * sqrt dt /\
                ln d = nu * dt - sigma * sqrt dt /\ p = 1 / 2
  | mode_JD => ln u = sigma * sqrt dt /\ ln d = - sigma * sqrt dt /\
               p = 0.5 * (1 + nu * sqrt dt / sigma)
  | mode_EQP => ln u = 0.5 * nu * dt + sigma * sqrt dt /\
                ln d = 1.5 * nu * dt - sigma * sqrt dt /\ p = 1 / 2
  | mode_TRG => ln u = sqrt (sigma ^ 2 * dt + (nu * dt) ^ 2) /\
                ln d = - sqrt (sigma ^ 2 * dt + (nu * dt) ^ 2) /\
                p = 0.5 * (1 + nu * dt / sqrt (sigma ^ 2 * dt + (nu * dt) ^ 2))
  end.
Proof.
  intros E.
  destruct (call_mode_positive m r sigma T Ntree u d p E) as (HN & _ & _ & _).
  destruct m; unfold call_mode, CRR, JD, EQP, TRG, py_div in E;
    replace (Ntree =? 0)%Z with false in E by (symmetry; now apply Z.eqb_neq);
    rewrite ret_bind in E; injection E as <- <- <-; cbv zeta;
    rewrite !ln_exp; repeat split; reflexivity.
Qed.

Lemma TRG_step_pos (sigma nu dt : R) :
  0 < sigma -> 0 < dt -> 0 < sqrt (sigma ^ 2 * dt + (nu * dt) ^ 2).
Proof.
  intros Hs Hdt. apply sqrt_lt_R0.
  assert (0 < sigma ^ 2 * dt) by (apply Rmult_lt_0_compat; [nra | exact Hdt]).
  pose proof (pow2_ge_0 (nu * dt)). lra.
Qed.

Lemma TRG_step_sqr (sigma nu dt : R) :
  0 < sigma -> 0 < dt ->
  sqrt (sigma ^ 2 * dt + (nu * dt) ^ 2) ^ 2 = sigma ^ 2 * dt + (nu * dt) ^ 2.
Proof.
  intros Hs Hdt.
  assert (0 < sigma ^ 2 * dt) by (apply Rmult_lt_0_compat; [nra | exact Hdt]).
  pose proof (pow2_ge_0 (nu * dt)).
  set (x := sigma ^ 2 * dt + (nu * dt) ^ 2) in *.
  replace (sqrt x ^ 2) with (sqrt x * sqrt x) by ring.
  apply sqrt_sqrt. unfold x. lra.
Qed.

(** X20.  The four parameter choices, for [sigma > 0], [T > 0] and
    [N >= 1], return positive factors [u], [d] and a probability [p] for
    which the mean of the one-step log return,
    [p * ln u + (1 - p) * ln d], is [(r - sigma^2/2) * dt].  [CRR] and
    [TRG] also match its variance [sigma^2 * dt]; the trees of [JD] and
    [TRG] are symmetric, [u * d = 1]. *)
Theorem X20_parameter_choices_match_the_drift
    (m : mode_name) (r sigma T : R) (Ntree : Z) :
  0 < sigma -> 0 < T -> (1 <= Ntree)%Z ->
  exists u d p,
    outcome (call_mode m r sigma T Ntree) = inr [u; d; p] /\
    0 < u /\ 0 < d /\
    p * ln u + (1 - p) * ln d = (r - 0.5 * sigma ^ 2) * (T / IZR Ntree) /\
    (m = mode_CRR \/ m = mode_TRG ->
     p * ln u ^ 2 + (1 - p) * ln d ^ 2
     - ((r - 0.5 * sigma ^ 2) * (T / IZR Ntree)) ^ 2
     = sigma ^ 2 * (T / IZR Ntree)) /\
    (m = mode_JD \/ m = mode_TRG -> u * d = 1).
Proof.
  intros Hs HT HN.
  destruct (call_mode_returns m r sigma T Ntree) as (u & d & p & Em); [lia |].
  assert (outcome (call_mode m r sigma T Ntree) = inr [u; d; p]) as E
    by now rewrite Em.
  exists u, d, p. split; [exact E |].
  pose proof (positive_time_step T Ntree HT HN) as Hdt.
  pose proof (call_mode_values m r sigma T Ntree u d p E) as Hval.
  destruct (call_mode_positive m r sigma T Ntree u d p E) as (_ & _ & Hu & Hd).
  split; [exact Hu |]. split; [exact Hd |].
  cbv zeta in Hval. clear Em E.
  set (dt := T / IZR Ntree) in *. set (nu := r - 0.5 * sigma ^ 2) in *.
  assert (sqrt dt * sqrt dt = dt) as Hsq by (apply sqrt_sqrt; lra).
  assert (u * d = exp (ln u + ln d)) as Hud
    by (rewrite exp_plus, !exp_ln by assumption; reflexivity).
  assert (0.5 = 1 / 2) as Hhalf by lra.
  assert (1.5 = 3 / 2) as Hthree by lra.
  destruct m; destruct Hval as (Elu & Eld & Ep); rewrite Elu, Eld, Ep;
    rewrite ?Hhalf, ?Hthree.
  - split; [field |]. split.
    + intros _.
      transitivity (sigma ^ 2 * (sqrt dt * sqrt dt)); [field | now rewrite Hsq].
    + intros [H | H]; discriminate H.
  - split.
    + transitivity (nu * (sqrt dt * sqrt dt)); [field; lra | now rewrite Hsq].
    + split; [intros [H | H]; discriminate H |].
      intros _. rewrite Hud, Elu, Eld.
      replace (sigma * sqrt dt + - sigma * sqrt dt) with 0 by ring. apply exp_0.
  - split; [field |]. split; intros [H | H]; discriminate H.
  - pose proof (TRG_step_pos sigma nu dt Hs Hdt) as Hdx.
    pose proof (TRG_step_sqr sigma nu dt Hs Hdt) as Hdx2.
    set (dx := sqrt (sigma ^ 2 * dt + (nu * dt) ^ 2)) in *.
    split; [field; lra |]. split.
    + intros _.
      transitivity (dx ^ 2 - (nu * dt) ^ 2); [field; lra | rewrite Hdx2; ring].
    + intros _. rewrite Hud, Elu, Eld.
      replace (dx + - dx) with 0 by ring. apply exp_0.
Qed.

Lemma X20_witness :
  0 < 0.2 /\ 0 < 1 /\ (1 <= 3)%Z /\
  exists u d p,
    outcome (call_mode mode_TRG 0.06 0.2 1 3) = inr [u; d; p] /\
    0 < u /\ 0 < d /\
    p * ln u + (1 - p) * ln d = (0.06 - 0.5 * 0.2 ^ 2) * (1 / 3) /\
    (mode_TRG = mode_CRR \/ mode_TRG = mode_TRG ->
     p * ln u ^ 2 + (1 - p) * ln d ^ 2 - ((0.06 - 0.5 * 0.2 ^ 2) * (1 / 3)) ^ 2
     = 0.2 ^ 2 * (1 / 3)) /\
    (mode_TRG = mode_JD \/ mode_TRG = mode_TRG -> u * d = 1).
Proof.
  assert (0 < 0.2) as H1 by lra.
  assert (0 < 1) as H2 by lra.
  assert (1 <= 3)%Z as H3 by lia.
  split; [exact H1 |]. split; [exact H2 |]. split; [exact H3 |].
  exact (X20_parameter_choices_match_the_drift mode_TRG 0.06 0.2 1 3 H1 H2 H3).
Defined.

(** ** Probabilities between 0 and 1 *)




(** * Plotting *)

Lemma quiet_ret {A} (a : A) : quiet (ret a).
Proof. reflexivity. Qed.

Lemma quiet_raise {A} (e : exn) : quiet (@raise A e).
Proof. reflexivity. Qed.

Lemma quiet_bind {A B} (m : M A) (f : A -> M B) :
  quiet m -> (forall a, quiet (f a)) -> quiet (bind m f).
Proof.
  unfold quiet, trace, plots. intros Hm Hf.
  destruct m as [tr [e | a]]; simpl in *; [exact Hm |].
  specialize (Hf a). destruct (f a) as [tr' r]. simpl in *.
  now rewrite filter_app, Hm, Hf.
Qed.

Lemma quiet_for_each {A St} (l : list A) (body : A -> St -> M St) (s : St) :
  (forall x s, quiet (body x s)) -> quiet (for_each l body s).
Proof.
  intros H. revert s. induction l as [| x l IH]; intros s; simpl.
  - apply quiet_ret.
  - apply quiet_bind; [apply H | exact IH].
Qed.

Lemma quiet_py_div (x : R) (n : Z) : quiet (py_div x n).
Proof. unfold py_div. now destruct (n =? 0)%Z. Qed.

Lemma quiet_np_zeros2 (r c : Z) : quiet (np_zeros2 r c).
Proof. unfold np_zeros2. now destruct (_ || _). Qed.

Lemma quiet_broadcast (f : R -> R -> R) (a b : array) : quiet (broadcast f a b).
Proof.
  unfold broadcast.
  destruct (_ =? _)%nat; [reflexivity |].
  destruct (_ =? _)%nat; [reflexivity |].
  now destruct (_ =? _)%nat.
Qed.

Lemma quiet_load_col (Mx : matrix) (a b c : nat) : quiet (load_col Mx a b c).
Proof. unfold load_col. now destruct (_ <=? _)%nat. Qed.

Lemma quiet_store_col (Mx : matrix) (a b c : nat) (vals : array) :
  quiet (store_col Mx a b c vals).
Proof.
  unfold store_col.
  destruct (_ <=? _)%nat; [reflexivity |].
  destruct (_ =? _)%nat; [reflexivity |].
  now destruct (_ =? _)%nat.
Qed.

Lemma quiet_store_item (Mx : matrix) (i j : Z) (v : R) :
  quiet (store_item Mx i j v).
Proof.
  unfold store_item.
  destruct (py_index _ i); [| reflexivity]. now destruct (py_index _ j).
Qed.

Lemma quiet_np_sub2 (A B : matrix) : quiet (np_sub2 A B).
Proof. unfold np_sub2. now destruct (same_shape A B). Qed.

Lemma quiet_payoff_by_optype {A} (amap : (R -> R) -> A -> A) optype (X : A) :
  quiet (payoff_by_optype amap optype X).
Proof.
  unfold payoff_by_optype.
  destruct (_ =? _)%string; [reflexivity |]. now destruct (_ =? _)%string.
Qed.

Create HintDb quiet.

#[local] Hint Resolve quiet_ret quiet_raise quiet_py_div quiet_np_zeros2
  quiet_broadcast quiet_load_col quiet_store_col quiet_store_item quiet_np_sub2
  quiet_payoff_by_optype : quiet.

Ltac quiet_step :=
  first [ apply quiet_bind; [| intros ?]
        | apply quiet_for_each; intros ? ?
        | match goal with |- quiet (match ?x with (_, _) => _ end) => destruct x end
        | match goal with |- quiet (if ?b then _ else _) => destruct b end
        | progress unfold np_add, np_sub, np_mul, np_maximum
        | solve [auto with quiet] ].

Ltac prove_quiet := repeat quiet_step.

Lemma quiet_BM_params (r u d T : R) (Ntree : Z) : quiet (BM_params r u d T Ntree).
Proof. unfold BM_params. prove_quiet. Qed.

Lemma quiet_BM_payoff (S0 K u d : R) (Ntree : Z) (optype : string) :
  quiet (BM_payoff S0 K u d Ntree optype).
Proof. unfold BM_payoff, BM_prices. prove_quiet. Qed.

Lemma quiet_terminal_values (rows cols : Z) (Pmat : matrix) :
  quiet (terminal_values rows cols Pmat).
Proof. unfold terminal_values. prove_quiet. Qed.

Lemma quiet_BM_continuation (dfact p : R) (n m t : nat) (V : matrix) :
  quiet (BM_continuation dfact p n m t V).
Proof. unfold BM_continuation. prove_quiet. Qed.

Lemma quiet_aTM_params (r sigma div T : R) (Ntree : Z) :
  quiet (aTM_params r sigma div T Ntree).
Proof. unfold aTM_params. prove_quiet. Qed.

Lemma quiet_aTM_payoff (S0 K dx : R) (Ntree : Z) (optype : string) :
  quiet (aTM_payoff S0 K dx Ntree optype).
Proof. unfold aTM_payoff, aTM_prices. prove_quiet. Qed.

Lemma quiet_aTM_continuation (prm : aTM_parameters) (n m t : nat) (V : matrix) :
  quiet (aTM_continuation prm n m t V).
Proof. unfold aTM_continuation. prove_quiet. Qed.

Lemma quiet_call_mode (m : mode_name) (r sigma T : R) (Ntree : Z) :
  quiet (call_mode m r sigma T Ntree).
Proof. destruct m; unfold call_mode, CRR, JD, EQP, TRG; prove_quiet. Qed.

Lemma quiet_aBM_params (r sigma T : R) (Ntree : Z) (mode : option mode_name) :
  quiet (aBM_params r sigma T Ntree mode).
Proof.
  unfold aBM_params. destruct mode as [m |]; [| apply quiet_raise].
  apply quiet_bind; [apply quiet_py_div | intros dt].
  apply quiet_bind; [apply quiet_call_mode | intros params].
  prove_quiet.
Qed.

Lemma quiet_aBM_payoff (S0 K lnu lnd : R) (Ntree : Z) (optype : string) :
  quiet (aBM_payoff S0 K lnu lnd Ntree optype).
Proof. rewrite aBM_payoff_eq. apply quiet_BM_payoff. Qed.

#[local] Hint Resolve quiet_BM_params quiet_BM_payoff quiet_terminal_values
  quiet_BM_continuation quiet_aTM_params quiet_aTM_payoff quiet_aTM_continuation
  quiet_aBM_params quiet_aBM_payoff : quiet.

(** A computation that plots exactly when it returns, after a quiet one. *)
Lemma plots_iff_returns_bind {A B} (m : M A) (f : A -> M B) :
  quiet m -> (forall a, plots_iff_returns (f a)) -> plots_iff_returns (bind m f).
Proof.
  unfold quiet, plots_iff_returns, trace, outcome, plots. intros Hm Hf.
  destruct m as [tr [e | a]]; simpl in *; [exact Hm |].
  specialize (Hf a). destruct (f a) as [tr' [e | b]]; simpl in *.
  - now rewrite filter_app, Hm, Hf.
  - destruct Hf as [Ex Hf]. exists Ex. now rewrite filter_app, Hm, Hf.
Qed.

Lemma plots_iff_returns_then {A B} (m : M A) (g : A -> B) :
  plots_iff_returns m -> plots_iff_returns (bind m (fun a => ret (g a))).
Proof.
  unfold plots_iff_returns, trace, outcome, plots, ret. intros Hm.
  destruct m as [tr [e | a]]; simpl in *; [exact Hm |].
  now rewrite app_nil_r.
Qed.

Lemma plots_iff_returns_show {St} (m : M (matrix * St)) (g : matrix * St -> matrix) :
  quiet m ->
  plots_iff_returns
    (bind m (fun st => emit (EvMatshow (g st)) ;; emit (EvTitle "Early exercise") ;;
                       ret (fst st))).
Proof.
  unfold quiet, plots_iff_returns, trace, outcome, plots. intros Hm.
  destruct m as [tr [e | a]]; simpl in *; [exact Hm |].
  exists (g a). now rewrite filter_app, Hm.
Qed.

Lemma value_of_pair_loop (m : M (matrix * matrix)) :
  bind m (fun x => match x with
                   | (Vmat, Exmat) =>
                       emit (EvMatshow Exmat) ;; emit (EvTitle "Early exercise") ;;
                       ret Vmat
                   end)
  = bind m (fun st => emit (EvMatshow (snd st)) ;; emit (EvTitle "Early exercise") ;;
                      ret (fst st)).
Proof. apply bind_ext. intros [V E]. reflexivity. Qed.

Lemma BM_Amer_plots (dfact p : R) (n : nat) (Ntree : Z) (Pmat Vmat : matrix) :
  plots_iff_returns
    (Vmat <- (Exmat <- np_zeros2 (Ntree + 1) (Ntree + 1) ;;
              '(Vmat, Exmat) <- for_each (enumerate (range_down n)) (fun mt st =>
                  let '(m, t) := mt in
                  let '(Vmat, Exmat) := st in
                  C <- BM_continuation dfact p n m t Vmat ;;
                  P <- load_col Pmat (m + 1) (nrows Pmat) t ;;
                  V <- np_maximum C P ;;
                  Vmat <- store_col Vmat (m + 1) (nrows Vmat) t V ;;
                  C' <- BM_continuation dfact p n m t Vmat ;;
                  P' <- load_col Pmat (m + 1) (nrows Pmat) t ;;
                  D <- np_sub C' P' ;;
                  Exmat <- store_col Exmat (m + 1) (nrows Exmat) t
                             (map exercise_flag D) ;;
                  ret (Vmat, Exmat)) (Vmat, Exmat) ;;
              emit (EvMatshow Exmat) ;;
              emit (EvTitle "Early exercise") ;;
              ret Vmat) ;;
     ret Vmat).
Proof.
  apply (plots_iff_returns_then _ (fun V => V)).
  apply plots_iff_returns_bind; [apply quiet_np_zeros2 | intros Exmat].
  rewrite value_of_pair_loop.
  apply (plots_iff_returns_show _ snd).
  apply quiet_for_each. intros [m t] [V E]. prove_quiet.
Qed.

Lemma aTM_Amer_plots (prm : aTM_parameters) (n : nat) (Ntree : Z)
    (Pmat Vmat : matrix) :
  plots_iff_returns
    (Vmat <- (Exmat <- np_zeros2 (2 * Ntree + 1) (Ntree + 1) ;;
              '(Vmat, Exmat) <- for_each (enumerate (range_down n)) (fun mt st =>
                  let '(m, t) := mt in
                  let '(Vmat, Exmat) := st in
                  C <- aTM_continuation prm n m t Vmat ;;
                  P <- load_col Pmat (n - t) (n + (t + 1)) t ;;
                  V <- np_maximum C P ;;
                  Vmat <- store_col Vmat (n - t) (n + (t + 1)) t V ;;
                  C' <- aTM_continuation prm n m t Vmat ;;
                  P' <- load_col Pmat (n - t) (n + (t + 1)) t ;;
                  D <- np_sub C' P' ;;
                  Exmat <- store_col Exmat (n - t) (n + (t + 1)) t
                             (map exercise_flag D) ;;
                  ret (Vmat, Exmat)) (Vmat, Exmat) ;;
              emit (EvMatshow Exmat) ;;
              emit (EvTitle "Early exercise") ;;
              ret Vmat) ;;
     ret Vmat).
Proof.
  apply (plots_iff_returns_then _ (fun V => V)).
  apply plots_iff_returns_bind; [apply quiet_np_zeros2 | intros Exmat].
  rewrite value_of_pair_loop.
  apply (plots_iff_returns_show _ snd).
  apply quiet_for_each. intros [m t] [V E]. prove_quiet.
Qed.

(** X22.  Plotting, on every input.  The European pricers and the American
    pricers called with [exmat = False] never plot.  An American pricer
    called with [exmat = True] shows the early-exercise matrix, once and
    with its title, exactly when it returns a lattice: a call that raises
    leaves no figure. *)
Theorem X22_no_figure_without_exmat_or_without_a_result
    (S0 K r u d sigma div T : R) (Ntree : Z) (optype : string)
    (mode : option mode_name) :
  (quiet (BM_Euro S0 K r u d T Ntree optype) /\
   quiet (BM_Amer S0 K r u d T Ntree optype false) /\
   plots_iff_returns (BM_Amer S0 K r u d T Ntree optype true)) /\
  (quiet (aTM_Euro S0 K r sigma div T Ntree optype) /\
   quiet (aTM_Amer S0 K r sigma div T Ntree optype false) /\
   plots_iff_returns (aTM_Amer S0 K r sigma div T Ntree optype true)) /\
  (quiet (aBM_Euro S0 K r sigma T Ntree optype mode) /\
   quiet (aBM_Amer S0 K r sigma T Ntree optype mode false) /\
   plots_iff_returns (aBM_Amer S0 K r sigma T Ntree optype mode true)).
Proof.
  split; [| split]; (split; [| split]).
  - unfold BM_Euro. prove_quiet.
  - unfold BM_Amer. cbn [negb]. prove_quiet.
  - unfold BM_Amer. cbn [negb].
    apply plots_iff_returns_bind; [apply quiet_BM_params | intros [dfact p]].
    apply plots_iff_returns_bind; [apply quiet_BM_payoff | intros Pmat].
    apply plots_iff_returns_bind; [apply quiet_terminal_values | intros Vmat].
    apply BM_Amer_plots.
  - unfold aTM_Euro. prove_quiet.
  - unfold aTM_Amer. cbn [negb]. prove_quiet.
  - unfold aTM_Amer. cbn [negb].
    apply plots_iff_returns_bind; [apply quiet_aTM_params | intros prm].
    apply plots_iff_returns_bind; [apply quiet_aTM_payoff | intros Pmat].
    apply plots_iff_returns_bind; [apply quiet_terminal_values | intros Vmat].
    apply aTM_Amer_plots.
  - unfold aBM_Euro. prove_quiet.
  - unfold aBM_Amer. cbn [negb]. prove_quiet.
  - unfold aBM_Amer. cbn [negb].
    apply plots_iff_returns_bind; [apply quiet_aBM_params | intros prm].
    apply plots_iff_returns_bind; [apply quiet_aBM_payoff | intros Pmat].
    apply plots_iff_returns_bind; [apply quiet_terminal_values | intros Vmat].
    apply BM_Amer_plots.
Qed.

(** * The binomial formula *)














(** * Scaling of spot and strike *)







(** * Early exercise in the additive binomial model *)

(** X25.  [aBM_Amer] returns the same outcome, hence on success the same
    lattice, whether [exmat] is true or false, on every input. *)
Theorem X25_aBM_exmat_does_not_change_the_lattice
    (S0 K r sigma T : R) (Ntree : Z) (optype : string) (mode : option mode_name) :
  outcome (aBM_Amer S0 K r sigma T Ntree optype mode true)
  = outcome (aBM_Amer S0 K r sigma T Ntree optype mode false).
Proof.
  destruct mode as [m |]; [| reflexivity].
  destruct (Z.eq_dec Ntree 0) as [-> | HN0]; [reflexivity |].
  destruct (Rlt_dec 0 r) as [Hr | Hr];
    [| unfold aBM_Amer; rewrite aBM_params_fail by tauto; reflexivity].
  destruct (Rlt_dec 0 sigma) as [Hs | Hs];
    [| unfold aBM_Amer; rewrite aBM_params_fail by tauto; reflexivity].
  destruct (Z_lt_le_dec Ntree 0) as [Hneg | Hpos].
  { destruct (aBM_negative_steps S0 K r sigma T Ntree optype m true Hneg Hr Hs)
      as [_ ->].
    destruct (aBM_negative_steps S0 K r sigma T Ntree optype m false Hneg Hr Hs)
      as [_ ->].
    reflexivity. }
  assert (1 <= Ntree)%Z as HN by lia.
  destruct (valid_optype_dec optype) as [Ho | Ho].
  - destruct (call_mode_returns m r sigma T Ntree HN0) as (u & d & p & Em).
    assert (outcome (call_mode m r sigma T Ntree) = inr [u; d; p]) as Hm
      by now rewrite Em.
    destruct (aBM_Amer_outcome S0 K r sigma T Ntree optype m true u d p HN Hr Hs Ho Hm)
      as (V1 & E1 & H1).
    destruct (aBM_Amer_outcome S0 K r sigma T Ntree optype m false u d p HN Hr Hs Ho Hm)
      as (V2 & E2 & H2).
    rewrite E1, E2. f_equal.
    eapply value_lattice_unique; [| exact H1 | exact H2].
    intros V V' i t H. unfold BM_amer_node, BM_cont. now rewrite !H.
  - destruct (aBM_invalid_optype S0 K r sigma T Ntree optype m true HN Hr Hs Ho)
      as [_ ->].
    destruct (aBM_invalid_optype S0 K r sigma T Ntree optype m false HN Hr Hs Ho)
      as [_ ->].
    reflexivity.
Qed.

(** ** The additive binomial pricer in rounded arithmetic *)

Lemma rounded_call_mode_returns (fl : arithmetic) (m : mode_name)
    (r sigma T : R) (Ntree : Z) :
  Ntree <> 0%Z ->
  exists u d p, Rounded.call_mode fl m r sigma T Ntree = ret [u; d; p].
Proof.
  intros HN.
  destruct m; unfold Rounded.call_mode, Rounded.CRR, Rounded.JD, Rounded.EQP,
    Rounded.TRG, Rounded.py_div;
    replace (Ntree =? 0)%Z with false by (symmetry; now apply Z.eqb_neq);
    rewrite ret_bind; eexists _, _, _; reflexivity.
Qed.

Lemma rounded_aBM_params_ok (fl : arithmetic) (m : mode_name)
    (r sigma T : R) (Ntree : Z) (u d p : R) :
  Ntree <> 0%Z ->
  Rounded.call_mode fl m r sigma T Ntree = ret [u; d; p] ->
  0 < r -> 0 < sigma ->
  Rounded.aBM_params fl r sigma T Ntree (Some m)
  = ret {| bm_dfact := fexp fl (fmul fl (- r) (fdiv fl T (fint fl Ntree)));
           bm_p := p; bm_lnu := fln fl u; bm_lnd := fln fl d |}.
Proof.
  intros HN Em Hr Hs. unfold Rounded.aBM_params, Rounded.py_div.
  replace (Ntree =? 0)%Z with false by (symmetry; now apply Z.eqb_neq).
  rewrite ret_bind, Em, ret_bind. cbn [nth].
  apply Rltb_true in Hr, Hs. rewrite Hr, Hs. reflexivity.
Qed.

Lemma rounded_aBM_price_column (fl : arithmetic) (S0 lnu lnd : R) (t j : nat) :
  (j <= t)%nat ->
  nth j (Rounded.scal fl S0
           (map (fexp fl)
              (zip_with (fadd fl)
                 (map (fun k => fmul fl lnu (INR k)) (rev (seq 0 (t + 1))))
                 (map (fun k => fmul fl lnd (INR k)) (seq 0 (t + 1)))))) 0
  = fmul fl S0 (fexp fl (fadd fl (fmul fl lnu (INR (t - j)))
                                 (fmul fl lnd (INR j)))).
Proof.
  intros Hj. unfold Rounded.scal.
  rewrite nth_map_lt
    by (rewrite length_map, length_zip_with, !length_map, length_rev, length_seq; lia).
  rewrite nth_map_lt
    by (rewrite length_zip_with, !length_map, length_rev, length_seq; lia).
  rewrite nth_zip_with
    by (rewrite ?length_map, ?length_rev, ?length_seq; lia).
  rewrite rev_seq, map_map, !nth_map_seq by lia.
  do 5 f_equal. lia.
Qed.

Lemma rounded_aBM_prices_run (fl : arithmetic) (S0 lnu lnd : R) (Ntree : Z) :
  (1 <= Ntree)%Z ->
  yields (Rounded.aBM_prices fl S0 lnu lnd Ntree) (fun _ P =>
    shape P (Z.to_nat Ntree + 1) (Z.to_nat Ntree + 1) /\
    forall i c, in_triangle (Z.to_nat Ntree) i c = true ->
      get P i c =
      fmul fl S0 (fexp fl (fadd fl (fmul fl lnu (INR (Z.to_nat Ntree - i)))
                                   (fmul fl lnd (INR (i + c - Z.to_nat Ntree)))))).
Proof.
  intros HN. unfold Rounded.aBM_prices.
  set (n := Z.to_nat Ntree).
  assert (Z.to_nat (Ntree + 1) = (n + 1)%nat) as Hn1 by (unfold n; lia).
  eapply yields_bind.
  { apply yields_exact, np_zeros2_ok; lia. }
  intros ? ? [-> ->]. rewrite Hn1.
  eapply yields_bind.
  { apply yields_exact, (store_item_ok _ (n + 1) (n + 1));
      [apply shape_zeros | unfold n; lia | lia]. }
  intros ? ? [-> ->].
  replace (Z.to_nat Ntree) with n by reflexivity. change (Z.to_nat 0) with 0%nat.
  set (P0 := write_col (repeat (repeat 0 (n + 1)%nat) (n + 1)%nat) n 0 [S0]).
  assert (shape P0 (n + 1) (n + 1)) as HP0
    by (apply write_col_shape, shape_zeros).
  rewrite range_as_map.
  eapply yields_weaken.
  { apply (for_each_seq (fun k (_ : list event) P =>
       shape P (n + 1) (n + 1) /\
       forall i c, (c < k)%nat -> in_triangle n i c = true ->
         get P i c =
         fmul fl S0 (fexp fl (fadd fl (fmul fl lnu (INR (n - i)))
                                      (fmul fl lnd (INR (i + c - n))))))).
    - split; [exact HP0 |]. intros i c Hc. lia.
    - intros k tr P Hk (Hs & Hget).
      unfold Rounded.np_add. rewrite broadcast_same_length
        by now rewrite !length_map, length_rev.
      rewrite ret_bind.
      unfold nrows. rewrite (proj1 Hs).
      match goal with |- yields (store_col _ _ _ _ ?vals) _ =>
        assert (length vals = (k + 1)%nat) as HL
          by (unfold Rounded.scal;
              rewrite !length_map, length_zip_with, !length_map, length_rev,
                length_seq; lia)
      end.
      rewrite (store_col_ok P (n + 1) (n + 1)); [| exact Hs | lia | lia | rewrite HL; lia].
      eexists _, _. split; [reflexivity |].
      split; [now apply write_col_shape |].
      intros i c Hc Ht. apply in_triangle_true in Ht.
      rewrite (get_write_col P _ _ _ (n + 1) (n + 1)); [| exact Hs | lia | rewrite HL; lia].
      rewrite HL.
      destruct (Nat.eqb_spec c k) as [-> | Hck].
      + replace (n - k <=? i)%nat with true by (symmetry; apply Nat.leb_le; lia).
        replace (i <? n - k + (k + 1))%nat with true by (symmetry; apply Nat.ltb_lt; lia).
        cbn [andb]. rewrite rounded_aBM_price_column by lia.
        replace (k - (i - (n - k)))%nat with (n - i)%nat by lia.
        replace (i - (n - k))%nat with (i + k - n)%nat by lia.
        reflexivity.
      + cbn [andb]. apply Hget; [lia |]. apply in_triangle_true. lia. }
  intros tr P (Hs & Hget). split; [exact Hs |].
  intros i c Ht. apply Hget; [| exact Ht].
  apply in_triangle_true in Ht. lia.
Qed.

Lemma rounded_aBM_payoff_run (fl : arithmetic) (S0 K lnu lnd : R) (Ntree : Z)
    (optype : string) :
  (1 <= Ntree)%Z -> valid_optype optype ->
  yields (Rounded.aBM_payoff fl S0 K lnu lnd Ntree optype) (fun _ Pmat =>
    shape Pmat (Z.to_nat Ntree + 1) (Z.to_nat Ntree + 1) /\
    forall i c, in_triangle (Z.to_nat Ntree) i c = true ->
      get Pmat i c =
      RoundedSpec.aBM_payoff_at fl S0 K lnu lnd optype c (Z.to_nat Ntree - i)).
Proof.
  intros HN Ho. unfold Rounded.aBM_payoff.
  set (n := Z.to_nat Ntree).
  eapply yields_bind; [apply rounded_aBM_prices_run; exact HN |].
  intros tr P (Hs & Hget). fold n in Hs, Hget. cbn beta.
  assert (shape (mmap (fmul fl K) (np_fliplr (np_tri (n + 1)))) (n + 1) (n + 1))
    as HsK by apply shape_mmap, shape_tri.
  rewrite (rounded_np_sub2_ok fl _ _ (n + 1) (n + 1) Hs HsK), ret_bind.
  rewrite payoff_by_optype_valid by exact Ho.
  apply yields_ret. split.
  - apply shape_mmap. now apply shape_zip_with.
  - intros i c Ht. pose proof Ht as Ht'. apply in_triangle_true in Ht'.
    rewrite (get_in_shape_mmap _ _ (n + 1) (n + 1));
      [| now apply shape_zip_with | lia | lia].
    rewrite (get_in_shape_zip_with _ _ _ (n + 1) (n + 1)) by (auto; lia).
    rewrite (get_in_shape_mmap _ _ (n + 1) (n + 1)) by (auto using shape_tri; lia).
    rewrite Hget, get_tri by exact Ht.
    unfold RoundedSpec.aBM_payoff_at.
    replace (c - (n - i))%nat with (i + c - n)%nat by lia.
    reflexivity.
Qed.

Lemma rounded_aBM_Amer_run_exmat (fl : arithmetic)
    (S0 K r sigma T : R) (Ntree : Z) (optype : string) (m : mode_name)
    (u d p : R) :
  (1 <= Ntree)%Z -> 0 < r -> 0 < sigma -> valid_optype optype ->
  Rounded.call_mode fl m r sigma T Ntree = ret [u; d; p] ->
  exists tr0 Ex V,
    Rounded.aBM_Amer fl S0 K r sigma T Ntree optype (Some m) true
    = (tr0 ++ [EvMatshow Ex; EvTitle "Early exercise"], inr V) /\
    forall i j, (i < Z.to_nat Ntree)%nat -> (j <= i)%nat ->
      node (Z.to_nat Ntree) Ex i j =
      exercise_flag
        (fsub fl
           (RoundedSpec.BM_continuation_at fl
              (fexp fl (fmul fl (- r) (fdiv fl T (fint fl Ntree)))) p
              (Z.to_nat Ntree) V i j)
           (RoundedSpec.aBM_payoff_at fl S0 K (fln fl u) (fln fl d) optype i j)).
Proof.
  intros HN Hr Hsig Ho Em.
  set (n := Z.to_nat Ntree).
  set (dfact := fexp fl (fmul fl (- r) (fdiv fl T (fint fl Ntree)))).
  unfold Rounded.aBM_Amer.
  rewrite (rounded_aBM_params_ok fl m r sigma T Ntree u d p) by (auto; lia).
  rewrite ret_bind. cbn [bm_dfact bm_p bm_lnu bm_lnd]. fold dfact.
  destruct (rounded_aBM_payoff_run fl S0 K (fln fl u) (fln fl d) Ntree optype HN Ho)
    as (trP & Pmat & -> & HsP & HgetP). fold n in HsP, HgetP.
  assert (Z.to_nat (Ntree + 1) = (n + 1)%nat) as Hn1 by (unfold n; lia).
  destruct (terminal_values_run (Ntree + 1) (Ntree + 1) Pmat)
    as (trV & V0 & EV & _ & HsV0 & HgetV0);
    [lia | lia | now rewrite Hn1 |].
  rewrite Hn1 in HsV0, HgetV0.
  destruct (exmat_loop (n + 1) (n + 1) n (BM_lo n) (BM_hi n)
              (RoundedSpec.BM_rule_euro fl dfact p)
              (fun m t V => Rounded.BM_continuation fl dfact p n m t V)
              (fun m _ => (m + 1)%nat) (fun _ _ X => nrows X) (fsub fl) Pmat)
    with (V0 := V0) (E0 := repeat (repeat 0 (n + 1)%nat) (n + 1)%nat)
    as (trL & [V Ex] & EL & HinvV & HinvE); try assumption.
  { intros k V Hk Hs.
    destruct (rounded_BM_continuation_run fl dfact p n k (n - 1 - k) V Hs)
      as (C & E & HL & HC); [lia |].
    exists C. split; [exact E |]. unfold BM_lo, BM_hi. split; [lia |].
    intros j Hj. apply HC. lia. }
  { intros k Hk. unfold BM_lo. lia. }
  { intros k X Hk HX. unfold BM_hi, nrows. now rewrite (proj1 HX). }
  { lia. }
  { intros t Ht. unfold BM_lo, BM_hi. lia. }
  { apply shape_zeros. }
  cbn [fst snd] in HinvV, HinvE.
  match goal with |- exists tr0 Ex V, ?c = _ /\ _ =>
    assert (exists tr, c = (tr, inr V) /\
              tr = (trP ++ trV ++ [EvAlloc [(n + 1)%nat; (n + 1)%nat]] ++ trL)
                   ++ [EvMatshow Ex; EvTitle "Early exercise"]) as (tr & E & ->)
  end.
  { eexists. split.
    { eapply bind_value; [reflexivity |].
      eapply bind_value; [exact EV |].
      cbn [negb]. cbv iota.
      eapply bind_value; [| reflexivity].
      eapply bind_value; [apply np_zeros2_ok; lia |]. rewrite Hn1.
      eapply bind_value; [exact EL |]. reflexivity. }
    rewrite Hn1, app_nil_r. repeat rewrite <- app_assoc. reflexivity. }
  exists (trP ++ trV ++ [EvAlloc [(n + 1)%nat; (n + 1)%nat]] ++ trL), Ex, V.
  split; [exact E |].
  intros i j Hi Hj. destruct HinvE as (_ & _ & Hin). unfold node.
  rewrite Hin by (unfold in_lattice, BM_lo, BM_hi; lia).
  unfold recurrence, rule_flag, RoundedSpec.BM_rule_euro,
    RoundedSpec.BM_continuation_at, node.
  rewrite HgetP by (apply in_triangle_true; lia).
  replace (n - j - 1)%nat with (n - (j + 1))%nat by lia.
  replace (n - (n - j))%nat with j by lia. reflexivity.
Qed.

(** X26.  With [exmat = True] and accepted parameters, [aBM_Amer] shows an
    early-exercise matrix whose flag at every interior node is set by the
    test [(C - I) < 0] on the rounded difference of [C], the discounted
    expectation of the two successors that the code computes with the
    probability returned by [mode], and [I], the payoff that the code
    computed for the node.  The values are the computed ones and the
    statement holds for every rounding of the arithmetic operations.  Where
    the sign of a rounded difference is the sign of the exact difference, as
    in IEEE 754, the flag is true exactly when [C] is strictly less than
    [I]. *)
Theorem X26_aBM_exercise_flags (fl : arithmetic)
    (S0 K r sigma T : R) (Ntree : Z) (optype : string) (m : mode_name) :
  0 < r -> 0 < sigma -> (1 <= Ntree)%Z -> valid_optype optype ->
  exists u d p tr0 Ex V,
    outcome (Rounded.call_mode fl m r sigma T Ntree) = inr [u; d; p] /\
    Rounded.aBM_Amer fl S0 K r sigma T Ntree optype (Some m) true
    = (tr0 ++ [EvMatshow Ex; EvTitle "Early exercise"], inr V) /\
    RoundedSpec.aBM_stored_flags_spec fl S0 K u d
      (fexp fl (fmul fl (- r) (fdiv fl T (fint fl Ntree)))) p
      (Z.to_nat Ntree) optype V Ex /\
    (sign_exact fl ->
     RoundedSpec.aBM_exercise_flags_spec fl S0 K u d
       (fexp fl (fmul fl (- r) (fdiv fl T (fint fl Ntree)))) p
       (Z.to_nat Ntree) optype V Ex).
Proof.
  intros Hr Hs HN Ho.
  destruct (rounded_call_mode_returns fl m r sigma T Ntree) as (u & d & p & Em);
    [lia |].
  destruct (rounded_aBM_Amer_run_exmat fl S0 K r sigma T Ntree optype m u d p
              HN Hr Hs Ho Em) as (tr0 & Ex & V & E & Hflag).
  exists u, d, p, tr0, Ex, V.
  split; [now rewrite Em |]. split; [exact E |]. split.
  - intros i j Hi Hj. rewrite Hflag by assumption.
    apply rounded_flag_stored.
  - intros Hfl i j Hi Hj. rewrite Hflag by assumption.
    now apply rounded_flag_correct.
Qed.

Lemma X26_witness :
  0 < 0.06 /\ 0 < 0.2 /\ (1 <= 3)%Z /\ valid_optype "put" /\
  sign_exact exact_arithmetic /\
  exists u d p tr0 Ex V,
    outcome (Rounded.call_mode exact_arithmetic mode_TRG 0.06 0.2 1 3)
    = inr [u; d; p] /\
    Rounded.aBM_Amer exact_arithmetic 100 100 0.06 0.2 1 3 "put" (Some mode_TRG) true
    = (tr0 ++ [EvMatshow Ex; EvTitle "Early exercise"], inr V) /\
    RoundedSpec.aBM_stored_flags_spec exact_arithmetic 100 100 u d
      (fexp exact_arithmetic (fmul exact_arithmetic (- (0.06))
         (fdiv exact_arithmetic 1 (fint exact_arithmetic 3)))) p
      (Z.to_nat 3) "put" V Ex /\
    RoundedSpec.aBM_exercise_flags_spec exact_arithmetic 100 100 u d
      (fexp exact_arithmetic (fmul exact_arithmetic (- (0.06))
         (fdiv exact_arithmetic 1 (fint exact_arithmetic 3)))) p
      (Z.to_nat 3) "put" V Ex.
Proof.
  assert (0 < 0.06) as H1 by lra.
  assert (0 < 0.2) as H2 by lra.
  assert (1 <= 3)%Z as H3 by lia.
  assert (valid_optype "put") as H4 by (right; reflexivity).
  pose proof sign_exact_exact as H5.
  split; [exact H1 |]. split; [exact H2 |]. split; [exact H3 |].
  split; [exact H4 |]. split; [exact H5 |].
  destruct (X26_aBM_exercise_flags exact_arithmetic 100 100 0.06 0.2 1 3 "put"
              mode_TRG H1 H2 H3 H4) as (u & d & p & tr0 & Ex & V & Eo & E & Hst & Hex).
  exists u, d, p, tr0, Ex, V.
  split; [exact Eo |]. split; [exact E |]. split; [exact Hst | exact (Hex H5)].
Defined.
